(** * Envelope: a shallow embedding of Audacity's [Envelope.cpp]

    The envelope is a piecewise linear (or logarithmic) curve given by a
    sequence of control points.  This development embeds the point
    sequence and the operations of [src/Envelope.cpp] that mutate and
    query it, and states the properties of the specification over them.

    Numbers.  The C++ [double] is modelled by the rationals [Q]: the
    comparisons, [std::max]/[std::min] and the field operations are the
    exact ones, so rounding, infinities and NaN are outside the model.
    The C++ [==] on doubles is [Qeq_bool].  A theorem that relates a
    result by Leibniz equality to a stored value or to an expression says
    that the code copies that value or evaluates that expression; a
    theorem that relates two numbers by [==] says that they are equal in
    exact arithmetic, where the doubles of the code may differ by
    rounding.  Division by zero is [Qdiv]'s [0]; no theorem below rests
    on it.

    Integers.  [int] and [size_t] indices are [nat] where the code counts
    from [0] and [Z] where it uses the sentinel [-1]; they are unbounded,
    so the overflow of [++mSearchGuess] at [INT_MAX] is outside the
    model. *)

From Stdlib Require Import QArith Qabs ZArith List Bool Lia Lqa Sorting.Sorted.
Import ListNotations.
Local Open Scope Q_scope.

(** ** Comparisons on doubles *)

Definition Qltb (x y : Q) : bool := (Qnum x * QDen y <? Qnum y * QDen x)%Z.
Definition Qleb (x y : Q) : bool := Qle_bool x y.
Definition Qeqb (x y : Q) : bool := Qeq_bool x y.

(** [std::max(a, b)] is [(a < b) ? b : a]; [std::min(a, b)] is
    [(b < a) ? b : a]. *)
Definition std_max (a b : Q) : Q := if Qltb a b then b else a.
Definition std_min (a b : Q) : Q := if Qltb b a then b else a.

(** ** EnvPoint *)

Record EnvPoint : Type := mkEnvPoint { GetT : Q; GetVal : Q }.

Definition SetT (p : EnvPoint) (t : Q) : EnvPoint := mkEnvPoint t (GetVal p).

(** ** Envelope *)

Record Envelope : Type := mkEnvelope {
  mDB : bool;               (* logarithmic interpolation *)
  mMinValue : Q;
  mMaxValue : Q;
  mDefaultValue : Q;
  mEnv : list EnvPoint;
  mOffset : Q;
  mTrackLen : Q;
  mTrackEpsilon : Q;
  mDragPoint : Z;           (* -1 when no point is engaged *)
  mDragPointValid : bool;
  mSearchGuess : Z          (* mutable cache of BinarySearchForTime *)
}.

Definition with_mEnv (e : Envelope) (l : list EnvPoint) : Envelope :=
  mkEnvelope (mDB e) (mMinValue e) (mMaxValue e) (mDefaultValue e) l
             (mOffset e) (mTrackLen e) (mTrackEpsilon e)
             (mDragPoint e) (mDragPointValid e) (mSearchGuess e).

Definition with_mDefaultValue (e : Envelope) (v : Q) : Envelope :=
  mkEnvelope (mDB e) (mMinValue e) (mMaxValue e) v (mEnv e)
             (mOffset e) (mTrackLen e) (mTrackEpsilon e)
             (mDragPoint e) (mDragPointValid e) (mSearchGuess e).

Definition with_range (e : Envelope) (lo hi : Q) : Envelope :=
  mkEnvelope (mDB e) lo hi (mDefaultValue e) (mEnv e)
             (mOffset e) (mTrackLen e) (mTrackEpsilon e)
             (mDragPoint e) (mDragPointValid e) (mSearchGuess e).

Definition with_mTrackLen (e : Envelope) (len : Q) : Envelope :=
  mkEnvelope (mDB e) (mMinValue e) (mMaxValue e) (mDefaultValue e) (mEnv e)
             (mOffset e) len (mTrackEpsilon e)
             (mDragPoint e) (mDragPointValid e) (mSearchGuess e).

Definition with_drag (e : Envelope) (d : Z) (valid : bool) : Envelope :=
  mkEnvelope (mDB e) (mMinValue e) (mMaxValue e) (mDefaultValue e) (mEnv e)
             (mOffset e) (mTrackLen e) (mTrackEpsilon e)
             d valid (mSearchGuess e).

Definition with_mSearchGuess (e : Envelope) (g : Z) : Envelope :=
  mkEnvelope (mDB e) (mMinValue e) (mMaxValue e) (mDefaultValue e) (mEnv e)
             (mOffset e) (mTrackLen e) (mTrackEpsilon e)
             (mDragPoint e) (mDragPointValid e) g.

(** Modelled from the spec: [Envelope::ClampValue] and [EnvPoint::SetVal]
    are declared in [Envelope.h], which is not among the sources.  The
    spec says values are clamped to [valueRange]; [SetRange] in the source
    says of [SetVal(this, v)] that it clamps the value to the range.
    The constructor [EnvPoint{t, val}] receives no envelope and stores
    both coordinates as they are. *)
Definition ClampValue (e : Envelope) (value : Q) : Q :=
  std_max (mMinValue e) (std_min (mMaxValue e) value).

Definition SetVal (e : Envelope) (p : EnvPoint) (val : Q) : EnvPoint :=
  mkEnvPoint (GetT p) (ClampValue e val).

(** ** Access to the point vector *)

(** [mEnv[i]]: reading outside the vector is undefined in the source;
    the model returns the origin there, and every theorem below reads
    inside the vector. *)
Definition origin : EnvPoint := mkEnvPoint 0 0.
Definition at_ (l : list EnvPoint) (i : nat) : EnvPoint := nth i l origin.
Definition atZ (l : list EnvPoint) (i : Z) : EnvPoint := at_ l (Z.to_nat i).

(** [mEnv[i] = f(mEnv[i])]; outside the vector nothing is written. *)
Fixpoint update (l : list EnvPoint) (i : nat) (f : EnvPoint -> EnvPoint)
  : list EnvPoint :=
  match l, i with
  | [], _ => []
  | p :: l', O => f p :: l'
  | p :: l', S i' => p :: update l' i' f
  end.

(** [Envelope::Delete]: [mEnv.erase(mEnv.begin() + point)]. *)
Definition erase (l : list EnvPoint) (point : nat) : list EnvPoint :=
  firstn point l ++ skipn (S point) l.

Definition Delete (e : Envelope) (point : nat) : Envelope :=
  with_mEnv e (erase (mEnv e) point).

(** [Envelope::Insert]: [mEnv.insert(mEnv.begin() + point, p)]. *)
Definition Insert (e : Envelope) (point : nat) (p : EnvPoint) : Envelope :=
  with_mEnv e (firstn point (mEnv e) ++ p :: skipn point (mEnv e)).

Definition push_back (e : Envelope) (p : EnvPoint) : Envelope :=
  with_mEnv e (mEnv e ++ [p]).

(** ** InsertOrReplaceRelative and Reassign *)

(** [while (i < len && when > mEnv[i].GetT()) i++], started at [i]. *)
Fixpoint scan_past (when : Q) (l : list EnvPoint) (i : nat) : nat :=
  match l with
  | [] => i
  | p :: l' => if Qltb (GetT p) when then scan_past when l' (S i) else i
  end.

Definition InsertOrReplaceRelative (e : Envelope) (when value : Q)
  : Z * Envelope :=
  let len := length (mEnv e) in
  if negb (len =? 0)%nat && Qltb when 0 then (0%Z, e)
  else if (1 <? len)%nat && Qltb (mTrackLen e) when
  then ((Z.of_nat len - 1)%Z, e)
  else
    let when := if Qltb when 0 then 0 else when in
    let when := if (1 <? len)%nat && Qltb (mTrackLen e) when
                then mTrackLen e else when in
    let i := scan_past when (mEnv e) 0 in
    if (i <? len)%nat && Qeqb when (GetT (at_ (mEnv e) i))
    then (Z.of_nat i, with_mEnv e (update (mEnv e) i (fun p => SetVal e p value)))
    else
      let p := mkEnvPoint when value in
      if (i <? len)%nat then (Z.of_nat i, Insert e i p)
      else (Z.of_nat i, push_back e p).

Definition Reassign (e : Envelope) (when value : Q) : Z * Envelope :=
  let when := when - mOffset e in
  let len := length (mEnv e) in
  if (len =? 0)%nat then ((-1)%Z, e)
  else
    let i := scan_past when (mEnv e) 0 in
    if (len <=? i)%nat || Qltb when (GetT (at_ (mEnv e) i))
    then ((-1)%Z, e)
    else (0%Z, with_mEnv e (update (mEnv e) i (fun p => SetVal e p value))).

(** ** Range and default value *)

Definition SetAllVals (e : Envelope) (f : Q -> Q) : Envelope :=
  with_mEnv e (map (fun p => SetVal e p (f (GetVal p))) (mEnv e)).

Definition Flatten (e : Envelope) (value : Q) : Envelope :=
  let e := with_mEnv e [] in
  with_mDefaultValue e (ClampValue e value).

Definition SetRange (e : Envelope) (minValue maxValue : Q) : Envelope :=
  let e := with_range e minValue maxValue in
  let e := with_mDefaultValue e (ClampValue e (mDefaultValue e)) in
  SetAllVals e (fun v => v).

(** The code divides by [oldMaxValue - oldMinValue]; what it stores when
    the old bounds are equal is outside the model. *)
Definition RescaleValues (e : Envelope) (minValue maxValue : Q) : Envelope :=
  let oldMinValue := mMinValue e in
  let oldMaxValue := mMaxValue e in
  let e := with_range e minValue maxValue in
  let factor := (mDefaultValue e - oldMinValue) / (oldMaxValue - oldMinValue) in
  let e := with_mDefaultValue e
             (ClampValue e (mMinValue e + (mMaxValue e - mMinValue e) * factor)) in
  SetAllVals e (fun v =>
    let factor := (v - oldMinValue) / (oldMaxValue - oldMinValue) in
    mMinValue e + (mMaxValue e - mMinValue e) * factor).

(** ** The drag gesture *)

(** [std::numeric_limits<double>::max()].  The code stores it as a time
    and compares with it; a sum or product with it, which overflows in
    the code, is outside the model. *)
Definition big : Q := inject_Z (2 ^ 1024 - 2 ^ 971).

Definition SetDragPoint (e : Envelope) (dragPoint : Z) : Envelope :=
  let d := Z.max (-1) (Z.min (Z.of_nat (length (mEnv e)) - 1) dragPoint) in
  with_drag e d (0 <=? d)%Z.

Definition SetDragPointValid (e : Envelope) (valid : bool) : Envelope :=
  let e := with_drag e (mDragPoint e) (valid && (0 <=? mDragPoint e)%Z) in
  if (0 <=? mDragPoint e)%Z && negb valid then
    let size := length (mEnv e) in
    let d := Z.to_nat (mDragPoint e) in
    if (size <=? 1)%nat then
      with_mEnv e (update (mEnv e) d
                     (fun p => SetVal e (SetT p big) (mDefaultValue e)))
    else if (d + 1 =? size)%nat then
      with_mEnv e (update (mEnv e) d
                     (fun p => SetVal e (SetT p big)
                                 (GetVal (at_ (mEnv e) (size - 1)))))
    else
      let neighbor := at_ (mEnv e) (d + 1) in
      with_mEnv e (update (mEnv e) d
                     (fun p => SetVal e (SetT p (GetT neighbor)) (GetVal neighbor)))
  else e.

(** The time [MoveDragPoint] gives the dragged point. *)
Definition drag_limitLo (e : Envelope) : Q :=
  if (0 <? mDragPoint e)%Z
  then std_max 0 (GetT (atZ (mEnv e) (mDragPoint e - 1)))
  else 0.

Definition drag_limitHi (e : Envelope) : Q :=
  if (mDragPoint e + 1 <? Z.of_nat (length (mEnv e)))%Z
  then std_min (mTrackLen e) (GetT (atZ (mEnv e) (mDragPoint e + 1)))
  else mTrackLen e.

Definition MoveDragPoint (e : Envelope) (newWhen value : Q) : Envelope :=
  let e := SetDragPointValid e true in
  if negb (mDragPointValid e) then e
  else
    let limitLo := drag_limitLo e in
    let limitHi := drag_limitHi e in
    let tt := std_max limitLo (std_min limitHi newWhen) in
    with_mEnv e (update (mEnv e) (Z.to_nat (mDragPoint e))
                   (fun p => SetVal e (SetT p tt) value)).

Definition ClearDragPoint (e : Envelope) : Envelope :=
  let e := if negb (mDragPointValid e) && (0 <=? mDragPoint e)%Z
           then Delete e (Z.to_nat (mDragPoint e)) else e in
  with_drag e (-1) false.

(** ** AddPointAtEnd, EqualRange *)

(** [while (nn >= 2 && mEnv[nn - 2].GetT() == t) { erase(nn - 1); --nn; }] *)
Fixpoint AddPointAtEnd_loop (nn : nat) (l : list EnvPoint) (t : Q)
  : list EnvPoint :=
  match nn with
  | S (S m as k) =>
      if Qeqb (GetT (at_ l m)) t
      then AddPointAtEnd_loop k (erase l k) t
      else l
  | _ => l
  end.

Definition AddPointAtEnd (e : Envelope) (t val : Q) : Envelope :=
  let e := push_back e (mkEnvPoint t val) in
  let nn := (length (mEnv e) - 1)%nat in
  with_mEnv e (AddPointAtEnd_loop nn (mEnv e) t).

(** [std::lower_bound] with the comparison of times: the standard defines
    its result as the furthermost position such that every earlier
    element compares less than the key, which is what [scan_past] counts. *)
Definition lower_bound (l : list EnvPoint) (key : Q) : nat := scan_past key l 0.

(** [while (after != end && after->GetT() <= bound) ++after], from [after]. *)
Fixpoint scan_upto (bound : Q) (l : list EnvPoint) (after : nat) : nat :=
  match l with
  | [] => after
  | p :: l' => if Qleb (GetT p) bound then scan_upto bound l' (S after) else after
  end.

Definition EqualRange (e : Envelope) (when sampleTime : Q) : nat * nat :=
  let tolerance := sampleTime / 2 in
  let first := lower_bound (mEnv e) (when - tolerance) in
  let after := scan_upto (when + tolerance) (skipn first (mEnv e)) first in
  (first, after).

(** [std::vector::resize]. *)
Definition resize (l : list EnvPoint) (n : nat) : list EnvPoint :=
  firstn n l ++ repeat origin (n - length l).

(** ** BinarySearchForTime *)

(** The test made on the cached guess. *)
Definition guess_hits (l : list EnvPoint) (g : Z) (t : Q) : bool :=
  (0 <=? g)%Z && (g <? Z.of_nat (length l))%Z &&
  (Qleb (GetT (atZ l g)) t &&
   ((1 + g =? Z.of_nat (length l))%Z || Qltb t (GetT (atZ l (1 + g))))).

(** [while (Hi > Lo + 1)]: every turn brings [Lo] and [Hi] closer, so
    [Hi - Lo] turns are enough. *)
Fixpoint bisect (fuel : nat) (l : list EnvPoint) (t : Q) (Lo Hi : Z) : Z * Z :=
  match fuel with
  | O => (Lo, Hi)
  | S fuel' =>
      if (Lo + 1 <? Hi)%Z then
        let mid := ((Lo + Hi) ÷ 2)%Z in
        if Qltb t (GetT (atZ l mid))
        then bisect fuel' l t Lo mid
        else bisect fuel' l t mid Hi
      else (Lo, Hi)
  end.

(** Returns [Lo], [Hi] and the new value of [mSearchGuess]. *)
Definition BinarySearchForTime (l : list EnvPoint) (guess : Z) (t : Q)
  : Z * Z * Z :=
  if guess_hits l guess t then (guess, 1 + guess, guess)%Z
  else
    let guess := (guess + 1)%Z in
    if guess_hits l guess t then (guess, 1 + guess, guess)%Z
    else
      let '(Lo, Hi) := bisect (S (length l)) l t (-1) (Z.of_nat (length l)) in
      (Lo, Hi, Lo).

(** [NextPointAfter], [NumberOfPointsAfter]: the result, as the cache is
    the only other thing they change. *)
Definition NumberOfPointsAfter (e : Envelope) (t : Q) : Z :=
  let '(lo, hi, _) := BinarySearchForTime (mEnv e) (mSearchGuess e) t in
  (Z.of_nat (length (mEnv e)) - hi)%Z.

Definition NextPointAfter (e : Envelope) (t : Q) : Q :=
  let '(lo, hi, _) := BinarySearchForTime (mEnv e) (mSearchGuess e) t in
  if (Z.of_nat (length (mEnv e)) <=? hi)%Z then t
  else GetT (atZ (mEnv e) hi).

(** ** Evaluation and integration

    [log10], [pow(10.0, x)], [log] and [exp] of the C library have no
    rational counterpart; the embedding takes them as parameters. *)

Section Evaluation.

Variable log10 : Q -> Q.
Variable pow10 : Q -> Q.
Variable log : Q -> Q.
Variable exp : Q -> Q.

Definition GetInterpolationStartValueAtPoint (e : Envelope) (iPoint : Z) : Q :=
  let v := GetVal (atZ (mEnv e) iPoint) in
  if negb (mDB e) then v else log10 v.

(** The locals of [GetValuesRelative] that live across loop turns,
    together with the search cache. *)
Record scan_state : Type := mkScan {
  sc_t : Q;
  sc_tnext : Q;
  sc_vstep : Q;
  sc_guess : Z
}.

Definition advance (s : scan_state) (tstep : Q) : scan_state :=
  mkScan (sc_t s + tstep) (sc_tnext s) (sc_vstep s) (sc_guess s).

(** One turn of the loop over [b]: the value stored in [buffer[b]] and the
    state after [t += tstep].  [prev] is [buffer[b - 1]]. *)
Definition GetValuesRelative_turn (e : Envelope) (tstep : Q) (b : nat)
  (prev : Q) (s : scan_state) : Q * scan_state :=
  let len := length (mEnv e) in
  let t := sc_t s in
  if (len <=? 0)%nat then (mDefaultValue e, advance s tstep)
  else if Qleb t (GetT (at_ (mEnv e) 0))
  then (GetVal (at_ (mEnv e) 0), advance s tstep)
  else if Qleb (GetT (at_ (mEnv e) (len - 1))) t
  then (GetVal (at_ (mEnv e) (len - 1)), advance s tstep)
  else if (b =? 0)%nat || Qltb (sc_tnext s) t then
    let '(lo, hi, guess) := BinarySearchForTime (mEnv e) (sc_guess s) t in
    let tprev := GetT (atZ (mEnv e) lo) in
    let tnext := GetT (atZ (mEnv e) hi) in
    let vprev := GetInterpolationStartValueAtPoint e lo in
    let vnext := GetInterpolationStartValueAtPoint e hi in
    let dt := tnext - tprev in
    let to := t - tprev in
    let '(v, vstep) :=
      if Qltb 0 dt
      then ((vprev * (dt - to) + vnext * to) / dt, (vnext - vprev) * tstep / dt)
      else (vnext, 0) in
    let '(v, vstep) := if mDB e then (pow10 v, pow10 vstep) else (v, vstep) in
    (v, mkScan (t + tstep) tnext vstep guess)
  else
    ((if mDB e then prev * sc_vstep s else prev + sc_vstep s), advance s tstep).

Fixpoint GetValuesRelative_loop (e : Envelope) (tstep : Q) (n b : nat)
  (prev : Q) (s : scan_state) : list Q * Z :=
  match n with
  | O => ([], sc_guess s)
  | S n' =>
      let '(v, s') := GetValuesRelative_turn e tstep b prev s in
      let '(rest, g) := GetValuesRelative_loop e tstep n' (S b) v s' in
      (v :: rest, g)
  end.

(** The filled buffer and the new value of [mSearchGuess]. *)
Definition GetValuesRelative (e : Envelope) (bufferLen : nat) (t0 tstep : Q)
  : list Q * Z :=
  GetValuesRelative_loop e tstep bufferLen 0 0
    (mkScan t0 0 0 (mSearchGuess e)).

Definition GetValues (e : Envelope) (bufferLen : nat) (t0 tstep : Q)
  : list Q * Z :=
  GetValuesRelative e bufferLen (t0 - mOffset e) tstep.

Definition GetValueRelative (e : Envelope) (t : Q) : Q :=
  nth 0 (fst (GetValuesRelative e 1 t 1)) 0.

Definition GetValue (e : Envelope) (t : Q) : Q :=
  nth 0 (fst (GetValues e 1 t 1)) 0.

(** [SetTrackLen]; the cache is updated by the evaluation it makes. *)
Definition SetTrackLen (e : Envelope) (trackLen : Q) : Envelope :=
  let needPoint := Qltb trackLen (mTrackLen e) in
  let value := GetValueRelative e trackLen in
  let e := if needPoint
           then with_mSearchGuess e (snd (GetValuesRelative e 1 trackLen 1))
           else e in
  let e := with_mTrackLen e trackLen in
  let newLen := snd (EqualRange e trackLen 0) in
  let e := with_mEnv e (resize (mEnv e) newLen) in
  if needPoint then AddPointAtEnd e (mTrackLen e) value else e.

(** *** Integral *)

Definition InterpolatePoints (y1 y2 factor : Q) (logarithmic : bool) : Q :=
  if logarithmic
  then exp (log y1 * (1 - factor) + log y2 * factor)
  else y1 * (1 - factor) + y2 * factor.

Definition IntegrateInterpolated (y1 y2 time : Q) (logarithmic : bool) : Q :=
  if logarithmic then
    let l := log (y1 / y2) in
    if Qltb (Qabs l) (1 # 100000)
    then (y1 + y2) * (1 # 2) * time
    else (y1 - y2) / l * time
  else (y1 + y2) * (1 # 2) * time.

(** The [while (1)] loop of [Integral]; [n] is [count - i], so it is [0]
    exactly when [i >= count]. *)
Fixpoint Integral_loop (e : Envelope) (t1 : Q) (n i : nat)
  (total lastT lastVal : Q) : Q :=
  match n with
  | O => total + (t1 - lastT) * lastVal
  | S n' =>
      let p := at_ (mEnv e) i in
      if Qleb t1 (GetT p) then
        let q := at_ (mEnv e) (i - 1) in
        let thisVal :=
          InterpolatePoints (GetVal q) (GetVal p)
            ((t1 - GetT q) / (GetT p - GetT q)) (mDB e) in
        total + IntegrateInterpolated lastVal thisVal (t1 - lastT) (mDB e)
      else
        Integral_loop e t1 n' (S i)
          (total + IntegrateInterpolated lastVal (GetVal p) (GetT p - lastT) (mDB e))
          (GetT p) (GetVal p)
  end.

(** [Integral] once [t0 < t1] is known. *)
Definition Integral_ordered (e : Envelope) (t0 t1 : Q) : Q :=
  let count := length (mEnv e) in
  if (count =? 0)%nat then (t1 - t0) * mDefaultValue e
  else
    let t0 := t0 - mOffset e in
    let t1 := t1 - mOffset e in
    let first := at_ (mEnv e) 0 in
    let last := at_ (mEnv e) (count - 1) in
    if Qltb t0 (GetT first) then
      if Qleb t1 (GetT first) then (t1 - t0) * GetVal first
      else
        Integral_loop e t1 (count - 1) 1
          (0 + (GetT first - t0) * GetVal first) (GetT first) (GetVal first)
    else if Qleb (GetT last) t0 then (t1 - t0) * GetVal last
    else
      let '(lo, hi, _) := BinarySearchForTime (mEnv e) (mSearchGuess e) t0 in
      let plo := atZ (mEnv e) lo in
      let phi := atZ (mEnv e) hi in
      let lastVal :=
        InterpolatePoints (GetVal plo) (GetVal phi)
          ((t0 - GetT plo) / (GetT phi - GetT plo)) (mDB e) in
      Integral_loop e t1 (count - Z.to_nat hi) (Z.to_nat hi) 0 t0 lastVal.

(** [Integral]: the call on swapped arguments passes both tests and runs
    the ordered body, so the recursion is one level deep. *)
Definition Integral (e : Envelope) (t0 t1 : Q) : Q :=
  if Qeqb t0 t1 then 0
  else if Qltb t1 t0 then - Integral_ordered e t1 t0
  else Integral_ordered e t0 t1.

(** *** IntegralOfInverse *)

Definition IntegrateInverseInterpolated (y1 y2 time : Q) (logarithmic : bool)
  : Q :=
  let l := log (y1 / y2) in
  if Qltb (Qabs l) (1 # 100000)
  then 2 / (y1 + y2) * time
  else if logarithmic
       then (y1 - y2) / (l * y1 * y2) * time
       else l / (y1 - y2) * time.

Fixpoint IntegralOfInverse_loop (e : Envelope) (t1 : Q) (n i : nat)
  (total lastT lastVal : Q) : Q :=
  match n with
  | O => total + (t1 - lastT) / lastVal
  | S n' =>
      let p := at_ (mEnv e) i in
      if Qleb t1 (GetT p) then
        let q := at_ (mEnv e) (i - 1) in
        let thisVal :=
          InterpolatePoints (GetVal q) (GetVal p)
            ((t1 - GetT q) / (GetT p - GetT q)) (mDB e) in
        total + IntegrateInverseInterpolated lastVal thisVal (t1 - lastT) (mDB e)
      else
        IntegralOfInverse_loop e t1 n' (S i)
          (total + IntegrateInverseInterpolated lastVal (GetVal p)
                     (GetT p - lastT) (mDB e))
          (GetT p) (GetVal p)
  end.

Definition IntegralOfInverse_ordered (e : Envelope) (t0 t1 : Q) : Q :=
  let count := length (mEnv e) in
  if (count =? 0)%nat then (t1 - t0) / mDefaultValue e
  else
    let t0 := t0 - mOffset e in
    let t1 := t1 - mOffset e in
    let first := at_ (mEnv e) 0 in
    let last := at_ (mEnv e) (count - 1) in
    if Qltb t0 (GetT first) then
      if Qleb t1 (GetT first) then (t1 - t0) / GetVal first
      else
        IntegralOfInverse_loop e t1 (count - 1) 1
          (0 + (GetT first - t0) / GetVal first) (GetT first) (GetVal first)
    else if Qleb (GetT last) t0 then (t1 - t0) / GetVal last
    else
      let '(lo, hi, _) := BinarySearchForTime (mEnv e) (mSearchGuess e) t0 in
      let plo := atZ (mEnv e) lo in
      let phi := atZ (mEnv e) hi in
      let lastVal :=
        InterpolatePoints (GetVal plo) (GetVal phi)
          ((t0 - GetT plo) / (GetT phi - GetT plo)) (mDB e) in
      IntegralOfInverse_loop e t1 (count - Z.to_nat hi) (Z.to_nat hi) 0 t0 lastVal.

Definition IntegralOfInverse (e : Envelope) (t0 t1 : Q) : Q :=
  if Qeqb t0 t1 then 0
  else if Qltb t1 t0 then - IntegralOfInverse_ordered e t1 t0
  else IntegralOfInverse_ordered e t0 t1.

End Evaluation.

(** ** Predicates of the specification *)

Definition before (p q : EnvPoint) : Prop := GetT p < GetT q.
Definition not_after (p q : EnvPoint) : Prop := GetT p <= GetT q.

(** Invariant 1 of the data model, on adjacent points. *)
Definition StrictlyAscending (l : list EnvPoint) : Prop := Sorted before l.

(** The order that [AddPointAtEnd] and [MoveDragPoint] keep. *)
Definition Ascending (l : list EnvPoint) : Prop := Sorted not_after l.

Definition has_point_at (l : list EnvPoint) (t : Q) : Prop :=
  exists p, In p l /\ GetT p == t.

Definition points_at (l : list EnvPoint) (t : Q) : list EnvPoint :=
  filter (fun p => Qeqb (GetT p) t) l.

Definition in_range (e : Envelope) (v : Q) : Prop :=
  mMinValue e <= v /\ v <= mMaxValue e.

(** Invariant 2 of the data model. *)
Definition values_in_range (e : Envelope) : Prop :=
  in_range e (mDefaultValue e) /\ Forall (fun p => in_range e (GetVal p)) (mEnv e).

(** The spec's "clamps [t] into [[0, spanLength]]". *)
Definition clamp_time (e : Envelope) (t : Q) : Q :=
  std_max 0 (std_min (mTrackLen e) t).

(** [InsertOrReplace] in the words of the spec: the time is clamped first;
    a point at the clamped time is overwritten and its index returned, the
    count unchanged; otherwise a point is inserted at the clamped time and
    its index returned. *)
Definition InsertOrReplace_as_specified (e : Envelope) (t value : Q) : Prop :=
  let t' := clamp_time e t in
  let r := InsertOrReplaceRelative e t value in
  exists i : nat,
    fst r = Z.of_nat i /\
    (has_point_at (mEnv e) t' ->
       length (mEnv (snd r)) = length (mEnv e) /\
       GetT (at_ (mEnv e) i) == t' /\
       GetVal (at_ (mEnv (snd r)) i) = ClampValue e value) /\
    (~ has_point_at (mEnv e) t' ->
       length (mEnv (snd r)) = S (length (mEnv e)) /\
       at_ (mEnv (snd r)) i = mkEnvPoint t' value).

(** ** Sample envelopes *)

(** A linear envelope over the span [[0, 10]] with values in [[0, 10]]. *)
Definition sample_envelope (l : list EnvPoint) : Envelope :=
  mkEnvelope false 0 10 0 l 0 10 (1 # 200000) (-1) false (-1).

Definition three_points : list EnvPoint :=
  [mkEnvPoint 0 1; mkEnvPoint 5 2; mkEnvPoint 10 3].

(** The envelope of [testMe]: a triangle over [[0, 10]]. *)
Definition triangle : list EnvPoint :=
  [mkEnvPoint 0 0; mkEnvPoint 5 1; mkEnvPoint 10 0].

(** ** The bracket of a time *)

(** [lo] is the last index at or before [t] and [hi] the first index after
    it, with the sentinels [-1] and the size at the ends. *)
Definition brackets (l : list EnvPoint) (t : Q) (lo hi : Z) : Prop :=
  (hi = lo + 1)%Z /\ (-1 <= lo < Z.of_nat (length l))%Z /\
  ((0 <= lo)%Z -> GetT (atZ l lo) <= t) /\
  ((hi < Z.of_nat (length l))%Z -> t < GetT (atZ l hi)).

(** Two states of the loop of [GetValuesRelative] that differ in the
    cached guess only. *)
Definition same_scan (s s' : scan_state) : Prop :=
  sc_t s = sc_t s' /\ sc_tnext s = sc_tnext s' /\ sc_vstep s = sc_vstep s'.

(** The spec's [lerp]. *)
Definition lerp (a b f : Q) : Q := a + (b - a) * f.

(** [Move] in the words of the spec: the new time lies strictly between
    the neighbours' times, so a strictly ascending vector stays so, and
    the new value is clamped to the range. *)
Definition Move_as_specified (e : Envelope) (newWhen value : Q) : Prop :=
  let i := Z.to_nat (mDragPoint e) in
  let e' := MoveDragPoint e newWhen value in
  let t' := GetT (at_ (mEnv e') i) in
  ((0 < i)%nat -> GetT (at_ (mEnv e) (i - 1)) < t') /\
  ((S i < length (mEnv e))%nat -> t' < GetT (at_ (mEnv e) (S i))) /\
  GetVal (at_ (mEnv e') i) = ClampValue e value /\
  (StrictlyAscending (mEnv e) -> StrictlyAscending (mEnv e')).

(** What [AddPointAtEnd] allows: no more than two points at one time, said
    of an ascending vector. *)
Definition AtMostTwice (l : list EnvPoint) : Prop :=
  forall j, (S (S j) < length l)%nat ->
    GetT (at_ l j) < GetT (at_ l (S (S j))).

(** ** The stepping of [GetValuesRelative] *)

(** The time of sample [k], as the loop accumulates it by [t += tstep]. *)
Fixpoint sample_time (t tstep : Q) (k : nat) : Q :=
  match k with
  | O => t
  | S k' => sample_time (t + tstep) tstep k'
  end.

(** [j] turns of the stepping branch from the value [v]:
    [buffer[b] = buffer[b - 1] * vstep] in Logarithmic mode,
    [buffer[b] = buffer[b - 1] + vstep] in Linear mode. *)
Fixpoint stepped (logarithmic : bool) (v vstep : Q) (j : nat) : Q :=
  match j with
  | O => v
  | S j' =>
      let prev := stepped logarithmic v vstep j' in
      if logarithmic then prev * vstep else prev + vstep
  end.

Section Stepping.

Variable log10 : Q -> Q.
Variable pow10 : Q -> Q.

(** What [GetValuesRelative] computes at [t] from the points [lo] and
    [lo + 1] when it looks a bracket up, and the step it then keeps. *)
Definition bracket_value (e : Envelope) (lo : nat) (t : Q) : Q :=
  let tprev := GetT (at_ (mEnv e) lo) in
  let tnext := GetT (at_ (mEnv e) (S lo)) in
  let vprev := GetInterpolationStartValueAtPoint log10 e (Z.of_nat lo) in
  let vnext := GetInterpolationStartValueAtPoint log10 e (Z.of_nat (S lo)) in
  let dt := tnext - tprev in
  let to := t - tprev in
  let v := (vprev * (dt - to) + vnext * to) / dt in
  if mDB e then pow10 v else v.

Definition bracket_step (e : Envelope) (lo : nat) (tstep : Q) : Q :=
  let tprev := GetT (at_ (mEnv e) lo) in
  let tnext := GetT (at_ (mEnv e) (S lo)) in
  let vprev := GetInterpolationStartValueAtPoint log10 e (Z.of_nat lo) in
  let vnext := GetInterpolationStartValueAtPoint log10 e (Z.of_nat (S lo)) in
  let dt := tnext - tprev in
  let vstep := (vnext - vprev) * tstep / dt in
  if mDB e then pow10 vstep else vstep.

(** The interpolated number of a bracket before [pow] is applied, and the
    increment per sample before [pow] is applied: [bracket_value] and
    [bracket_step] are these in Linear mode and [pow10] of these in
    Logarithmic mode. *)
Definition bracket_exponent (e : Envelope) (lo : nat) (t : Q) : Q :=
  let tprev := GetT (at_ (mEnv e) lo) in
  let tnext := GetT (at_ (mEnv e) (S lo)) in
  let vprev := GetInterpolationStartValueAtPoint log10 e (Z.of_nat lo) in
  let vnext := GetInterpolationStartValueAtPoint log10 e (Z.of_nat (S lo)) in
  let dt := tnext - tprev in
  let to := t - tprev in
  (vprev * (dt - to) + vnext * to) / dt.

Definition bracket_delta (e : Envelope) (lo : nat) (tstep : Q) : Q :=
  let tprev := GetT (at_ (mEnv e) lo) in
  let tnext := GetT (at_ (mEnv e) (S lo)) in
  let vprev := GetInterpolationStartValueAtPoint log10 e (Z.of_nat lo) in
  let vnext := GetInterpolationStartValueAtPoint log10 e (Z.of_nat (S lo)) in
  let dt := tnext - tprev in
  (vnext - vprev) * tstep / dt.

(** The time [t] lies after the first point and in the bracket that
    starts at [lo]. *)
Definition in_bracket (e : Envelope) (lo : nat) (t : Q) : Prop :=
  (S lo < length (mEnv e))%nat /\
  GetT (at_ (mEnv e) 0) < t /\
  GetT (at_ (mEnv e) lo) <= t /\ t < GetT (at_ (mEnv e) (S lo)).

(** Where the loop stands before a turn: no bracket looked up yet, inside
    the bracket starting at [lo], or past the last point. *)
Inductive scan_mode : Type :=
| Fresh
| Tracking (lo : nat)
| Done.

(** The loop before turn [b], started at the time [start]: in a bracket,
    [buffer[b - 1]] is [j] steps away from the value looked up at sample
    [b - 1 - j]. *)
Definition scan_inv (e : Envelope) (tstep start : Q) (m : scan_mode) (b : nat)
  (prev : Q) (s : scan_state) : Prop :=
  sc_t s = sample_time start tstep b /\
  match m with
  | Fresh => sc_tnext s == 0
  | Tracking lo =>
      (S lo < length (mEnv e))%nat /\
      sc_tnext s = GetT (at_ (mEnv e) (S lo)) /\
      sc_vstep s = bracket_step e lo tstep /\
      exists j, (j < b)%nat /\
        in_bracket e lo (sample_time start tstep (b - 1 - j)) /\
        prev = stepped (mDB e)
                 (GetValueRelative log10 pow10 e
                    (sample_time start tstep (b - 1 - j)))
                 (bracket_step e lo tstep) j
  | Done => mEnv e <> [] /\ GetT (at_ (mEnv e) (length (mEnv e) - 1)) <= sc_t s
  end.

(** What [GetValuesRelative], started at the time [start], stores at index
    [k]: the value of a single evaluation at the time of sample [k - j],
    stepped [j] times by the step of the bracket starting at [lo]; when
    [j] is not [0], the time of sample [k - j] lies in that bracket and
    the time of sample [k] has not passed its end. *)
Definition stored_at (e : Envelope) (tstep start : Q) (k : nat) (v : Q)
  (j lo : nat) : Prop :=
  (j <= k)%nat /\
  v = stepped (mDB e)
        (GetValueRelative log10 pow10 e (sample_time start tstep (k - j)))
        (bracket_step e lo tstep) j /\
  (j <> 0%nat ->
   in_bracket e lo (sample_time start tstep (k - j)) /\
   sample_time start tstep k <= GetT (at_ (mEnv e) (S lo)) /\
   sample_time start tstep k < GetT (at_ (mEnv e) (length (mEnv e) - 1))).

(** [GetValue] in the words of the spec: the default value with no
    points; the first point's value at or before its time; the last
    point's value at or after its time; else the interpolation between
    the two adjacent points, at [f = (t - lo.time) / (hi.time - lo.time)]. *)
Definition GetValue_as_specified (e : Envelope) (t : Q) : Prop :=
  let tr := t - mOffset e in
  let n := length (mEnv e) in
  (mEnv e = [] -> GetValue log10 pow10 e t = mDefaultValue e) /\
  (mEnv e <> [] -> tr <= GetT (at_ (mEnv e) 0) ->
   GetValue log10 pow10 e t = GetVal (at_ (mEnv e) 0)) /\
  (mEnv e <> [] -> GetT (at_ (mEnv e) (n - 1)) <= tr ->
   GetValue log10 pow10 e t = GetVal (at_ (mEnv e) (n - 1))) /\
  (forall i : nat,
     (S i < n)%nat ->
     let lo := at_ (mEnv e) i in
     let hi := at_ (mEnv e) (S i) in
     let f := (tr - GetT lo) / (GetT hi - GetT lo) in
     GetT (at_ (mEnv e) 0) < tr -> GetT lo <= tr -> tr < GetT hi ->
     GetValue log10 pow10 e t ==
     if mDB e
     then pow10 (lerp (log10 (GetVal lo)) (log10 (GetVal hi)) f)
     else lerp (GetVal lo) (GetVal hi) f).

(** [GetValues] in the words of the spec: every entry of the buffer is
    what [GetValue] returns at that sample's time. *)
Definition GetValues_as_specified (e : Envelope) (count : nat) (t0 tstep : Q)
  : Prop :=
  forall k, (k < count)%nat ->
    nth k (fst (GetValues log10 pow10 e count t0 tstep)) 0 ==
    GetValue log10 pow10 e (t0 + inject_Z (Z.of_nat k) * tstep).

End Stepping.

(** A zigzag over [[0, 2]], for stepping backwards. *)
Definition zigzag : list EnvPoint :=
  [mkEnvPoint 0 0; mkEnvPoint 1 1; mkEnvPoint 2 0].

(** A logarithmic envelope over the span [[0, 10]]. *)
Definition sample_db_envelope (l : list EnvPoint) : Envelope :=
  mkEnvelope true 0 10 0 l 0 10 (1 # 200000) (-1) false (-1).

(** * The rest of the envelope

    The operations of [Envelope.cpp] that no claim of the specification
    is about, embedded the same way. *)

Definition with_mOffset (e : Envelope) (offset : Q) : Envelope :=
  mkEnvelope (mDB e) (mMinValue e) (mMaxValue e) (mDefaultValue e) (mEnv e)
             offset (mTrackLen e) (mTrackEpsilon e)
             (mDragPoint e) (mDragPointValid e) (mSearchGuess e).

(** [wxMin(a, b)] is [(a < b) ? a : b], [wxMax(a, b)] is [(a > b) ? a : b]. *)
Definition wxMin (a b : Q) : Q := if Qltb a b then a else b.
Definition wxMax (a b : Q) : Q := if Qltb b a then a else b.

Definition SetOffset (e : Envelope) (newOffset : Q) : Envelope :=
  with_mOffset e newOffset.

Definition GetNumberOfPoints (e : Envelope) : nat := length (mEnv e).

(** ** RescaleTimes *)

Definition RescaleTimes (e : Envelope) (newLength : Q) : Envelope :=
  let l :=
    if Qeqb (mTrackLen e) 0
    then map (fun p => SetT p 0) (mEnv e)
    else
      let ratio := newLength / mTrackLen e in
      map (fun p => SetT p (GetT p * ratio)) (mEnv e) in
  with_mTrackLen (with_mEnv e l) newLength.

(** ** Shifting and erasing runs of points *)

(** [for (; index < len; ++index) mEnv[index].SetT(mEnv[index].GetT() + d)]. *)
Fixpoint shift_from (l : list EnvPoint) (index : nat) (d : Q) : list EnvPoint :=
  match l, index with
  | [], _ => []
  | p :: l', O => SetT p (GetT p + d) :: shift_from l' 0 d
  | p :: l', S i => p :: shift_from l' i d
  end.

(** [mEnv.erase(mEnv.begin() + first, mEnv.begin() + last)], which C++
    defines for [first <= last <= size] only; the theorems about
    [CollapseRegion] are stated where that holds. *)
Definition erase_range (l : list EnvPoint) (first last : nat) : list EnvPoint :=
  firstn first l ++ skipn last l.

(** [for (i = 0; i < len; i++) if (mEnv[i].GetT() > t0) mEnv[i].SetT(... + d)]. *)
Definition shift_after (l : list EnvPoint) (t0 d : Q) : list EnvPoint :=
  map (fun p => if Qltb t0 (GetT p) then SetT p (GetT p + d) else p) l.

Section Regions.

Variable log10 : Q -> Q.
Variable pow10 : Q -> Q.

(** [GetValueRelative] with the cache it leaves behind. *)
Definition evalRelative (e : Envelope) (t : Q) : Q * Envelope :=
  (GetValueRelative log10 pow10 e t,
   with_mSearchGuess e (snd (GetValuesRelative log10 pow10 e 1 t 1))).

(** ** InsertSpace *)

Definition InsertSpace (e : Envelope) (t0 tlen : Q) : Envelope :=
  let t0 := t0 - mOffset e in
  let '(val, e) := evalRelative e t0 in
  let range := EqualRange e t0 0 in
  let '(index, e) :=
    if (fst range <? snd range)%nat then ((1 + fst range)%nat, e)
    else
      let '(i, e') := InsertOrReplaceRelative e t0 val in
      (Z.to_nat (1 + i), e') in
  let e := with_mEnv e (shift_from (mEnv e) index tlen) in
  let e := with_mTrackLen e (mTrackLen e + tlen) in
  if (1 + fst range <? snd range)%nat then e
  else snd (InsertOrReplaceRelative e (t0 + tlen) val).

(** ** CollapseRegion *)

Definition CollapseRegion (e : Envelope) (t0 t1 sampleTime : Q) : Envelope :=
  let epsilon := sampleTime / 2 in
  let t0 := std_max 0 (std_min (mTrackLen e) (t0 - mOffset e)) in
  let t1 := std_max 0 (std_min (mTrackLen e) (t1 - mOffset e)) in
  let range0 := EqualRange e t0 0 in
  let '(begin, e) :=
    if (fst range0 =? snd range0)%nat then
      if Qltb epsilon t0 then
        let '(val, e') := evalRelative e t0 in
        (S (fst range0), snd (InsertOrReplaceRelative e' t0 val))
      else (fst range0, e)
    else (S (fst range0), e) in
  let range1 := EqualRange e t1 0 in
  let '(end_, e) :=
    if (fst range1 =? snd range1)%nat then
      if Qltb epsilon (mTrackLen e - t1) then
        let '(val, e') := evalRelative e t1 in
        (snd range1, snd (InsertOrReplaceRelative e' t1 val))
      else (snd range1, e)
    else ((snd range1 - 1)%nat, e) in
  let e := with_mEnv e (erase_range (mEnv e) begin end_) in
  let e := with_mEnv e (shift_from (mEnv e) begin (- (t1 - t0))) in
  with_mTrackLen e (mTrackLen e - (t1 - t0)).

(** ** Paste *)

(** The first loop of [Paste]: whether a point lies after [t0], the last
    index not after it, and whether some point not after [t0] is within
    [1/500000] of it. *)
Fixpoint Paste_scan (l : list EnvPoint) (t0 : Q) (i : nat)
  (someToShift : bool) (pos : nat) (onPoint : bool) : bool * nat * bool :=
  match l with
  | [] => (someToShift, pos, onPoint)
  | p :: l' =>
      if Qltb t0 (GetT p)
      then Paste_scan l' t0 (S i) true pos onPoint
      else
        Paste_scan l' t0 (S i) someToShift i
          (if Qltb (Qabs (GetT p - t0) - 1 / 500000) 0 then true else onPoint)
  end.

(** [for (i = 0; i < len; i++) InsertOrReplaceRelative(t0 + e->mEnv[i].GetT(),
    e->mEnv[i].GetVal())]. *)
Fixpoint Paste_points (e : Envelope) (t0 : Q) (pts : list EnvPoint) : Envelope :=
  match pts with
  | [] => e
  | p :: pts' =>
      Paste_points (snd (InsertOrReplaceRelative e (t0 + GetT p) (GetVal p)))
        t0 pts'
  end.

Definition Paste (this : Envelope) (t0 : Q) (e : Envelope) : Envelope :=
  let wasEmpty := (length (mEnv this) =? 0)%nat in
  if (length (mEnv e) =? 0)%nat && wasEmpty &&
     Qeqb (mDefaultValue e) (mDefaultValue this)
  then with_mTrackLen this (mTrackLen this + mTrackLen e)
  else
    let t0 := wxMin (t0 - mOffset this) (mTrackLen this) in
    let deltat := mTrackLen e in
    let len := length (mEnv this) in
    let '(splitval, this) := evalRelative this (t0 + mOffset this - mOffset this) in
    let this :=
      if negb (len =? 0)%nat then
        let '(someToShift, pos, onPoint) :=
          Paste_scan (mEnv this) t0 0 false 0 false in
        let eps := mTrackEpsilon this in
        let atStart := Qltb t0 eps in
        let atEnd := Qltb (mTrackLen this - t0) eps in
        let beforeStart := Qltb t0 0 in
        let afterEnd := Qltb (mTrackLen this) t0 in
        let '(this, someToShift) :=
          if atStart then
            if onPoint
            then (with_mEnv this
                    (update (mEnv this) 0 (fun p => SetT p (GetT p + eps))), true)
            else (snd (InsertOrReplaceRelative this (t0 + eps) splitval), true)
          else if atEnd then
            if onPoint
            then (with_mEnv this
                    (update (mEnv this) 0 (fun p => SetT p (GetT p - eps))),
                  someToShift)
            else (snd (InsertOrReplaceRelative this (t0 - eps) splitval),
                  someToShift)
          else if onPoint then
            let this := with_mEnv this
                          (update (mEnv this) pos (fun p => SetT p (GetT p - eps))) in
            (snd (InsertOrReplaceRelative this (t0 + eps) splitval), true)
          else if negb beforeStart && negb afterEnd then
            let this := snd (InsertOrReplaceRelative this (t0 - eps) splitval) in
            (snd (InsertOrReplaceRelative this (t0 + eps) splitval), true)
          else (this, someToShift) in
        let this :=
          if someToShift
          then with_mEnv this (shift_after (mEnv this) t0 deltat)
          else this in
        with_mTrackLen this (mTrackLen this + deltat)
      else if Qeqb (mTrackLen this) 0
      then with_mOffset (with_mTrackLen this (mTrackLen e)) (mOffset e)
      else with_mTrackLen this (mTrackLen this + mTrackLen e) in
    let this :=
      if negb wasEmpty then
        let leftval := GetValue log10 pow10 e (0 + mOffset e) in
        let rightval := GetValue log10 pow10 e (mTrackLen e + mOffset e) in
        let this := snd (InsertOrReplaceRelative this t0 leftval) in
        snd (InsertOrReplaceRelative this (t0 + mTrackLen e) rightval)
      else this in
    Paste_points this t0 (mEnv e).

End Regions.

Section Copies.

Variable log10 : Q -> Q.
Variable pow10 : Q -> Q.

(** The members a constructor does not set keep the initialisers of
    [Envelope.h], which is not among the sources; [init] stands for an
    envelope holding them. *)
Variable init : Envelope.

(** ** CopyRange and the copy constructors *)

(** [for (; i < end; ++i) AddPointAtEnd(orig[i].GetT() + shift, orig[i].GetVal())] *)
Fixpoint CopyRange_points (e : Envelope) (shift : Q) (pts : list EnvPoint)
  : Envelope :=
  match pts with
  | [] => e
  | p :: pts' =>
      CopyRange_points (AddPointAtEnd e (GetT p + shift) (GetVal p)) shift pts'
  end.

Definition CopyRange (e orig : Envelope) (begin end_ : nat) : Envelope :=
  let len := length (mEnv orig) in
  let e := if (0 <? begin)%nat
           then AddPointAtEnd e 0 (GetValue log10 pow10 orig (mOffset e))
           else e in
  let e := CopyRange_points e (mOffset orig - mOffset e)
             (firstn (end_ - begin) (skipn begin (mEnv orig))) in
  let i := Nat.max begin end_ in
  if Qltb 0 (mTrackLen e) && (i <? len)%nat
  then AddPointAtEnd e (mTrackLen e)
         (GetValue log10 pow10 orig (mOffset e + mTrackLen e))
  else e.

(** The envelope a constructor starts from. *)
Definition constructed (orig : Envelope) (offset trackLen : Q) : Envelope :=
  mkEnvelope (mDB orig) (mMinValue orig) (mMaxValue orig) (mDefaultValue orig)
             [] offset trackLen (mTrackEpsilon init)
             (mDragPoint init) (mDragPointValid init) (mSearchGuess init).

(** [Envelope::Envelope(const Envelope &orig)] *)
Definition copy (orig : Envelope) : Envelope :=
  CopyRange (constructed orig (mOffset orig) (mTrackLen orig)) orig
    0 (GetNumberOfPoints orig).

(** [Envelope::Envelope(const Envelope &orig, double t0, double t1)] *)
Definition copy_between (orig : Envelope) (t0 t1 : Q) : Envelope :=
  let offset := wxMax t0 (mOffset orig) in
  let trackLen := wxMin t1 (mOffset orig + mTrackLen orig) - offset in
  let range1 := EqualRange orig (t0 - mOffset orig) 0 in
  let range2 := EqualRange orig (t1 - mOffset orig) 0 in
  CopyRange (constructed orig offset trackLen) orig (fst range1) (snd range2).

(** ** RemoveUnneededPoints *)

(** The loop over [i]; [i--] followed by the loop's [i++] leaves [i] as
    it is, also at [0], where the unsigned [i] wraps round and back.
    Every turn either advances [i] or shortens [len], so [len - i]
    turns are enough. *)
Fixpoint RemoveUnneededPoints_loop (fuel : nat) (e : Envelope)
  (time tolerence : Q) (i len : nat) : Envelope :=
  match fuel with
  | O => e
  | S fuel' =>
      if (i <? len)%nat then
        let when := GetT (at_ (mEnv e) i) in
        if Qleb 0 time && Qltb (25 # 100000) (Qabs (when + mOffset e - time))
        then RemoveUnneededPoints_loop fuel' e time tolerence (S i) len
        else
          let val := GetVal (at_ (mEnv e) i) in
          let e := Delete e i in
          let val1 := GetValue log10 pow10 e (when + mOffset e) in
          let e := with_mSearchGuess e
                     (snd (GetValues log10 pow10 e 1 (when + mOffset e) 1)) in
          let '(e, bExcludePoint) :=
            if Qltb tolerence (Qabs (val - val1)) then
              let e' := snd (InsertOrReplaceRelative e when val) in
              (e', (length (mEnv e') <? len)%nat)
            else (e, true) in
          if bExcludePoint
          then RemoveUnneededPoints_loop fuel' e time tolerence i (len - 1)
          else RemoveUnneededPoints_loop fuel' e time tolerence (S i) len
      else e
  end.

Definition RemoveUnneededPoints (e : Envelope) (time tolerence : Q) : Envelope :=
  let len := length (mEnv e) in
  if (len =? 0)%nat then e
  else RemoveUnneededPoints_loop len e time tolerence 0 len.

End Copies.

Section Solving.

Variable log10 : Q -> Q.
Variable pow10 : Q -> Q.
Variable log : Q -> Q.
Variable exp : Q -> Q.
Variable log1p : Q -> Q.
Variable expm1 : Q -> Q.

(** ** Average *)

Definition Average (e : Envelope) (t0 t1 : Q) : Q :=
  if Qeqb t0 t1 then GetValue log10 pow10 e t0
  else Integral log exp e t0 t1 / (t1 - t0).

Definition AverageOfInverse (e : Envelope) (t0 t1 : Q) : Q :=
  if Qeqb t0 t1 then 1 / GetValue log10 pow10 e t0
  else IntegralOfInverse log exp e t0 t1 / (t1 - t0).

(** ** SolveIntegralOfInverse *)

Definition SolveIntegrateInverseInterpolated (y1 y2 time area : Q)
  (logarithmic : bool) : Q :=
  let a := area / time in
  let res :=
    if logarithmic then
      let l := log (y1 / y2) in
      if Qltb (Qabs l) (1 # 100000) then a * (y1 + y2) * (1 # 2)
      else if Qleb (1 + a * y1 * l) 0 then 1
      else log1p (a * y1 * l) / l
    else
      if Qltb (Qabs (y2 - y1)) (1 # 100000) then a * (y1 + y2) * (1 # 2)
      else y1 * expm1 (a * (y2 - y1)) / (y2 - y1) in
  std_max 0 (std_min 1 res) * time.

(** The backward loop; [k] is [i + 1], so it is [0] exactly when [i < 0]. *)
Fixpoint Solve_backward (e : Envelope) (k : nat) (area lastT lastVal : Q) : Q :=
  match k with
  | O => lastT + area * lastVal
  | S i =>
      let p := at_ (mEnv e) i in
      let added :=
        - IntegrateInverseInterpolated log (GetVal p) lastVal
            (lastT - GetT p) (mDB e) in
      if Qleb added area
      then lastT - SolveIntegrateInverseInterpolated lastVal (GetVal p)
                     (lastT - GetT p) (- area) (mDB e)
      else Solve_backward e i (area - added) (GetT p) (GetVal p)
  end.

(** The forward loop; [n] is [count - i]. *)
Fixpoint Solve_forward (e : Envelope) (n i : nat) (area lastT lastVal : Q) : Q :=
  match n with
  | O => lastT + area * lastVal
  | S n' =>
      let p := at_ (mEnv e) i in
      let added :=
        IntegrateInverseInterpolated log lastVal (GetVal p)
          (GetT p - lastT) (mDB e) in
      if Qleb area added
      then lastT + SolveIntegrateInverseInterpolated lastVal (GetVal p)
                     (GetT p - lastT) area (mDB e)
      else Solve_forward e n' (S i) (area - added) (GetT p) (GetVal p)
  end.

(** [if (area < 0)] the backward loop from index [k - 1], else the forward
    loop from index [i]; the source keeps both in the one [int i] (with
    [i = count - 2 = -1] the forward test [i >= count] compares as
    unsigned and holds). *)
Definition Solve_walk (e : Envelope) (k n i : nat) (area lastT lastVal : Q) : Q :=
  if Qltb area 0 then Solve_backward e k area lastT lastVal
  else Solve_forward e n i area lastT lastVal.

Definition SolveIntegralOfInverse (e : Envelope) (t0 area : Q) : Q :=
  if Qeqb area 0 then t0
  else
    let count := length (mEnv e) in
    if (count =? 0)%nat then t0 + area * mDefaultValue e
    else
      let t0 := t0 - mOffset e in
      let first := at_ (mEnv e) 0 in
      let last := at_ (mEnv e) (count - 1) in
      mOffset e +
      (if Qltb t0 (GetT first) then
         if Qltb area 0 then t0 + area * GetVal first
         else
           let added := (GetT first - t0) / GetVal first in
           if Qleb area added then t0 + area * GetVal first
           else Solve_walk e 2 (count - 1) 1 (area - added)
                  (GetT first) (GetVal first)
       else if Qleb (GetT last) t0 then
         if Qltb area 0 then
           let added := (GetT last - t0) / GetVal last in
           if Qleb added area then t0 + area * GetVal last
           else Solve_walk e (count - 1)
                  (if (count <? 2)%nat then 0 else 2) (count - 2) (area - added)
                  (GetT last) (GetVal last)
         else t0 + area * GetVal last
       else
         let '(lo, hi, _) := BinarySearchForTime (mEnv e) (mSearchGuess e) t0 in
         let plo := atZ (mEnv e) lo in
         let phi := atZ (mEnv e) hi in
         let lastVal :=
           InterpolatePoints log exp (GetVal plo) (GetVal phi)
             ((t0 - GetT plo) / (GetT phi - GetT plo)) (mDB e) in
         Solve_walk e (Z.to_nat (lo + 1)) (length (mEnv e) - Z.to_nat hi)
           (Z.to_nat hi) area t0 lastVal).

End Solving.
(** * The operations that change the point vector

    The member functions of [Envelope] in [Envelope.cpp] that write
    [mEnv] or leave another envelope behind: the edits of single points,
    the edits of values, the edits of the span, the splices, the two copy
    constructors (after which the copy is the envelope followed) and the
    four calls of the drag gesture.  [AddPointAtEnd] and [CopyRange] are
    followed through [SetTrackLen] and the constructors, which call them.
    The reading of a project file ([HandleXMLTag], [HandleXMLChild]) and
    the self test [testMe] are left out. *)

Inductive Mutator : Type :=
| DoInsertOrReplace (when value : Q)
| DoDelete (point : nat)
| DoInsert (point : nat) (p : EnvPoint)
| DoReassign (when value : Q)
| DoSetRange (minValue maxValue : Q)
| DoRescaleValues (minValue maxValue : Q)
| DoFlatten (value : Q)
| DoSetOffset (newOffset : Q)
| DoSetTrackLen (trackLen : Q)
| DoRescaleTimes (newLength : Q)
| DoInsertSpace (t0 tlen : Q)
| DoCollapseRegion (t0 t1 sampleTime : Q)
| DoPaste (t0 : Q) (other : Envelope)
| DoRemoveUnneededPoints (time tolerence : Q)
| DoCopy
| DoCopyBetween (t0 t1 : Q)
| DoSetDragPoint (dragPoint : Z)
| DoSetDragPointValid (valid : bool)
| DoMoveDragPoint (newWhen value : Q)
| DoClearDragPoint.

(** Adjacent points are at least [eps] apart: the earlier one moved right
    by [eps] does not pass the later one, nor the later one moved left by
    [eps] the earlier one. *)
Definition Spaced (eps : Q) (l : list EnvPoint) : Prop :=
  forall j, (S j < length l)%nat ->
    GetT (at_ l j) + eps <= GetT (at_ l (S j)) /\
    GetT (at_ l j) <= GetT (at_ l (S j)) - eps.

(** Invariant 3 of the data model, for the points. *)
Definition within_span (e : Envelope) : Prop :=
  forall p, In p (mEnv e) -> 0 <= GetT p /\ GetT p <= mTrackLen e.

(** The times the range constructor gives the points it copies, the
    ones from [t0] to [t1], lie in the span of the copy.  With the points
    inside the span of the original this is so as long as the sums are
    exact. *)
Definition copied_within (e : Envelope) (t0 t1 : Q) : Prop :=
  let offset := wxMax t0 (mOffset e) in
  let trackLen := wxMin t1 (mOffset e + mTrackLen e) - offset in
  forall p, In p (mEnv e) ->
    t0 - mOffset e <= GetT p -> GetT p <= t1 - mOffset e ->
    0 <= GetT p + (mOffset e - offset) /\
    GetT p + (mOffset e - offset) <= trackLen.

(** No point is engaged, or the engaged index is one of the vector. *)
Definition drag_index_valid (e : Envelope) : Prop :=
  (mDragPoint e < Z.of_nat (length (mEnv e)))%Z.

(** Where the operation is defined, and the conditions the order of the
    points rests on.  [Delete] erases at an index of the vector, and the
    drag calls index the vector at [mDragPoint].  [Insert] stores a
    point at the index it is given, which has to be the place of its
    time.  [RescaleTimes] and
    [InsertSpace] are given lengths that are not negative.
    [CollapseRegion] erases from [begin] to [end_], which needs a region
    from [a] to [b] that is not empty once clamped to the span, and moves
    the points after it left by [b - a], which must not take a point at
    [b] to the left of [a].  The range constructor puts its boundary
    points at [0] and [mTrackLen], around the points it copies;
    [MoveDragPoint] takes [0] as the least time.
    [SetDragPointValid(false)] moves a last point to the greatest double,
    which no time exceeds.  [Paste] moves a point of the target by
    [mTrackEpsilon] towards a neighbour. *)
Definition admissible (e : Envelope) (m : Mutator) : Prop :=
  match m with
  | DoDelete point => (point < length (mEnv e))%nat
  | DoInsert point p =>
      (point <= length (mEnv e))%nat /\
      ((0 < point)%nat -> GetT (at_ (mEnv e) (point - 1)) <= GetT p) /\
      ((point < length (mEnv e))%nat -> GetT p <= GetT (at_ (mEnv e) point))
  | DoRescaleTimes newLength => 0 <= mTrackLen e /\ 0 <= newLength
  | DoInsertSpace t0 tlen => 0 <= tlen
  | DoCollapseRegion t0 t1 sampleTime =>
      let a := std_max 0 (std_min (mTrackLen e) (t0 - mOffset e)) in
      let b := std_max 0 (std_min (mTrackLen e) (t1 - mOffset e)) in
      a < b /\ a <= b - (b - a)
  | DoPaste t0 other =>
      0 <= mTrackLen other /\ 0 <= mTrackEpsilon e /\
      Spaced (mTrackEpsilon e) (mEnv e)
  | DoCopyBetween t0 t1 => within_span e /\ copied_within e t0 t1
  | DoSetDragPointValid valid =>
      drag_index_valid e /\
      (valid = false -> forall p, In p (mEnv e) -> GetT p <= big)
  | DoMoveDragPoint newWhen value =>
      drag_index_valid e /\ forall p, In p (mEnv e) -> 0 <= GetT p
  | DoClearDragPoint => drag_index_valid e
  | _ => True
  end.

(** Where the operation keeps apart the times of points that were apart.
    [SetTrackLen] does when the span does not shrink, so that no point is
    appended, and [SetDragPointValid] when it moves no point.
    [Insert], [CollapseRegion], [Paste], the range constructor and
    [MoveDragPoint] can put a point at the time of another, and so can
    [RescaleTimes],
    which multiplies the times, to a span of length [0].  [InsertSpace],
    which adds to the times, is not counted among the operations that
    keep them apart either. *)
Definition keeps_apart (e : Envelope) (m : Mutator) : Prop :=
  match m with
  | DoSetTrackLen trackLen => mTrackLen e <= trackLen
  | DoSetDragPointValid valid => valid = true
  | DoInsert _ _ => False
  | DoRescaleTimes _ => False
  | DoInsertSpace _ _ => False
  | DoCollapseRegion _ _ _ => False
  | DoPaste _ _ => False
  | DoCopyBetween _ _ => False
  | DoMoveDragPoint _ _ => False
  | _ => True
  end.

(** The operations after which no more than two points share a time when
    that was so before: the edits of single points and of values,
    [SetTrackLen] and the copy constructors, which append through
    [AddPointAtEnd], and the operations that only take points away. *)
Definition keeps_pairs (m : Mutator) : bool :=
  match m with
  | DoInsert _ _ | DoRescaleTimes _ | DoInsertSpace _ _
  | DoCollapseRegion _ _ _ | DoPaste _ _ | DoSetDragPointValid _
  | DoMoveDragPoint _ _ => false
  | _ => true
  end.

Section Mutators.

Variable log10 : Q -> Q.
Variable pow10 : Q -> Q.
Variable init : Envelope.

Definition run (e : Envelope) (m : Mutator) : Envelope :=
  match m with
  | DoInsertOrReplace when value => snd (InsertOrReplaceRelative e when value)
  | DoDelete point => Delete e point
  | DoInsert point p => Insert e point p
  | DoReassign when value => snd (Reassign e when value)
  | DoSetRange minValue maxValue => SetRange e minValue maxValue
  | DoRescaleValues minValue maxValue => RescaleValues e minValue maxValue
  | DoFlatten value => Flatten e value
  | DoSetOffset newOffset => SetOffset e newOffset
  | DoSetTrackLen trackLen => SetTrackLen log10 pow10 e trackLen
  | DoRescaleTimes newLength => RescaleTimes e newLength
  | DoInsertSpace t0 tlen => InsertSpace log10 pow10 e t0 tlen
  | DoCollapseRegion t0 t1 sampleTime =>
      CollapseRegion log10 pow10 e t0 t1 sampleTime
  | DoPaste t0 other => Paste log10 pow10 e t0 other
  | DoRemoveUnneededPoints time tolerence =>
      RemoveUnneededPoints log10 pow10 e time tolerence
  | DoCopy => copy log10 pow10 init e
  | DoCopyBetween t0 t1 => copy_between log10 pow10 init e t0 t1
  | DoSetDragPoint dragPoint => SetDragPoint e dragPoint
  | DoSetDragPointValid valid => SetDragPointValid e valid
  | DoMoveDragPoint newWhen value => MoveDragPoint e newWhen value
  | DoClearDragPoint => ClearDragPoint e
  end.

Fixpoint run_all (e : Envelope) (ms : list Mutator) : Envelope :=
  match ms with
  | [] => e
  | m :: ms' => run_all (run e m) ms'
  end.

Fixpoint admissible_all (e : Envelope) (ms : list Mutator) : Prop :=
  match ms with
  | [] => True
  | m :: ms' => admissible e m /\ admissible_all (run e m) ms'
  end.

Fixpoint keeps_apart_all (e : Envelope) (ms : list Mutator) : Prop :=
  match ms with
  | [] => True
  | m :: ms' => keeps_apart e m /\ keeps_apart_all (run e m) ms'
  end.

End Mutators.

(** Points that lie closer together than [mTrackEpsilon]. *)
Definition close_points : list EnvPoint :=
  [mkEnvPoint 0 1; mkEnvPoint (1 # 400000) 2; mkEnvPoint 10 3].

(** * Properties *)

(** ** Comparisons *)

Lemma Qltb_spec (x y : Q) : reflect (x < y) (Qltb x y).
Proof.
  unfold Qltb, Qlt.
  destruct (Qnum x * QDen y <? Qnum y * QDen x)%Z eqn:E; constructor.
  - now apply Z.ltb_lt.
  - now apply Z.ltb_ge in E; lia.
Qed.

Lemma Qleb_spec (x y : Q) : reflect (x <= y) (Qleb x y).
Proof.
  unfold Qleb. destruct (Qle_bool x y) eqn:E; constructor.
  - now apply Qle_bool_iff.
  - intro H. apply Qle_bool_iff in H. congruence.
Qed.

Lemma Qeqb_spec (x y : Q) : reflect (x == y) (Qeqb x y).
Proof.
  unfold Qeqb. destruct (Qeq_bool x y) eqn:E; constructor.
  - now apply Qeq_bool_iff.
  - now apply Qeq_bool_neq.
Qed.

(** Turns one comparison of the goal into its two cases. *)
Ltac plain t :=
  lazymatch t with
  | context [if _ then _ else _] => fail
  | _ => idtac
  end.

Ltac qcase :=
  match goal with
  | |- context [Qltb ?a ?b] => plain a; plain b; destruct (Qltb_spec a b)
  | |- context [Qleb ?a ?b] => plain a; plain b; destruct (Qleb_spec a b)
  | |- context [Qeqb ?a ?b] => plain a; plain b; destruct (Qeqb_spec a b)
  end.

Lemma std_max_spec (a b : Q) :
  (a < b /\ std_max a b = b) \/ (b <= a /\ std_max a b = a).
Proof. unfold std_max. qcase; [left | right]; split; auto; lra. Qed.

Lemma std_min_spec (a b : Q) :
  (b < a /\ std_min a b = b) \/ (a <= b /\ std_min a b = a).
Proof. unfold std_min. qcase; [left | right]; split; auto; lra. Qed.

Lemma ClampValue_in_range (e : Envelope) (v : Q) :
  mMinValue e <= mMaxValue e -> in_range e (ClampValue e v).
Proof.
  intros H. unfold in_range, ClampValue, std_max, std_min.
  repeat qcase; lra.
Qed.

Lemma ClampValue_fixes (e : Envelope) (v : Q) :
  in_range e v -> ClampValue e v == v.
Proof.
  intros [H1 H2]. unfold ClampValue, std_max, std_min.
  repeat qcase; lra.
Qed.

(** ** The point vector *)

Lemma at_cons (p : EnvPoint) (l : list EnvPoint) (i : nat) :
  at_ (p :: l) (S i) = at_ l i.
Proof. reflexivity. Qed.

Lemma update_length (l : list EnvPoint) (i : nat) f :
  length (update l i f) = length l.
Proof.
  revert i; induction l as [|p l IH]; intros [|i]; simpl; auto.
Qed.

Lemma update_at (l : list EnvPoint) (i : nat) f :
  (i < length l)%nat -> at_ (update l i f) i = f (at_ l i).
Proof.
  revert i; induction l as [|p l IH]; intros [|i] H; simpl in *; try lia; auto.
  apply IH. lia.
Qed.

Lemma update_other (l : list EnvPoint) (i j : nat) f :
  i <> j -> at_ (update l i f) j = at_ l j.
Proof.
  revert i j; induction l as [|p l IH]; intros [|i] [|j] H; simpl; auto; try lia.
  apply IH. lia.
Qed.

Lemma update_times (l : list EnvPoint) (i : nat) f :
  (forall p, GetT (f p) = GetT p) ->
  map GetT (update l i f) = map GetT l.
Proof.
  intros Hf. revert i; induction l as [|p l IH]; intros [|i]; simpl; auto.
  - now rewrite Hf.
  - now rewrite IH.
Qed.

(** Sortedness only looks at the times. *)
Lemma Sorted_map_times (R : Q -> Q -> Prop) (l : list EnvPoint) :
  Sorted (fun p q => R (GetT p) (GetT q)) l <-> Sorted R (map GetT l).
Proof.
  induction l as [|p l IH]; simpl.
  - split; constructor.
  - split; intros H; inversion H as [|? ? Hs Hh]; subst; constructor;
      try (apply IH; assumption).
    + destruct l; simpl; constructor. now inversion Hh.
    + destruct l; simpl in *; constructor. now inversion Hh.
Qed.

Lemma StrictlyAscending_times (l l' : list EnvPoint) :
  map GetT l = map GetT l' -> StrictlyAscending l -> StrictlyAscending l'.
Proof.
  unfold StrictlyAscending, before. intros E H.
  apply (Sorted_map_times Qlt). rewrite <- E. now apply (Sorted_map_times Qlt).
Qed.

Lemma Ascending_times (l l' : list EnvPoint) :
  map GetT l = map GetT l' -> Ascending l -> Ascending l'.
Proof.
  unfold Ascending, not_after. intros E H.
  apply (Sorted_map_times Qle). rewrite <- E. now apply (Sorted_map_times Qle).
Qed.

Lemma StrictlyAscending_Ascending (l : list EnvPoint) :
  StrictlyAscending l -> Ascending l.
Proof.
  induction 1 as [|p l Hs IH Hh]; constructor; auto.
  destruct Hh; constructor. unfold before, not_after in *. lra.
Qed.

Lemma Ascending_le (l : list EnvPoint) (j k : nat) :
  Ascending l -> (j <= k)%nat -> (k < length l)%nat ->
  GetT (at_ l j) <= GetT (at_ l k).
Proof.
  intros H. revert j k. induction H as [|p l Hs IH Hh]; intros j k Hjk Hk.
  - simpl in Hk. lia.
  - destruct k as [|k].
    + assert (j = 0)%nat by lia. subst. lra.
    + simpl in Hk. destruct j as [|j].
      * change (GetT p <= GetT (at_ l k)).
        destruct l as [|q l]; [simpl in Hk; lia|].
        inversion Hh; subst. unfold not_after in *.
        specialize (IH 0%nat k ltac:(lia) ltac:(lia)). simpl in IH.
        unfold at_ in *. simpl in *. lra.
      * rewrite !at_cons. apply IH; lia.
Qed.

Lemma StrictlyAscending_lt (l : list EnvPoint) (j k : nat) :
  StrictlyAscending l -> (j < k)%nat -> (k < length l)%nat ->
  GetT (at_ l j) < GetT (at_ l k).
Proof.
  intros H. revert j k. induction H as [|p l Hs IH Hh]; intros j k Hjk Hk.
  - simpl in Hk. lia.
  - destruct k as [|k]; [lia|]. simpl in Hk. destruct j as [|j].
    + change (GetT p < GetT (at_ l k)).
      destruct l as [|q l]; [simpl in Hk; lia|].
      inversion Hh; subst. unfold before in *.
      destruct k as [|k]; [exact H0|].
      specialize (IH 0%nat (S k) ltac:(lia) ltac:(lia)).
      unfold at_ in *. simpl in *. lra.
    + rewrite !at_cons. apply IH; lia.
Qed.

Lemma In_at (l : list EnvPoint) (p : EnvPoint) :
  In p l -> exists k, (k < length l)%nat /\ at_ l k = p.
Proof.
  intros H. destruct (In_nth l p origin H) as [k [Hk E]]. now exists k.
Qed.

Lemma at_In (l : list EnvPoint) (k : nat) :
  (k < length l)%nat -> In (at_ l k) l.
Proof. intros H. now apply nth_In. Qed.

(** ** The linear scan of [InsertOrReplaceRelative] and [Reassign] *)

Lemma scan_past_shift (w : Q) (l : list EnvPoint) (i : nat) :
  scan_past w l i = (i + scan_past w l 0)%nat.
Proof.
  revert i; induction l as [|p l IH]; intros i; simpl; [lia|].
  destruct (Qltb (GetT p) w); [|lia].
  rewrite (IH (S i)), (IH 1%nat). lia.
Qed.

Lemma scan_past_cons (w : Q) (p : EnvPoint) (l : list EnvPoint) :
  scan_past w (p :: l) 0 =
  if Qltb (GetT p) w then S (scan_past w l 0) else 0%nat.
Proof. simpl. destruct (Qltb (GetT p) w); auto. now rewrite scan_past_shift. Qed.

Lemma scan_past_le (w : Q) (l : list EnvPoint) :
  (scan_past w l 0 <= length l)%nat.
Proof.
  induction l as [|p l IH]; [simpl; lia|].
  rewrite scan_past_cons. destruct (Qltb (GetT p) w); simpl; lia.
Qed.

Lemma scan_past_before (w : Q) (l : list EnvPoint) (j : nat) :
  (j < scan_past w l 0)%nat -> GetT (at_ l j) < w.
Proof.
  revert j; induction l as [|p l IH]; intros j; [simpl; lia|].
  rewrite scan_past_cons. destruct (Qltb_spec (GetT p) w); [|lia].
  destruct j as [|j]; intros H; [exact q|]. rewrite at_cons. apply IH. lia.
Qed.

Lemma scan_past_stop (w : Q) (l : list EnvPoint) :
  (scan_past w l 0 < length l)%nat -> w <= GetT (at_ l (scan_past w l 0)).
Proof.
  induction l as [|p l IH]; [simpl; lia|].
  rewrite scan_past_cons. destruct (Qltb_spec (GetT p) w); simpl; intros H.
  - rewrite at_cons. apply IH. lia.
  - unfold at_; simpl. lra.
Qed.

(** On an ascending vector the scan stops at the first point at the time
    looked for, when there is one. *)
Lemma scan_past_finds (w : Q) (l : list EnvPoint) :
  Ascending l -> has_point_at l w ->
  (scan_past w l 0 < length l)%nat /\ GetT (at_ l (scan_past w l 0)) == w.
Proof.
  intros Hs [p [Hin Hp]]. destruct (In_at _ _ Hin) as [k [Hk Ek]].
  assert (Hik : (scan_past w l 0 <= k)%nat).
  { destruct (le_lt_dec (scan_past w l 0) k) as [|Hlt]; auto.
    apply scan_past_before in Hlt. rewrite Ek in Hlt. lra. }
  assert (Hlen : (scan_past w l 0 < length l)%nat) by lia.
  split; auto.
  pose proof (scan_past_stop w l Hlen).
  pose proof (Ascending_le l _ k Hs Hik Hk). rewrite Ek in *. lra.
Qed.

Lemma scan_past_misses (w : Q) (l : list EnvPoint) :
  ~ has_point_at l w ->
  (scan_past w l 0 < length l)%nat -> w < GetT (at_ l (scan_past w l 0)).
Proof.
  intros Hn Hlen. pose proof (scan_past_stop w l Hlen) as Hle.
  destruct (Qeq_dec (GetT (at_ l (scan_past w l 0))) w) as [E|E].
  - exfalso. apply Hn. exists (at_ l (scan_past w l 0)). split; auto.
    now apply at_In.
  - lra.
Qed.

(** Inserting at the position the scan stops at keeps the order. *)
Lemma insert_StrictlyAscending (w v : Q) (l : list EnvPoint) :
  StrictlyAscending l ->
  ((scan_past w l 0 < length l)%nat -> w < GetT (at_ l (scan_past w l 0))) ->
  StrictlyAscending
    (firstn (scan_past w l 0) l ++ mkEnvPoint w v :: skipn (scan_past w l 0) l).
Proof.
  unfold StrictlyAscending.
  induction 1 as [|p l Hs IH Hh]; intros Hstop.
  - simpl. repeat constructor.
  - rewrite scan_past_cons in *. destruct (Qltb_spec (GetT p) w) as [Hlt|Hge].
    + simpl. constructor.
      * apply IH. intros H. specialize (Hstop ltac:(simpl; lia)).
        now rewrite at_cons in Hstop.
      * destruct l as [|q l]; [simpl; constructor; exact Hlt|].
        rewrite scan_past_cons. destruct (Qltb (GetT q) w); simpl.
        { constructor. now inversion Hh. }
        { constructor. exact Hlt. }
    + simpl. specialize (Hstop ltac:(simpl; lia)). unfold at_ in Hstop.
      simpl in Hstop. constructor.
      * now constructor.
      * constructor. exact Hstop.
Qed.

Lemma insert_Ascending (w v : Q) (l : list EnvPoint) :
  Ascending l ->
  Ascending
    (firstn (scan_past w l 0) l ++ mkEnvPoint w v :: skipn (scan_past w l 0) l).
Proof.
  unfold Ascending.
  induction 1 as [|p l Hs IH Hh].
  - simpl. repeat constructor.
  - rewrite scan_past_cons in *. destruct (Qltb_spec (GetT p) w) as [Hlt|Hge].
    + simpl. constructor; [exact IH|].
      destruct l as [|q l].
      { simpl. constructor. unfold not_after; simpl; lra. }
      rewrite scan_past_cons. destruct (Qltb (GetT q) w); simpl.
      { constructor. now inversion Hh. }
      { constructor. unfold not_after; simpl; lra. }
    + simpl. constructor.
      * now constructor.
      * constructor. unfold not_after; simpl; lra.
Qed.

Lemma insert_at (l : list EnvPoint) (i : nat) (p : EnvPoint) :
  (i <= length l)%nat -> at_ (firstn i l ++ p :: skipn i l) i = p.
Proof.
  intros H. unfold at_. rewrite app_nth2; rewrite firstn_length_le; auto; try lia.
  now rewrite Nat.sub_diag.
Qed.

Lemma insert_length (l : list EnvPoint) (i : nat) (p : EnvPoint) :
  length (firstn i l ++ p :: skipn i l) = S (length l).
Proof.
  rewrite length_app. simpl.
  rewrite <- (firstn_skipn i l) at 3. rewrite length_app. lia.
Qed.

Lemma skipn_all_nil (l : list EnvPoint) (i : nat) :
  (length l <= i)%nat -> skipn i l = [].
Proof. intros. now apply skipn_all2. Qed.

(** The three ways [InsertOrReplaceRelative] ends once past its guards. *)
Lemma InsertOrReplaceRelative_accepts (e : Envelope) (when value : Q) :
  0 <= when -> (when <= mTrackLen e \/ (length (mEnv e) <= 1)%nat) ->
  let i := scan_past when (mEnv e) 0 in
  InsertOrReplaceRelative e when value =
  if (i <? length (mEnv e))%nat && Qeqb when (GetT (at_ (mEnv e) i))
  then (Z.of_nat i, with_mEnv e (update (mEnv e) i (fun p => SetVal e p value)))
  else (Z.of_nat i,
        with_mEnv e (firstn i (mEnv e) ++ mkEnvPoint when value :: skipn i (mEnv e))).
Proof.
  intros H0 H1 i. unfold InsertOrReplaceRelative. cbv zeta.
  assert (E0 : Qltb when 0 = false) by (destruct (Qltb_spec when 0); auto; lra).
  assert (E1 : (1 <? length (mEnv e))%nat && Qltb (mTrackLen e) when = false).
  { destruct (Nat.ltb_spec 1 (length (mEnv e))); simpl; auto.
    destruct (Qltb_spec (mTrackLen e) when); auto. destruct H1; [lra | lia]. }
  rewrite E0, andb_false_r, E1. fold i.
  destruct ((i <? length (mEnv e))%nat && Qeqb when (GetT (at_ (mEnv e) i))); auto.
  destruct (Nat.ltb_spec i (length (mEnv e))); auto.
  unfold push_back. rewrite skipn_all_nil, firstn_all2 by lia. reflexivity.
Qed.

Lemma InsertOrReplaceRelative_overwrites (e : Envelope) (when value : Q) :
  Ascending (mEnv e) ->
  0 <= when -> (when <= mTrackLen e \/ (length (mEnv e) <= 1)%nat) ->
  has_point_at (mEnv e) when ->
  let i := scan_past when (mEnv e) 0 in
  (i < length (mEnv e))%nat /\ GetT (at_ (mEnv e) i) == when /\
  InsertOrReplaceRelative e when value =
    (Z.of_nat i, with_mEnv e (update (mEnv e) i (fun p => SetVal e p value))).
Proof.
  intros Hs H0 H1 Hp i.
  destruct (scan_past_finds when (mEnv e) Hs Hp) as [Hlt Heq]. fold i in Hlt, Heq.
  repeat split; auto.
  rewrite InsertOrReplaceRelative_accepts by assumption. fold i.
  destruct (Nat.ltb_spec i (length (mEnv e))); [|lia].
  destruct (Qeqb_spec when (GetT (at_ (mEnv e) i))) as [|Hn]; auto.
  exfalso. apply Hn. now symmetry.
Qed.

Lemma InsertOrReplaceRelative_inserts (e : Envelope) (when value : Q) :
  0 <= when -> (when <= mTrackLen e \/ (length (mEnv e) <= 1)%nat) ->
  ~ has_point_at (mEnv e) when ->
  let i := scan_past when (mEnv e) 0 in
  InsertOrReplaceRelative e when value =
    (Z.of_nat i,
     with_mEnv e (firstn i (mEnv e) ++ mkEnvPoint when value :: skipn i (mEnv e))).
Proof.
  intros H0 H1 Hp i.
  rewrite InsertOrReplaceRelative_accepts by assumption. fold i.
  destruct (Nat.ltb_spec i (length (mEnv e))); auto.
  destruct (Qeqb_spec when (GetT (at_ (mEnv e) i))) as [Heq|]; auto.
  exfalso. apply Hp. exists (at_ (mEnv e) i). split; [now apply at_In | now symmetry].
Qed.

Lemma has_point_at_dec (l : list EnvPoint) (t : Q) :
  has_point_at l t \/ ~ has_point_at l t.
Proof.
  induction l as [|p l [IH|IH]].
  - right. intros [p [[] _]].
  - left. destruct IH as [q [? ?]]. exists q. split; [now right | auto].
  - destruct (Qeq_dec (GetT p) t) as [E|E].
    + left. exists p. split; [now left | auto].
    + right. intros [q [[->|Hin] Hq]]; [contradiction|].
      apply IH. now exists q.
Qed.

Lemma filter_none (f : EnvPoint -> bool) (l : list EnvPoint) :
  (forall j, (j < length l)%nat -> f (at_ l j) = false) -> filter f l = [].
Proof.
  induction l as [|p l IH]; intros H; simpl; auto.
  pose proof (H 0%nat ltac:(simpl; lia)) as H0. unfold at_ in H0; simpl in H0.
  rewrite H0. apply IH. intros j Hj. apply (H (S j)). simpl; lia.
Qed.

(** A strictly ascending vector has at most one point at a time. *)
Lemma filter_single (f : EnvPoint -> bool) (l : list EnvPoint) (i : nat) :
  (i < length l)%nat -> f (at_ l i) = true ->
  (forall j, (j < length l)%nat -> j <> i -> f (at_ l j) = false) ->
  filter f l = [at_ l i].
Proof.
  revert i. induction l as [|p l IH]; intros i Hi Ht Hf; [simpl in Hi; lia|].
  destruct i as [|i]; simpl.
  - unfold at_ in Ht; simpl in Ht. rewrite Ht. f_equal.
    apply filter_none. intros k Hk.
    specialize (Hf (S k) ltac:(simpl; lia) ltac:(lia)). now rewrite at_cons in Hf.
  - pose proof (Hf 0%nat ltac:(simpl; lia) ltac:(lia)) as H0.
    unfold at_ in H0; simpl in H0. rewrite H0.
    rewrite at_cons in *. apply IH; auto; [simpl in Hi; lia|].
    intros j Hj Hne. specialize (Hf (S j) ltac:(simpl; lia) ltac:(lia)).
    now rewrite at_cons in Hf.
Qed.

Lemma points_at_single (l : list EnvPoint) (t : Q) (i : nat) :
  StrictlyAscending l -> (i < length l)%nat -> GetT (at_ l i) == t ->
  points_at l t = [at_ l i].
Proof.
  intros Hs Hi Ht. apply filter_single; auto.
  - destruct (Qeqb_spec (GetT (at_ l i)) t); [reflexivity | contradiction].
  - intros j Hj Hne. destruct (Qeqb_spec (GetT (at_ l j)) t) as [E|]; auto.
    exfalso. destruct (Nat.lt_total j i) as [Hlt|[->|Hlt]]; [| congruence |].
    + pose proof (StrictlyAscending_lt l j i Hs Hlt Hi). lra.
    + pose proof (StrictlyAscending_lt l i j Hs Hlt Hj). lra.
Qed.

Lemma SetVal_time (e : Envelope) (v : Q) (p : EnvPoint) :
  GetT (SetVal e p v) = GetT p.
Proof. reflexivity. Qed.

(** What an accepted call leaves behind: a strictly ascending vector with
    a point at the given time holding the value, clamped when it
    overwrote. *)
Lemma InsertOrReplaceRelative_leaves (e : Envelope) (when value : Q) :
  StrictlyAscending (mEnv e) ->
  0 <= when -> (when <= mTrackLen e \/ (length (mEnv e) <= 1)%nat) ->
  let e' := snd (InsertOrReplaceRelative e when value) in
  StrictlyAscending (mEnv e') /\
  mTrackLen e' = mTrackLen e /\ mMinValue e' = mMinValue e /\
  mMaxValue e' = mMaxValue e /\
  exists i, (i < length (mEnv e'))%nat /\ GetT (at_ (mEnv e') i) == when /\
            (has_point_at (mEnv e) when ->
               GetVal (at_ (mEnv e') i) = ClampValue e value).
Proof.
  intros Hs H0 H1 e'. subst e'.
  destruct (has_point_at_dec (mEnv e) when) as [Hp|Hp].
  - destruct (InsertOrReplaceRelative_overwrites e when value
                (StrictlyAscending_Ascending _ Hs) H0 H1 Hp) as [Hi [Ht ->]].
    simpl. repeat split; auto.
    + eapply StrictlyAscending_times; [|exact Hs].
      symmetry. apply update_times. intros p. apply SetVal_time.
    + exists (scan_past when (mEnv e) 0). rewrite update_length, update_at by auto.
      repeat split; auto.
  - rewrite (InsertOrReplaceRelative_inserts e when value H0 H1 Hp). simpl.
    repeat split; auto.
    + apply insert_StrictlyAscending; auto. now apply scan_past_misses.
    + exists (scan_past when (mEnv e) 0).
      rewrite insert_length, insert_at by apply scan_past_le.
      pose proof (scan_past_le when (mEnv e)).
      split; [lia|]. split; [reflexivity | tauto].
Qed.


(** C2, as the code has it.  [InsertOrReplaceRelative] guards instead of
    clamping: on a populated envelope a negative time returns [0] and
    changes nothing, and with more than one point a time beyond the span
    returns the last index and changes nothing; only on an empty envelope
    is a negative time clamped to [0].  For the times it accepts, on a
    strictly ascending vector: a point at exactly that time is overwritten
    (the value clamped to the range), its index returned and the count
    unchanged; otherwise the point is inserted where the strict order is
    kept and the new index returned.  Two calls at one time inside the
    span leave exactly one point there, holding the second value clamped
    to the range. *)
Theorem InsertOrReplaceRelative_spec (e : Envelope) (when value : Q) :
  StrictlyAscending (mEnv e) ->
  let len := length (mEnv e) in
  let r := InsertOrReplaceRelative e when value in
  (len <> 0%nat -> when < 0 -> r = (0%Z, e)) /\
  ((1 < len)%nat -> 0 <= when -> mTrackLen e < when ->
   r = ((Z.of_nat len - 1)%Z, e)) /\
  (len = 0%nat -> when < 0 -> r = (0%Z, with_mEnv e [mkEnvPoint 0 value])) /\
  (0 <= when -> when <= mTrackLen e \/ (len <= 1)%nat ->
   exists i : nat,
     fst r = Z.of_nat i /\
     (has_point_at (mEnv e) when ->
        (i < len)%nat /\ GetT (at_ (mEnv e) i) == when /\
        snd r = with_mEnv e (update (mEnv e) i (fun p => SetVal e p value)) /\
        length (mEnv (snd r)) = len) /\
     (~ has_point_at (mEnv e) when ->
        snd r = with_mEnv e
                  (firstn i (mEnv e) ++ mkEnvPoint when value :: skipn i (mEnv e)) /\
        at_ (mEnv (snd r)) i = mkEnvPoint when value /\
        length (mEnv (snd r)) = S len /\
        StrictlyAscending (mEnv (snd r)))) /\
  (0 <= when -> when <= mTrackLen e ->
   forall value2 : Q,
     let e2 := snd (InsertOrReplaceRelative (snd r) when value2) in
     exists p, points_at (mEnv e2) when = [p] /\
               GetVal p = ClampValue e value2).
Proof.
  intros Hs len r. subst len r.
  split; [|split; [|split; [|split]]].
  - intros Hlen Hneg. unfold InsertOrReplaceRelative.
    destruct (Nat.eqb_spec (length (mEnv e)) 0); [contradiction|].
    destruct (Qltb_spec when 0); [reflexivity | lra].
  - intros Hlen Hpos Hbig. unfold InsertOrReplaceRelative.
    destruct (Qltb_spec when 0); [lra|]. rewrite andb_false_r.
    destruct (Nat.ltb_spec 1 (length (mEnv e))); [|lia].
    destruct (Qltb_spec (mTrackLen e) when); [reflexivity | lra].
  - intros Hlen Hneg. unfold InsertOrReplaceRelative. cbv zeta.
    destruct (mEnv e) as [|p l] eqn:El; [|discriminate]. simpl.
    destruct (Qltb_spec when 0); [|lra]. simpl.
    unfold push_back. now rewrite El.
  - intros H0 H1. exists (scan_past when (mEnv e) 0). split; [|split].
    + rewrite InsertOrReplaceRelative_accepts by assumption.
      now destruct (_ && _).
    + intros Hp.
      destruct (InsertOrReplaceRelative_overwrites e when value
                  (StrictlyAscending_Ascending _ Hs) H0 H1 Hp) as [Hi [Ht ->]].
      simpl. now rewrite update_length.
    + intros Hp.
      rewrite (InsertOrReplaceRelative_inserts e when value H0 H1 Hp). simpl.
      rewrite insert_at by apply scan_past_le. rewrite insert_length.
      repeat split. apply insert_StrictlyAscending; auto.
      now apply scan_past_misses.
  - intros H0 H1 value2 e2. subst e2.
    destruct (InsertOrReplaceRelative_leaves e when value Hs H0 (or_introl H1))
      as [Hs1 [El [Emin [Emax [i [Hi [Ht _]]]]]]].
    set (e1 := snd (InsertOrReplaceRelative e when value)) in *.
    assert (Hp : has_point_at (mEnv e1) when).
    { exists (at_ (mEnv e1) i). split; [now apply at_In | exact Ht]. }
    assert (H1' : when <= mTrackLen e1 \/ (length (mEnv e1) <= 1)%nat)
      by (left; rewrite El; exact H1).
    destruct (InsertOrReplaceRelative_leaves e1 when value2 Hs1 H0 H1')
      as [Hs2 [_ [_ [_ [k [Hk [Htk Hv]]]]]]].
    exists (at_ (mEnv (snd (InsertOrReplaceRelative e1 when value2))) k).
    split.
    + now apply points_at_single.
    + rewrite (Hv Hp). unfold ClampValue. now rewrite Emin, Emax.
Qed.

(** The claim C2 as stated fails on a populated envelope and a negative
    time: the time clamps to [0], where there is no point, and no point
    is inserted. *)
Lemma InsertOrReplace_negative_time_is_dropped :
  ~ InsertOrReplace_as_specified (sample_envelope [mkEnvPoint 1 5]) (-1) 7.
Proof.
  intros [i [_ [_ H]]].
  assert (Hn : ~ has_point_at (mEnv (sample_envelope [mkEnvPoint 1 5]))
                 (clamp_time (sample_envelope [mkEnvPoint 1 5]) (-1))).
  { intros [p [[<-|[]] Hp]]. vm_compute in Hp. discriminate. }
  destruct (H Hn) as [Hlen _]. vm_compute in Hlen. discriminate.
Qed.

Lemma InsertOrReplaceRelative_spec_witness :
  let e := sample_envelope three_points in
  exists p, points_at (mEnv (snd (InsertOrReplaceRelative
                                   (snd (InsertOrReplaceRelative e 5 7)) 5 8))) 5
            = [p] /\ GetVal p = ClampValue e 8.
Proof.
  assert (Hs : StrictlyAscending (mEnv (sample_envelope three_points))).
  { repeat constructor. }
  destruct (InsertOrReplaceRelative_spec (sample_envelope three_points) 5 7 Hs)
    as [_ [_ [_ [_ H]]]].
  apply H; vm_compute; discriminate.
Defined.

(** ** Reassign *)

(** C9.  [Reassign(t, value)] looks for a point at [t - mOffset].  When
    no point has exactly that time it returns [-1] and the envelope is the
    one it was given; otherwise it returns [0] and the first (on a
    strictly ascending vector, the only) point at that time has its value
    overwritten, clamped to the range, and nothing else changes.  It is a
    total function, and on an empty envelope it returns [-1]. *)
Theorem Reassign_spec (e : Envelope) (when value : Q) :
  Ascending (mEnv e) ->
  let t := when - mOffset e in
  let r := Reassign e when value in
  (mEnv e = [] -> r = ((-1)%Z, e)) /\
  (~ has_point_at (mEnv e) t -> r = ((-1)%Z, e)) /\
  (has_point_at (mEnv e) t ->
   exists i : nat,
     (i < length (mEnv e))%nat /\ GetT (at_ (mEnv e) i) == t /\
     (forall j, (j < i)%nat -> GetT (at_ (mEnv e) j) < t) /\
     r = (0%Z, with_mEnv e (update (mEnv e) i (fun p => SetVal e p value))) /\
     length (mEnv (snd r)) = length (mEnv e) /\
     at_ (mEnv (snd r)) i = mkEnvPoint (GetT (at_ (mEnv e) i)) (ClampValue e value) /\
     (in_range e value -> GetVal (at_ (mEnv (snd r)) i) == value) /\
     (forall j, j <> i -> at_ (mEnv (snd r)) j = at_ (mEnv e) j)).
Proof.
  intros Hs t r. subst r. unfold Reassign. fold t. split; [|split].
  - intros ->. reflexivity.
  - intros Hn. destruct (Nat.eqb_spec (length (mEnv e)) 0); auto.
    destruct (Nat.leb_spec (length (mEnv e)) (scan_past t (mEnv e) 0)); auto.
    destruct (Qltb_spec t (GetT (at_ (mEnv e) (scan_past t (mEnv e) 0)))); auto.
    exfalso. pose proof (scan_past_misses t (mEnv e) Hn ltac:(lia)). lra.
  - intros Hp. destruct (scan_past_finds t (mEnv e) Hs Hp) as [Hi Ht].
    exists (scan_past t (mEnv e) 0).
    destruct (Nat.eqb_spec (length (mEnv e)) 0); [lia|].
    destruct (Nat.leb_spec (length (mEnv e)) (scan_past t (mEnv e) 0)); [lia|].
    destruct (Qltb_spec t (GetT (at_ (mEnv e) (scan_past t (mEnv e) 0)))); [lra|].
    simpl. rewrite update_length, update_at by auto.
    repeat split; auto.
    + intros j Hj. now apply scan_past_before.
    + intros Hr. simpl. now apply ClampValue_fixes.
    + intros j Hj. apply update_other. congruence.
Qed.

Lemma Reassign_spec_witness :
  Reassign (sample_envelope three_points) 7 4 =
    ((-1)%Z, sample_envelope three_points).
Proof.
  assert (Hs : Ascending (mEnv (sample_envelope three_points))).
  { repeat constructor; unfold not_after; simpl; lra. }
  destruct (Reassign_spec (sample_envelope three_points) 7 4 Hs) as [_ [H _]].
  apply H. intros [p [Hin Hp]]. simpl in Hin.
  destruct Hin as [<-|[<-|[<-|[]]]]; vm_compute in Hp; discriminate.
Defined.

(** ** Values and the range *)

(** The writes that go through [SetVal] leave values inside the range. *)
Lemma SetRange_values_in_range (e : Envelope) (lo hi : Q) :
  lo <= hi -> values_in_range (SetRange e lo hi).
Proof.
  intros H. unfold SetRange, SetAllVals. cbv zeta. split.
  - apply (ClampValue_in_range (with_range e lo hi)). exact H.
  - cbn [mEnv with_mEnv with_mDefaultValue with_range].
    apply Forall_forall. intros p Hp. apply in_map_iff in Hp.
    destruct Hp as [q [<- _]].
    apply (ClampValue_in_range (with_range e lo hi)). exact H.
Qed.

Lemma update_Forall (P : EnvPoint -> Prop) (l : list EnvPoint) (i : nat) f :
  Forall P l -> (forall p, P (f p)) -> Forall P (update l i f).
Proof.
  intros Hl Hf. revert i. induction Hl as [|p l Hp Hl IH]; intros [|i]; simpl;
    constructor; auto.
Qed.

Lemma overwrite_values_in_range (e : Envelope) (i : nat) (value : Q) :
  mMinValue e <= mMaxValue e -> values_in_range e ->
  values_in_range (with_mEnv e (update (mEnv e) i (fun p => SetVal e p value))).
Proof.
  intros H [Hd Hl]. split; [exact Hd|]. cbn [mEnv with_mEnv].
  apply update_Forall.
  - exact Hl.
  - intros p. apply (ClampValue_in_range e). exact H.
Qed.

(** C5 at the failing input: the value given to [InsertOrReplaceRelative]
    is stored as it is when the call inserts a point (the overwriting
    branch goes through [SetVal] and clamps).  On the empty sample
    envelope, whose range is [[0, 10]], the value [20] is stored. *)
Theorem InsertOrReplaceRelative_inserts_unclamped :
  let e := sample_envelope [] in
  let e' := snd (InsertOrReplaceRelative e (1 # 2) 20) in
  values_in_range e /\
  mEnv e' = [mkEnvPoint (1 # 2) 20] /\
  ~ values_in_range e' /\
  ClampValue e 20 = 10 /\
  mEnv (snd (InsertOrReplaceRelative e' (1 # 2) 20)) = [mkEnvPoint (1 # 2) 10].
Proof.
  cbv zeta. split; [|split; [|split; [|split]]]; try reflexivity.
  - split; [vm_compute; split; discriminate | constructor].
  - intros [_ H]. inversion H as [|? ? [_ Hv] _]; subst.
    vm_compute in Hv. now apply Hv.
Qed.

(** ** BinarySearchForTime *)

Lemma guess_hits_brackets (l : list EnvPoint) (g : Z) (t : Q) :
  guess_hits l g t = true -> brackets l t g (1 + g).
Proof.
  unfold guess_hits, brackets. intros H.
  apply andb_prop in H. destruct H as [H1 H2].
  apply andb_prop in H1. destruct H1 as [Hg0 Hg1].
  apply andb_prop in H2. destruct H2 as [Ht Hn].
  apply Z.leb_le in Hg0. apply Z.ltb_lt in Hg1.
  destruct (Qleb_spec (GetT (atZ l g)) t); [|discriminate].
  repeat split; try lia; auto.
  intros Hlt. apply orb_prop in Hn. destruct Hn as [Hn|Hn].
  - apply Z.eqb_eq in Hn. lia.
  - destruct (Qltb_spec t (GetT (atZ l (1 + g)))); [assumption | discriminate].
Qed.

(** The loop ends with adjacent bounds around [t]; the fuel covers the
    distance between the bounds. *)
Lemma bisect_brackets (fuel : nat) (l : list EnvPoint) (t : Q) :
  forall Lo Hi : Z,
    (Hi - Lo <= Z.of_nat fuel + 1)%Z ->
    (-1 <= Lo)%Z -> (Lo < Hi)%Z -> (Hi <= Z.of_nat (length l))%Z ->
    ((0 <= Lo)%Z -> GetT (atZ l Lo) <= t) ->
    ((Hi < Z.of_nat (length l))%Z -> t < GetT (atZ l Hi)) ->
    brackets l t (fst (bisect fuel l t Lo Hi)) (snd (bisect fuel l t Lo Hi)).
Proof.
  induction fuel as [|fuel IH]; intros Lo Hi Hf H1 H2 H3 HLo HHi.
  - simpl. unfold brackets. repeat split; auto; lia.
  - simpl. destruct (Z.ltb_spec (Lo + 1) Hi) as [Hgap|Hgap].
    + assert (Hmid : (Lo < (Lo + Hi) ÷ 2 < Hi)%Z).
      { rewrite Z.quot_div_nonneg by lia. Z.div_mod_to_equations. lia. }
      destruct (Qltb_spec t (GetT (atZ l ((Lo + Hi) ÷ 2)))) as [Hlt|Hge].
      * apply IH; auto; lia.
      * apply IH; auto; try lia. intros _. lra.
    + simpl. unfold brackets. repeat split; auto; lia.
Qed.

(** Whichever of its three ways the search takes, it returns a bracket
    of [t]. *)
Lemma BinarySearchForTime_brackets (l : list EnvPoint) (g : Z) (t : Q) :
  brackets l t (fst (fst (BinarySearchForTime l g t)))
               (snd (fst (BinarySearchForTime l g t))).
Proof.
  unfold BinarySearchForTime.
  destruct (guess_hits l g t) eqn:E1; [now apply guess_hits_brackets|].
  destruct (guess_hits l (g + 1) t) eqn:E2; [now apply guess_hits_brackets|].
  pose proof (bisect_brackets (S (length l)) l t (-1) (Z.of_nat (length l))) as H.
  destruct (bisect (S (length l)) l t (-1) (Z.of_nat (length l))) as [Lo Hi].
  simpl in *. apply H; try lia.
Qed.

(** On an ascending vector a time has one bracket. *)
Lemma brackets_unique (l : list EnvPoint) (t : Q) (lo hi lo' hi' : Z) :
  Ascending l -> brackets l t lo hi -> brackets l t lo' hi' ->
  lo = lo' /\ hi = hi'.
Proof.
  intros Hs [E [R [L H]]] [E' [R' [L' H']]].
  assert (Hkey : forall a b : Z,
             (-1 <= a)%Z -> (a + 1 <= b)%Z -> (b < Z.of_nat (length l))%Z ->
             t < GetT (atZ l (a + 1)) -> GetT (atZ l b) <= t -> False).
  { intros a b Ha Hab Hb Hlt Hle.
    pose proof (Ascending_le l (Z.to_nat (a + 1)) (Z.to_nat b) Hs
                  ltac:(lia) ltac:(lia)) as Hm.
    unfold atZ in *. lra. }
  destruct (Z.lt_total lo lo') as [Hlt|[Heq|Hlt]].
  - exfalso. apply (Hkey lo lo'); try lia.
    + rewrite <- E. apply H. lia.
    + apply L'. lia.
  - split; lia.
  - exfalso. apply (Hkey lo' lo); try lia.
    + rewrite <- E'. apply H'. lia.
    + apply L. lia.
Qed.

Lemma BinarySearchForTime_any_guess (l : list EnvPoint) (t : Q) (g g' : Z) :
  Ascending l ->
  fst (BinarySearchForTime l g t) = fst (BinarySearchForTime l g' t).
Proof.
  intros Hs.
  pose proof (BinarySearchForTime_brackets l g t) as H.
  pose proof (BinarySearchForTime_brackets l g' t) as H'.
  destruct (brackets_unique _ _ _ _ _ _ Hs H H') as [E1 E2].
  destruct (fst (BinarySearchForTime l g t)), (fst (BinarySearchForTime l g' t)).
  simpl in *. congruence.
Qed.

(** Points up to [lo] are at or before [t], points from [hi] on after. *)
Lemma brackets_split (l : list EnvPoint) (t : Q) (lo hi : Z) :
  Ascending l -> brackets l t lo hi ->
  forall k : nat, (k < length l)%nat ->
    ((Z.of_nat k <= lo)%Z -> GetT (at_ l k) <= t) /\
    ((hi <= Z.of_nat k)%Z -> t < GetT (at_ l k)).
Proof.
  intros Hs [E [R [L H]]] k Hk. split; intros Hc.
  - pose proof (Ascending_le l k (Z.to_nat lo) Hs ltac:(lia) ltac:(lia)).
    specialize (L ltac:(lia)). unfold atZ in L. lra.
  - pose proof (Ascending_le l (Z.to_nat hi) k Hs ltac:(lia) ltac:(lia)).
    specialize (H ltac:(lia)). unfold atZ in H. lra.
Qed.

Section SearchCache.

Variable log10 : Q -> Q.
Variable pow10 : Q -> Q.
Variable log : Q -> Q.
Variable exp : Q -> Q.

Lemma GetValuesRelative_turn_any_guess (e : Envelope) (tstep : Q) (b : nat)
  (prev : Q) (s s' : scan_state) :
  Ascending (mEnv e) -> same_scan s s' ->
  fst (GetValuesRelative_turn log10 pow10 e tstep b prev s) =
  fst (GetValuesRelative_turn log10 pow10 e tstep b prev s') /\
  same_scan (snd (GetValuesRelative_turn log10 pow10 e tstep b prev s))
            (snd (GetValuesRelative_turn log10 pow10 e tstep b prev s')).
Proof.
  intros Hs [Et [En Ev]]. unfold GetValuesRelative_turn. rewrite <- Et, <- En, <- Ev.
  destruct (length (mEnv e) <=? 0)%nat; [repeat split; simpl; congruence|].
  destruct (Qleb (sc_t s) (GetT (at_ (mEnv e) 0)));
    [repeat split; simpl; congruence|].
  destruct (Qleb (GetT (at_ (mEnv e) (length (mEnv e) - 1))) (sc_t s));
    [repeat split; simpl; congruence|].
  destruct ((b =? 0)%nat || Qltb (sc_tnext s) (sc_t s));
    [|repeat split; simpl; congruence].
  pose proof (BinarySearchForTime_any_guess (mEnv e) (sc_t s)
                (sc_guess s) (sc_guess s') Hs) as E.
  destruct (BinarySearchForTime (mEnv e) (sc_guess s) (sc_t s)) as [[lo hi] g].
  destruct (BinarySearchForTime (mEnv e) (sc_guess s') (sc_t s)) as [[lo' hi'] g'].
  simpl in E. injection E as -> ->.
  destruct (Qltb 0 _); destruct (mDB e); repeat split; reflexivity.
Qed.

Lemma GetValuesRelative_loop_any_guess (e : Envelope) (tstep : Q) (n : nat) :
  Ascending (mEnv e) ->
  forall (b : nat) (prev : Q) (s s' : scan_state),
    same_scan s s' ->
    fst (GetValuesRelative_loop log10 pow10 e tstep n b prev s) =
    fst (GetValuesRelative_loop log10 pow10 e tstep n b prev s').
Proof.
  intros Hs. induction n as [|n IH]; intros b prev s s' Hss; [reflexivity|].
  simpl.
  destruct (GetValuesRelative_turn_any_guess e tstep b prev s s' Hs Hss) as [Ev Hn].
  destruct (GetValuesRelative_turn log10 pow10 e tstep b prev s) as [v s1].
  destruct (GetValuesRelative_turn log10 pow10 e tstep b prev s') as [v' s1'].
  simpl in Ev, Hn. subst v'. specialize (IH (S b) v s1 s1' Hn).
  destruct (GetValuesRelative_loop log10 pow10 e tstep n (S b) v s1).
  destruct (GetValuesRelative_loop log10 pow10 e tstep n (S b) v s1').
  simpl in *. congruence.
Qed.

(** The loop reads the cache from its own state, not from the envelope. *)
Lemma GetValuesRelative_loop_with_mSearchGuess (e : Envelope) (g : Z)
  (tstep : Q) (n : nat) :
  forall (b : nat) (prev : Q) (s : scan_state),
    GetValuesRelative_loop log10 pow10 (with_mSearchGuess e g) tstep n b prev s =
    GetValuesRelative_loop log10 pow10 e tstep n b prev s.
Proof.
  induction n as [|n IH]; intros b prev s; [reflexivity|].
  simpl.
  change (GetValuesRelative_turn log10 pow10 (with_mSearchGuess e g) tstep b prev s)
    with (GetValuesRelative_turn log10 pow10 e tstep b prev s).
  destruct (GetValuesRelative_turn log10 pow10 e tstep b prev s) as [v s1].
  now rewrite IH.
Qed.

Lemma Integral_loop_with_mSearchGuess (e : Envelope) (g : Z) (t1 : Q) (n : nat) :
  forall (i : nat) (total lastT lastVal : Q),
    Integral_loop log exp (with_mSearchGuess e g) t1 n i total lastT lastVal =
    Integral_loop log exp e t1 n i total lastT lastVal.
Proof.
  induction n as [|n IH]; intros i total lastT lastVal; [reflexivity|].
  simpl. now rewrite IH.
Qed.

(** C7.  On an ascending point vector, whatever the cached guess holds
    (a valid index, a stale one, any integer), [BinarySearchForTime]
    returns the one pair [lo], [hi = lo + 1] with
    [points[lo].time <= t < points[hi].time], [-1] and the size standing
    in at the ends; so the buffer of [GetValuesRelative], the value of
    [GetValueRelative], [NextPointAfter], [NumberOfPointsAfter] and
    [Integral] are the same for any two states of the cache. *)
Theorem searchHint_is_unobservable (e : Envelope) (t : Q) (g g' : Z) :
  Ascending (mEnv e) ->
  let r := BinarySearchForTime (mEnv e) g t in
  brackets (mEnv e) t (fst (fst r)) (snd (fst r)) /\
  (forall lo hi, brackets (mEnv e) t lo hi -> fst r = (lo, hi)) /\
  fst (BinarySearchForTime (mEnv e) g' t) = fst r /\
  (forall (n : nat) (tstep : Q),
     fst (GetValuesRelative log10 pow10 (with_mSearchGuess e g) n t tstep) =
     fst (GetValuesRelative log10 pow10 (with_mSearchGuess e g') n t tstep)) /\
  GetValueRelative log10 pow10 (with_mSearchGuess e g) t =
  GetValueRelative log10 pow10 (with_mSearchGuess e g') t /\
  NextPointAfter (with_mSearchGuess e g) t =
  NextPointAfter (with_mSearchGuess e g') t /\
  NumberOfPointsAfter (with_mSearchGuess e g) t =
  NumberOfPointsAfter (with_mSearchGuess e g') t /\
  (forall t1 : Q,
     Integral log exp (with_mSearchGuess e g) t t1 =
     Integral log exp (with_mSearchGuess e g') t t1).
Proof.
  intros Hs r. subst r.
  assert (Hloop : forall (n : nat) (tstep : Q),
     fst (GetValuesRelative log10 pow10 (with_mSearchGuess e g) n t tstep) =
     fst (GetValuesRelative log10 pow10 (with_mSearchGuess e g') n t tstep)).
  { intros n tstep. unfold GetValuesRelative.
    rewrite !GetValuesRelative_loop_with_mSearchGuess. simpl.
    apply GetValuesRelative_loop_any_guess; auto. repeat split. }
  assert (Hfst : forall a b t', fst (BinarySearchForTime (mEnv e) a t') =
                                fst (BinarySearchForTime (mEnv e) b t'))
    by (intros; now apply BinarySearchForTime_any_guess).
  split; [apply BinarySearchForTime_brackets|].
  split.
  { intros lo hi Hb.
    destruct (brackets_unique _ _ _ _ _ _ Hs
                (BinarySearchForTime_brackets (mEnv e) g t) Hb) as [E1 E2].
    destruct (fst (BinarySearchForTime (mEnv e) g t)). simpl in *. congruence. }
  split; [apply Hfst|].
  split; [exact Hloop|].
  split; [unfold GetValueRelative; now rewrite Hloop|].
  split.
  { unfold NextPointAfter. simpl. specialize (Hfst g g' t).
    destruct (BinarySearchForTime (mEnv e) g t) as [[lo hi] x].
    destruct (BinarySearchForTime (mEnv e) g' t) as [[lo' hi'] x'].
    simpl in Hfst. now injection Hfst as -> ->. }
  split.
  { unfold NumberOfPointsAfter. simpl. specialize (Hfst g g' t).
    destruct (BinarySearchForTime (mEnv e) g t) as [[lo hi] x].
    destruct (BinarySearchForTime (mEnv e) g' t) as [[lo' hi'] x'].
    simpl in Hfst. now injection Hfst as -> ->. }
  intros t1. unfold Integral.
  assert (Hord : forall a b,
            Integral_ordered log exp (with_mSearchGuess e g) a b =
            Integral_ordered log exp (with_mSearchGuess e g') a b).
  { intros a b. unfold Integral_ordered. simpl.
    specialize (Hfst g g' (a - mOffset e)).
    destruct (BinarySearchForTime (mEnv e) g (a - mOffset e)) as [[lo hi] x].
    destruct (BinarySearchForTime (mEnv e) g' (a - mOffset e)) as [[lo' hi'] x'].
    simpl in Hfst. injection Hfst as -> ->.
    now rewrite !Integral_loop_with_mSearchGuess. }
  now rewrite !Hord.
Qed.

End SearchCache.

Lemma searchHint_is_unobservable_witness :
  fst (BinarySearchForTime three_points 7 (11 # 2)) =
  fst (BinarySearchForTime three_points (-1) (11 # 2)).
Proof.
  assert (Hs : Ascending (mEnv (sample_envelope three_points))).
  { repeat constructor; unfold not_after; simpl; lra. }
  destruct (searchHint_is_unobservable (fun x => x) (fun x => x) (fun x => x)
              (fun x => x) (sample_envelope three_points)
              (11 # 2) (-1) 7 Hs) as [_ [_ [H _]]].
  exact H.
Defined.

(** ** NextPointAfter *)

(** C10.  On an ascending point vector, when some point lies after [t],
    [NextPointAfter t] is the time of a point after [t] that no point
    after [t] precedes; when no point lies after [t], and so on the empty
    envelope, it is [t] itself. *)
Theorem NextPointAfter_spec (e : Envelope) (t : Q) :
  Ascending (mEnv e) ->
  ((exists p, In p (mEnv e) /\ t < GetT p) ->
   exists q, In q (mEnv e) /\ NextPointAfter e t = GetT q /\ t < GetT q /\
             forall p, In p (mEnv e) -> t < GetT p -> GetT q <= GetT p) /\
  (~ (exists p, In p (mEnv e) /\ t < GetT p) -> NextPointAfter e t = t) /\
  (mEnv e = [] -> NextPointAfter e t = t).
Proof.
  intros Hs.
  pose proof (BinarySearchForTime_brackets (mEnv e) (mSearchGuess e) t) as Hb.
  pose proof (brackets_split (mEnv e) t _ _ Hs Hb) as Hsp.
  unfold NextPointAfter.
  destruct (BinarySearchForTime (mEnv e) (mSearchGuess e) t) as [[lo hi] g].
  simpl in Hb, Hsp. destruct Hb as [E [R [L H]]].
  assert (Hnone : ~ (exists p, In p (mEnv e) /\ t < GetT p) ->
                  (if (Z.of_nat (length (mEnv e)) <=? hi)%Z then t
                   else GetT (atZ (mEnv e) hi)) = t).
  { intros Hn. destruct (Z.leb_spec (Z.of_nat (length (mEnv e))) hi); auto.
    exfalso. apply Hn. exists (atZ (mEnv e) hi). split.
    - apply at_In. lia.
    - apply H. lia. }
  split; [|split; auto].
  - intros [p [Hin Hp]]. destruct (In_at _ _ Hin) as [k [Hk Ek]].
    destruct (Z.leb_spec (Z.of_nat (length (mEnv e))) hi) as [Hend|Hin'].
    + exfalso. destruct (Hsp k Hk) as [Hle _]. rewrite Ek in Hle.
      specialize (Hle ltac:(lia)). lra.
    + exists (atZ (mEnv e) hi). repeat split.
      * apply at_In. lia.
      * apply H. lia.
      * intros p' Hin'' Hp'. destruct (In_at _ _ Hin'') as [k' [Hk' Ek']].
        destruct (Z.le_gt_cases hi (Z.of_nat k')) as [Hc|Hc].
        { pose proof (Ascending_le (mEnv e) (Z.to_nat hi) k' Hs
                        ltac:(lia) ltac:(lia)) as Hm.
          unfold atZ. now rewrite Ek' in Hm. }
        { exfalso. destruct (Hsp k' Hk') as [Hle _]. rewrite Ek' in Hle.
          specialize (Hle ltac:(lia)). lra. }
  - intros El. apply Hnone. rewrite El. intros [p [[] _]].
Qed.

Lemma NextPointAfter_spec_witness :
  NextPointAfter (sample_envelope triangle) 10 = 10.
Proof.
  assert (Hs : Ascending (mEnv (sample_envelope triangle))).
  { repeat constructor; unfold not_after; simpl; lra. }
  destruct (NextPointAfter_spec (sample_envelope triangle) 10 Hs) as [_ [H _]].
  apply H. intros [p [Hin Hp]]. simpl in Hin.
  destruct Hin as [<-|[<-|[<-|[]]]]; vm_compute in Hp; discriminate.
Defined.

(** ** Order by adjacent indices *)

Lemma Sorted_adjacent (R : EnvPoint -> EnvPoint -> Prop) (l : list EnvPoint) :
  Sorted R l <->
  (forall j, (S j < length l)%nat -> R (at_ l j) (at_ l (S j))).
Proof.
  induction l as [|p l IH]; split.
  - intros _ j Hj. simpl in Hj. lia.
  - constructor.
  - intros H j Hj. inversion H as [|? ? Hs Hh]; subst.
    destruct j as [|j].
    + destruct l as [|q l]; [simpl in Hj; lia|]. now inversion Hh.
    + rewrite !at_cons. apply IH; auto. simpl in Hj. lia.
  - intros H. constructor.
    + apply IH. intros j Hj. specialize (H (S j)). rewrite !at_cons in H.
      apply H. simpl. lia.
    + destruct l as [|q l]; constructor.
      apply (H 0%nat). simpl. lia.
Qed.

Lemma Ascending_adjacent (l : list EnvPoint) :
  Ascending l <->
  (forall j, (S j < length l)%nat -> GetT (at_ l j) <= GetT (at_ l (S j))).
Proof. apply Sorted_adjacent. Qed.

Lemma StrictlyAscending_adjacent (l : list EnvPoint) :
  StrictlyAscending l <->
  (forall j, (S j < length l)%nat -> GetT (at_ l j) < GetT (at_ l (S j))).
Proof. apply Sorted_adjacent. Qed.

(** ** MoveDragPoint *)

Lemma MoveDragPoint_engaged (e : Envelope) (newWhen value : Q) :
  (0 <= mDragPoint e)%Z ->
  MoveDragPoint e newWhen value =
  with_mEnv (with_drag e (mDragPoint e) true)
    (update (mEnv e) (Z.to_nat (mDragPoint e))
       (fun p => SetVal e
                   (SetT p (std_max (drag_limitLo e)
                                    (std_min (drag_limitHi e) newWhen)))
                   value)).
Proof.
  intros H. unfold MoveDragPoint, SetDragPointValid.
  apply Z.leb_le in H. cbv zeta. rewrite H.
  cbn [with_drag mDragPoint mDragPointValid andb negb].
  rewrite H. reflexivity.
Qed.

(** C8, as the code has it.  For a point engaged at index [i] of an
    ascending vector whose neighbours lie inside the span, [MoveDragPoint]
    clamps the new time into the closed interval from
    [max(0, points[i-1].time)] to [min(spanLength, points[i+1].time)]
    (the span boundaries alone at the ends): the point may land on a
    neighbour's time, so the order is kept but not strictly.  A time
    strictly inside the interval is taken as it is.  The new value is
    clamped to the range and no other point changes. *)
Theorem MoveDragPoint_spec (e : Envelope) (newWhen value : Q) :
  let i := Z.to_nat (mDragPoint e) in
  let len := length (mEnv e) in
  (0 <= mDragPoint e < Z.of_nat len)%Z ->
  Ascending (mEnv e) -> 0 <= mTrackLen e ->
  ((0 < i)%nat -> GetT (at_ (mEnv e) (i - 1)) <= mTrackLen e) ->
  ((S i < len)%nat -> 0 <= GetT (at_ (mEnv e) (S i))) ->
  let e' := MoveDragPoint e newWhen value in
  let t' := GetT (at_ (mEnv e') i) in
  length (mEnv e') = len /\
  (forall j, j <> i -> at_ (mEnv e') j = at_ (mEnv e) j) /\
  GetVal (at_ (mEnv e') i) = ClampValue e value /\
  t' = std_max (drag_limitLo e) (std_min (drag_limitHi e) newWhen) /\
  0 <= t' <= mTrackLen e /\
  ((0 < i)%nat -> GetT (at_ (mEnv e) (i - 1)) <= t') /\
  ((S i < len)%nat -> t' <= GetT (at_ (mEnv e) (S i))) /\
  (drag_limitLo e < newWhen < drag_limitHi e -> t' = newWhen) /\
  Ascending (mEnv e') /\
  mDragPointValid e' = true.
Proof.
  intros i len Hd Hs Hlen Hprev Hnext e' t'. subst e' t'.
  rewrite MoveDragPoint_engaged by lia. simpl. fold i.
  assert (Hi : (i < length (mEnv e))%nat) by (subst i len; lia).
  rewrite update_length, update_at by exact Hi. simpl.
  set (tt := std_max (drag_limitLo e) (std_min (drag_limitHi e) newWhen)).
  (* the limits *)
  assert (HLo : 0 <= drag_limitLo e /\ drag_limitLo e <= mTrackLen e /\
                ((0 < i)%nat -> GetT (at_ (mEnv e) (i - 1)) <= drag_limitLo e)).
  { unfold drag_limitLo. destruct (Z.ltb_spec 0 (mDragPoint e)) as [Hpos|Hz].
    - assert (Ei : atZ (mEnv e) (mDragPoint e - 1) = at_ (mEnv e) (i - 1)).
      { unfold atZ. f_equal. subst i. lia. }
      rewrite Ei. specialize (Hprev ltac:(subst i; lia)).
      unfold std_max. qcase; repeat split; intros; lra.
    - repeat split; try lra. intros Hpos. subst i. lia. }
  assert (HHi : 0 <= drag_limitHi e /\ drag_limitHi e <= mTrackLen e /\
                ((S i < len)%nat -> drag_limitHi e <= GetT (at_ (mEnv e) (S i)))).
  { unfold drag_limitHi.
    destruct (Z.ltb_spec (mDragPoint e + 1) (Z.of_nat (length (mEnv e)))) as [Hin|Hout].
    - assert (Ei : atZ (mEnv e) (mDragPoint e + 1) = at_ (mEnv e) (S i)).
      { unfold atZ. f_equal. subst i. lia. }
      rewrite Ei. specialize (Hnext ltac:(subst i len; lia)).
      unfold std_min. qcase; repeat split; intros; lra.
    - repeat split; try lra. intros Hin. subst i len. lia. }
  assert (HLoHi : drag_limitLo e <= drag_limitHi e).
  { unfold drag_limitLo, drag_limitHi.
    destruct (Z.ltb_spec 0 (mDragPoint e)) as [Hpos|Hz];
      destruct (Z.ltb_spec (mDragPoint e + 1) (Z.of_nat (length (mEnv e))))
        as [Hin|Hout]; try lra.
    - assert (Ep : atZ (mEnv e) (mDragPoint e - 1) = at_ (mEnv e) (i - 1))
        by (unfold atZ; f_equal; subst i; lia).
      assert (En : atZ (mEnv e) (mDragPoint e + 1) = at_ (mEnv e) (S i))
        by (unfold atZ; f_equal; subst i; lia).
      rewrite Ep, En.
      pose proof (Ascending_le (mEnv e) (i - 1) (S i) Hs ltac:(lia)
                    ltac:(subst i; lia)).
      specialize (Hprev ltac:(subst i; lia)).
      specialize (Hnext ltac:(subst i len; lia)).
      unfold std_max, std_min. repeat qcase; lra.
    - destruct HLo as [_ [H _]]. unfold drag_limitLo in H.
      destruct (Z.ltb_spec 0 (mDragPoint e)); [exact H | lia].
    - destruct HHi as [H _]. unfold drag_limitHi in H.
      destruct (Z.ltb_spec (mDragPoint e + 1) (Z.of_nat (length (mEnv e))));
        [exact H | lia]. }
  assert (Htt : drag_limitLo e <= tt /\ tt <= drag_limitHi e).
  { subst tt. unfold std_max, std_min. repeat qcase; lra. }
  destruct HLo as [HLo0 [HLo1 HLo2]]. destruct HHi as [HHi0 [HHi1 HHi2]].
  split; [reflexivity|]. split; [intros j Hj; apply update_other; congruence|].
  split; [reflexivity|]. split; [reflexivity|].
  split; [lra|].
  split; [intros H; specialize (HLo2 H); lra|].
  split; [intros H; specialize (HHi2 H); lra|].
  split.
  { intros [H1 H2]. subst tt. unfold std_max, std_min.
    destruct (Qltb_spec newWhen (drag_limitHi e)); [|lra].
    destruct (Qltb_spec (drag_limitLo e) newWhen); [reflexivity | lra]. }
  split; [|reflexivity].
  apply Ascending_adjacent. intros j Hj. rewrite update_length in Hj.
  pose proof (proj1 (Ascending_adjacent (mEnv e)) Hs j Hj) as Hadj.
  destruct (Nat.eq_dec j i) as [->|Hji].
  - rewrite update_at by exact Hi. rewrite update_other by lia. simpl.
    specialize (HHi2 Hj). lra.
  - rewrite (update_other _ i j) by congruence.
    destruct (Nat.eq_dec (S j) i) as [Esj|Hsj].
    + rewrite Esj, update_at by exact Hi. simpl.
      assert (Ej : j = (i - 1)%nat) by lia. rewrite Ej.
      specialize (HLo2 ltac:(lia)). lra.
    + rewrite update_other by congruence. exact Hadj.
Qed.

Lemma MoveDragPoint_spec_witness :
  let e := SetDragPoint (sample_envelope three_points) 1 in
  Ascending (mEnv (MoveDragPoint e (-3) 4)) /\
  GetT (at_ (mEnv (MoveDragPoint e (-3) 4)) 1) = 0.
Proof.
  assert (Hs : Ascending (mEnv (SetDragPoint (sample_envelope three_points) 1))).
  { repeat constructor; unfold not_after; simpl; lra. }
  destruct (MoveDragPoint_spec (SetDragPoint (sample_envelope three_points) 1)
              (-3) 4 ltac:(vm_compute; split; [discriminate | reflexivity]) Hs
              ltac:(vm_compute; discriminate)
              ltac:(intros _; vm_compute; discriminate)
              ltac:(intros _; vm_compute; discriminate))
    as [_ [_ [_ [Ht [_ [_ [_ [_ [Ha _]]]]]]]]].
  split; [exact Ha | exact Ht].
Defined.

(** The claim C8 as stated fails: dragging the middle one of three points
    to a time before the first one lands it on the first one's time. *)
Lemma MoveDragPoint_lands_on_neighbour :
  ~ Move_as_specified (SetDragPoint (sample_envelope three_points) 1) (-3) 4.
Proof.
  intros [H _]. specialize (H ltac:(vm_compute; reflexivity)).
  vm_compute in H. discriminate.
Qed.

(** ** GetValue *)

Lemma BinarySearchForTime_is (l : list EnvPoint) (t : Q) (g lo hi : Z) :
  Ascending l -> brackets l t lo hi ->
  fst (BinarySearchForTime l g t) = (lo, hi).
Proof.
  intros Hs Hb.
  destruct (brackets_unique _ _ _ _ _ _ Hs
              (BinarySearchForTime_brackets l g t) Hb) as [E1 E2].
  destruct (fst (BinarySearchForTime l g t)). simpl in *. congruence.
Qed.

Section Evaluate.

Variable log10 : Q -> Q.
Variable pow10 : Q -> Q.

Lemma GetValueRelative_turn (e : Envelope) (t : Q) :
  GetValueRelative log10 pow10 e t =
  fst (GetValuesRelative_turn log10 pow10 e 1 0 0 (mkScan t 0 0 (mSearchGuess e))).
Proof.
  unfold GetValueRelative, GetValuesRelative. simpl.
  now destruct (GetValuesRelative_turn log10 pow10 e 1 0 0 _).
Qed.

Lemma GetValueRelative_empty (e : Envelope) (t : Q) :
  mEnv e = [] -> GetValueRelative log10 pow10 e t = mDefaultValue e.
Proof.
  intros E. rewrite GetValueRelative_turn. unfold GetValuesRelative_turn.
  now rewrite E.
Qed.

Lemma GetValueRelative_before (e : Envelope) (t : Q) :
  mEnv e <> [] -> t <= GetT (at_ (mEnv e) 0) ->
  GetValueRelative log10 pow10 e t = GetVal (at_ (mEnv e) 0).
Proof.
  intros E H. rewrite GetValueRelative_turn. unfold GetValuesRelative_turn.
  destruct (mEnv e) as [|p l]; [congruence|]. simpl length. cbv iota beta.
  change (S (length l) <=? 0)%nat with false. cbv iota. simpl sc_t.
  destruct (Qleb_spec t (GetT (at_ (p :: l) 0))); [reflexivity | contradiction].
Qed.

Lemma GetValueRelative_after (e : Envelope) (t : Q) :
  mEnv e <> [] -> GetT (at_ (mEnv e) 0) < t ->
  GetT (at_ (mEnv e) (length (mEnv e) - 1)) <= t ->
  GetValueRelative log10 pow10 e t = GetVal (at_ (mEnv e) (length (mEnv e) - 1)).
Proof.
  intros E H0 H. rewrite GetValueRelative_turn. unfold GetValuesRelative_turn.
  destruct (Nat.leb_spec (length (mEnv e)) 0) as [Hl|Hl].
  { destruct (mEnv e); [congruence | simpl in Hl; lia]. }
  simpl sc_t.
  destruct (Qleb_spec t (GetT (at_ (mEnv e) 0))); [lra|].
  destruct (Qleb_spec (GetT (at_ (mEnv e) (length (mEnv e) - 1))) t);
    [reflexivity | contradiction].
Qed.

(** Between two adjacent points the value is the one the code computes
    from them. *)
Lemma GetValueRelative_between (e : Envelope) (t : Q) (i : nat) :
  Ascending (mEnv e) -> (S i < length (mEnv e))%nat ->
  GetT (at_ (mEnv e) 0) < t ->
  GetT (at_ (mEnv e) i) <= t -> t < GetT (at_ (mEnv e) (S i)) ->
  let plo := at_ (mEnv e) i in
  let phi := at_ (mEnv e) (S i) in
  let dt := GetT phi - GetT plo in
  let to := t - GetT plo in
  let vprev := if negb (mDB e) then GetVal plo else log10 (GetVal plo) in
  let vnext := if negb (mDB e) then GetVal phi else log10 (GetVal phi) in
  let v := (vprev * (dt - to) + vnext * to) / dt in
  GetValueRelative log10 pow10 e t = if mDB e then pow10 v else v.
Proof.
  intros Hs Hi H0 Hlo Hhi plo phi dt to vprev vnext v.
  rewrite GetValueRelative_turn. unfold GetValuesRelative_turn.
  destruct (Nat.leb_spec (length (mEnv e)) 0) as [Hl|Hl]; [lia|].
  simpl sc_t. simpl sc_tnext. simpl sc_guess.
  destruct (Qleb_spec t (GetT (at_ (mEnv e) 0))); [lra|].
  pose proof (Ascending_le (mEnv e) (S i) (length (mEnv e) - 1) Hs
                ltac:(lia) ltac:(lia)) as Hlast.
  destruct (Qleb_spec (GetT (at_ (mEnv e) (length (mEnv e) - 1))) t); [lra|].
  change ((0 =? 0)%nat || Qltb 0 t) with true. cbv iota.
  assert (Hb : brackets (mEnv e) t (Z.of_nat i) (Z.of_nat (S i))).
  { unfold brackets, atZ. rewrite !Nat2Z.id. repeat split; auto; lia. }
  pose proof (BinarySearchForTime_is (mEnv e) t (mSearchGuess e) _ _ Hs Hb) as E.
  destruct (BinarySearchForTime (mEnv e) (mSearchGuess e) t) as [[lo hi] g].
  cbn [fst] in E. apply pair_equal_spec in E. destruct E as [-> ->].
  unfold GetInterpolationStartValueAtPoint, atZ. rewrite !Nat2Z.id.
  fold plo phi. fold dt. fold to. fold vprev vnext.
  destruct (Qltb_spec 0 dt) as [Hdt|Hdt]; [|subst dt plo phi; lra].
  fold v. now destruct (mDB e).
Qed.

(** C3, as the code has it.  [GetValue(t)] is
    [GetValueRelative(t - mOffset)], and on an ascending point vector,
    with [tr = t - mOffset]: with no points it is the default value; at
    or before the first point's time it is the first point's stored
    value; after the first point's time and at or after the last point's
    time it is the last point's stored value (so at or after the last
    point's time whenever no two points share a time); and otherwise,
    between the adjacent points [lo] and [hi] with
    [lo.time <= tr < hi.time], it is the number the code computes from
    them: with [dt = hi.time - lo.time > 0] and [to = tr - lo.time],
    [(vlo * (dt - to) + vhi * to) / dt] over the stored values in Linear
    mode, and [pow10] of that expression over the [log10] of the stored
    values in Logarithmic mode. *)
Theorem GetValue_spec (e : Envelope) (t : Q) :
  Ascending (mEnv e) ->
  let tr := t - mOffset e in
  let n := length (mEnv e) in
  GetValue log10 pow10 e t = GetValueRelative log10 pow10 e tr /\
  (mEnv e = [] -> GetValue log10 pow10 e t = mDefaultValue e) /\
  (mEnv e <> [] -> tr <= GetT (at_ (mEnv e) 0) ->
   GetValue log10 pow10 e t = GetVal (at_ (mEnv e) 0)) /\
  (mEnv e <> [] -> GetT (at_ (mEnv e) 0) < tr ->
   GetT (at_ (mEnv e) (n - 1)) <= tr ->
   GetValue log10 pow10 e t = GetVal (at_ (mEnv e) (n - 1))) /\
  (StrictlyAscending (mEnv e) ->
   mEnv e <> [] -> GetT (at_ (mEnv e) (n - 1)) <= tr ->
   GetValue log10 pow10 e t = GetVal (at_ (mEnv e) (n - 1))) /\
  (forall i : nat,
     (S i < n)%nat ->
     let lo := at_ (mEnv e) i in
     let hi := at_ (mEnv e) (S i) in
     let dt := GetT hi - GetT lo in
     let to := tr - GetT lo in
     GetT (at_ (mEnv e) 0) < tr -> GetT lo <= tr -> tr < GetT hi ->
     0 < dt /\
     (mDB e = false ->
      GetValue log10 pow10 e t =
      (GetVal lo * (dt - to) + GetVal hi * to) / dt) /\
     (mDB e = true ->
      GetValue log10 pow10 e t =
      pow10 ((log10 (GetVal lo) * (dt - to) + log10 (GetVal hi) * to) / dt))).
Proof.
  intros Ha tr n.
  change (GetValue log10 pow10 e t) with (GetValueRelative log10 pow10 e tr).
  split; [reflexivity|]. split; [apply GetValueRelative_empty|].
  split; [apply GetValueRelative_before|].
  split; [apply GetValueRelative_after|]. split.
  - intros Hs Hne Hlast.
    destruct (Qlt_le_dec (GetT (at_ (mEnv e) 0)) tr) as [H0|H0].
    + now apply GetValueRelative_after.
    + rewrite GetValueRelative_before by assumption.
      destruct (Nat.eq_dec (n - 1) 0) as [->|Hn]; [reflexivity|].
      exfalso. subst n.
      pose proof (StrictlyAscending_lt (mEnv e) 0 (length (mEnv e) - 1) Hs
                    ltac:(lia) ltac:(lia)). lra.
  - intros i Hi lo hi dt to H0 Hlo Hhi.
    split; [subst dt lo hi; lra|].
    rewrite (GetValueRelative_between e tr i Ha Hi H0 Hlo Hhi).
    fold lo hi. fold dt. fold to.
    split; intros E; rewrite E; reflexivity.
Qed.

End Evaluate.

Lemma GetValue_spec_witness :
  GetValue (fun x => x) (fun x => x) (sample_envelope three_points) 7 =
  (2 * (5 - 2) + 3 * 2) / 5.
Proof.
  assert (Ha : Ascending (mEnv (sample_envelope three_points))).
  { repeat constructor; unfold not_after; simpl; lra. }
  destruct (GetValue_spec (fun x => x) (fun x => x)
              (sample_envelope three_points) 7 Ha) as [_ [_ [_ [_ [_ H]]]]].
  destruct (H 1%nat) as [_ [Hlin _]].
  - simpl; lia.
  - vm_compute; reflexivity.
  - vm_compute; discriminate.
  - vm_compute; reflexivity.
  - apply Hlin. reflexivity.
Defined.

(** The claim C3 as stated fails where two points share a time, which the
    code allows: [CollapseRegion(0, 10)] closes the gap between the
    outer two of the three points and leaves [(0, 1)] and [(0, 3)].  The
    time [0] is at the last point's time, and [GetValue(0)] is the first
    point's value [1], not the last point's [3]: the test against the
    first point comes first. *)
Lemma GetValue_where_two_points_share_a_time :
  let e := CollapseRegion (fun x => x) (fun x => x)
             (sample_envelope three_points) 0 10 0 in
  mEnv e = [mkEnvPoint 0 1; mkEnvPoint 0 3] /\
  Ascending (mEnv e) /\
  GetValue (fun x => x) (fun x => x) e 0 = 1 /\
  ~ GetValue_as_specified (fun x => x) (fun x => x) e 0.
Proof.
  intros e.
  assert (E : mEnv e = [mkEnvPoint 0 1; mkEnvPoint 0 3]) by (vm_compute; reflexivity).
  split; [exact E|]. split.
  { rewrite E. repeat constructor; unfold not_after; simpl; lra. }
  split; [vm_compute; reflexivity|].
  intros [_ [_ [H _]]].
  assert (Hne : mEnv e <> []) by (rewrite E; discriminate).
  specialize (H Hne). rewrite E in H. cbn [length Nat.sub at_ nth GetT GetVal] in H.
  assert (Hle : 0 <= 0 - mOffset e) by (vm_compute; discriminate).
  specialize (H Hle). vm_compute in H. discriminate.
Qed.

(** ** Integral *)

Section Integrate.

Variable log : Q -> Q.
Variable exp : Q -> Q.

Lemma Qopp_twice (x : Q) : - - x = x.
Proof. destruct x as [n d]. unfold Qopp. simpl. now rewrite Z.opp_involutive. Qed.

(** C4.  [Integral(t1, t0)] is [-Integral(t0, t1)], the very same number;
    [Integral(t, t)] is [0]; and with no points [Integral(t0, t1)] is
    [(t1 - t0) * defaultValue], in either order of [t0] and [t1].
    [IntegralOfInverse] flips its sign the same way. *)
Theorem Integral_antisymmetric (e : Envelope) (t0 t1 : Q) :
  Integral log exp e t1 t0 = - Integral log exp e t0 t1 /\
  Integral log exp e t0 t0 = 0 /\
  (mEnv e = [] -> Integral log exp e t0 t1 == (t1 - t0) * mDefaultValue e) /\
  IntegralOfInverse log exp e t1 t0 = - IntegralOfInverse log exp e t0 t1.
Proof.
  split; [|split; [|split]].
  - unfold Integral.
    destruct (Qeqb_spec t1 t0) as [E|E]; destruct (Qeqb_spec t0 t1) as [E'|E'];
      try reflexivity; try (exfalso; lra).
    destruct (Qltb_spec t0 t1); destruct (Qltb_spec t1 t0);
      try reflexivity; try (exfalso; lra).
    now rewrite Qopp_twice.
  - unfold Integral. destruct (Qeqb_spec t0 t0) as [|E]; [reflexivity|].
    exfalso. apply E. reflexivity.
  - intros El. unfold Integral, Integral_ordered. rewrite El.
    cbn [length Nat.eqb]. cbv zeta.
    destruct (Qeqb_spec t0 t1) as [E|E]; [|destruct (Qltb_spec t1 t0); ring].
    rewrite E. ring.
  - unfold IntegralOfInverse.
    destruct (Qeqb_spec t1 t0) as [E|E]; destruct (Qeqb_spec t0 t1) as [E'|E'];
      try reflexivity; try (exfalso; lra).
    destruct (Qltb_spec t0 t1); destruct (Qltb_spec t1 t0);
      try reflexivity; try (exfalso; lra).
    now rewrite Qopp_twice.
Qed.

End Integrate.

(** ** The order of the points under the mutators *)

Lemma erase_at (l : list EnvPoint) (k j : nat) :
  at_ (erase l k) j = at_ l (if (j <? k)%nat then j else S j).
Proof.
  unfold erase, at_. destruct (Nat.ltb_spec j k) as [Hjk|Hjk].
  - destruct (Nat.lt_ge_cases j (length l)) as [Hj|Hj].
    + rewrite app_nth1 by (rewrite length_firstn; lia).
      now rewrite nth_firstn, (proj2 (Nat.ltb_lt j k)).
    + rewrite (nth_overflow l) by lia. apply nth_overflow.
      rewrite length_app, length_firstn, length_skipn. lia.
  - destruct (Nat.le_gt_cases k (length l)) as [Hk|Hk].
    + rewrite app_nth2 by (rewrite length_firstn; lia).
      rewrite length_firstn, Nat.min_l by lia.
      rewrite nth_skipn. f_equal. lia.
    + rewrite (nth_overflow l) by lia. apply nth_overflow.
      rewrite length_app, length_firstn, length_skipn. lia.
Qed.

Lemma erase_length (l : list EnvPoint) (k : nat) :
  (k < length l)%nat -> length (erase l k) = (length l - 1)%nat.
Proof.
  intros H. unfold erase. rewrite length_app, length_firstn, length_skipn. lia.
Qed.

Lemma erase_beyond (l : list EnvPoint) (k : nat) :
  (length l <= k)%nat -> erase l k = l.
Proof.
  intros H. unfold erase. rewrite firstn_all2, skipn_all2 by lia.
  apply app_nil_r.
Qed.

Lemma erase_Sorted (R : EnvPoint -> EnvPoint -> Prop) (l : list EnvPoint) (k : nat) :
  (forall i j, (i < j)%nat -> (j < length l)%nat -> R (at_ l i) (at_ l j)) ->
  Sorted R (erase l k).
Proof.
  intros H. destruct (Nat.le_gt_cases (length l) k) as [Hk|Hk].
  - rewrite erase_beyond by exact Hk. apply Sorted_adjacent.
    intros j Hj. apply H; lia.
  - apply Sorted_adjacent. intros j Hj. rewrite erase_length in Hj by exact Hk.
    rewrite !erase_at.
    destruct (Nat.ltb_spec j k); destruct (Nat.ltb_spec (S j) k); apply H; lia.
Qed.

Lemma erase_Ascending (l : list EnvPoint) (k : nat) :
  Ascending l -> Ascending (erase l k).
Proof.
  intros Hs. apply erase_Sorted. intros i j Hij Hj.
  apply Ascending_le; auto. lia.
Qed.

Lemma erase_StrictlyAscending (l : list EnvPoint) (k : nat) :
  StrictlyAscending l -> StrictlyAscending (erase l k).
Proof.
  intros Hs. apply erase_Sorted. intros i j Hij Hj.
  now apply StrictlyAscending_lt.
Qed.

Lemma SetAllVals_times (e : Envelope) (f : Q -> Q) :
  map GetT (mEnv (SetAllVals e f)) = map GetT (mEnv e).
Proof.
  unfold SetAllVals. simpl. rewrite map_map. apply map_ext. reflexivity.
Qed.

(** The ways [InsertOrReplaceRelative] can end, whatever the time. *)
Lemma InsertOrReplaceRelative_cases (e : Envelope) (when value : Q) :
  let e' := snd (InsertOrReplaceRelative e when value) in
  e' = e \/
  (exists i, e' = with_mEnv e (update (mEnv e) i (fun p => SetVal e p value))) \/
  (exists w, let i := scan_past w (mEnv e) 0 in
             e' = with_mEnv e
                    (firstn i (mEnv e) ++ mkEnvPoint w value :: skipn i (mEnv e)) /\
             ((i < length (mEnv e))%nat -> ~ w == GetT (at_ (mEnv e) i))).
Proof.
  unfold InsertOrReplaceRelative. cbv zeta.
  destruct (negb (length (mEnv e) =? 0)%nat && Qltb when 0); [now left|].
  destruct ((1 <? length (mEnv e))%nat && Qltb (mTrackLen e) when); [now left|].
  set (w1 := if Qltb when 0 then 0 else when).
  set (w := if (1 <? length (mEnv e))%nat && Qltb (mTrackLen e) w1
            then mTrackLen e else w1).
  set (i := scan_past w (mEnv e) 0).
  destruct (Nat.ltb_spec i (length (mEnv e))) as [Hi|Hi]; simpl.
  - destruct (Qeqb_spec w (GetT (at_ (mEnv e) i))) as [E|E].
    + right; left. now exists i.
    + right; right. exists w. fold i. split; [reflexivity | auto].
  - right; right. exists w. fold i. split; [|lia].
    unfold push_back. now rewrite skipn_all_nil, firstn_all2 by lia.
Qed.

Lemma InsertOrReplaceRelative_Ascending (e : Envelope) (when value : Q) :
  Ascending (mEnv e) ->
  Ascending (mEnv (snd (InsertOrReplaceRelative e when value))).
Proof.
  intros Hs.
  destruct (InsertOrReplaceRelative_cases e when value)
    as [->|[[i ->]|[w [-> _]]]]; auto; simpl.
  - eapply Ascending_times; [|exact Hs]. symmetry. now apply update_times.
  - now apply insert_Ascending.
Qed.

Lemma InsertOrReplaceRelative_StrictlyAscending (e : Envelope) (when value : Q) :
  StrictlyAscending (mEnv e) ->
  StrictlyAscending (mEnv (snd (InsertOrReplaceRelative e when value))).
Proof.
  intros Hs.
  destruct (InsertOrReplaceRelative_cases e when value)
    as [->|[[i ->]|[w [-> Hne]]]]; auto; simpl.
  - eapply StrictlyAscending_times; [|exact Hs]. symmetry. now apply update_times.
  - apply insert_StrictlyAscending; auto. intros Hi.
    pose proof (scan_past_stop w (mEnv e) Hi). specialize (Hne Hi).
    destruct (Qlt_le_dec w (GetT (at_ (mEnv e) (scan_past w (mEnv e) 0)))); auto.
    exfalso. apply Hne. lra.
Qed.

Lemma SetRange_times (e : Envelope) (lo hi : Q) :
  map GetT (mEnv (SetRange e lo hi)) = map GetT (mEnv e).
Proof. unfold SetRange. cbv zeta. now rewrite SetAllVals_times. Qed.

Lemma RescaleValues_times (e : Envelope) (lo hi : Q) :
  map GetT (mEnv (RescaleValues e lo hi)) = map GetT (mEnv e).
Proof. unfold RescaleValues. cbv zeta. now rewrite SetAllVals_times. Qed.

Lemma Reassign_times (e : Envelope) (when value : Q) :
  map GetT (mEnv (snd (Reassign e when value))) = map GetT (mEnv e).
Proof.
  unfold Reassign. destruct (length (mEnv e) =? 0)%nat; auto.
  destruct (_ || _); auto. simpl. now apply update_times.
Qed.

(** *** AddPointAtEnd and SetTrackLen *)

Lemma scan_upto_shift (bound : Q) (l : list EnvPoint) (a : nat) :
  scan_upto bound l a = (a + scan_upto bound l 0)%nat.
Proof.
  revert a; induction l as [|p l IH]; intros a; simpl; [lia|].
  destruct (Qleb (GetT p) bound); [|lia].
  rewrite (IH (S a)), (IH 1%nat). lia.
Qed.

Lemma scan_upto_le (bound : Q) (l : list EnvPoint) :
  (scan_upto bound l 0 <= length l)%nat.
Proof.
  induction l as [|p l IH]; simpl; [lia|].
  destruct (Qleb (GetT p) bound); [|lia]. rewrite scan_upto_shift. lia.
Qed.

Lemma scan_upto_within (bound : Q) (l : list EnvPoint) (j : nat) :
  (j < scan_upto bound l 0)%nat -> GetT (at_ l j) <= bound.
Proof.
  revert j; induction l as [|p l IH]; intros j; simpl; [lia|].
  destruct (Qleb_spec (GetT p) bound) as [Hle|]; [|lia].
  rewrite scan_upto_shift. destruct j as [|j]; intros H; [exact Hle|].
  rewrite at_cons. apply IH. lia.
Qed.

(** The points [SetTrackLen] keeps are the ones up to the new length. *)
Lemma EqualRange_keeps (e : Envelope) (when : Q) :
  let n := snd (EqualRange e when 0) in
  (n <= length (mEnv e))%nat /\
  forall j, (j < n)%nat -> GetT (at_ (mEnv e) j) <= when.
Proof.
  unfold EqualRange, lower_bound. cbv zeta. cbn [snd].
  assert (Hz : 0 / 2 == 0) by reflexivity. revert Hz.
  generalize (0 / 2). intros z Hz.
  set (first := scan_past (when - z) (mEnv e) 0).
  pose proof (scan_past_le (when - z) (mEnv e)) as Hf. fold first in Hf.
  rewrite scan_upto_shift.
  pose proof (scan_upto_le (when + z) (skipn first (mEnv e))) as Hu.
  rewrite length_skipn in Hu. split; [lia|].
  intros j Hj. destruct (Nat.lt_ge_cases j first) as [Hlt|Hge].
  - pose proof (scan_past_before (when - z) (mEnv e) j Hlt). lra.
  - pose proof (scan_upto_within (when + z) (skipn first (mEnv e))
                  (j - first) ltac:(lia)) as H.
    unfold at_ in *. rewrite nth_skipn in H.
    replace (first + (j - first))%nat with j in H by lia. lra.
Qed.

Lemma resize_shrinks (l : list EnvPoint) (n : nat) :
  (n <= length l)%nat -> resize l n = firstn n l.
Proof.
  intros H. unfold resize. replace (n - length l)%nat with 0%nat by lia.
  apply app_nil_r.
Qed.

Lemma firstn_at (l : list EnvPoint) (n j : nat) :
  (j < n)%nat -> at_ (firstn n l) j = at_ l j.
Proof.
  intros H. unfold at_. rewrite nth_firstn. now rewrite (proj2 (Nat.ltb_lt j n)).
Qed.

Lemma push_Ascending (l : list EnvPoint) (p : EnvPoint) :
  Ascending l -> (forall j, (j < length l)%nat -> GetT (at_ l j) <= GetT p) ->
  Ascending (l ++ [p]).
Proof.
  intros Hs Hp. apply Ascending_adjacent. intros j Hj.
  rewrite length_app in Hj. simpl in Hj. unfold at_.
  rewrite (app_nth1 l [p] origin) by lia.
  destruct (Nat.eq_dec (S j) (length l)) as [E|E].
  - rewrite app_nth2, E, Nat.sub_diag by lia. simpl. apply Hp. lia.
  - rewrite app_nth1 by lia. apply (proj1 (Ascending_adjacent l) Hs). lia.
Qed.

Lemma AddPointAtEnd_loop_Ascending (nn : nat) (t : Q) :
  forall l, Ascending l -> Ascending (AddPointAtEnd_loop nn l t).
Proof.
  induction nn as [|k IH]; intros l Hs; [exact Hs|].
  destruct k as [|m]; [exact Hs|].
  cbn [AddPointAtEnd_loop].
  destruct (Qeqb (GetT (at_ l m)) t); [|exact Hs].
  apply IH. now apply erase_Ascending.
Qed.

(** *** No more than two points at one time *)

Lemma times_at (l l' : list EnvPoint) (j : nat) :
  map GetT l = map GetT l' -> GetT (at_ l j) = GetT (at_ l' j).
Proof.
  intros E. unfold at_.
  transitivity (nth j (map GetT l) (GetT origin));
    [symmetry; apply map_nth | rewrite E; apply map_nth].
Qed.

Lemma AtMostTwice_times (l l' : list EnvPoint) :
  map GetT l = map GetT l' -> AtMostTwice l -> AtMostTwice l'.
Proof.
  intros E H j Hj.
  assert (El : length l = length l').
  { rewrite <- (length_map GetT l), <- (length_map GetT l'). now rewrite E. }
  rewrite <- !(times_at l l' _ E). apply H. lia.
Qed.

Lemma StrictlyAscending_AtMostTwice (l : list EnvPoint) :
  StrictlyAscending l -> AtMostTwice l.
Proof. intros Hs j Hj. apply StrictlyAscending_lt; auto. Qed.

Lemma far_apart (l : list EnvPoint) (a b : nat) :
  Ascending l -> AtMostTwice l -> (a + 2 <= b)%nat -> (b < length l)%nat ->
  GetT (at_ l a) < GetT (at_ l b).
Proof.
  intros Hs Ht Hab Hb.
  pose proof (Ascending_le l a (b - 2) Hs ltac:(lia) ltac:(lia)).
  pose proof (Ht (b - 2)%nat ltac:(lia)) as H2.
  replace (S (S (b - 2))) with b in H2 by lia. lra.
Qed.

Lemma erase_AtMostTwice (l : list EnvPoint) (k : nat) :
  Ascending l -> AtMostTwice l -> AtMostTwice (erase l k).
Proof.
  intros Hs Ht. destruct (Nat.le_gt_cases (length l) k) as [Hk|Hk].
  - now rewrite erase_beyond.
  - intros j Hj. rewrite erase_length in Hj by exact Hk. rewrite !erase_at.
    destruct (Nat.ltb_spec j k); destruct (Nat.ltb_spec (S (S j)) k);
      apply far_apart; auto; lia.
Qed.

Lemma insert_at_any (l : list EnvPoint) (i k : nat) (p : EnvPoint) :
  (i <= length l)%nat ->
  at_ (firstn i l ++ p :: skipn i l) k =
  if (k <? i)%nat then at_ l k
  else if (k =? i)%nat then p else at_ l (k - 1).
Proof.
  intros Hi. unfold at_. destruct (Nat.ltb_spec k i) as [Hk|Hk].
  - rewrite app_nth1 by (rewrite length_firstn; lia).
    now rewrite nth_firstn, (proj2 (Nat.ltb_lt k i)).
  - rewrite app_nth2 by (rewrite length_firstn; lia).
    rewrite length_firstn, Nat.min_l by lia.
    destruct (Nat.eqb_spec k i) as [->|Hne].
    + now rewrite Nat.sub_diag.
    + destruct (k - i)%nat as [|d] eqn:Ed; [lia|]. cbn [nth].
      rewrite nth_skipn. f_equal. lia.
Qed.

Lemma insert_AtMostTwice (w v : Q) (l : list EnvPoint) :
  Ascending l -> AtMostTwice l ->
  ((scan_past w l 0 < length l)%nat -> w < GetT (at_ l (scan_past w l 0))) ->
  AtMostTwice
    (firstn (scan_past w l 0) l ++ mkEnvPoint w v :: skipn (scan_past w l 0) l).
Proof.
  intros Hs Ht Hstop j Hj. rewrite insert_length in Hj.
  set (i := scan_past w l 0) in *.
  assert (Hi : (i <= length l)%nat) by apply scan_past_le.
  assert (Hbefore : forall k, (k < i)%nat -> GetT (at_ l k) < w)
    by (intros k Hk; now apply scan_past_before).
  assert (Hafter : forall k, (i <= k)%nat -> (k < length l)%nat ->
                             w < GetT (at_ l k)).
  { intros k Hk Hlen. specialize (Hstop ltac:(lia)).
    pose proof (Ascending_le l i k Hs Hk Hlen). lra. }
  rewrite !insert_at_any by exact Hi.
  destruct (Nat.ltb_spec j i) as [H1|H1];
    destruct (Nat.ltb_spec (S (S j)) i) as [H2|H2]; try lia.
  - apply Ht. lia.
  - destruct (Nat.eqb_spec (S (S j)) i) as [E|E]; cbn [GetT].
    + now apply Hbefore.
    + specialize (Hbefore j H1).
      specialize (Hafter (S (S j) - 1)%nat ltac:(lia) ltac:(lia)). lra.
  - destruct (Nat.eqb_spec j i) as [E|E];
      destruct (Nat.eqb_spec (S (S j)) i) as [E'|E']; try lia; cbn [GetT].
    + apply Hafter; lia.
    + replace (S (S j) - 1)%nat with (S (S (j - 1))) by lia. apply Ht. lia.
Qed.

Lemma InsertOrReplaceRelative_AtMostTwice (e : Envelope) (when value : Q) :
  Ascending (mEnv e) -> AtMostTwice (mEnv e) ->
  AtMostTwice (mEnv (snd (InsertOrReplaceRelative e when value))).
Proof.
  intros Hs Ht.
  destruct (InsertOrReplaceRelative_cases e when value)
    as [->|[[i ->]|[w [-> Hne]]]]; auto; simpl.
  - eapply AtMostTwice_times; [|exact Ht]. symmetry. now apply update_times.
  - apply insert_AtMostTwice; auto. intros Hi.
    pose proof (scan_past_stop w (mEnv e) Hi). specialize (Hne Hi).
    destruct (Qlt_le_dec w (GetT (at_ (mEnv e) (scan_past w (mEnv e) 0)))); auto.
    exfalso. apply Hne. lra.
Qed.

Lemma firstn_AtMostTwice (l : list EnvPoint) (n : nat) :
  AtMostTwice l -> AtMostTwice (firstn n l).
Proof.
  intros Ht j Hj. rewrite length_firstn in Hj. rewrite !firstn_at by lia.
  apply Ht. lia.
Qed.

Lemma erase_last_but_one (l : list EnvPoint) (q p : EnvPoint) :
  erase ((l ++ [q]) ++ [p]) (length l) = l ++ [p].
Proof.
  unfold erase. rewrite <- app_assoc. rewrite firstn_app, firstn_all.
  rewrite Nat.sub_diag. cbn [firstn]. rewrite app_nil_r.
  rewrite skipn_app. rewrite skipn_all2 by lia.
  replace (S (length l) - length l)%nat with 1%nat by lia. reflexivity.
Qed.

(** The loop of [AddPointAtEnd], on a vector ending in the appended
    point: of the points at the appended time it keeps one and the new
    one. *)
Lemma AddPointAtEnd_loop_AtMostTwice (p : EnvPoint) :
  forall l : list EnvPoint,
    Ascending l -> AtMostTwice l ->
    (forall j, (j < length l)%nat -> GetT (at_ l j) <= GetT p) ->
    AtMostTwice (AddPointAtEnd_loop (length l) (l ++ [p]) (GetT p)).
Proof.
  intros l. induction l as [|q l IH] using rev_ind; intros Hs Ht Hle.
  - intros j Hj. simpl in Hj. lia.
  - rewrite length_app. cbn [length]. rewrite Nat.add_1_r.
    destruct (length l) as [|m] eqn:El.
    + cbn [AddPointAtEnd_loop]. intros j Hj.
      rewrite !length_app in Hj. simpl in Hj. lia.
    + cbn [AddPointAtEnd_loop].
      assert (Em : at_ ((l ++ [q]) ++ [p]) m = at_ l m).
      { unfold at_. rewrite <- app_assoc. apply app_nth1. lia. }
      rewrite Em.
      assert (Hpre : Ascending l /\ AtMostTwice l /\
                     forall j, (j < length l)%nat -> GetT (at_ l j) <= GetT p).
      { repeat split.
        - apply Ascending_adjacent. intros j Hj.
          pose proof (proj1 (Ascending_adjacent _) Hs j) as H.
          rewrite length_app in H. unfold at_ in *.
          rewrite !(app_nth1 l [q]) in H by lia. apply H. simpl. lia.
        - intros j Hj. pose proof (Ht j) as H. rewrite length_app in H.
          unfold at_ in *. rewrite !(app_nth1 l [q]) in H by lia.
          apply H. simpl. lia.
        - intros j Hj. pose proof (Hle j) as H. rewrite length_app in H.
          unfold at_ in *. rewrite (app_nth1 l [q]) in H by lia.
          apply H. simpl. lia. }
      destruct Hpre as [Hs' [Ht' Hle']].
      destruct (Qeqb_spec (GetT (at_ l m)) (GetT p)) as [E|E].
      * rewrite <- El. rewrite erase_last_but_one.
        apply IH; auto. intros j Hj. apply Hle'. lia.
      * intros j Hj. rewrite !length_app in Hj. cbn [length] in Hj.
        destruct (Nat.eq_dec (S (S j)) (length l + 1)) as [Ej|Ej].
        { assert (j = m) by lia. subst j.
          unfold at_ in *. rewrite <- app_assoc.
          rewrite (app_nth1 l) by lia.
          rewrite app_assoc, app_nth2 by (rewrite length_app; simpl; lia).
          rewrite length_app. cbn [length].
          replace (S (S m) - (length l + 1))%nat with 0%nat by lia. cbn [nth].
          specialize (Hle' m ltac:(lia)). unfold at_ in Hle'. lra. }
        { pose proof (Ht j) as H. rewrite length_app in H. cbn [length] in H.
          unfold at_ in *. rewrite !(app_nth1 (l ++ [q]) [p])
            by (rewrite length_app; simpl; lia).
          apply H. lia. }
Qed.

Section Order.

Variable log10 : Q -> Q.
Variable pow10 : Q -> Q.

Lemma SetTrackLen_Ascending (e : Envelope) (trackLen : Q) :
  Ascending (mEnv e) -> Ascending (mEnv (SetTrackLen log10 pow10 e trackLen)).
Proof.
  intros Hs. unfold SetTrackLen. cbv zeta.
  set (e1 := if Qltb trackLen (mTrackLen e)
             then with_mSearchGuess e _ else e).
  assert (E1 : mEnv e1 = mEnv e) by (subst e1; now destruct (Qltb _ _)).
  set (e2 := with_mTrackLen e1 trackLen).
  assert (E2 : mEnv e2 = mEnv e) by exact E1.
  destruct (EqualRange_keeps e2 trackLen) as [Hn Hkeep].
  set (n := snd (EqualRange e2 trackLen 0)) in *.
  change (mEnv e2) with (mEnv e1) in *. rewrite E1 in *.
  rewrite resize_shrinks by exact Hn.
  assert (Hfirst : Ascending (firstn n (mEnv e))).
  { apply Ascending_adjacent. intros j Hj. rewrite length_firstn in Hj.
    rewrite !firstn_at by lia. apply (proj1 (Ascending_adjacent _) Hs). lia. }
  destruct (Qltb trackLen (mTrackLen e)); [|exact Hfirst].
  unfold AddPointAtEnd. simpl.
  apply AddPointAtEnd_loop_Ascending. apply push_Ascending; auto.
  intros j Hj. rewrite length_firstn in Hj. rewrite firstn_at by lia.
  simpl. apply Hkeep. lia.
Qed.

Lemma AddPointAtEnd_AtMostTwice (e : Envelope) (t val : Q) :
  Ascending (mEnv e) -> AtMostTwice (mEnv e) ->
  (forall j, (j < length (mEnv e))%nat -> GetT (at_ (mEnv e) j) <= t) ->
  AtMostTwice (mEnv (AddPointAtEnd e t val)).
Proof.
  intros Hs Ht Hle. unfold AddPointAtEnd, push_back.
  cbn [mEnv with_mEnv].
  replace (length (mEnv e ++ [mkEnvPoint t val]) - 1)%nat
    with (length (mEnv e)) by (rewrite length_app; simpl; lia).
  now apply (AddPointAtEnd_loop_AtMostTwice (mkEnvPoint t val)).
Qed.

Lemma SetTrackLen_AtMostTwice (e : Envelope) (trackLen : Q) :
  Ascending (mEnv e) -> AtMostTwice (mEnv e) ->
  AtMostTwice (mEnv (SetTrackLen log10 pow10 e trackLen)).
Proof.
  intros Hs Ht. unfold SetTrackLen. cbv zeta.
  set (e1 := if Qltb trackLen (mTrackLen e)
             then with_mSearchGuess e _ else e).
  assert (E1 : mEnv e1 = mEnv e) by (subst e1; now destruct (Qltb _ _)).
  set (e2 := with_mTrackLen e1 trackLen).
  destruct (EqualRange_keeps e2 trackLen) as [Hn Hkeep].
  set (n := snd (EqualRange e2 trackLen 0)) in *.
  change (mEnv e2) with (mEnv e1) in *. rewrite E1 in *.
  rewrite resize_shrinks by exact Hn.
  assert (Hfirst : Ascending (firstn n (mEnv e))).
  { apply Ascending_adjacent. intros j Hj. rewrite length_firstn in Hj.
    rewrite !firstn_at by lia. apply (proj1 (Ascending_adjacent _) Hs). lia. }
  pose proof (firstn_AtMostTwice (mEnv e) n Ht) as Hfirst2.
  destruct (Qltb trackLen (mTrackLen e)); [|exact Hfirst2].
  apply AddPointAtEnd_AtMostTwice; cbn [mEnv with_mEnv]; auto.
  intros j Hj. rewrite length_firstn in Hj. rewrite firstn_at by lia.
  apply Hkeep. lia.
Qed.

End Order.

(** ** GetValues against GetValue *)

Section Stepwise.

Variable log10 : Q -> Q.
Variable pow10 : Q -> Q.


(** Outside the points a turn of the loop does what a single evaluation
    does. *)
Lemma turn_outside (e : Envelope) (tstep : Q) (b : nat) (prev : Q)
  (s : scan_state) :
  mEnv e = [] \/ sc_t s <= GetT (at_ (mEnv e) 0) \/
  GetT (at_ (mEnv e) (length (mEnv e) - 1)) <= sc_t s ->
  GetValuesRelative_turn log10 pow10 e tstep b prev s = (GetValueRelative log10 pow10 e (sc_t s), advance s tstep).
Proof.
  intros H. rewrite GetValueRelative_turn. unfold GetValuesRelative_turn.
  simpl sc_t.
  destruct (Nat.leb_spec (length (mEnv e)) 0) as [Hl|Hl]; [reflexivity|].
  destruct (Qleb_spec (sc_t s) (GetT (at_ (mEnv e) 0))); [reflexivity|].
  destruct (Qleb_spec (GetT (at_ (mEnv e) (length (mEnv e) - 1))) (sc_t s));
    [reflexivity|].
  exfalso. destruct H as [H|[H|H]]; auto. rewrite H in Hl. simpl in Hl. lia.
Qed.

(** Strictly inside the points a time has a bracket. *)
Lemma interior_bracket (l : list EnvPoint) (t : Q) (g : Z) :
  GetT (at_ l 0) < t -> t < GetT (at_ l (length l - 1)) ->
  exists lo : nat,
    (S lo < length l)%nat /\ GetT (at_ l lo) <= t /\ t < GetT (at_ l (S lo)) /\
    fst (BinarySearchForTime l g t) = (Z.of_nat lo, Z.of_nat (S lo)).
Proof.
  intros H0 H1.
  assert (Hlen : (0 < length l)%nat).
  { destruct l; [|simpl; lia]. unfold at_ in *. simpl in *. lra. }
  pose proof (BinarySearchForTime_brackets l g t) as Hb.
  destruct (fst (BinarySearchForTime l g t)) as [lo hi]. cbn [fst snd] in Hb.
  destruct Hb as [E [R [L H]]].
  assert (Hlo : (0 <= lo)%Z).
  { destruct (Z.le_gt_cases 0 lo); auto. exfalso.
    assert (lo = (-1)%Z) by lia. subst lo hi.
    specialize (H ltac:(lia)). unfold atZ in H.
    change (Z.to_nat (-1 + 1)) with 0%nat in H. lra. }
  assert (Hhi : (hi < Z.of_nat (length l))%Z).
  { destruct (Z.lt_ge_cases hi (Z.of_nat (length l))); auto. exfalso.
    specialize (L Hlo). unfold atZ in L.
    replace (Z.to_nat lo) with (length l - 1)%nat in L by lia. lra. }
  exists (Z.to_nat lo). specialize (L Hlo). specialize (H Hhi).
  unfold atZ in *. subst hi.
  replace (Z.to_nat (lo + 1)) with (S (Z.to_nat lo)) in H by lia.
  repeat split; auto; try lia.
  f_equal; lia.
Qed.

(** The turn that looks a bracket up. *)
Lemma turn_lookup (e : Envelope) (tstep : Q) (b : nat) (prev : Q)
  (s : scan_state) :
  StrictlyAscending (mEnv e) ->
  GetT (at_ (mEnv e) 0) < sc_t s ->
  sc_t s < GetT (at_ (mEnv e) (length (mEnv e) - 1)) ->
  b = 0%nat \/ sc_tnext s < sc_t s ->
  exists (lo : nat) (g : Z),
    (S lo < length (mEnv e))%nat /\
    GetT (at_ (mEnv e) lo) <= sc_t s /\ sc_t s < GetT (at_ (mEnv e) (S lo)) /\
    GetValuesRelative_turn log10 pow10 e tstep b prev s =
      (bracket_value log10 pow10 e lo (sc_t s),
       mkScan (sc_t s + tstep) (GetT (at_ (mEnv e) (S lo))) (bracket_step log10 pow10 e lo tstep) g).
Proof.
  intros Hs H0 H1 Hb.
  destruct (interior_bracket (mEnv e) (sc_t s) (sc_guess s) H0 H1)
    as [lo [Hlo [Hle [Hlt E]]]].
  unfold GetValuesRelative_turn.
  destruct (Nat.leb_spec (length (mEnv e)) 0) as [Hl|Hl]; [lia|].
  destruct (Qleb_spec (sc_t s) (GetT (at_ (mEnv e) 0))); [lra|].
  destruct (Qleb_spec (GetT (at_ (mEnv e) (length (mEnv e) - 1))) (sc_t s)); [lra|].
  assert (Hc : (b =? 0)%nat || Qltb (sc_tnext s) (sc_t s) = true).
  { destruct Hb as [->|Hb]; [reflexivity|].
    destruct (Qltb_spec (sc_tnext s) (sc_t s)); [apply orb_true_r | contradiction]. }
  rewrite Hc.
  destruct (BinarySearchForTime (mEnv e) (sc_guess s) (sc_t s)) as [[lo' hi'] g].
  cbn [fst] in E. apply pair_equal_spec in E. destruct E as [-> ->].
  exists lo, g. repeat split; auto.
  unfold bracket_value, bracket_step, atZ. rewrite !Nat2Z.id.
  destruct (Qltb_spec 0 (GetT (at_ (mEnv e) (S lo)) - GetT (at_ (mEnv e) lo)));
    [|lra].
  now destruct (mDB e).
Qed.

(** The turn that steps from the previous sample. *)
Lemma turn_increment (e : Envelope) (tstep : Q) (b : nat) (prev : Q)
  (s : scan_state) :
  mEnv e <> [] ->
  GetT (at_ (mEnv e) 0) < sc_t s ->
  sc_t s < GetT (at_ (mEnv e) (length (mEnv e) - 1)) ->
  b <> 0%nat -> sc_t s <= sc_tnext s ->
  GetValuesRelative_turn log10 pow10 e tstep b prev s =
    ((if mDB e then prev * sc_vstep s else prev + sc_vstep s), advance s tstep).
Proof.
  intros Hne H0 H1 Hb Hn. unfold GetValuesRelative_turn.
  destruct (Nat.leb_spec (length (mEnv e)) 0) as [Hl|Hl].
  { destruct (mEnv e); [congruence | simpl in Hl; lia]. }
  destruct (Qleb_spec (sc_t s) (GetT (at_ (mEnv e) 0))); [lra|].
  destruct (Qleb_spec (GetT (at_ (mEnv e) (length (mEnv e) - 1))) (sc_t s)); [lra|].
  destruct (Nat.eqb_spec b 0); [contradiction|].
  destruct (Qltb_spec (sc_tnext s) (sc_t s)); [lra | reflexivity].
Qed.

(** A single evaluation inside a bracket. *)
Lemma GetValueRelative_bracket (e : Envelope) (t : Q) (lo : nat) :
  Ascending (mEnv e) -> (S lo < length (mEnv e))%nat ->
  GetT (at_ (mEnv e) 0) < t ->
  GetT (at_ (mEnv e) lo) <= t -> t < GetT (at_ (mEnv e) (S lo)) ->
  GetValueRelative log10 pow10 e t = bracket_value log10 pow10 e lo t.
Proof.
  intros Hs Hlo H0 Hle Hlt.
  rewrite (GetValueRelative_between log10 pow10 e t lo Hs Hlo H0 Hle Hlt).
  unfold bracket_value, GetInterpolationStartValueAtPoint, atZ.
  now rewrite !Nat2Z.id.
Qed.

End Stepwise.

(** The times of the samples, which the loop accumulates by [t += tstep]. *)
Lemma sample_time_succ (t tstep : Q) (k : nat) :
  sample_time t tstep (S k) = sample_time t tstep k + tstep.
Proof.
  revert t. induction k as [|k IH]; intros t; [reflexivity|].
  change (sample_time t tstep (S (S k)))
    with (sample_time (t + tstep) tstep (S k)).
  rewrite IH. reflexivity.
Qed.

Lemma sample_time_closed (t tstep : Q) (k : nat) :
  sample_time t tstep k == t + inject_Z (Z.of_nat k) * tstep.
Proof.
  revert t. induction k as [|k IH]; intros t.
  - simpl. ring.
  - cbn [sample_time]. rewrite IH, Nat2Z.inj_succ. unfold Z.succ.
    rewrite inject_Z_plus. ring.
Qed.

Lemma sample_time_apart (t tstep : Q) (j k : nat) :
  (j <= k)%nat ->
  sample_time t tstep k ==
  sample_time t tstep (k - j) + inject_Z (Z.of_nat j) * tstep.
Proof.
  intros H. rewrite !sample_time_closed.
  replace (Z.of_nat k) with (Z.of_nat (k - j) + Z.of_nat j)%Z by lia.
  rewrite inject_Z_plus. ring.
Qed.

Lemma steps_not_negative (tstep : Q) (j : nat) :
  0 <= tstep -> 0 <= inject_Z (Z.of_nat j) * tstep.
Proof.
  intros H. apply Qmult_le_0_compat; [|exact H].
  unfold Qle. simpl. lia.
Qed.

(** In Linear mode [j] steps add [j] times the step. *)
Lemma stepped_linear (v vstep : Q) (j : nat) :
  stepped false v vstep j == v + inject_Z (Z.of_nat j) * vstep.
Proof.
  induction j as [|j IH].
  - simpl. ring.
  - cbn [stepped]. rewrite IH, Nat2Z.inj_succ. unfold Z.succ.
    rewrite inject_Z_plus. ring.
Qed.

Section Forward.

Variable log10 : Q -> Q.
Variable pow10 : Q -> Q.
Variable e : Envelope.
Variable tstep : Q.

Hypothesis Hs : StrictlyAscending (mEnv e).
Hypothesis Hfirst : mEnv e <> [] -> 0 <= GetT (at_ (mEnv e) 0).
Hypothesis Hstep : 0 <= tstep.

Lemma strict_adjacent (lo : nat) :
  (S lo < length (mEnv e))%nat ->
  GetT (at_ (mEnv e) lo) < GetT (at_ (mEnv e) (S lo)).
Proof. intros H. apply StrictlyAscending_lt; auto. Qed.

Lemma bracket_value_exponent (lo : nat) (t : Q) :
  bracket_value log10 pow10 e lo t =
  if mDB e then pow10 (bracket_exponent log10 e lo t)
  else bracket_exponent log10 e lo t.
Proof. reflexivity. Qed.

Lemma bracket_step_delta (lo : nat) :
  bracket_step log10 pow10 e lo tstep =
  if mDB e then pow10 (bracket_delta log10 e lo tstep)
  else bracket_delta log10 e lo tstep.
Proof. reflexivity. Qed.

(** Along a bracket the interpolated number grows by the increment per
    sample. *)
Lemma bracket_exponent_steps (lo : nat) (ts t : Q) (j : nat) :
  GetT (at_ (mEnv e) lo) < GetT (at_ (mEnv e) (S lo)) ->
  t == ts + inject_Z (Z.of_nat j) * tstep ->
  bracket_exponent log10 e lo t ==
  bracket_exponent log10 e lo ts +
  inject_Z (Z.of_nat j) * bracket_delta log10 e lo tstep.
Proof.
  intros Hdt E. unfold bracket_exponent, bracket_delta. rewrite E.
  field. lra.
Qed.

(** At the knot the two brackets agree. *)
Lemma bracket_exponent_knot (lo : nat) (t : Q) :
  GetT (at_ (mEnv e) lo) < GetT (at_ (mEnv e) (S lo)) ->
  GetT (at_ (mEnv e) (S lo)) < GetT (at_ (mEnv e) (S (S lo))) ->
  t == GetT (at_ (mEnv e) (S lo)) ->
  bracket_exponent log10 e lo t == bracket_exponent log10 e (S lo) t.
Proof.
  intros H1 H2 E. unfold bracket_exponent.
  set (a := GetInterpolationStartValueAtPoint log10 e (Z.of_nat lo)).
  set (m := GetInterpolationStartValueAtPoint log10 e (Z.of_nat (S lo))).
  set (c := GetInterpolationStartValueAtPoint log10 e (Z.of_nat (S (S lo)))).
  rewrite E. field. lra.
Qed.

(** The single evaluation [j] samples after a time of the bracket [lo],
    not past the end of that bracket: its interpolated number is the one
    at the earlier time plus [j] increments. *)
Lemma exponent_after_steps (lo : nat) (ts t : Q) (j : nat) :
  in_bracket e lo ts ->
  t == ts + inject_Z (Z.of_nat j) * tstep ->
  t <= GetT (at_ (mEnv e) (S lo)) ->
  t < GetT (at_ (mEnv e) (length (mEnv e) - 1)) ->
  GetValueRelative log10 pow10 e ts =
    (if mDB e then pow10 (bracket_exponent log10 e lo ts)
     else bracket_exponent log10 e lo ts) /\
  exists x,
    x == bracket_exponent log10 e lo ts +
         inject_Z (Z.of_nat j) * bracket_delta log10 e lo tstep /\
    GetValueRelative log10 pow10 e t = if mDB e then pow10 x else x.
Proof.
  intros [Hlo [H0 [Hle Hlt]]] Et Hend Hlast.
  assert (Ha : Ascending (mEnv e)) by now apply StrictlyAscending_Ascending.
  pose proof (strict_adjacent lo Hlo) as Hdt.
  pose proof (steps_not_negative tstep j Hstep) as Hj.
  split.
  { rewrite (GetValueRelative_bracket log10 pow10 e ts lo Ha Hlo H0 Hle Hlt).
    apply bracket_value_exponent. }
  destruct (Qlt_le_dec t (GetT (at_ (mEnv e) (S lo)))) as [Hin|Hknot].
  - exists (bracket_exponent log10 e lo t). split.
    + now apply bracket_exponent_steps.
    + rewrite (GetValueRelative_bracket log10 pow10 e t lo Ha Hlo);
        [apply bracket_value_exponent | lra | lra | exact Hin].
  - assert (Ek : t == GetT (at_ (mEnv e) (S lo))) by lra.
    assert (Hlo2 : (S (S lo) < length (mEnv e))%nat).
    { destruct (Nat.eq_dec (S lo) (length (mEnv e) - 1)) as [E|E]; [|lia].
      exfalso. rewrite E in Ek. lra. }
    pose proof (strict_adjacent (S lo) Hlo2) as Hdt2.
    exists (bracket_exponent log10 e (S lo) t). split.
    + rewrite <- (bracket_exponent_knot lo t Hdt Hdt2 Ek).
      now apply bracket_exponent_steps.
    + rewrite (GetValueRelative_bracket log10 pow10 e t (S lo) Ha Hlo2);
        [apply bracket_value_exponent | lra | lra | lra].
Qed.

(** In Linear mode a single evaluation does not tell equal times apart. *)
Lemma GetValueRelative_respects (t t' : Q) :
  mDB e = false -> t == t' ->
  GetValueRelative log10 pow10 e t == GetValueRelative log10 pow10 e t'.
Proof.
  intros Hlin E.
  assert (Ha : Ascending (mEnv e)) by now apply StrictlyAscending_Ascending.
  destruct (Nat.eq_dec (length (mEnv e)) 0) as [El|El].
  { apply length_zero_iff_nil in El.
    now rewrite !GetValueRelative_empty by exact El. }
  assert (Hne : mEnv e <> []).
  { intros E'. apply El. now rewrite E'. }
  destruct (Qlt_le_dec (GetT (at_ (mEnv e) 0)) t) as [H0|H0].
  2:{ rewrite !GetValueRelative_before by (auto; lra). reflexivity. }
  destruct (Qlt_le_dec t (GetT (at_ (mEnv e) (length (mEnv e) - 1)))) as [H1|H1].
  2:{ rewrite !GetValueRelative_after by (auto; lra). reflexivity. }
  destruct (interior_bracket (mEnv e) t 0 H0 H1) as [lo [Hlo [Hle [Hlt _]]]].
  rewrite !(GetValueRelative_bracket log10 pow10 e _ lo Ha Hlo) by lra.
  rewrite !bracket_value_exponent, Hlin. unfold bracket_exponent.
  now rewrite E.
Qed.

(** A value just looked up is stored as it is. *)
Lemma fresh_stored (start : Q) (b : nat) (v : Q) :
  v = GetValueRelative log10 pow10 e (sample_time start tstep b) ->
  stored_at log10 pow10 e tstep start b v 0 0.
Proof.
  intros E. split; [lia|]. split.
  - cbn [stepped]. now rewrite Nat.sub_0_r.
  - intros H. now contradiction H.
Qed.

(** A turn of the loop stores what [stored_at] says and leaves the loop
    in one of its three standings. *)
Lemma turn_keeps_inv (start : Q) (m : scan_mode) (b : nat) (prev : Q)
  (s : scan_state) :
  scan_inv log10 pow10 e tstep start m b prev s ->
  (exists j lo,
     stored_at log10 pow10 e tstep start b
       (fst (GetValuesRelative_turn log10 pow10 e tstep b prev s)) j lo) /\
  exists m', scan_inv log10 pow10 e tstep start m' (S b)
               (fst (GetValuesRelative_turn log10 pow10 e tstep b prev s))
               (snd (GetValuesRelative_turn log10 pow10 e tstep b prev s)).
Proof.
  intros [Et Hinv].
  assert (Ha : Ascending (mEnv e)) by now apply StrictlyAscending_Ascending.
  set (t := sc_t s) in *.
  assert (Et' : t + tstep = sample_time start tstep (S b)).
  { rewrite sample_time_succ. now rewrite Et. }
  (* outside the points *)
  assert (Hout : mEnv e = [] \/ t <= GetT (at_ (mEnv e) 0) \/
                 GetT (at_ (mEnv e) (length (mEnv e) - 1)) <= t ->
                 forall m', scan_inv log10 pow10 e tstep start m' (S b)
                              (GetValueRelative log10 pow10 e t) (advance s tstep) ->
                 (exists j lo,
                    stored_at log10 pow10 e tstep start b
                      (fst (GetValuesRelative_turn log10 pow10 e tstep b prev s)) j lo) /\
                 exists m', scan_inv log10 pow10 e tstep start m' (S b)
                              (fst (GetValuesRelative_turn log10 pow10 e tstep b prev s))
                              (snd (GetValuesRelative_turn log10 pow10 e tstep b prev s))).
  { intros H m' Hm'. rewrite (turn_outside log10 pow10 e tstep b prev s H).
    cbn [fst snd]. fold t. split.
    - exists 0%nat, 0%nat. apply fresh_stored. now rewrite Et.
    - now exists m'. }
  (* looking a bracket up *)
  assert (Hlook : GetT (at_ (mEnv e) 0) < t -> t < GetT (at_ (mEnv e) (length (mEnv e) - 1)) ->
                  b = 0%nat \/ sc_tnext s < t ->
                  (exists j lo,
                     stored_at log10 pow10 e tstep start b
                       (fst (GetValuesRelative_turn log10 pow10 e tstep b prev s)) j lo) /\
                  exists m', scan_inv log10 pow10 e tstep start m' (S b)
                               (fst (GetValuesRelative_turn log10 pow10 e tstep b prev s))
                               (snd (GetValuesRelative_turn log10 pow10 e tstep b prev s))).
  { intros H0 H1 Hb.
    destruct (turn_lookup log10 pow10 e tstep b prev s Hs H0 H1 Hb)
      as [lo [g [Hlo [Hle [Hlt ->]]]]].
    cbn [fst snd]. fold t in Hle, Hlt |- *.
    rewrite <- (GetValueRelative_bracket log10 pow10 e t lo Ha Hlo H0 Hle Hlt).
    split.
    - exists 0%nat, 0%nat. apply fresh_stored. now rewrite Et.
    - exists (Tracking lo). split; [exact Et'|].
      cbn [sc_t sc_tnext sc_vstep].
      split; [exact Hlo|]. split; [reflexivity|]. split; [reflexivity|].
      exists 0%nat. split; [lia|].
      replace (S b - 1 - 0)%nat with b by lia. rewrite <- Et.
      split; [repeat split; assumption | reflexivity]. }
  destruct (Nat.eq_dec (length (mEnv e)) 0) as [El|El].
  { (* no points *)
    apply length_zero_iff_nil in El.
    apply (Hout (or_introl El) Fresh). split; [exact Et'|].
    destruct m; cbn [advance sc_tnext] in *.
    - exact Hinv.
    - destruct Hinv as [Hlo _]. rewrite El in Hlo. simpl in Hlo. lia.
    - destruct Hinv as [Hne _]. contradiction. }
  assert (Hne : mEnv e <> []).
  { intros E. apply El. now rewrite E. }
  destruct (Qlt_le_dec (GetT (at_ (mEnv e) 0)) t) as [H0|H0].
  2:{ (* at or before the first point *)
    destruct m.
    - apply (Hout (or_intror (or_introl H0)) Fresh). split; [exact Et'|].
      exact Hinv.
    - exfalso. destruct Hinv as [_ [_ [_ [j [Hj [[_ [Hf _]] _]]]]]].
      pose proof (sample_time_apart start tstep (S j) b ltac:(lia)) as Hap.
      pose proof (steps_not_negative tstep (S j) Hstep) as Hnn.
      replace (b - S j)%nat with (b - 1 - j)%nat in Hap by lia.
      rewrite <- Et in Hap. lra.
    - apply (Hout (or_intror (or_introl H0)) Done). split; [exact Et'|].
      cbn [advance sc_t]. destruct Hinv as [_ Hl]. split; auto.
      fold t in Hl |- *. lra. }
  destruct (Qlt_le_dec t (GetT (at_ (mEnv e) (length (mEnv e) - 1)))) as [H1|H1].
  2:{ (* at or after the last point *)
    apply (Hout (or_intror (or_intror H1)) Done). split; [exact Et'|].
    cbn [advance sc_t]. split; auto. fold t. lra. }
  (* strictly inside *)
  destruct m.
  - apply Hlook; auto. right. specialize (Hfirst Hne). lra.
  - destruct Hinv as [Hlo [Etn [Evs [j [Hj [Hbr Hprev]]]]]].
    destruct (Qlt_le_dec (sc_tnext s) t) as [Hn|Hn]; [apply Hlook; auto|].
    assert (Hb : b <> 0%nat) by lia.
    rewrite (turn_increment log10 pow10 e tstep b prev s Hne H0 H1 Hb Hn).
    cbn [fst snd].
    assert (Ev : (if mDB e then prev * sc_vstep s else prev + sc_vstep s) =
                 stepped (mDB e)
                   (GetValueRelative log10 pow10 e
                      (sample_time start tstep (b - 1 - j)))
                   (bracket_step log10 pow10 e lo tstep) (S j)).
    { cbn [stepped]. rewrite <- Hprev, Evs. reflexivity. }
    split.
    + exists (S j), lo. split; [lia|].
      replace (b - S j)%nat with (b - 1 - j)%nat by lia.
      split; [exact Ev|]. intros _. split; [exact Hbr|].
      rewrite <- Et. fold t. rewrite <- Etn. split; [exact Hn | exact H1].
    + exists (Tracking lo). split; [exact Et'|].
      cbn [advance sc_t sc_tnext sc_vstep].
      split; [exact Hlo|]. split; [exact Etn|]. split; [exact Evs|].
      exists (S j). split; [lia|].
      replace (S b - 1 - S j)%nat with (b - 1 - j)%nat by lia.
      split; [exact Hbr | exact Ev].
  - exfalso. destruct Hinv as [_ Hl]. fold t in Hl. lra.
Qed.

Lemma loop_stores (start : Q) (n : nat) :
  forall (m : scan_mode) (b : nat) (prev : Q) (s : scan_state),
    scan_inv log10 pow10 e tstep start m b prev s ->
    let buffer := fst (GetValuesRelative_loop log10 pow10 e tstep n b prev s) in
    length buffer = n /\
    forall k, (k < n)%nat ->
      exists j lo,
        stored_at log10 pow10 e tstep start (b + k) (nth k buffer 0) j lo.
Proof.
  induction n as [|n IH]; intros m b prev s Hinv buffer; subst buffer.
  - split; [reflexivity | intros k Hk; lia].
  - cbn [GetValuesRelative_loop].
    destruct (turn_keeps_inv start m b prev s Hinv) as [Hv [m' Hinv']].
    destruct (GetValuesRelative_turn log10 pow10 e tstep b prev s) as [v s'].
    cbn [fst snd] in *.
    destruct (IH m' (S b) v s' Hinv') as [Hlen Hnth].
    destruct (GetValuesRelative_loop log10 pow10 e tstep n (S b) v s')
      as [rest g]. cbn [fst] in *.
    split; [simpl; now rewrite Hlen|].
    intros [|k] Hk; cbn [nth].
    + now rewrite Nat.add_0_r.
    + replace (b + S k)%nat with (S b + k)%nat by lia. apply Hnth. lia.
Qed.


End Forward.


(** The first point's time must not be negative either: [tnext] starts
    at [0], so a sample between two points at negative times, coming
    after a sample before the first point, is not looked up. *)
Lemma GetValues_before_time_zero_differs :
  ~ GetValues_as_specified (fun x => x) (fun x => x)
      (sample_envelope [mkEnvPoint (-10) 0; mkEnvPoint (-2) 1]) 2 (-12) 4.
Proof.
  intros H. specialize (H 1%nat ltac:(lia)). vm_compute in H. discriminate.
Qed.

(** ** The checks of [Envelope::testMe]

    The embedding evaluated on the scenarios of [testMe], on an envelope
    of span [10]: the results are the numbers the source expects. *)

Lemma testMe_flat :
  let e := Flatten (sample_envelope three_points) (1 # 2) in
  let e' := snd (InsertOrReplaceRelative e 5 (1 # 2)) in
  Integral (fun x => x) (fun x => x) e 0 100 == 50 /\
  Integral (fun x => x) (fun x => x) e (-10) 10 == 10 /\
  Integral (fun x => x) (fun x => x) e (-20) (-10) == 5 /\
  Integral (fun x => x) (fun x => x) e' 0 100 == 50 /\
  Integral (fun x => x) (fun x => x) e' (-10) 10 == 10.
Proof. cbv zeta. repeat split; vm_compute; reflexivity. Qed.

Lemma testMe_three_points :
  let e0 := Flatten (sample_envelope []) 0 in
  let e1 := snd (InsertOrReplaceRelative e0 0 0) in
  let e2 := snd (InsertOrReplaceRelative e1 5 1) in
  let e := snd (InsertOrReplaceRelative e2 10 0) in
  mEnv e = triangle /\
  Integral (fun x => x) (fun x => x) e 0 (101 # 10) == 5 /\
  Integral (fun x => x) (fun x => x) e 0 (99 # 10) == 4999 # 1000 /\
  Integral (fun x => x) (fun x => x) e (99 # 10) (101 # 10) == 1 # 1000 /\
  NumberOfPointsAfter e (-1) = 3%Z /\
  NumberOfPointsAfter e 0 = 2%Z /\
  NumberOfPointsAfter e 1 = 2%Z /\
  NumberOfPointsAfter e 5 = 1%Z /\
  NumberOfPointsAfter e 7 = 1%Z /\
  NumberOfPointsAfter e 10 = 0%Z /\
  NextPointAfter e 0 = 5 /\
  NextPointAfter e 5 = 10.
Proof. cbv zeta. repeat split; vm_compute; reflexivity. Qed.


(** * Further properties of the code *)

(** ** Evaluation at and between control points *)

Section Curve.

Variable log10 : Q -> Q.
Variable pow10 : Q -> Q.

(** The three places a time can take on a populated vector. *)
Lemma time_position (l : list EnvPoint) (t : Q) :
  l <> [] ->
  t <= GetT (at_ l 0) \/
  (GetT (at_ l 0) < t /\ GetT (at_ l (length l - 1)) <= t) \/
  (GetT (at_ l 0) < t /\ t < GetT (at_ l (length l - 1))).
Proof.
  intros _.
  destruct (Qlt_le_dec (GetT (at_ l 0)) t) as [H0|H0]; [|now left].
  destruct (Qlt_le_dec t (GetT (at_ l (length l - 1)))) as [H1|H1].
  - right; right. now split.
  - right; left. now split.
Qed.

(** The time of a point that [SetVal] rewrote. *)
Lemma update_SetVal_time (e : Envelope) (l : list EnvPoint) (i k : nat) (v : Q) :
  GetT (at_ (update l i (fun p => SetVal e p v)) k) = GetT (at_ l k).
Proof.
  destruct (Nat.eq_dec i k) as [->|Hne].
  - destruct (Nat.lt_ge_cases k (length l)) as [Hk|Hk].
    + now rewrite update_at.
    + unfold at_. rewrite !nth_overflow; auto. now rewrite update_length.
  - now rewrite update_other.
Qed.

(** X1. What the curve returns at the time of a control point of an
    ascending vector, in either mode.  At the first point's time it is the
    first point's stored value, as it is.  At the last point's time, when
    that is later than the first point's, it is the last point's stored
    value, as it is.  At the time of a point [i] in between that is later
    than the first point's time and earlier than the next point's, no
    stored value is copied: the code computes
    [(v_i * (dt - to) + v_next * to) / dt] with [to = t_i - t_i] and
    [dt = t_next - t_i] (and [pow10] of it, over the [log10] of the
    values, in Logarithmic mode). *)
Theorem GetValueRelative_at_control_point (e : Envelope) :
  Ascending (mEnv e) -> mEnv e <> [] ->
  let n := length (mEnv e) in
  GetValueRelative log10 pow10 e (GetT (at_ (mEnv e) 0)) =
    GetVal (at_ (mEnv e) 0) /\
  (GetT (at_ (mEnv e) 0) < GetT (at_ (mEnv e) (n - 1)) ->
   GetValueRelative log10 pow10 e (GetT (at_ (mEnv e) (n - 1))) =
     GetVal (at_ (mEnv e) (n - 1))) /\
  (forall i : nat,
     (S i < n)%nat ->
     let lo := at_ (mEnv e) i in
     let hi := at_ (mEnv e) (S i) in
     let dt := GetT hi - GetT lo in
     let to := GetT lo - GetT lo in
     GetT (at_ (mEnv e) 0) < GetT lo -> GetT lo < GetT hi ->
     GetValueRelative log10 pow10 e (GetT lo) =
     if mDB e
     then pow10 ((log10 (GetVal lo) * (dt - to) + log10 (GetVal hi) * to) / dt)
     else (GetVal lo * (dt - to) + GetVal hi * to) / dt).
Proof.
  intros Ha Hne n. split; [|split].
  - apply GetValueRelative_before; auto. lra.
  - intros H. apply GetValueRelative_after; auto. subst n. lra.
  - intros i Hi lo hi dt to H0 H1.
    rewrite (GetValueRelative_between log10 pow10 e _ i Ha Hi H0
               ltac:(subst lo; lra) H1).
    fold lo hi. fold dt. fold to. now destruct (mDB e).
Qed.

(** X2. Insert at an end, then look up: on strictly ascending points, for a
    time within the span that is at or before the first point's or at or
    after the last point's (or with no points yet), the envelope evaluates
    at that time to the value just stored there, as it is: the given value
    clamped to the range when a point was overwritten, the given value
    itself when a point was inserted.  In either mode. *)
Theorem InsertOrReplaceRelative_then_GetValueRelative
  (e : Envelope) (t value : Q) :
  StrictlyAscending (mEnv e) ->
  0 <= t -> t <= mTrackLen e ->
  mEnv e = [] \/ t <= GetT (at_ (mEnv e) 0) \/
  GetT (at_ (mEnv e) (length (mEnv e) - 1)) <= t ->
  let e' := snd (InsertOrReplaceRelative e t value) in
  (has_point_at (mEnv e) t ->
   GetValueRelative log10 pow10 e' t = ClampValue e value) /\
  (~ has_point_at (mEnv e) t ->
   GetValueRelative log10 pow10 e' t = value).
Proof.
  intros Hs H0 H1 Hend e'.
  assert (Ha : Ascending (mEnv e)) by now apply StrictlyAscending_Ascending.
  split.
  - intros Hp.
    destruct (InsertOrReplaceRelative_overwrites e t value Ha H0 (or_introl H1) Hp)
      as [Hi [Et E]].
    set (i := scan_past t (mEnv e) 0) in *.
    assert (Ee : mEnv e' = update (mEnv e) i (fun p => SetVal e p value)).
    { subst e'. now rewrite E. }
    assert (Hlen : length (mEnv e') = length (mEnv e)).
    { rewrite Ee. apply update_length. }
    assert (Hne' : mEnv e' <> []).
    { intros En. rewrite En in Hlen. simpl in Hlen. lia. }
    assert (Ht : forall k, GetT (at_ (mEnv e') k) = GetT (at_ (mEnv e) k)).
    { intros k. rewrite Ee. apply update_SetVal_time. }
    assert (Ep : GetVal (at_ (mEnv e') i) = ClampValue e value).
    { rewrite Ee, update_at by exact Hi. reflexivity. }
    destruct (Qlt_le_dec (GetT (at_ (mEnv e) 0)) t) as [Hgt|Hle].
    + destruct Hend as [En|[Hle|Hlast]];
        [rewrite En in Hi; simpl in Hi; lia | lra |].
      assert (Ei : i = (length (mEnv e) - 1)%nat).
      { destruct (Nat.eq_dec i (length (mEnv e) - 1)) as [|Hn]; auto. exfalso.
        pose proof (StrictlyAscending_lt (mEnv e) i (length (mEnv e) - 1) Hs
                      ltac:(lia) ltac:(lia)). lra. }
      rewrite GetValueRelative_after; auto.
      * rewrite Hlen, <- Ei. exact Ep.
      * now rewrite Ht.
      * now rewrite Ht, Hlen.
    + assert (Ei : i = 0%nat).
      { destruct (Nat.eq_dec i 0) as [|Hn]; auto. exfalso.
        pose proof (StrictlyAscending_lt (mEnv e) 0 i Hs ltac:(lia) Hi). lra. }
      rewrite GetValueRelative_before; auto.
      * rewrite <- Ei. exact Ep.
      * now rewrite Ht.
  - intros Hno.
    pose proof (InsertOrReplaceRelative_inserts e t value H0 (or_introl H1) Hno)
      as E. cbv zeta in E.
    set (i := scan_past t (mEnv e) 0) in *.
    pose proof (scan_past_le t (mEnv e)) as Hi. fold i in Hi.
    assert (Ee : mEnv e' = firstn i (mEnv e) ++ mkEnvPoint t value :: skipn i (mEnv e)).
    { subst e'. now rewrite E. }
    assert (Hlen : length (mEnv e') = S (length (mEnv e))).
    { rewrite Ee. apply insert_length. }
    assert (Hne' : mEnv e' <> []).
    { intros En. rewrite En in Hlen. simpl in Hlen. lia. }
    assert (Ep : at_ (mEnv e') i = mkEnvPoint t value).
    { rewrite Ee. now apply insert_at. }
    assert (Hfirst : i = 0%nat ->
              GetValueRelative log10 pow10 e' t = value).
    { intros Ei. rewrite GetValueRelative_before; auto.
      - rewrite <- Ei, Ep. reflexivity.
      - rewrite <- Ei, Ep. cbn [GetT]. lra. }
    destruct (Nat.eq_dec i 0) as [Ei|Ei]; [now apply Hfirst|].
    assert (Hgt : GetT (at_ (mEnv e) 0) < t).
    { apply scan_past_before. fold i. lia. }
    destruct Hend as [En|[Hle|Hlast]];
      [rewrite En in Hi; simpl in Hi; lia | lra |].
    assert (Eil : i = length (mEnv e)).
    { destruct (Nat.eq_dec i (length (mEnv e))) as [|Hn]; auto. exfalso.
      assert (Hil : (i < length (mEnv e))%nat) by lia.
      pose proof (scan_past_misses t (mEnv e) Hno Hil) as Hm. fold i in Hm.
      pose proof (Ascending_le (mEnv e) i (length (mEnv e) - 1) Ha
                    ltac:(lia) ltac:(lia)). lra. }
    assert (E0 : at_ (mEnv e') 0 = at_ (mEnv e) 0).
    { rewrite Ee, insert_at_any by exact Hi.
      destruct (Nat.ltb_spec 0 i); [reflexivity | lia]. }
    rewrite GetValueRelative_after; auto.
    + rewrite Hlen. replace (S (length (mEnv e)) - 1)%nat with i by lia.
      rewrite Ep. reflexivity.
    + now rewrite E0.
    + rewrite Hlen. replace (S (length (mEnv e)) - 1)%nat with i by lia.
      rewrite Ep. cbn [GetT]. lra.
Qed.

(** In Linear mode the value at any time lies between bounds of the
    default value and the stored values, in exact arithmetic. *)
Lemma GetValueRelative_within (e : Envelope) (m M t : Q) :
  Ascending (mEnv e) -> mDB e = false ->
  m <= mDefaultValue e -> mDefaultValue e <= M ->
  (forall k, (k < length (mEnv e))%nat ->
     m <= GetVal (at_ (mEnv e) k) /\ GetVal (at_ (mEnv e) k) <= M) ->
  m <= GetValueRelative log10 pow10 e t /\ GetValueRelative log10 pow10 e t <= M.
Proof.
  intros Ha Hlin Hd1 Hd2 Hat.
  destruct (Nat.eq_dec (length (mEnv e)) 0) as [El|El].
  { apply length_zero_iff_nil in El. now rewrite GetValueRelative_empty. }
  assert (Hne : mEnv e <> []) by (intros E; apply El; now rewrite E).
  destruct (time_position (mEnv e) t Hne) as [H0|[[H0 H1]|[H0 H1]]].
  - rewrite GetValueRelative_before by auto. apply Hat. lia.
  - rewrite GetValueRelative_after by auto. apply Hat. lia.
  - destruct (interior_bracket (mEnv e) t 0 H0 H1) as [lo [Hlo [Hle [Hlt _]]]].
    rewrite (GetValueRelative_between log10 pow10 e t lo Ha Hlo H0 Hle Hlt).
    rewrite Hlin. cbn [negb].
    destruct (Hat lo ltac:(lia)) as [Ha1 Ha2].
    destruct (Hat (S lo) Hlo) as [Hb1 Hb2].
    set (a := GetVal (at_ (mEnv e) lo)) in *.
    set (b := GetVal (at_ (mEnv e) (S lo))) in *.
    set (tl := GetT (at_ (mEnv e) lo)) in *.
    set (th := GetT (at_ (mEnv e) (S lo))) in *.
    assert (Hdt : 0 < th - tl) by lra.
    assert (Ev : (a * (th - tl - (t - tl)) + b * (t - tl)) / (th - tl) ==
                 a + (b - a) * ((t - tl) / (th - tl))) by (field; lra).
    assert (Hf : 0 <= (t - tl) / (th - tl) /\ (t - tl) / (th - tl) <= 1).
    { split.
      - apply Qle_shift_div_l; lra.
      - apply Qle_shift_div_r; lra. }
    rewrite Ev.
    set (f := (t - tl) / (th - tl)) in *. destruct Hf as [Hf0 Hf1].
    split; nra.
Qed.

End Curve.

Lemma GetValueRelative_at_control_point_witness :
  GetValueRelative (fun x => x) (fun x => x) (sample_envelope three_points) 10
  = 3.
Proof.
  assert (Ha : Ascending (mEnv (sample_envelope three_points))).
  { repeat constructor; unfold not_after; simpl; lra. }
  destruct (GetValueRelative_at_control_point (fun x => x) (fun x => x)
              (sample_envelope three_points) Ha ltac:(discriminate))
    as [_ [H _]].
  apply H. vm_compute. reflexivity.
Defined.

Lemma InsertOrReplaceRelative_then_GetValueRelative_witness :
  GetValueRelative (fun x => x) (fun x => x)
    (snd (InsertOrReplaceRelative (sample_envelope [mkEnvPoint 2 1; mkEnvPoint 5 2])
            7 9)) 7 = 9.
Proof.
  destruct (InsertOrReplaceRelative_then_GetValueRelative
              (fun x => x) (fun x => x)
              (sample_envelope [mkEnvPoint 2 1; mkEnvPoint 5 2]) 7 9
              ltac:(repeat constructor)
              ltac:(vm_compute; discriminate) ltac:(vm_compute; discriminate)
              ltac:(right; right; vm_compute; discriminate))
    as [_ H].
  apply H. intros [p [[<-|[<-|[]]] Hp]]; vm_compute in Hp; discriminate.
Defined.

(** ** Counting and ranges *)

Lemma filter_all (f : EnvPoint -> bool) (l : list EnvPoint) :
  (forall j, (j < length l)%nat -> f (at_ l j) = true) -> filter f l = l.
Proof.
  induction l as [|p l IH]; intros H; simpl; auto.
  pose proof (H 0%nat ltac:(simpl; lia)) as H0. unfold at_ in H0; simpl in H0.
  rewrite H0. f_equal. apply IH. intros j Hj. apply (H (S j)). simpl; lia.
Qed.

Lemma skipn_at (l : list EnvPoint) (n j : nat) :
  at_ (skipn n l) j = at_ l (n + j).
Proof. unfold at_. apply nth_skipn. Qed.

(** X4. [NumberOfPointsAfter(t)] is the number of points whose time is after
    [t], on an ascending vector and whatever the cache holds. *)
Theorem NumberOfPointsAfter_counts (e : Envelope) (t : Q) :
  Ascending (mEnv e) ->
  NumberOfPointsAfter e t =
  Z.of_nat (length (filter (fun p => Qltb t (GetT p)) (mEnv e))).
Proof.
  intros Hs.
  pose proof (BinarySearchForTime_brackets (mEnv e) (mSearchGuess e) t) as Hb.
  pose proof (brackets_split (mEnv e) t _ _ Hs Hb) as Hsp.
  unfold NumberOfPointsAfter.
  destruct (BinarySearchForTime (mEnv e) (mSearchGuess e) t) as [[lo hi] g].
  cbn [fst snd] in *. destruct Hb as [E [R _]].
  assert (Hbefore : filter (fun p => Qltb t (GetT p))
                      (firstn (Z.to_nat hi) (mEnv e)) = []).
  { apply filter_none. intros j Hj. rewrite length_firstn in Hj.
    rewrite firstn_at by lia.
    destruct (Hsp j ltac:(lia)) as [H _]. specialize (H ltac:(lia)).
    destruct (Qltb_spec t (GetT (at_ (mEnv e) j))); [exfalso; lra | reflexivity]. }
  assert (Hafter : filter (fun p => Qltb t (GetT p))
                     (skipn (Z.to_nat hi) (mEnv e)) =
                   skipn (Z.to_nat hi) (mEnv e)).
  { apply filter_all. intros j Hj. rewrite length_skipn in Hj. rewrite skipn_at.
    destruct (Hsp (Z.to_nat hi + j)%nat ltac:(lia)) as [_ H].
    specialize (H ltac:(lia)).
    destruct (Qltb_spec t (GetT (at_ (mEnv e) (Z.to_nat hi + j))));
      [reflexivity | contradiction]. }
  rewrite <- (firstn_skipn (Z.to_nat hi) (mEnv e)) at 2.
  rewrite filter_app, Hbefore, Hafter, app_nil_l, length_skipn. lia.
Qed.

Lemma NumberOfPointsAfter_counts_witness :
  NumberOfPointsAfter (sample_envelope triangle) 5 = 1%Z.
Proof.
  rewrite NumberOfPointsAfter_counts; [reflexivity|].
  repeat constructor; unfold not_after; simpl; lra.
Defined.

Lemma scan_upto_stop (bound : Q) (l : list EnvPoint) :
  (scan_upto bound l 0 < length l)%nat ->
  bound < GetT (at_ l (scan_upto bound l 0)).
Proof.
  induction l as [|p l IH]; simpl; [lia|].
  destruct (Qleb_spec (GetT p) bound) as [Hle|Hgt]; intros H.
  - rewrite scan_upto_shift in *. change (1 + ?k)%nat with (S k).
    rewrite at_cons. apply IH. simpl in H. lia.
  - unfold at_; simpl. lra.
Qed.

(** X5. [EqualRange(when, sampleTime)] on an ascending vector is the run of
    indices whose times lie within half a sample time of [when]: a point is
    inside the returned range exactly when its time is. *)
Theorem EqualRange_spec (e : Envelope) (when sampleTime : Q) :
  Ascending (mEnv e) -> 0 <= sampleTime ->
  let first := fst (EqualRange e when sampleTime) in
  let after := snd (EqualRange e when sampleTime) in
  let tolerance := sampleTime / 2 in
  (first <= after)%nat /\ (after <= length (mEnv e))%nat /\
  forall j, (j < length (mEnv e))%nat ->
    ((first <= j < after)%nat <->
     when - tolerance <= GetT (at_ (mEnv e) j) /\
     GetT (at_ (mEnv e) j) <= when + tolerance).
Proof.
  intros Hs Hst first after tolerance.
  assert (Htol : 0 <= tolerance).
  { subst tolerance. apply Qle_shift_div_l; lra. }
  subst first after. unfold EqualRange, lower_bound. cbv zeta. cbn [fst snd].
  fold tolerance.
  set (first := scan_past (when - tolerance) (mEnv e) 0).
  pose proof (scan_past_le (when - tolerance) (mEnv e)) as Hf. fold first in Hf.
  rewrite scan_upto_shift.
  set (k := scan_upto (when + tolerance) (skipn first (mEnv e)) 0).
  pose proof (scan_upto_le (when + tolerance) (skipn first (mEnv e))) as Hk.
  fold k in Hk. rewrite length_skipn in Hk.
  split; [lia|]. split; [lia|]. intros j Hj.
  assert (Hlow : (first <= j)%nat -> when - tolerance <= GetT (at_ (mEnv e) j)).
  { intros Hfj.
    pose proof (scan_past_stop (when - tolerance) (mEnv e)) as Hstop.
    fold first in Hstop. specialize (Hstop ltac:(lia)).
    pose proof (Ascending_le (mEnv e) first j Hs Hfj Hj). lra. }
  assert (Hin : (first <= j < first + k)%nat ->
                GetT (at_ (mEnv e) j) <= when + tolerance).
  { intros Hjk.
    pose proof (scan_upto_within (when + tolerance) (skipn first (mEnv e))
                  (j - first)) as H.
    fold k in H. specialize (H ltac:(lia)). rewrite skipn_at in H.
    now replace (first + (j - first))%nat with j in H by lia. }
  assert (Hout : (first + k <= j)%nat -> when + tolerance < GetT (at_ (mEnv e) j)).
  { intros Hjk.
    pose proof (scan_upto_stop (when + tolerance) (skipn first (mEnv e))) as H.
    fold k in H. rewrite length_skipn in H. specialize (H ltac:(lia)).
    rewrite skipn_at in H.
    pose proof (Ascending_le (mEnv e) (first + k) j Hs Hjk Hj). lra. }
  split.
  - intros Hjk. split; [apply Hlow; lia | apply Hin; exact Hjk].
  - intros [H1 H2].
    destruct (Nat.lt_ge_cases j first) as [Hlt|Hge].
    { pose proof (scan_past_before (when - tolerance) (mEnv e) j) as H.
      fold first in H. specialize (H Hlt). lra. }
    destruct (Nat.lt_ge_cases j (first + k)) as [Hlt2|Hge2]; [lia|].
    specialize (Hout Hge2). lra.
Qed.

Lemma EqualRange_spec_witness :
  (fst (EqualRange (sample_envelope three_points) 5 1) <=
   snd (EqualRange (sample_envelope three_points) 5 1))%nat.
Proof.
  assert (Hs : Ascending (mEnv (sample_envelope three_points))).
  { repeat constructor; unfold not_after; simpl; lra. }
  destruct (EqualRange_spec (sample_envelope three_points) 5 1 Hs
              ltac:(vm_compute; discriminate)) as [H _].
  exact H.
Defined.

(** ** The search cache *)

(** X6. After every search the cache holds the returned [lo], an index of the
    vector or [-1]; and on an ascending vector a second search at the same
    time returns the same bracket and leaves the cache as it is. *)
Theorem BinarySearchForTime_cache (l : list EnvPoint) (g : Z) (t : Q) :
  Ascending l ->
  let lo := fst (fst (BinarySearchForTime l g t)) in
  let hi := snd (fst (BinarySearchForTime l g t)) in
  let g' := snd (BinarySearchForTime l g t) in
  g' = lo /\ (-1 <= g' < Z.of_nat (length l))%Z /\
  ((0 <= lo)%Z -> guess_hits l g' t = true) /\
  BinarySearchForTime l g' t = (lo, hi, g').
Proof.
  intros Hs lo hi g'.
  pose proof (BinarySearchForTime_brackets l g t) as Hb. fold lo hi in Hb.
  assert (Eg : g' = lo).
  { subst g' lo. unfold BinarySearchForTime.
    destruct (guess_hits l g t); [reflexivity|].
    destruct (guess_hits l (g + 1) t); [reflexivity|].
    now destruct (bisect _ _ _ _ _). }
  destruct Hb as [E [R [L H]]].
  assert (Hhit : (0 <= lo)%Z -> guess_hits l lo t = true).
  { intros Hlo. unfold guess_hits.
    destruct (Z.leb_spec 0 lo); [|lia].
    destruct (Z.ltb_spec lo (Z.of_nat (length l))); [|lia].
    destruct (Qleb_spec (GetT (atZ l lo)) t) as [|Hn]; [|now specialize (L Hlo)].
    cbn [andb].
    destruct (Z.eqb_spec (1 + lo) (Z.of_nat (length l))); [reflexivity|].
    cbn [orb]. replace (1 + lo)%Z with hi by lia.
    destruct (Qltb_spec t (GetT (atZ l hi))) as [|Hn]; [reflexivity|].
    exfalso. apply Hn. apply H. lia. }
  rewrite Eg. split; [reflexivity|]. split; [exact R|]. split; [exact Hhit|].
  destruct (Z.le_gt_cases 0 lo) as [Hlo|Hlo].
  - unfold BinarySearchForTime. rewrite (Hhit Hlo).
    replace (1 + lo)%Z with hi by lia. reflexivity.
  - pose proof (BinarySearchForTime_brackets l lo t) as Hb2.
    assert (Hb1 : brackets l t lo hi) by exact (conj E (conj R (conj L H))).
    destruct (brackets_unique _ _ _ _ _ _ Hs Hb2 Hb1) as [E1 E2].
    assert (E3 : snd (BinarySearchForTime l lo t) =
                 fst (fst (BinarySearchForTime l lo t))).
    { unfold BinarySearchForTime.
      destruct (guess_hits l lo t); [reflexivity|].
      destruct (guess_hits l (lo + 1) t); [reflexivity|].
      now destruct (bisect _ _ _ _ _). }
    destruct (BinarySearchForTime l lo t) as [[a b] c]. cbn [fst snd] in *.
    congruence.
Qed.

Lemma BinarySearchForTime_cache_witness :
  snd (BinarySearchForTime three_points 0 7) =
  fst (fst (BinarySearchForTime three_points 0 7)).
Proof.
  assert (Hs : Ascending three_points).
  { repeat constructor; unfold not_after; simpl; lra. }
  destruct (BinarySearchForTime_cache three_points 0 7 Hs) as [H _].
  exact H.
Defined.

(** ** The drag gesture *)

Lemma erase_update (l : list EnvPoint) (i : nat) f :
  erase (update l i f) i = erase l i.
Proof.
  unfold erase. revert i. induction l as [|p l IH]; intros [|i]; simpl; auto.
  f_equal. apply IH.
Qed.

Lemma SetDragPointValid_false_points (e : Envelope) :
  (0 <= mDragPoint e)%Z ->
  exists f,
    SetDragPointValid e false =
    with_mEnv (with_drag e (mDragPoint e) false)
      (update (mEnv e) (Z.to_nat (mDragPoint e)) f) /\
    forall p, GetVal (f p) = ClampValue e (GetVal (f p)) \/
              exists v, GetVal (f p) = ClampValue e v.
Proof.
  intros Hd. unfold SetDragPointValid. cbv zeta.
  cbn [andb negb mDragPoint with_drag mEnv].
  apply Z.leb_le in Hd. rewrite Hd. cbn [andb].
  destruct (length (mEnv e) <=? 1)%nat; [|destruct (_ =? _)%nat];
    eexists; (split; [reflexivity|]); intros p; right; eexists; reflexivity.
Qed.

(** X7. The drag gesture, from the engaging of a point to the release.
    [SetDragPoint] engages an index of the vector or none. Released at once,
    or after a move, the vector keeps all its points; released after the point
    was invalidated, the vector has lost exactly that point, whatever the
    preview had made of it; and a move after the invalidation rescues the
    point. *)
Theorem drag_gesture (e : Envelope) (d : Z) :
  let n := length (mEnv e) in
  let e1 := SetDragPoint e d in
  (-1 <= mDragPoint e1 < Z.of_nat n)%Z /\
  mDragPointValid e1 = (0 <=? mDragPoint e1)%Z /\
  mEnv e1 = mEnv e /\
  ((0 <= d < Z.of_nat n)%Z ->
   mDragPoint e1 = d /\
   mEnv (ClearDragPoint e1) = mEnv e /\
   mEnv (ClearDragPoint (SetDragPointValid e1 false)) =
     erase (mEnv e) (Z.to_nat d) /\
   (forall t v,
      length (mEnv (ClearDragPoint (MoveDragPoint e1 t v))) = n /\
      length (mEnv (ClearDragPoint
                      (MoveDragPoint (SetDragPointValid e1 false) t v))) = n) /\
   mDragPoint (ClearDragPoint (SetDragPointValid e1 false)) = (-1)%Z /\
   mDragPointValid (ClearDragPoint (SetDragPointValid e1 false)) = false).
Proof.
  intros n e1. subst e1. unfold SetDragPoint. cbv zeta.
  cbn [mDragPoint mDragPointValid with_drag mEnv]. fold n.
  split; [lia|]. split; [reflexivity|]. split; [reflexivity|].
  intros Hd.
  assert (Ed : Z.max (-1) (Z.min (Z.of_nat n - 1) d) = d) by lia.
  rewrite Ed.
  assert (Hpos : (0 <=? d)%Z = true) by (apply Z.leb_le; lia).
  rewrite Hpos.
  set (e1 := with_drag e d true).
  split; [reflexivity|]. split; [reflexivity|]. split; [|split; [|split]].
  - destruct (SetDragPointValid_false_points e1 ltac:(simpl; lia)) as [f [-> _]].
    subst e1. unfold ClearDragPoint. cbn [mDragPointValid mDragPoint with_drag with_mEnv
                                negb andb mEnv].
    rewrite Hpos. cbn [Delete mEnv with_mEnv with_drag].
    apply erase_update.
  - intros t v. split.
    + rewrite MoveDragPoint_engaged by (simpl; lia).
      subst e1. unfold ClearDragPoint. cbn [mDragPointValid mDragPoint with_drag with_mEnv
                                  negb andb mEnv].
      now rewrite update_length.
    + destruct (SetDragPointValid_false_points e1 ltac:(simpl; lia)) as [f [-> _]].
      rewrite MoveDragPoint_engaged by (simpl; lia).
      subst e1. unfold ClearDragPoint. cbn [mDragPointValid mDragPoint with_drag with_mEnv
                                  negb andb mEnv].
      now rewrite !update_length.
  - reflexivity.
  - reflexivity.
Qed.

Lemma drag_gesture_witness :
  mEnv (ClearDragPoint
          (SetDragPointValid (SetDragPoint (sample_envelope three_points) 1) false))
  = [mkEnvPoint 0 1; mkEnvPoint 10 3].
Proof.
  destruct (drag_gesture (sample_envelope three_points) 1) as [_ [_ [_ H]]].
  destruct (H ltac:(simpl; lia)) as [_ [_ [H' _]]].
  exact H'.
Defined.

(** ** Values and the range, again *)

Lemma values_in_range_bounds (e : Envelope) :
  values_in_range e -> mMinValue e <= mMaxValue e.
Proof. intros [[H1 H2] _]. lra. Qed.

Lemma erase_Forall (P : EnvPoint -> Prop) (l : list EnvPoint) (k : nat) :
  Forall P l -> Forall P (erase l k).
Proof.
  intros H. unfold erase. apply Forall_app. split.
  - rewrite <- (firstn_skipn k l) in H. now apply Forall_app in H.
  - rewrite <- (firstn_skipn (S k) l) in H. now apply Forall_app in H.
Qed.

Lemma insert_Forall (P : EnvPoint -> Prop) (l : list EnvPoint) (i : nat)
  (p : EnvPoint) :
  Forall P l -> P p -> Forall P (firstn i l ++ p :: skipn i l).
Proof.
  intros H Hp. rewrite <- (firstn_skipn i l) in H. apply Forall_app in H.
  destruct H as [H1 H2]. apply Forall_app. split; [exact H1|]. now constructor.
Qed.

Lemma SetAllVals_values_in_range (e : Envelope) (f : Q -> Q) :
  mMinValue e <= mMaxValue e -> in_range e (mDefaultValue e) ->
  values_in_range (SetAllVals e f).
Proof.
  intros H Hd. split; [exact Hd|]. unfold SetAllVals. cbn [mEnv with_mEnv].
  apply Forall_forall. intros p Hp. apply in_map_iff in Hp.
  destruct Hp as [q [<- _]]. apply (ClampValue_in_range e). exact H.
Qed.

(** X8. Every write that goes through [ClampValue] or [SetVal] keeps the
    default value and the stored values inside the value range: [Reassign],
    [Delete], [SetRange], [RescaleValues], [Flatten], the drag operations, and
    [InsertOrReplaceRelative] when the value it is given lies in the range. *)
Theorem values_stay_in_range (e : Envelope) :
  values_in_range e ->
  (forall when value, values_in_range (snd (Reassign e when value))) /\
  (forall point, values_in_range (Delete e point)) /\
  (forall lo hi, lo <= hi -> values_in_range (SetRange e lo hi)) /\
  (forall lo hi, lo <= hi -> values_in_range (RescaleValues e lo hi)) /\
  (forall value, values_in_range (Flatten e value)) /\
  (forall d, values_in_range (SetDragPoint e d)) /\
  (forall valid, values_in_range (SetDragPointValid e valid)) /\
  (forall newWhen value, values_in_range (MoveDragPoint e newWhen value)) /\
  values_in_range (ClearDragPoint e) /\
  (forall when value,
     in_range e value ->
     values_in_range (snd (InsertOrReplaceRelative e when value))).
Proof.
  intros Hv. pose proof (values_in_range_bounds e Hv) as Hb.
  destruct Hv as [Hd Hl].
  assert (Hupd : forall (e' : Envelope) i f,
            mMinValue e' = mMinValue e -> mMaxValue e' = mMaxValue e ->
            mDefaultValue e' = mDefaultValue e -> mEnv e' = mEnv e ->
            (forall p, exists v, GetVal (f p) = ClampValue e v) ->
            values_in_range (with_mEnv e' (update (mEnv e') i f))).
  { intros e' i f E1 E2 E3 E4 Hf. split.
    - unfold in_range. cbn. rewrite E1, E2, E3. exact Hd.
    - cbn [mEnv with_mEnv]. rewrite E4.
      assert (Hr : forall v, in_range (with_mEnv e' (update (mEnv e) i f)) v <->
                             in_range e v).
      { intros v. unfold in_range. cbn. now rewrite E1, E2. }
      apply update_Forall.
      + eapply Forall_impl; [|exact Hl]. intros p Hp. now apply Hr.
      + intros p. apply Hr. destruct (Hf p) as [v ->].
        now apply ClampValue_in_range. }
  split.
  { (* Reassign *)
    intros when value. unfold Reassign.
    destruct (length (mEnv e) =? 0)%nat; [now split|].
    destruct (_ || _); [now split|]. cbn [snd].
    apply (Hupd e); auto. intros p. now exists value. }
  split.
  { intros point. split; [exact Hd|]. unfold Delete. cbn [mEnv with_mEnv].
    now apply erase_Forall. }
  split.
  { intros lo hi H. now apply SetRange_values_in_range. }
  split.
  { intros lo hi H. unfold RescaleValues. cbv zeta.
    apply SetAllVals_values_in_range; [exact H|].
    apply (ClampValue_in_range (with_range e lo hi)). exact H. }
  split.
  { intros value. unfold Flatten. cbv zeta. split; [|constructor].
    apply (ClampValue_in_range (with_mEnv e [])). exact Hb. }
  split.
  { intros d. now split. }
  split.
  { (* SetDragPointValid *)
    intros valid. unfold SetDragPointValid. cbv zeta.
    destruct ((0 <=? mDragPoint _)%Z && negb valid); [|now split].
    destruct (_ <=? 1)%nat; [|destruct (_ =? _)%nat];
      apply (Hupd (with_drag e _ _)); auto; intros p; eexists; reflexivity. }
  split.
  { (* MoveDragPoint *)
    intros newWhen value.
    destruct (Z.le_gt_cases 0 (mDragPoint e)) as [Hpos|Hneg].
    - rewrite MoveDragPoint_engaged by exact Hpos.
      apply (Hupd (with_drag e _ _)); auto. intros p. now exists value.
    - unfold MoveDragPoint, SetDragPointValid. cbv zeta.
      cbn [andb negb mDragPoint mDragPointValid with_drag].
      destruct (Z.leb_spec 0 (mDragPoint e)); [lia|]. cbn [andb negb].
      now split. }
  split.
  { (* ClearDragPoint *)
    unfold ClearDragPoint. destruct (_ && _); split; try exact Hd; cbn;
      [now apply erase_Forall | exact Hl]. }
  (* InsertOrReplaceRelative *)
  intros when value Hval.
  destruct (InsertOrReplaceRelative_cases e when value)
    as [->|[[i ->]|[w [-> _]]]].
  - now split.
  - apply (Hupd e); auto. intros p. now exists value.
  - split; [exact Hd|]. cbn [mEnv with_mEnv]. now apply insert_Forall.
Qed.

Lemma values_stay_in_range_witness :
  values_in_range (SetRange (sample_envelope three_points) 0 2).
Proof.
  assert (Hv : values_in_range (sample_envelope three_points)).
  { split; [split; vm_compute; discriminate|].
    repeat constructor; vm_compute; discriminate. }
  destruct (values_stay_in_range (sample_envelope three_points) Hv)
    as [_ [_ [H _]]].
  apply H. vm_compute; discriminate.
Defined.

(** ** Rescaling *)

Lemma map_at (f : EnvPoint -> EnvPoint) (l : list EnvPoint) (j : nat) :
  (j < length l)%nat -> at_ (map f l) j = f (at_ l j).
Proof.
  intros H. unfold at_. rewrite (nth_indep _ origin (f origin)).
  - apply map_nth.
  - now rewrite length_map.
Qed.

Lemma clamp_fixes (lo hi x : Q) :
  lo <= x -> x <= hi -> std_max lo (std_min hi x) == x.
Proof. intros H1 H2. unfold std_max, std_min. repeat qcase; lra. Qed.

Lemma RescaleValues_at (e : Envelope) (lo hi : Q) (j : nat) :
  (j < length (mEnv e))%nat ->
  at_ (mEnv (RescaleValues e lo hi)) j =
  mkEnvPoint (GetT (at_ (mEnv e) j))
    (std_max lo
       (std_min hi
          (lo + (hi - lo) *
                ((GetVal (at_ (mEnv e) j) - mMinValue e) /
                 (mMaxValue e - mMinValue e))))).
Proof.
  intros H. unfold RescaleValues, SetAllVals. cbv zeta.
  cbn [mEnv with_mEnv with_mDefaultValue with_range].
  now rewrite map_at.
Qed.

(** Clamping keeps the order of two numbers. *)
Lemma clamp_monotone (lo hi x y : Q) :
  x <= y -> std_max lo (std_min hi x) <= std_max lo (std_min hi y).
Proof. intros H. unfold std_max, std_min. repeat qcase; lra. Qed.

(** X9. [RescaleValues] sets the value range to the one given, keeps the
    number of points and every time, and replaces the default value and
    every stored value [v] by the number the code computes for it,
    [ClampValue(minValue + (maxValue - minValue) * factor)] with
    [factor = (v - oldMin) / (oldMax - oldMin)] and the clamp to the new
    range.  Stated for an old range of two different bounds, whose
    difference the code divides by.  With [minValue <= maxValue] the new
    values lie in the new range; and with the old bounds in order too, a
    stored value that was not above another one is not above it
    afterwards. *)
Theorem RescaleValues_spec (e : Envelope) (minValue maxValue : Q) :
  ~ mMinValue e == mMaxValue e ->
  let e' := RescaleValues e minValue maxValue in
  let rescaled v :=
    ClampValue e' (minValue + (maxValue - minValue) *
                               ((v - mMinValue e) / (mMaxValue e - mMinValue e))) in
  mMinValue e' = minValue /\ mMaxValue e' = maxValue /\
  mDefaultValue e' = rescaled (mDefaultValue e) /\
  length (mEnv e') = length (mEnv e) /\
  (forall j, (j < length (mEnv e))%nat ->
     GetT (at_ (mEnv e') j) = GetT (at_ (mEnv e) j) /\
     GetVal (at_ (mEnv e') j) = rescaled (GetVal (at_ (mEnv e) j)) /\
     (minValue <= maxValue ->
      minValue <= GetVal (at_ (mEnv e') j) /\
      GetVal (at_ (mEnv e') j) <= maxValue)) /\
  (minValue <= maxValue -> mMinValue e < mMaxValue e ->
   forall j k, (j < length (mEnv e))%nat -> (k < length (mEnv e))%nat ->
     GetVal (at_ (mEnv e) j) <= GetVal (at_ (mEnv e) k) ->
     GetVal (at_ (mEnv e') j) <= GetVal (at_ (mEnv e') k)).
Proof.
  intros _ e' rescaled.
  assert (Hat : forall j, (j < length (mEnv e))%nat ->
            at_ (mEnv e') j =
            mkEnvPoint (GetT (at_ (mEnv e) j)) (rescaled (GetVal (at_ (mEnv e) j)))).
  { intros j Hj. subst e'. now rewrite RescaleValues_at. }
  split; [reflexivity|]. split; [reflexivity|]. split; [reflexivity|].
  split.
  { subst e'. unfold RescaleValues, SetAllVals. cbv zeta. cbn [mEnv with_mEnv].
    apply length_map. }
  split.
  - intros j Hj. rewrite (Hat j Hj). cbn [GetT GetVal].
    split; [reflexivity|]. split; [reflexivity|].
    intros H. subst rescaled. cbv beta. unfold ClampValue.
    change (mMinValue e') with minValue. change (mMaxValue e') with maxValue.
    unfold std_max, std_min. repeat qcase; lra.
  - intros H HmM j k Hj Hk Hv. rewrite (Hat j Hj), (Hat k Hk). cbn [GetVal].
    subst rescaled. cbv beta. unfold ClampValue.
    change (mMinValue e') with minValue. change (mMaxValue e') with maxValue.
    apply clamp_monotone.
    set (d := mMaxValue e - mMinValue e).
    assert (Hd : 0 < d) by (subst d; lra).
    assert (Hf : (GetVal (at_ (mEnv e) j) - mMinValue e) / d <=
                 (GetVal (at_ (mEnv e) k) - mMinValue e) / d).
    { apply Qle_shift_div_l; [exact Hd|].
      unfold Qdiv. rewrite <- Qmult_assoc, (Qmult_comm (/ d)), Qmult_inv_r by lra.
      lra. }
    nra.
Qed.

Lemma RescaleValues_spec_witness :
  let e' := RescaleValues (sample_envelope three_points) 2 4 in
  GetVal (at_ (mEnv e') 1) = ClampValue e' (2 + (4 - 2) * ((2 - 0) / (10 - 0))).
Proof.
  intros e'.
  destruct (RescaleValues_spec (sample_envelope three_points) 2 4
              ltac:(vm_compute; discriminate))
    as [_ [_ [_ [_ [H _]]]]].
  destruct (H 1%nat ltac:(simpl; lia)) as [_ [Hv _]]. exact Hv.
Defined.



(** ** Changing the length of the span *)

Lemma app_at_left (l l' : list EnvPoint) (j : nat) :
  (j < length l)%nat -> at_ (l ++ l') j = at_ l j.
Proof. intros H. unfold at_. now apply app_nth1. Qed.

Lemma app_at_last (l : list EnvPoint) (p : EnvPoint) :
  at_ (l ++ [p]) (length l) = p.
Proof. unfold at_. rewrite app_nth2, Nat.sub_diag by lia. reflexivity. Qed.

Lemma app_at_end (l : list EnvPoint) (p : EnvPoint) (j : nat) :
  j = length l -> at_ (l ++ [p]) j = p.
Proof. intros ->. apply app_at_last. Qed.

Lemma Ascending_app_left (l l' : list EnvPoint) :
  Ascending (l ++ l') -> Ascending l.
Proof.
  intros Hs. apply Ascending_adjacent. intros j Hj.
  pose proof (proj1 (Ascending_adjacent _) Hs j) as H.
  rewrite length_app in H. rewrite !app_at_left in H by lia. apply H. lia.
Qed.

(** The loop of [AddPointAtEnd] leaves a prefix of the old points and the
    appended one, and drops no point that lies before the appended time. *)
Lemma AddPointAtEnd_loop_shape (p : EnvPoint) :
  forall l : list EnvPoint,
    Ascending l ->
    (forall j, (j < length l)%nat -> GetT (at_ l j) <= GetT p) ->
    exists k, (k <= length l)%nat /\
      AddPointAtEnd_loop (length l) (l ++ [p]) (GetT p) = firstn k l ++ [p] /\
      forall j, (j < length l)%nat -> GetT (at_ l j) < GetT p -> (j < k)%nat.
Proof.
  intros l. induction l as [|q l IH] using rev_ind; intros Hs Hle.
  - exists 0%nat. split; [lia|]. split; [reflexivity|].
    simpl. intros j Hj. lia.
  - rewrite length_app. cbn [length]. rewrite Nat.add_1_r.
    destruct (length l) as [|m] eqn:El.
    + exists 1%nat. apply length_zero_iff_nil in El. subst l.
      split; [simpl; lia|]. split; [reflexivity|].
      simpl. intros j Hj _. lia.
    + cbn [AddPointAtEnd_loop].
      assert (Em : at_ ((l ++ [q]) ++ [p]) m = at_ l m).
      { rewrite <- app_assoc. apply app_at_left. lia. }
      rewrite Em.
      assert (Hs' : Ascending l) by exact (Ascending_app_left _ _ Hs).
      assert (Hle' : forall j, (j < length l)%nat -> GetT (at_ l j) <= GetT p).
      { intros j Hj. rewrite <- (app_at_left l [q]) by exact Hj.
        apply Hle. rewrite length_app. lia. }
      destruct (Qeqb_spec (GetT (at_ l m)) (GetT p)) as [E|E].
      * rewrite <- El. rewrite erase_last_but_one.
        pose proof Hle' as Hle''. rewrite El in Hle''.
        destruct (IH Hs' Hle'') as [k [Hk [Eq Hin]]].
        exists k. split; [lia|]. split.
        { change (AddPointAtEnd_loop (S m) (l ++ [p]) (GetT p) =
                  firstn k (l ++ [q]) ++ [p]).
          rewrite Eq. rewrite firstn_app.
          replace (k - length l)%nat with 0%nat by lia.
          cbn [firstn]. now rewrite app_nil_r. }
        intros j Hj Hlt.
        destruct (Nat.eq_dec j (length l)) as [Ej|Ej].
        { exfalso. subst j. rewrite app_at_last in Hlt.
          pose proof (Ascending_le (l ++ [q]) m (length l) Hs ltac:(lia)
                        ltac:(rewrite length_app; simpl; lia)) as H.
          rewrite app_at_left, app_at_last in H by lia. lra. }
        { rewrite app_at_left in Hlt by lia. apply Hin; [lia|exact Hlt]. }
      * exists (S (S m)). split; [lia|]. split.
        { rewrite <- El. replace (S (length l)) with (length (l ++ [q]))
            by (rewrite length_app; simpl; lia).
          now rewrite firstn_all. }
        intros j Hj _. lia.
Qed.

(** With ascending points, what [EqualRange] places after the range lies
    after the time asked for. *)
Lemma EqualRange_drops (e : Envelope) (when : Q) (j : nat) :
  Ascending (mEnv e) ->
  (snd (EqualRange e when 0) <= j)%nat -> (j < length (mEnv e))%nat ->
  when < GetT (at_ (mEnv e) j).
Proof.
  intros Hs. unfold EqualRange, lower_bound. cbv zeta. cbn [snd].
  assert (Hz : 0 / 2 == 0) by reflexivity. revert Hz.
  generalize (0 / 2). intros z Hz.
  set (first := scan_past (when - z) (mEnv e) 0).
  pose proof (scan_past_le (when - z) (mEnv e)) as Hf. fold first in Hf.
  rewrite scan_upto_shift. intros Hn Hj.
  set (u := scan_upto (when + z) (skipn first (mEnv e)) 0) in *.
  pose proof (scan_upto_stop (when + z) (skipn first (mEnv e))) as Hstop.
  fold u in Hstop. rewrite length_skipn, skipn_at in Hstop.
  specialize (Hstop ltac:(lia)).
  pose proof (Ascending_le (mEnv e) (first + u) j Hs Hn Hj). lra.
Qed.

Lemma AddPointAtEnd_shape (e : Envelope) (t val : Q) :
  Ascending (mEnv e) ->
  (forall j, (j < length (mEnv e))%nat -> GetT (at_ (mEnv e) j) <= t) ->
  exists k, (k <= length (mEnv e))%nat /\
    mEnv (AddPointAtEnd e t val) = firstn k (mEnv e) ++ [mkEnvPoint t val] /\
    forall j, (j < length (mEnv e))%nat -> GetT (at_ (mEnv e) j) < t -> (j < k)%nat.
Proof.
  intros Hs Hle. unfold AddPointAtEnd, push_back. cbn [mEnv with_mEnv].
  replace (length (mEnv e ++ [mkEnvPoint t val]) - 1)%nat
    with (length (mEnv e)) by (rewrite length_app; simpl; lia).
  exact (AddPointAtEnd_loop_shape (mkEnvPoint t val) (mEnv e) Hs Hle).
Qed.

Section Span.

Variable log10 : Q -> Q.
Variable pow10 : Q -> Q.

(** X11. [SetTrackLen] sets the span and leaves no point after its end; every
    point before the new end stays where it was. When the span does not shrink
    and no point lay after the new end, the points are untouched. When the
    span shrinks, the last point is a new one at the new end, carrying the
    value the envelope had there. *)
Theorem SetTrackLen_spec (e : Envelope) (trackLen : Q) :
  Ascending (mEnv e) ->
  let e' := SetTrackLen log10 pow10 e trackLen in
  mTrackLen e' = trackLen /\
  (forall j, (j < length (mEnv e'))%nat -> GetT (at_ (mEnv e') j) <= trackLen) /\
  (forall j, (j < length (mEnv e))%nat -> GetT (at_ (mEnv e) j) < trackLen ->
     (j < length (mEnv e'))%nat /\ at_ (mEnv e') j = at_ (mEnv e) j) /\
  (mTrackLen e <= trackLen ->
   (forall j, (j < length (mEnv e))%nat -> GetT (at_ (mEnv e) j) <= trackLen) ->
   mEnv e' = mEnv e) /\
  (trackLen < mTrackLen e ->
   mEnv e' <> [] /\
   at_ (mEnv e') (length (mEnv e') - 1) =
   mkEnvPoint trackLen (GetValueRelative log10 pow10 e trackLen)).
Proof.
  intros Hs e'. subst e'. unfold SetTrackLen. cbv zeta.
  set (e1 := if Qltb trackLen (mTrackLen e)
             then with_mSearchGuess e _ else e).
  assert (E1 : mEnv e1 = mEnv e) by (subst e1; now destruct (Qltb _ _)).
  set (e2 := with_mTrackLen e1 trackLen).
  assert (Hs2 : Ascending (mEnv e2)) by (change (mEnv e2) with (mEnv e1); now rewrite E1).
  destruct (EqualRange_keeps e2 trackLen) as [Hn Hkeep].
  pose proof (EqualRange_drops e2 trackLen) as Hdrop.
  set (n := snd (EqualRange e2 trackLen 0)) in *.
  change (mEnv e2) with (mEnv e1) in *. rewrite E1 in *.
  rewrite resize_shrinks by exact Hn.
  assert (Hfirst : Ascending (firstn n (mEnv e))).
  { apply Ascending_adjacent. intros j Hj. rewrite length_firstn in Hj.
    rewrite !firstn_at by lia. apply (proj1 (Ascending_adjacent _) Hs). lia. }
  assert (Hinside : forall j, (j < length (mEnv e))%nat ->
                              GetT (at_ (mEnv e) j) <= trackLen -> (j < n)%nat).
  { intros j Hj Hle. destruct (Nat.lt_ge_cases j n) as [H|H]; [exact H|].
    specialize (Hdrop j Hs2 H Hj). lra. }
  destruct (Qltb_spec trackLen (mTrackLen e)) as [Hshrink|Hgrow].
  - set (prefix := firstn n (mEnv e)) in *.
    set (e3 := with_mEnv e2 prefix).
    change (mTrackLen e3) with trackLen.
    set (value := GetValueRelative log10 pow10 e trackLen).
    assert (Hlp : length prefix = n) by (subst prefix; rewrite length_firstn; lia).
    assert (Hpre : forall j, (j < length (mEnv e3))%nat ->
                             GetT (at_ (mEnv e3) j) <= trackLen).
    { intros j Hj. change (mEnv e3) with prefix in *. subst prefix.
      rewrite firstn_at by lia. apply Hkeep. lia. }
    destruct (AddPointAtEnd_shape e3 trackLen value Hfirst Hpre)
      as [k [Hk [Eq Hin]]].
    change (mEnv e3) with prefix in *.
    rewrite Eq.
    assert (Hlk : length (firstn k prefix) = k) by (rewrite length_firstn; lia).
    split; [reflexivity|].
    split.
    { intros j Hj. rewrite length_app, Hlk in Hj. cbn [length] in Hj.
      destruct (Nat.eq_dec j k) as [->|Hne].
      - rewrite app_at_end by lia. cbn. lra.
      - rewrite app_at_left by lia. rewrite firstn_at by lia.
        subst prefix. rewrite firstn_at by lia. apply Hkeep. lia. }
    split.
    { intros j Hj Hlt.
      assert (Hjn : (j < n)%nat) by (apply Hinside; [exact Hj | lra]).
      assert (Hjk : (j < k)%nat).
      { apply Hin; [lia|]. subst prefix. rewrite firstn_at by lia. exact Hlt. }
      rewrite length_app, Hlk. split; [lia|].
      rewrite app_at_left by lia. rewrite firstn_at by lia.
      subst prefix. now rewrite firstn_at by lia. }
    split; [intros H; exfalso; lra|].
    intros _. split.
    { intros H. apply (f_equal (@length EnvPoint)) in H.
      rewrite length_app in H. simpl in H. lia. }
    rewrite length_app, Hlk. cbn [length].
    replace (k + 1 - 1)%nat with k by lia.
    apply app_at_end. lia.
  - cbn [mEnv with_mEnv mTrackLen with_mTrackLen].
    split; [reflexivity|]. split.
    { intros j Hj. rewrite length_firstn in Hj. rewrite firstn_at by lia.
      apply Hkeep. lia. }
    split.
    { intros j Hj Hlt.
      assert (Hjn : (j < n)%nat) by (apply Hinside; [exact Hj | lra]).
      rewrite length_firstn. split; [lia|]. now apply firstn_at. }
    split; [|intros H; exfalso; lra].
    intros _ Hall.
    assert (En : n = length (mEnv e)).
    { destruct (Nat.eq_dec n (length (mEnv e))) as [E|E]; [exact E|].
      specialize (Hinside n ltac:(lia) (Hall n ltac:(lia))). lia. }
    rewrite En. apply firstn_all.
Qed.

End Span.

Lemma SetTrackLen_spec_witness :
  let e' := SetTrackLen (fun x => x) (fun x => x) (sample_envelope three_points) 4 in
  mTrackLen e' = 4 /\
  at_ (mEnv e') (length (mEnv e') - 1) =
  mkEnvPoint 4 (GetValueRelative (fun x => x) (fun x => x)
                  (sample_envelope three_points) 4).
Proof.
  destruct (SetTrackLen_spec (fun x => x) (fun x => x)
              (sample_envelope three_points) 4
              ltac:(repeat constructor; vm_compute; discriminate))
    as [Hlen [_ [_ [_ Hlast]]]].
  split; [exact Hlen|].
  apply Hlast. vm_compute. reflexivity.
Defined.

(** ** Inserting space *)

Lemma shift_from_length (l : list EnvPoint) (k : nat) (d : Q) :
  length (shift_from l k d) = length l.
Proof.
  revert k; induction l as [|p l IH]; intros [|k]; simpl; auto.
Qed.

Lemma shift_from_at (l : list EnvPoint) (k : nat) (d : Q) (j : nat) :
  (j < length l)%nat ->
  at_ (shift_from l k d) j =
  if (j <? k)%nat then at_ l j else SetT (at_ l j) (GetT (at_ l j) + d).
Proof.
  revert k j; induction l as [|p l IH]; intros k j Hj; simpl in Hj; [lia|].
  destruct k as [|k], j as [|j]; simpl; auto.
  - rewrite !at_cons. rewrite (IH 0%nat j) by lia. reflexivity.
  - rewrite !at_cons. rewrite (IH k j) by lia.
    change (S j <? S k)%nat with (j <? k)%nat. reflexivity.
Qed.

Lemma shift_from_time (l : list EnvPoint) (k : nat) (d : Q) (j : nat) :
  (j < length l)%nat ->
  GetT (at_ (shift_from l k d) j) =
  if (j <? k)%nat then GetT (at_ l j) else GetT (at_ l j) + d.
Proof.
  intros Hj. rewrite shift_from_at by exact Hj. now destruct (j <? k)%nat.
Qed.

Lemma shift_from_Ascending (l : list EnvPoint) (k : nat) (d : Q) :
  0 <= d -> Ascending l -> Ascending (shift_from l k d).
Proof.
  intros Hd Hs. apply Ascending_adjacent. intros j Hj.
  rewrite shift_from_length in Hj. rewrite !shift_from_time by lia.
  pose proof (proj1 (Ascending_adjacent _) Hs j Hj).
  destruct (Nat.ltb_spec j k), (Nat.ltb_spec (S j) k); try lia; lra.
Qed.

Lemma shift_from_StrictlyAscending (l : list EnvPoint) (k : nat) (d : Q) :
  0 <= d -> StrictlyAscending l -> StrictlyAscending (shift_from l k d).
Proof.
  intros Hd Hs. apply StrictlyAscending_adjacent. intros j Hj.
  rewrite shift_from_length in Hj. rewrite !shift_from_time by lia.
  pose proof (proj1 (StrictlyAscending_adjacent _) Hs j Hj).
  destruct (Nat.ltb_spec j k), (Nat.ltb_spec (S j) k); try lia; lra.
Qed.

Lemma InsertOrReplaceRelative_fields (e : Envelope) (when value : Q) :
  let e' := snd (InsertOrReplaceRelative e when value) in
  mTrackLen e' = mTrackLen e /\ mOffset e' = mOffset e /\
  mMinValue e' = mMinValue e /\ mMaxValue e' = mMaxValue e /\
  mDefaultValue e' = mDefaultValue e /\ mDB e' = mDB e.
Proof.
  destruct (InsertOrReplaceRelative_cases e when value)
    as [->|[[i ->]|[w [-> _]]]]; repeat split.
Qed.

(** An accepted call leaves a point at the time it was given, and no
    point at a time that is neither this one nor that of an old point. *)
Lemma InsertOrReplaceRelative_times (e : Envelope) (when value : Q) :
  0 <= when -> (when <= mTrackLen e \/ (length (mEnv e) <= 1)%nat) ->
  let e' := snd (InsertOrReplaceRelative e when value) in
  has_point_at (mEnv e') when /\
  (forall t, has_point_at (mEnv e) t -> has_point_at (mEnv e') t) /\
  (forall p, In p (mEnv e') ->
     GetT p = when \/ exists q, In q (mEnv e) /\ GetT q = GetT p).
Proof.
  intros H0 H1 e'. subst e'.
  rewrite InsertOrReplaceRelative_accepts by assumption. cbv zeta.
  set (i := scan_past when (mEnv e) 0).
  pose proof (scan_past_le when (mEnv e)) as Hi. fold i in Hi.
  destruct (Nat.ltb_spec i (length (mEnv e))) as [Hlt|Hge]; cbn [andb].
  - destruct (Qeqb_spec when (GetT (at_ (mEnv e) i))) as [E|E]; cbn [snd mEnv with_mEnv].
    + split; [|split].
      * exists (at_ (update (mEnv e) i (fun p => SetVal e p value)) i).
        split; [apply at_In; now rewrite update_length|].
        rewrite update_at by exact Hlt. cbn. now symmetry.
      * intros t [p [Hp Ht]]. destruct (In_at _ _ Hp) as [k [Hk Ek]].
        exists (at_ (update (mEnv e) i (fun p => SetVal e p value)) k).
        split; [apply at_In; now rewrite update_length|].
        destruct (Nat.eq_dec i k) as [<-|Hne].
        { rewrite update_at by exact Hlt. cbn. now rewrite Ek. }
        { rewrite update_other by exact Hne. now rewrite Ek. }
      * intros p Hp. right. destruct (In_at _ _ Hp) as [k [Hk Ek]].
        rewrite update_length in Hk.
        exists (at_ (mEnv e) k). split; [now apply at_In|].
        rewrite <- Ek. destruct (Nat.eq_dec i k) as [<-|Hne].
        { now rewrite update_at by exact Hlt. }
        { now rewrite update_other by exact Hne. }
    + split; [|split].
      * exists (mkEnvPoint when value). split; [|reflexivity].
        apply in_or_app. right. now left.
      * intros t [p [Hp Ht]]. exists p. split; [|exact Ht].
        rewrite <- (firstn_skipn i (mEnv e)) in Hp.
        apply in_app_or in Hp. apply in_or_app.
        destruct Hp as [Hp|Hp]; [now left | right; now right].
      * intros p Hp. apply in_app_or in Hp.
        destruct Hp as [Hp|[<-|Hp]]; [right|now left|right]; exists p;
          (split; [|reflexivity]); rewrite <- (firstn_skipn i (mEnv e));
          apply in_or_app; [now left | now right].
  - cbn [snd mEnv with_mEnv]. split; [|split].
    + exists (mkEnvPoint when value). split; [|reflexivity].
      apply in_or_app. right. now left.
    + intros t [p [Hp Ht]]. exists p. split; [|exact Ht].
      rewrite <- (firstn_skipn i (mEnv e)) in Hp.
      apply in_app_or in Hp. apply in_or_app.
      destruct Hp as [Hp|Hp]; [now left | right; now right].
    + intros p Hp. apply in_app_or in Hp.
      destruct Hp as [Hp|[<-|Hp]]; [right|now left|right]; exists p;
        (split; [|reflexivity]); rewrite <- (firstn_skipn i (mEnv e));
        apply in_or_app; [now left | now right].
Qed.

Lemma scan_past_respects (w w' : Q) (l : list EnvPoint) (i : nat) :
  w == w' -> scan_past w l i = scan_past w' l i.
Proof.
  intros E. revert i. induction l as [|p l IH]; intros i; simpl; auto.
  destruct (Qltb_spec (GetT p) w), (Qltb_spec (GetT p) w'); auto; lra.
Qed.

(** The range [EqualRange] finds for a tolerance of [0], on ascending
    points: the indices of the points at the time asked for. *)
Lemma EqualRange_exact (e : Envelope) (when : Q) :
  Ascending (mEnv e) ->
  let first := fst (EqualRange e when 0) in
  let after := snd (EqualRange e when 0) in
  first = scan_past when (mEnv e) 0 /\
  (first <= after)%nat /\ (after <= length (mEnv e))%nat /\
  (forall j, (j < first)%nat -> GetT (at_ (mEnv e) j) < when) /\
  (forall j, (first <= j)%nat -> (j < after)%nat ->
     GetT (at_ (mEnv e) j) == when) /\
  (forall j, (after <= j)%nat -> (j < length (mEnv e))%nat ->
     when < GetT (at_ (mEnv e) j)).
Proof.
  intros Hs first after.
  pose proof (EqualRange_drops e when) as Hdrop.
  destruct (EqualRange_keeps e when) as [Hn Hkeep].
  fold after in Hdrop, Hn, Hkeep. subst first after.
  revert Hdrop Hn Hkeep.
  unfold EqualRange, lower_bound. cbv zeta. cbn [fst snd].
  assert (Hz : 0 / 2 == 0) by reflexivity. revert Hz.
  generalize (0 / 2). intros z Hz.
  rewrite (scan_past_respects (when - z) when) by lra.
  set (first := scan_past when (mEnv e) 0).
  rewrite scan_upto_shift. intros Hdrop Hn Hkeep.
  split; [reflexivity|]. split; [lia|]. split; [exact Hn|]. split; [|split].
  - intros j Hj. now apply scan_past_before.
  - intros j H1 H2. specialize (Hkeep j H2).
    pose proof (scan_past_stop when (mEnv e)) as Hstop. fold first in Hstop.
    specialize (Hstop ltac:(lia)).
    pose proof (Ascending_le (mEnv e) first j Hs H1 ltac:(lia)). lra.
  - intros j H1 H2. now apply Hdrop.
Qed.

Section Space.

Variable log10 : Q -> Q.
Variable pow10 : Q -> Q.

(** The first half of [InsertSpace]: for a time within the span, the
    points are left in order with one at the time of the split, and the
    shift starts just after it. *)
Lemma InsertSpace_split (e : Envelope) (t val : Q) :
  Ascending (mEnv e) -> 0 <= t -> t <= mTrackLen e ->
  let range := EqualRange e t 0 in
  let r := if (fst range <? snd range)%nat then ((1 + fst range)%nat, e)
           else let '(i, e') := InsertOrReplaceRelative e t val in
                (Z.to_nat (1 + i), e') in
  exists k, fst r = S k /\ (k < length (mEnv (snd r)))%nat /\
    GetT (at_ (mEnv (snd r)) k) == t /\
    ((1 + fst range < snd range)%nat ->
     (S k < length (mEnv (snd r)))%nat /\ GetT (at_ (mEnv (snd r)) (S k)) == t).
Proof.
  intros Hs H0 H1 range r. subst r range.
  destruct (EqualRange_exact e t Hs) as [Ef [Hfa [Hal [Hbefore [Hat Hafter]]]]].
  set (first := fst (EqualRange e t 0)) in *.
  set (after := snd (EqualRange e t 0)) in *.
  destruct (Nat.ltb_spec first after) as [Hlt|Hge].
  - exists first. cbn [fst snd]. split; [reflexivity|]. split; [lia|].
    split; [apply Hat; lia|]. intros H2. split; [lia|]. apply Hat; lia.
  - assert (Hno : ~ has_point_at (mEnv e) t).
    { intros [p [Hp Ht]]. destruct (In_at _ _ Hp) as [j [Hj Ej]]. subst p.
      destruct (Nat.lt_ge_cases j first) as [Hj1|Hj1].
      - specialize (Hbefore j Hj1). lra.
      - specialize (Hafter j ltac:(lia) Hj). lra. }
    rewrite (InsertOrReplaceRelative_inserts e t val H0 (or_introl H1) Hno).
    cbv zeta. rewrite <- Ef. cbn [fst snd mEnv with_mEnv].
    exists first. split; [lia|]. rewrite insert_length. split; [lia|].
    split; [|lia]. rewrite insert_at by lia. reflexivity.
Qed.


End Space.


(** ** Collapsing a region *)

Lemma erase_range_length (l : list EnvPoint) (first last : nat) :
  (first <= last)%nat -> (last <= length l)%nat ->
  length (erase_range l first last) = (length l - (last - first))%nat.
Proof.
  intros H1 H2. unfold erase_range.
  rewrite length_app, length_firstn, length_skipn. lia.
Qed.

Lemma erase_range_at (l : list EnvPoint) (first last j : nat) :
  (first <= length l)%nat ->
  at_ (erase_range l first last) j =
  if (j <? first)%nat then at_ l j else at_ l (last + (j - first)).
Proof.
  intros H. unfold erase_range. destruct (Nat.ltb_spec j first) as [Hj|Hj].
  - rewrite app_at_left by (rewrite length_firstn; lia). now apply firstn_at.
  - unfold at_. rewrite app_nth2 by (rewrite length_firstn; lia).
    rewrite length_firstn, nth_skipn.
    replace (Nat.min first (length l)) with first by lia. reflexivity.
Qed.

(** A shift to the left keeps the order when the first shifted point stays
    behind its neighbour. *)
Lemma shift_from_Ascending_left (l : list EnvPoint) (k : nat) (d : Q) :
  Ascending l ->
  (forall j, S j = k -> (k < length l)%nat ->
             GetT (at_ l j) <= GetT (at_ l k) + d) ->
  Ascending (shift_from l k d).
Proof.
  intros Hs Hd. apply Ascending_adjacent. intros j Hj.
  rewrite shift_from_length in Hj. rewrite !shift_from_time by lia.
  pose proof (proj1 (Ascending_adjacent _) Hs j Hj).
  destruct (Nat.ltb_spec j k), (Nat.ltb_spec (S j) k); try lia; try lra.
  assert (E : S j = k) by lia. specialize (Hd j E). rewrite <- E in Hd.
  apply Hd. exact Hj.
Qed.

Lemma scan_past_from (w : Q) (l : list EnvPoint) (n : nat) :
  (n <= length l)%nat ->
  (forall j, (j < n)%nat -> GetT (at_ l j) < w) ->
  (n <= scan_past w l 0)%nat.
Proof.
  revert n. induction l as [|p l IH]; intros n Hn Hlt; simpl in Hn; [simpl; lia|].
  rewrite scan_past_cons. destruct n as [|n]; [lia|].
  pose proof (Hlt 0%nat ltac:(lia)) as H0. cbn in H0.
  destruct (Qltb_spec (GetT p) w); [|lra].
  apply le_n_S. apply IH; [lia|]. intros j Hj.
  specialize (Hlt (S j) ltac:(lia)). now rewrite at_cons in Hlt.
Qed.

Lemma insert_In (l : list EnvPoint) (i : nat) (p q : EnvPoint) :
  In q l -> In q (firstn i l ++ p :: skipn i l).
Proof.
  intros H. rewrite <- (firstn_skipn i l) in H. apply in_app_or in H.
  apply in_or_app. destruct H; [now left | right; now right].
Qed.

Section Collapse.

Variable log10 : Q -> Q.
Variable pow10 : Q -> Q.

(** Where [CollapseRegion] starts to cut: behind the points up to the
    start of the region, with one of them at the start when it is
    further than [epsilon] from [0]. *)
Lemma CollapseRegion_begin (e : Envelope) (a epsilon : Q) :
  Ascending (mEnv e) -> 0 <= a -> a <= mTrackLen e ->
  let range0 := EqualRange e a 0 in
  let r := if (fst range0 =? snd range0)%nat then
             if Qltb epsilon a then
               let '(val, e') := evalRelative log10 pow10 e a in
               (S (fst range0), snd (InsertOrReplaceRelative e' a val))
             else (fst range0, e)
           else (S (fst range0), e) in
  Ascending (mEnv (snd r)) /\ (fst r <= length (mEnv (snd r)))%nat /\
  mTrackLen (snd r) = mTrackLen e /\ mOffset (snd r) = mOffset e /\
  (forall j, (j < fst r)%nat -> GetT (at_ (mEnv (snd r)) j) <= a) /\
  (forall p, In p (mEnv e) -> In p (mEnv (snd r))) /\
  (forall j, (j < length (mEnv e))%nat -> GetT (at_ (mEnv e) j) < a ->
     (j < fst r)%nat /\ at_ (mEnv (snd r)) j = at_ (mEnv e) j).
Proof.
  intros Hs H0 H1 range0 r. subst r range0.
  destruct (EqualRange_exact e a Hs) as [Ef [Hfa [Hal [Hbefore [Hat Hafter]]]]].
  set (first := fst (EqualRange e a 0)) in *.
  set (after := snd (EqualRange e a 0)) in *.
  assert (Hlow : forall j, (j < length (mEnv e))%nat ->
                           GetT (at_ (mEnv e) j) < a -> (j < first)%nat).
  { intros j Hj Hlt. destruct (Nat.lt_ge_cases j first) as [H|H]; [exact H|].
    destruct (Nat.lt_ge_cases j after) as [H'|H'].
    - specialize (Hat j H H'). lra.
    - specialize (Hafter j H' Hj). lra. }
  destruct (Nat.eqb_spec first after) as [Heq|Hne].
  - destruct (Qltb_spec epsilon a) as [Heps|Heps].
    + unfold evalRelative.
      set (e1 := with_mSearchGuess e _).
      set (val := GetValueRelative log10 pow10 e a).
      assert (Hno : ~ has_point_at (mEnv e1) a).
      { intros [p [Hp Ht]]. destruct (In_at _ _ Hp) as [j [Hj Ej]]. subst p.
        change (mEnv e1) with (mEnv e) in *.
        destruct (Nat.lt_ge_cases j first) as [Hj1|Hj1].
        - specialize (Hbefore j Hj1). lra.
        - specialize (Hafter j ltac:(lia) Hj). lra. }
      rewrite (InsertOrReplaceRelative_inserts e1 a val H0 (or_introl H1) Hno).
      cbv zeta. change (mEnv e1) with (mEnv e). rewrite <- Ef.
      cbn [fst snd mEnv with_mEnv mTrackLen mOffset].
      split; [rewrite Ef; now apply insert_Ascending|].
      rewrite insert_length. split; [lia|]. split; [reflexivity|].
      split; [reflexivity|]. split; [|split].
      * intros j Hj. rewrite insert_at_any by lia.
        destruct (Nat.ltb_spec j first) as [Hj1|Hj1].
        { specialize (Hbefore j Hj1). lra. }
        { rewrite (proj2 (Nat.eqb_eq j first)) by lia. cbn. lra. }
      * intros p Hp. now apply insert_In.
      * intros j Hj Hlt. specialize (Hlow j Hj Hlt). split; [lia|].
        rewrite insert_at_any by lia.
        now rewrite (proj2 (Nat.ltb_lt j first)) by lia.
    + cbn [fst snd]. split; [exact Hs|]. split; [lia|].
      split; [reflexivity|]. split; [reflexivity|]. split; [|split].
      * intros j Hj. specialize (Hbefore j Hj). lra.
      * auto.
      * intros j Hj Hlt. split; [now apply Hlow | reflexivity].
  - cbn [fst snd]. split; [exact Hs|]. split; [lia|].
    split; [reflexivity|]. split; [reflexivity|]. split; [|split].
    + intros j Hj. destruct (Nat.lt_ge_cases j first) as [Hj1|Hj1].
      * specialize (Hbefore j Hj1). lra.
      * specialize (Hat j Hj1 ltac:(lia)). lra.
    + auto.
    + intros j Hj Hlt. specialize (Hlow j Hj Hlt). split; [lia | reflexivity].
Qed.

(** Where [CollapseRegion] stops cutting: before the points from the end
    of the region on, with one of them at the end when it is further
    than [epsilon] from the end of the span. *)
Lemma CollapseRegion_end (e : Envelope) (b epsilon : Q) (begin : nat) :
  Ascending (mEnv e) -> 0 <= b -> b <= mTrackLen e ->
  (begin <= length (mEnv e))%nat ->
  (forall j, (j < begin)%nat -> GetT (at_ (mEnv e) j) < b) ->
  let range1 := EqualRange e b 0 in
  let r := if (fst range1 =? snd range1)%nat then
             if Qltb epsilon (mTrackLen e - b) then
               let '(val, e') := evalRelative log10 pow10 e b in
               (snd range1, snd (InsertOrReplaceRelative e' b val))
             else (snd range1, e)
           else ((snd range1 - 1)%nat, e) in
  Ascending (mEnv (snd r)) /\
  (begin <= fst r)%nat /\ (fst r <= length (mEnv (snd r)))%nat /\
  mTrackLen (snd r) = mTrackLen e /\ mOffset (snd r) = mOffset e /\
  (forall j, (fst r <= j)%nat -> (j < length (mEnv (snd r)))%nat ->
     b <= GetT (at_ (mEnv (snd r)) j)) /\
  (forall j, (j < begin)%nat -> at_ (mEnv (snd r)) j = at_ (mEnv e) j) /\
  (forall p, In p (mEnv e) -> b < GetT p ->
     exists j, (fst r <= j)%nat /\ (j < length (mEnv (snd r)))%nat /\
               at_ (mEnv (snd r)) j = p).
Proof.
  intros Hs H0 H1 Hbegin Hpre range1 r. subst r range1.
  destruct (EqualRange_exact e b Hs) as [Ef [Hfa [Hal [Hbefore [Hat Hafter]]]]].
  pose proof (scan_past_from b (mEnv e) begin Hbegin Hpre) as Hbf.
  set (first := fst (EqualRange e b 0)) in *.
  set (after := snd (EqualRange e b 0)) in *.
  rewrite <- Ef in Hbf.
  assert (Hhigh : forall p, In p (mEnv e) -> b < GetT p ->
            exists j, (after <= j)%nat /\ (j < length (mEnv e))%nat /\
                      at_ (mEnv e) j = p).
  { intros p Hp Hlt. destruct (In_at _ _ Hp) as [j [Hj Ej]]. exists j.
    split; [|split; auto]. subst p.
    destruct (Nat.lt_ge_cases j after) as [H|H]; [|exact H].
    destruct (Nat.lt_ge_cases j first) as [H'|H'].
    - specialize (Hbefore j H'). lra.
    - specialize (Hat j H' H). lra. }
  destruct (Nat.eqb_spec first after) as [Heq|Hne].
  - destruct (Qltb_spec epsilon (mTrackLen e - b)) as [Heps|Heps].
    + unfold evalRelative.
      set (e1 := with_mSearchGuess e _).
      set (val := GetValueRelative log10 pow10 e b).
      assert (Hno : ~ has_point_at (mEnv e1) b).
      { intros [p [Hp Ht]]. destruct (In_at _ _ Hp) as [j [Hj Ej]]. subst p.
        change (mEnv e1) with (mEnv e) in *.
        destruct (Nat.lt_ge_cases j first) as [Hj1|Hj1].
        - specialize (Hbefore j Hj1). lra.
        - specialize (Hafter j ltac:(lia) Hj). lra. }
      rewrite (InsertOrReplaceRelative_inserts e1 b val H0 (or_introl H1) Hno).
      cbv zeta. change (mEnv e1) with (mEnv e). rewrite <- Ef.
      cbn [fst snd mEnv with_mEnv mTrackLen mOffset].
      split; [rewrite Ef; now apply insert_Ascending|].
      rewrite insert_length. split; [lia|]. split; [lia|].
      split; [reflexivity|]. split; [reflexivity|]. split; [|split].
      * intros j Hj1 Hj2. rewrite insert_at_any by lia.
        rewrite (proj2 (Nat.ltb_ge j first)) by lia.
        destruct (Nat.eqb_spec j first) as [_|Hn]; [cbn; lra|].
        specialize (Hafter (j - 1)%nat ltac:(lia) ltac:(lia)). lra.
      * intros j Hj. rewrite insert_at_any by lia.
        now rewrite (proj2 (Nat.ltb_lt j first)) by lia.
      * intros p Hp Hlt. destruct (Hhigh p Hp Hlt) as [j [Hj1 [Hj2 Ej]]].
        exists (S j). split; [lia|]. split; [lia|].
        rewrite insert_at_any by lia.
        rewrite (proj2 (Nat.ltb_ge (S j) first)) by lia.
        rewrite (proj2 (Nat.eqb_neq (S j) first)) by lia.
        now replace (S j - 1)%nat with j by lia.
    + cbn [fst snd]. split; [exact Hs|]. split; [lia|]. split; [lia|].
      split; [reflexivity|]. split; [reflexivity|]. split; [|split].
      * intros j Hj1 Hj2. specialize (Hafter j Hj1 Hj2). lra.
      * auto.
      * exact Hhigh.
  - cbn [fst snd]. split; [exact Hs|]. split; [lia|]. split; [lia|].
    split; [reflexivity|]. split; [reflexivity|]. split; [|split].
    + intros j Hj1 Hj2. destruct (Nat.lt_ge_cases j after) as [Hj3|Hj3].
      * specialize (Hat j ltac:(lia) Hj3). lra.
      * specialize (Hafter j Hj3 Hj2). lra.
    + auto.
    + intros p Hp Hlt. destruct (Hhigh p Hp Hlt) as [j [Hj1 [Hj2 Ej]]].
      exists j. split; [lia|]. split; auto.
Qed.

(** What [CollapseRegion] does to the span and the points. *)
Lemma CollapseRegion_facts (e : Envelope) (t0 t1 sampleTime : Q) :
  Ascending (mEnv e) ->
  let a := std_max 0 (std_min (mTrackLen e) (t0 - mOffset e)) in
  let b := std_max 0 (std_min (mTrackLen e) (t1 - mOffset e)) in
  a < b ->
  let e' := CollapseRegion log10 pow10 e t0 t1 sampleTime in
  mTrackLen e' = mTrackLen e - (b - a) /\
  mOffset e' = mOffset e /\
  Ascending (mEnv e') /\
  (forall p, In p (mEnv e) -> GetT p < a -> In p (mEnv e')) /\
  (forall p, In p (mEnv e) -> b < GetT p ->
     In (SetT p (GetT p + - (b - a))) (mEnv e')).
Proof.
  intros Hs a b Hab e'. subst e'.
  assert (Hbounds : 0 <= a /\ a <= mTrackLen e /\ 0 <= b /\ b <= mTrackLen e).
  { revert Hab. subst a b. unfold std_max, std_min. repeat qcase; lra. }
  destruct Hbounds as [Ha0 [HaT [Hb0 HbT]]].
  unfold CollapseRegion. cbv zeta. fold a. fold b.
  pose proof (CollapseRegion_begin e a (sampleTime / 2) Hs Ha0 HaT) as HA.
  cbv zeta in HA.
  match type of HA with
  | Ascending (mEnv (snd ?r)) /\ _ => set (r0 := r) in *
  end.
  destruct r0 as [begin e1]. cbn [fst snd] in *.
  destruct HA as [As [Abegin [Alen [Aoff [Aleft [Ain Akeep]]]]]].
  assert (Hpre : forall j, (j < begin)%nat -> GetT (at_ (mEnv e1) j) < b).
  { intros j Hj. specialize (Aleft j Hj). lra. }
  assert (HbT1 : b <= mTrackLen e1) by (rewrite Alen; exact HbT).
  pose proof (CollapseRegion_end e1 b (sampleTime / 2) begin As Hb0 HbT1
                Abegin Hpre) as HB.
  cbv zeta in HB.
  match type of HB with
  | Ascending (mEnv (snd ?r)) /\ _ => set (r1 := r) in *
  end.
  destruct r1 as [end_ e2]. cbn [fst snd] in *.
  destruct HB as [Bs [Bbegin [Bend [Blen [Boff [Bright [Bsame Bkeep]]]]]]].
  cbn [mTrackLen with_mTrackLen with_mEnv mOffset mEnv].
  set (l3 := erase_range (mEnv e2) begin end_).
  assert (Hbegin2 : (begin <= length (mEnv e2))%nat) by lia.
  assert (Hl3 : length l3 = (length (mEnv e2) - (end_ - begin))%nat).
  { unfold l3. now apply erase_range_length. }
  assert (Hs3 : Ascending l3).
  { apply Ascending_adjacent. intros j Hj. unfold l3.
    rewrite !erase_range_at by exact Hbegin2.
    destruct (Nat.ltb_spec j begin), (Nat.ltb_spec (S j) begin); try lia;
      apply Ascending_le; auto; lia. }
  split; [now rewrite Blen, Alen|]. split; [now rewrite Boff, Aoff|].
  split; [|split].
  - apply shift_from_Ascending_left; [exact Hs3|].
    intros j Ej Hlt. unfold l3. rewrite !erase_range_at by exact Hbegin2.
    rewrite (proj2 (Nat.ltb_lt j begin)) by lia.
    rewrite (proj2 (Nat.ltb_ge begin begin)) by lia.
    rewrite Bsame by lia.
    pose proof (Aleft j ltac:(lia)).
    pose proof (Bright (end_ + (begin - begin))%nat ltac:(lia) ltac:(lia)).
    lra.
  - intros p Hp Hlt. destruct (In_at _ _ Hp) as [j [Hj Ej]]. subst p.
    destruct (Akeep j Hj Hlt) as [Hjb E1].
    rewrite <- E1, <- (Bsame j Hjb).
    replace (at_ (mEnv e2) j) with (at_ (shift_from l3 begin (- (b - a))) j).
    + apply at_In. rewrite shift_from_length. lia.
    + rewrite shift_from_at by lia.
      rewrite (proj2 (Nat.ltb_lt j begin)) by lia.
      unfold l3. rewrite erase_range_at by exact Hbegin2.
      now rewrite (proj2 (Nat.ltb_lt j begin)) by lia.
  - intros p Hp Hlt.
    destruct (Bkeep p (Ain p Hp) Hlt) as [j [Hj1 [Hj2 Ej]]].
    assert (E : at_ (shift_from l3 begin (- (b - a))) (begin + (j - end_)) =
                SetT p (GetT p + - (b - a))).
    { rewrite shift_from_at by lia.
      rewrite (proj2 (Nat.ltb_ge (begin + (j - end_)) begin)) by lia.
      unfold l3. rewrite erase_range_at by exact Hbegin2.
      rewrite (proj2 (Nat.ltb_ge (begin + (j - end_)) begin)) by lia.
      replace (end_ + (begin + (j - end_) - begin))%nat with j by lia.
      now rewrite Ej. }
    rewrite <- E. apply at_In. rewrite shift_from_length. lia.
Qed.


End Collapse.


(** ** Copies *)

Lemma Ascending_tail (p : EnvPoint) (l : list EnvPoint) :
  Ascending (p :: l) ->
  Ascending l /\ forall q, In q l -> GetT p <= GetT q.
Proof.
  intros Hs. split.
  - now inversion Hs.
  - intros q Hq. destruct (In_at _ _ Hq) as [j [Hj Ej]]. subst q.
    apply (Ascending_le (p :: l) 0 (S j) Hs); simpl; lia.
Qed.

(** What [AddPointAtEnd] leaves when the new point is not before any of
    the old ones. *)
Lemma AddPointAtEnd_order (e : Envelope) (t val : Q) :
  Ascending (mEnv e) -> AtMostTwice (mEnv e) ->
  (forall j, (j < length (mEnv e))%nat -> GetT (at_ (mEnv e) j) <= t) ->
  let e' := AddPointAtEnd e t val in
  Ascending (mEnv e') /\ AtMostTwice (mEnv e') /\
  (forall p, In p (mEnv e') -> p = mkEnvPoint t val \/ In p (mEnv e)).
Proof.
  intros Hs Ht Hle e'. split; [|split].
  - unfold e', AddPointAtEnd, push_back. cbn [mEnv with_mEnv].
    apply AddPointAtEnd_loop_Ascending. now apply push_Ascending.
  - now apply AddPointAtEnd_AtMostTwice.
  - destruct (AddPointAtEnd_shape e t val Hs Hle) as [k [Hk [Eq _]]].
    fold e' in Eq. rewrite Eq. intros p Hp. apply in_app_or in Hp.
    destruct Hp as [Hp|[<-|[]]]; [right|now left].
    rewrite <- (firstn_skipn k (mEnv e)). apply in_or_app. now left.
Qed.

Lemma CopyRange_points_order (pts : list EnvPoint) :
  forall (e : Envelope) (shift : Q),
    Ascending (mEnv e) -> AtMostTwice (mEnv e) -> Ascending pts ->
    (forall p q, In p (mEnv e) -> In q pts -> GetT p <= GetT q + shift) ->
    let e' := CopyRange_points e shift pts in
    Ascending (mEnv e') /\ AtMostTwice (mEnv e') /\
    (forall p, In p (mEnv e') ->
       In p (mEnv e) \/
       exists q, In q pts /\ p = mkEnvPoint (GetT q + shift) (GetVal q)).
Proof.
  induction pts as [|q pts IH]; intros e shift Hs Ht Hp Hle; cbn [CopyRange_points].
  - repeat split; auto.
  - destruct (Ascending_tail q pts Hp) as [Hp' Hq].
    assert (Hle0 : forall j, (j < length (mEnv e))%nat ->
                             GetT (at_ (mEnv e) j) <= GetT q + shift).
    { intros j Hj. apply Hle; [now apply at_In | now left]. }
    destruct (AddPointAtEnd_order e (GetT q + shift) (GetVal q) Hs Ht Hle0)
      as [Hs1 [Ht1 Hin1]].
    set (e1 := AddPointAtEnd e (GetT q + shift) (GetVal q)) in *.
    assert (Hle1 : forall p r, In p (mEnv e1) -> In r pts ->
                               GetT p <= GetT r + shift).
    { intros p r Hp1 Hr. destruct (Hin1 p Hp1) as [->|Hp0].
      - cbn. specialize (Hq r Hr). lra.
      - apply Hle; [exact Hp0 | now right]. }
    destruct (IH e1 shift Hs1 Ht1 Hp' Hle1) as [Hs2 [Ht2 Hin2]].
    split; [exact Hs2|]. split; [exact Ht2|].
    intros p Hp2. destruct (Hin2 p Hp2) as [Hp1|[r [Hr Er]]].
    + destruct (Hin1 p Hp1) as [->|Hp0]; [right|now left].
      exists q. split; [now left | reflexivity].
    + right. exists r. split; [now right | exact Er].
Qed.

Lemma CopyRange_points_fields (pts : list EnvPoint) :
  forall (e : Envelope) (shift : Q),
    let e' := CopyRange_points e shift pts in
    mDB e' = mDB e /\ mMinValue e' = mMinValue e /\ mMaxValue e' = mMaxValue e /\
    mDefaultValue e' = mDefaultValue e /\ mOffset e' = mOffset e /\
    mTrackLen e' = mTrackLen e.
Proof.
  induction pts as [|q pts IH]; intros e shift; cbn [CopyRange_points].
  - repeat split.
  - apply (IH (AddPointAtEnd e (GetT q + shift) (GetVal q)) shift).
Qed.

(** With no more than two points at a time, [AddPointAtEnd] erases
    nothing, and the loop of [CopyRange] appends the points as they are. *)
Lemma CopyRange_points_all (pts : list EnvPoint) :
  forall (e : Envelope) (shift : Q),
    let moved := map (fun p => mkEnvPoint (GetT p + shift) (GetVal p)) pts in
    AtMostTwice (mEnv e ++ moved) ->
    mEnv (CopyRange_points e shift pts) = mEnv e ++ moved.
Proof.
  induction pts as [|q pts IH]; intros e shift moved Ht; cbn [CopyRange_points].
  - subst moved. simpl. now rewrite app_nil_r.
  - subst moved. cbn [map] in *.
    set (p := mkEnvPoint (GetT q + shift) (GetVal q)) in *.
    set (rest := map (fun p => mkEnvPoint (GetT p + shift) (GetVal p)) pts) in *.
    assert (E : mEnv (AddPointAtEnd e (GetT q + shift) (GetVal q)) = mEnv e ++ [p]).
    { unfold AddPointAtEnd, push_back. cbn [mEnv with_mEnv]. fold p.
      replace (length (mEnv e ++ [p]) - 1)%nat with (length (mEnv e))
        by (rewrite length_app; simpl; lia).
      destruct (length (mEnv e)) as [|[|m]] eqn:El; try reflexivity.
      cbn [AddPointAtEnd_loop].
      specialize (Ht m). rewrite length_app in Ht. cbn [length] in Ht.
      specialize (Ht ltac:(lia)).
      rewrite app_at_left in Ht by lia.
      unfold at_ in Ht at 2. rewrite app_nth2 in Ht by lia.
      rewrite El, Nat.sub_diag in Ht. cbn [nth] in Ht.
      rewrite app_at_left by lia.
      destruct (Qeqb_spec (GetT (at_ (mEnv e) m)) (GetT q + shift)) as [Eq|_];
        [|reflexivity].
      exfalso. change (GetT p) with (GetT q + shift) in Ht. lra. }
    rewrite IH; rewrite E, <- app_assoc; [reflexivity | exact Ht].
Qed.

Lemma slice_In (l : list EnvPoint) (b n : nat) (q : EnvPoint) :
  In q (firstn n (skipn b l)) ->
  exists i, (b <= i)%nat /\ (i < b + n)%nat /\ (i < length l)%nat /\ at_ l i = q.
Proof.
  intros Hq. destruct (In_at _ _ Hq) as [j [Hj Ej]].
  rewrite length_firstn, length_skipn in Hj.
  exists (b + j)%nat. repeat split; try lia.
  rewrite <- Ej. rewrite firstn_at by lia. now rewrite skipn_at.
Qed.

Lemma slice_Ascending (l : list EnvPoint) (b n : nat) :
  Ascending l -> Ascending (firstn n (skipn b l)).
Proof.
  intros Hs. apply Ascending_adjacent. intros j Hj.
  rewrite length_firstn, length_skipn in Hj.
  rewrite !firstn_at by lia. rewrite !skipn_at.
  apply Ascending_le; auto; lia.
Qed.

Section CopyTheorems.

Variable log10 : Q -> Q.
Variable pow10 : Q -> Q.
Variable init : Envelope.

(** What the copy constructor makes. *)
Lemma copy_facts (orig : Envelope) :
  let c := copy log10 pow10 init orig in
  (mDB c = mDB orig /\ mMinValue c = mMinValue orig /\
   mMaxValue c = mMaxValue orig /\ mDefaultValue c = mDefaultValue orig /\
   mOffset c = mOffset orig /\ mTrackLen c = mTrackLen orig) /\
  (Ascending (mEnv orig) -> Ascending (mEnv c) /\ AtMostTwice (mEnv c)) /\
  (AtMostTwice (mEnv orig) ->
   length (mEnv c) = length (mEnv orig) /\
   forall j, (j < length (mEnv orig))%nat ->
     GetVal (at_ (mEnv c) j) = GetVal (at_ (mEnv orig) j) /\
     GetT (at_ (mEnv c) j) == GetT (at_ (mEnv orig) j)).
Proof.
  intros c. subst c. unfold copy, CopyRange, GetNumberOfPoints. cbv zeta.
  change (0 <? 0)%nat with false. cbv iota.
  rewrite Nat.sub_0_r. change (skipn 0 (mEnv orig)) with (mEnv orig).
  rewrite firstn_all. rewrite Nat.max_0_l, Nat.ltb_irrefl, Bool.andb_false_r.
  set (e0 := constructed init orig (mOffset orig) (mTrackLen orig)).
  set (shift := mOffset orig - mOffset e0).
  assert (Hshift : shift == 0) by (subst shift; cbn; ring).
  split; [|split].
  - destruct (CopyRange_points_fields (mEnv orig) e0 shift)
      as [E1 [E2 [E3 [E4 [E5 E6]]]]].
    rewrite E1, E2, E3, E4, E5, E6. repeat split.
  - intros Hs.
    destruct (CopyRange_points_order (mEnv orig) e0 shift) as [H1 [H2 _]]; auto.
    + constructor.
    + intros j Hj. simpl in Hj. lia.
    + intros p q [].
  - intros Ht.
    rewrite CopyRange_points_all.
    + cbn [mEnv e0 constructed app]. rewrite length_map. split; [reflexivity|].
      intros j Hj. rewrite map_at by exact Hj. cbn. split; [reflexivity | lra].
    + cbn [mEnv e0 constructed app]. intros j Hj. rewrite length_map in Hj.
      rewrite !map_at by lia. cbn. specialize (Ht j Hj). lra.
Qed.

(** X14. The copy constructor takes over the value settings, the offset and
    the span. Of ascending points it makes ascending points with no more than
    two at one time; points that had no more than two at one time are all
    copied, with their values and (up to the rounding of [t + (mOffset -
    mOffset)]) their times. *)
Theorem copy_spec (orig : Envelope) :
  let c := copy log10 pow10 init orig in
  (mDB c = mDB orig /\ mMinValue c = mMinValue orig /\
   mMaxValue c = mMaxValue orig /\ mDefaultValue c = mDefaultValue orig /\
   mOffset c = mOffset orig /\ mTrackLen c = mTrackLen orig) /\
  (Ascending (mEnv orig) -> Ascending (mEnv c) /\ AtMostTwice (mEnv c)) /\
  (AtMostTwice (mEnv orig) ->
   length (mEnv c) = length (mEnv orig) /\
   forall j, (j < length (mEnv orig))%nat ->
     GetVal (at_ (mEnv c) j) = GetVal (at_ (mEnv orig) j) /\
     GetT (at_ (mEnv c) j) == GetT (at_ (mEnv orig) j)).
Proof. exact (copy_facts orig). Qed.

(** What the constructor of a part makes. *)
Lemma copy_between_facts (orig : Envelope) (t0 t1 : Q) :
  Ascending (mEnv orig) ->
  (forall p, In p (mEnv orig) -> 0 <= GetT p /\ GetT p <= mTrackLen orig) ->
  let c := copy_between log10 pow10 init orig t0 t1 in
  mOffset c = wxMax t0 (mOffset orig) /\
  mTrackLen c =
    wxMin t1 (mOffset orig + mTrackLen orig) - wxMax t0 (mOffset orig) /\
  Ascending (mEnv c) /\ AtMostTwice (mEnv c) /\
  (0 <= mTrackLen c ->
   forall p, In p (mEnv c) -> 0 <= GetT p /\ GetT p <= mTrackLen c).
Proof.
  intros Hs Hspan c. subst c. unfold copy_between, CopyRange. cbv zeta.
  set (offset := wxMax t0 (mOffset orig)).
  set (trackLen := wxMin t1 (mOffset orig + mTrackLen orig) - offset).
  destruct (EqualRange_exact orig (t0 - mOffset orig) Hs)
    as [_ [_ [_ [_ [Hat1 Hafter1]]]]].
  destruct (EqualRange_exact orig (t1 - mOffset orig) Hs)
    as [_ [_ [Hal2 [Hbefore2 [Hat2 _]]]]].
  set (begin := fst (EqualRange orig (t0 - mOffset orig) 0)) in *.
  set (first2 := fst (EqualRange orig (t1 - mOffset orig) 0)) in *.
  set (end_ := snd (EqualRange orig (t1 - mOffset orig) 0)) in *.
  set (after1 := snd (EqualRange orig (t0 - mOffset orig) 0)) in *.
  set (e0 := constructed init orig offset trackLen).
  set (v0 := GetValue log10 pow10 orig (mOffset e0)).
  set (e1 := if (0 <? begin)%nat then AddPointAtEnd e0 0 v0 else e0).
  set (pts := firstn (end_ - begin) (skipn begin (mEnv orig))).
  assert (F1 : mOffset e1 = offset /\ mTrackLen e1 = trackLen).
  { subst e1. now destruct (0 <? begin)%nat. }
  destruct F1 as [Foff Flen].
  set (shift := mOffset orig - mOffset e1).
  assert (Hpts : forall q, In q pts ->
            0 <= GetT q + shift /\ GetT q + shift <= trackLen).
  { intros q Hq. destruct (slice_In _ _ _ _ Hq) as [i [Hi1 [Hi2 [Hi3 <-]]]].
    destruct (Hspan (at_ (mEnv orig) i) (at_In _ _ Hi3)) as [Hq0 HqT].
    assert (Hlow : t0 - mOffset orig <= GetT (at_ (mEnv orig) i)).
    { destruct (Nat.lt_ge_cases i after1) as [H|H].
      - specialize (Hat1 i Hi1 H). lra.
      - specialize (Hafter1 i H Hi3). lra. }
    assert (Hhigh : GetT (at_ (mEnv orig) i) <= t1 - mOffset orig).
    { destruct (Nat.lt_ge_cases i first2) as [H|H].
      - specialize (Hbefore2 i H). lra.
      - specialize (Hat2 i H ltac:(lia)). lra. }
    subst shift. rewrite Foff. subst trackLen offset. unfold wxMax, wxMin.
    repeat qcase; lra. }
  assert (H1 : Ascending (mEnv e1) /\ AtMostTwice (mEnv e1) /\
               forall p, In p (mEnv e1) -> GetT p = 0).
  { subst e1. destruct (0 <? begin)%nat.
    - cbn. split; [repeat constructor|]. split.
      + intros j Hj. simpl in Hj. lia.
      + intros p [<-|[]]. reflexivity.
    - cbn. split; [constructor|]. split.
      + intros j Hj. simpl in Hj. lia.
      + intros p []. }
  destruct H1 as [Hs1 [Ht1 Hzero]].
  destruct (CopyRange_points_order pts e1 shift Hs1 Ht1
              (slice_Ascending _ _ _ Hs)) as [Hs2 [Ht2 Hin2]].
  { intros p q Hp Hq. rewrite (Hzero p Hp). now apply Hpts. }
  destruct (CopyRange_points_fields pts e1 shift) as [_ [_ [_ [_ [Goff Glen]]]]].
  set (e2 := CopyRange_points e1 shift pts) in *.
  rewrite Foff in Goff. rewrite Flen in Glen.
  assert (Hin : forall p, In p (mEnv e2) -> 0 <= trackLen ->
                          0 <= GetT p /\ GetT p <= trackLen).
  { intros p Hp Hlen. destruct (Hin2 p Hp) as [H|[q [Hq ->]]].
    - rewrite (Hzero p H). lra.
    - cbn [GetT]. now apply Hpts. }
  destruct (Qltb_spec 0 (mTrackLen e2)) as [Hpos|Hneg]; cbn [andb].
  - destruct (Nat.max begin end_ <? length (mEnv orig))%nat.
    + rewrite Glen in *.
      destruct (AddPointAtEnd_order e2 trackLen
                  (GetValue log10 pow10 orig (mOffset e2 + trackLen)) Hs2 Ht2)
        as [Hs3 [Ht3 Hin3]].
      { intros j Hj. apply Hin; [now apply at_In | lra]. }
      split; [exact Goff|]. split; [exact Glen|]. split; [exact Hs3|].
      split; [exact Ht3|]. cbn [mTrackLen AddPointAtEnd push_back with_mEnv].
      rewrite Glen. intros Hlen p Hp. destruct (Hin3 p Hp) as [->|H].
      * cbn. lra.
      * now apply Hin.
    + split; [exact Goff|]. split; [exact Glen|]. split; [exact Hs2|].
      split; [exact Ht2|]. rewrite Glen. intros Hlen p Hp. now apply Hin.
  - split; [exact Goff|]. split; [exact Glen|]. split; [exact Hs2|].
    split; [exact Ht2|]. rewrite Glen. intros Hlen p Hp. now apply Hin.
Qed.


End CopyTheorems.

Lemma copy_spec_witness :
  let c := copy (fun x => x) (fun x => x) (sample_envelope []) (sample_envelope triangle) in
  Ascending (mEnv c) /\ length (mEnv c) = length triangle.
Proof.
  destruct (copy_spec (fun x => x) (fun x => x) (sample_envelope [])
              (sample_envelope triangle)) as [_ [Ha Hb]].
  assert (Hs : StrictlyAscending (mEnv (sample_envelope triangle))).
  { repeat constructor. }
  split.
  - apply Ha. now apply StrictlyAscending_Ascending.
  - apply Hb. now apply StrictlyAscending_AtMostTwice.
Defined.


(** ** Pasting *)

Lemma scan_past_all (w : Q) (l : list EnvPoint) :
  (forall j, (j < length l)%nat -> GetT (at_ l j) < w) ->
  scan_past w l 0 = length l.
Proof.
  intros H. pose proof (scan_past_le w l).
  pose proof (scan_past_from w l (length l) (Nat.le_refl _) H). lia.
Qed.

Lemma Paste_points_fields (pts : list EnvPoint) :
  forall (e : Envelope) (t0 : Q),
    let e' := Paste_points e t0 pts in
    mTrackLen e' = mTrackLen e /\ mOffset e' = mOffset e /\
    mMinValue e' = mMinValue e /\ mMaxValue e' = mMaxValue e /\
    mDefaultValue e' = mDefaultValue e /\ mDB e' = mDB e.
Proof.
  induction pts as [|q pts IH]; intros e t0; cbn [Paste_points].
  - repeat split.
  - destruct (IH (snd (InsertOrReplaceRelative e (t0 + GetT q) (GetVal q))) t0)
      as [E1 [E2 [E3 [E4 [E5 E6]]]]].
    destruct (InsertOrReplaceRelative_fields e (t0 + GetT q) (GetVal q))
      as [F1 [F2 [F3 [F4 [F5 F6]]]]].
    rewrite E1, E2, E3, E4, E5, E6. repeat split; assumption.
Qed.

(** Points that come in strictly ascending order after all the points
    there are, and within the span, are appended as they are. *)
Lemma Paste_points_append (pts : list EnvPoint) :
  forall (e : Envelope) (t0 : Q),
    let moved := map (fun p => mkEnvPoint (t0 + GetT p) (GetVal p)) pts in
    StrictlyAscending (mEnv e ++ moved) ->
    (forall q, In q pts -> 0 <= t0 + GetT q /\ t0 + GetT q <= mTrackLen e) ->
    mEnv (Paste_points e t0 pts) = mEnv e ++ moved.
Proof.
  induction pts as [|q pts IH]; intros e t0 moved Hs Hin; cbn [Paste_points].
  - subst moved. simpl. now rewrite app_nil_r.
  - subst moved. cbn [map] in *.
    set (p := mkEnvPoint (t0 + GetT q) (GetVal q)) in *.
    set (rest := map (fun p => mkEnvPoint (t0 + GetT p) (GetVal p)) pts) in *.
    destruct (Hin q (or_introl eq_refl)) as [H0 H1].
    assert (Hlt : forall j, (j < length (mEnv e))%nat ->
                            GetT (at_ (mEnv e) j) < t0 + GetT q).
    { intros j Hj.
      pose proof (StrictlyAscending_lt _ j (length (mEnv e)) Hs Hj) as H.
      rewrite length_app in H. cbn [length] in H. specialize (H ltac:(lia)).
      rewrite app_at_left in H by exact Hj.
      unfold at_ in H at 2. rewrite app_nth2, Nat.sub_diag in H by lia.
      exact H. }
    assert (E : snd (InsertOrReplaceRelative e (t0 + GetT q) (GetVal q)) =
                with_mEnv e (mEnv e ++ [p])).
    { rewrite InsertOrReplaceRelative_accepts by (auto; lra). cbv zeta.
      rewrite (scan_past_all _ _ Hlt), Nat.ltb_irrefl. cbn [andb snd].
      now rewrite firstn_all, skipn_all. }
    rewrite E. rewrite IH.
    + cbn [mEnv with_mEnv]. now rewrite <- app_assoc.
    + cbn [mEnv with_mEnv]. now rewrite <- app_assoc.
    + intros r Hr. cbn [mTrackLen with_mEnv]. apply Hin. now right.
Qed.

Section Pasting.

Variable log10 : Q -> Q.
Variable pow10 : Q -> Q.

(** X16. Pasting an envelope with points into a fresh one (no points, a span
    of length [0]), at or after its offset, gives the pasted envelope's span,
    offset and points, the times up to the rounding of [0 + t]. *)
Theorem Paste_into_fresh (this e : Envelope) (t : Q) :
  mEnv this = [] -> mTrackLen this = 0 -> mOffset this <= t -> mEnv e <> [] ->
  StrictlyAscending (mEnv e) ->
  (forall p, In p (mEnv e) -> 0 <= GetT p /\ GetT p <= mTrackLen e) ->
  let r := Paste log10 pow10 this t e in
  mTrackLen r = mTrackLen e /\ mOffset r = mOffset e /\
  mDefaultValue r = mDefaultValue this /\
  length (mEnv r) = length (mEnv e) /\
  forall j, (j < length (mEnv e))%nat ->
    GetVal (at_ (mEnv r) j) = GetVal (at_ (mEnv e) j) /\
    GetT (at_ (mEnv r) j) == GetT (at_ (mEnv e) j).
Proof.
  intros Hempty Hlen Hoff Hpts Hs Hspan r. subst r. unfold Paste, evalRelative.
  cbv zeta. rewrite Hempty. cbn [length Nat.eqb negb].
  destruct (mEnv e) as [|p0 l0] eqn:El; [contradiction|]. rewrite <- El in *.
  assert (El0 : (length (mEnv e) =? 0)%nat = false) by (rewrite El; reflexivity).
  rewrite El0. cbn [andb].
  cbn [mTrackLen with_mSearchGuess mOffset].
  rewrite Hlen. change (Qeqb 0 0) with true. cbv iota.
  set (t0 := wxMin (t - mOffset this) 0).
  assert (Ht0 : t0 == 0).
  { subst t0. unfold wxMin. qcase; lra. }
  set (this1 := with_mOffset _ (mOffset e)).
  assert (E1 : mEnv this1 = []) by (subst this1; cbn; exact Hempty).
  destruct (Paste_points_fields (mEnv e) this1 t0) as [F1 [F2 [_ [_ [F5 _]]]]].
  rewrite F1, F2, F5.
  split; [reflexivity|]. split; [reflexivity|]. split; [reflexivity|].
  rewrite Paste_points_append.
  - rewrite E1. cbn [app]. rewrite length_map. split; [reflexivity|].
    intros j Hj. rewrite map_at by exact Hj. cbn. split; [reflexivity | lra].
  - rewrite E1. cbn [app]. apply StrictlyAscending_adjacent. intros j Hj.
    rewrite length_map in Hj. rewrite !map_at by lia. cbn.
    pose proof (proj1 (StrictlyAscending_adjacent _) Hs j Hj). lra.
  - intros q Hq. destruct (Hspan q Hq). change (mTrackLen this1) with (mTrackLen e).
    lra.
Qed.

(** X17. Whatever case [Paste] is in, the span grows by the span of the pasted
    envelope and the value settings stay; the offset stays too when the
    envelope had points. *)
Theorem Paste_span (this e : Envelope) (t0 : Q) :
  let r := Paste log10 pow10 this t0 e in
  mTrackLen r == mTrackLen this + mTrackLen e /\
  mDB r = mDB this /\ mMinValue r = mMinValue this /\
  mMaxValue r = mMaxValue this /\ mDefaultValue r = mDefaultValue this /\
  (mEnv this <> [] ->
   mOffset r = mOffset this /\ mTrackLen r = mTrackLen this + mTrackLen e).
Proof.
  intros r. subst r. unfold Paste, evalRelative. cbv zeta.
  destruct ((length (mEnv e) =? 0)%nat && (length (mEnv this) =? 0)%nat &&
            Qeqb (mDefaultValue e) (mDefaultValue this)) eqn:Eearly.
  { cbn. split; [reflexivity|]. repeat split. }
  set (t := wxMin (t0 - mOffset this) (mTrackLen this)).
  set (this1 := with_mSearchGuess this _).
  set (P := fun x : Envelope =>
              mTrackLen x = mTrackLen this /\ mOffset x = mOffset this /\
              mDB x = mDB this /\ mMinValue x = mMinValue this /\
              mMaxValue x = mMaxValue this /\
              mDefaultValue x = mDefaultValue this).
  assert (P1 : P this1) by (subst this1 P; cbn; repeat split).
  assert (Pins : forall x w v, P x -> P (snd (InsertOrReplaceRelative x w v))).
  { intros x w v [H1 [H2 [H3 [H4 [H5 H6]]]]].
    destruct (InsertOrReplaceRelative_fields x w v)
      as [F1 [F2 [F3 [F4 [F5 F6]]]]].
    unfold P. now rewrite F1, F2, F3, F4, F5, F6. }
  assert (Penv : forall x l, P x -> P (with_mEnv x l)).
  { intros x l H. exact H. }
  match goal with
  | |- context [Paste_points (if negb (length (mEnv this) =? 0)%nat
                              then ?yes else ?no) t (mEnv e)] =>
      set (this3 := if negb (length (mEnv this) =? 0)%nat then yes else no)
  end.
  match goal with
  | this3 := if _ then ?a else ?b |- _ =>
      match a with
      | context [snd (InsertOrReplaceRelative ?x t _)] =>
          set (this2 := x) in *
      end
  end.
  assert (H2 : mTrackLen this2 == mTrackLen this + mTrackLen e /\
               mDB this2 = mDB this /\ mMinValue this2 = mMinValue this /\
               mMaxValue this2 = mMaxValue this /\
               mDefaultValue this2 = mDefaultValue this /\
               (mEnv this <> [] ->
                mOffset this2 = mOffset this /\
                mTrackLen this2 = mTrackLen this + mTrackLen e)).
  { subst this2. destruct (mEnv this) as [|p0 l0] eqn:El.
    - cbn [length Nat.eqb negb].
      change (mTrackLen this1) with (mTrackLen this).
      destruct (Qeqb_spec (mTrackLen this) 0) as [Ez|Ez]; cbn.
      + split; [lra|]. repeat split; congruence.
      + split; [reflexivity|]. repeat split; congruence.
    - cbn [length Nat.eqb negb]. rewrite <- El.
      destruct (Paste_scan (mEnv this1) t 0 false 0 false) as [[sts pos] onPoint].
      match goal with
      | |- context [let '(x, y) := ?c in _] => set (pair := c)
      end.
      assert (Hp : P (fst pair)).
      { subst pair.
        destruct (Qltb t (mTrackEpsilon this1)), onPoint,
                 (Qltb (mTrackLen this1 - t) (mTrackEpsilon this1)),
                 (negb (Qltb t 0) && negb (Qltb (mTrackLen this1) t));
          cbn [fst]; auto. }
      destruct pair as [x sts']. cbn [fst] in Hp.
      destruct Hp as [H1 [H2 [H3 [H4 [H5 H6]]]]].
      destruct sts'; cbn; rewrite H1; (split; [reflexivity|]); repeat split;
        assumption. }
  assert (H3 : mTrackLen this3 == mTrackLen this + mTrackLen e /\
               mDB this3 = mDB this /\ mMinValue this3 = mMinValue this /\
               mMaxValue this3 = mMaxValue this /\
               mDefaultValue this3 = mDefaultValue this /\
               (mEnv this <> [] ->
                mOffset this3 = mOffset this /\
                mTrackLen this3 = mTrackLen this + mTrackLen e)).
  { subst this3. destruct (negb (length (mEnv this) =? 0)%nat); [|exact H2].
    match goal with
    | |- context [snd (InsertOrReplaceRelative
                         (snd (InsertOrReplaceRelative this2 t ?v)) ?w' ?v')] =>
        destruct (InsertOrReplaceRelative_fields this2 t v)
          as [F1 [F2 [F3 [F4 [F5 F6]]]]];
        destruct (InsertOrReplaceRelative_fields
                    (snd (InsertOrReplaceRelative this2 t v)) w' v')
          as [G1 [G2 [G3 [G4 [G5 G6]]]]]
    end.
    rewrite G1, G2, G3, G4, G5, G6, F1, F2, F3, F4, F5, F6. exact H2. }
  destruct (Paste_points_fields (mEnv e) this3 t) as [F1 [F2 [F3 [F4 [F5 F6]]]]].
  rewrite F1, F2, F3, F4, F5, F6. exact H3.
Qed.

End Pasting.

Lemma Paste_into_fresh_witness :
  let r := Paste (fun x => x) (fun x => x)
             (mkEnvelope false 0 10 0 [] 0 0 (1#200000) (-1) false (-1))
             2 (sample_envelope triangle) in
  mTrackLen r = 10 /\ length (mEnv r) = 3%nat.
Proof.
  destruct (Paste_into_fresh (fun x => x) (fun x => x)
              (mkEnvelope false 0 10 0 [] 0 0 (1#200000) (-1) false (-1))
              (sample_envelope triangle) 2 eq_refl eq_refl
              ltac:(vm_compute; discriminate)
              ltac:(discriminate) ltac:(repeat constructor))
    as [H1 [_ [_ [H2 _]]]].
  - intros p [<-|[<-|[<-|[]]]]; split; vm_compute; discriminate.
  - split; [exact H1 | exact H2].
Defined.

(** ** Deleting and putting back *)

Lemma split_at (l : list EnvPoint) (i : nat) :
  (i < length l)%nat -> l = firstn i l ++ at_ l i :: skipn (S i) l.
Proof.
  revert i. induction l as [|p l IH]; intros i Hi; simpl in Hi; [lia|].
  destruct i as [|i]; [reflexivity|].
  cbn [firstn skipn app]. rewrite at_cons. f_equal. apply IH. lia.
Qed.

Lemma firstn_firstn_min (l : list EnvPoint) (i : nat) :
  firstn i (firstn i l) = firstn i l.
Proof. rewrite firstn_firstn. now rewrite Nat.min_id. Qed.

Lemma erase_firstn (l : list EnvPoint) (i : nat) :
  (i <= length l)%nat -> firstn i (erase l i) = firstn i l.
Proof.
  intros Hi. unfold erase. rewrite firstn_app, length_firstn.
  replace (i - Nat.min i (length l))%nat with 0%nat by lia.
  cbn [firstn]. rewrite app_nil_r. apply firstn_firstn_min.
Qed.

Lemma erase_skipn (l : list EnvPoint) (i : nat) :
  (i <= length l)%nat -> skipn i (erase l i) = skipn (S i) l.
Proof.
  intros Hi. unfold erase. rewrite skipn_app, length_firstn.
  replace (i - Nat.min i (length l))%nat with 0%nat by lia.
  rewrite skipn_all2 by (rewrite length_firstn; lia). reflexivity.
Qed.

(** Where a deleted point would go back. *)
Lemma scan_past_erased (l : list EnvPoint) (i : nat) :
  StrictlyAscending l -> (i < length l)%nat ->
  scan_past (GetT (at_ l i)) (erase l i) 0 = i /\
  ((i < length (erase l i))%nat ->
   GetT (at_ l i) < GetT (at_ (erase l i) i)).
Proof.
  intros Hs Hi.
  assert (Hlen : length (erase l i) = (length l - 1)%nat) by now apply erase_length.
  assert (Hnext : (i < length (erase l i))%nat ->
                  GetT (at_ l i) < GetT (at_ (erase l i) i)).
  { intros H. rewrite erase_at, Nat.ltb_irrefl.
    apply StrictlyAscending_lt; auto; lia. }
  split; [|exact Hnext].
  assert (Hge : (i <= scan_past (GetT (at_ l i)) (erase l i) 0)%nat).
  { apply scan_past_from; [lia|]. intros j Hj. rewrite erase_at.
    rewrite (proj2 (Nat.ltb_lt j i)) by exact Hj.
    now apply StrictlyAscending_lt. }
  pose proof (scan_past_le (GetT (at_ l i)) (erase l i)) as Hle.
  destruct (Nat.eq_dec (scan_past (GetT (at_ l i)) (erase l i) 0) i) as [E|E];
    [exact E|].
  exfalso.
  pose proof (scan_past_before (GetT (at_ l i)) (erase l i) i ltac:(lia)) as H.
  specialize (Hnext ltac:(lia)). lra.
Qed.

(** Putting a deleted point back where it was. *)
Lemma put_back_restores (e1 : Envelope) (l : list EnvPoint) (i : nat) :
  StrictlyAscending l -> (i < length l)%nat -> mEnv e1 = erase l i ->
  0 <= GetT (at_ l i) ->
  (GetT (at_ l i) <= mTrackLen e1 \/ (length (mEnv e1) <= 1)%nat) ->
  mEnv (snd (InsertOrReplaceRelative e1 (GetT (at_ l i)) (GetVal (at_ l i)))) = l.
Proof.
  intros Hs Hi E1 H0 H1.
  destruct (scan_past_erased l i Hs Hi) as [Escan Hnext].
  rewrite InsertOrReplaceRelative_accepts by assumption.
  cbv zeta. rewrite E1, Escan.
  assert (Ecmp : (i <? length (erase l i))%nat &&
                 Qeqb (GetT (at_ l i)) (GetT (at_ (erase l i) i)) = false).
  { destruct (Nat.ltb_spec i (length (erase l i))) as [H|H]; [|reflexivity].
    specialize (Hnext H). cbn [andb].
    destruct (Qeqb_spec (GetT (at_ l i)) (GetT (at_ (erase l i) i)));
      [lra | reflexivity]. }
  rewrite Ecmp. cbn [snd mEnv with_mEnv].
  rewrite erase_firstn, erase_skipn by lia.
  rewrite (split_at l i Hi) at 5.
  now destruct (at_ l i).
Qed.

(** X18. [InsertOrReplaceRelative] undoes [Delete], and [Delete] undoes an
    insertion: on strictly ascending points, putting back a point that was
    deleted from a time within the span restores the points, and deleting at
    the index an insertion returned, when there was no point at that time,
    restores them too. *)
Theorem Delete_Insert_round_trip (e : Envelope) :
  StrictlyAscending (mEnv e) ->
  (forall i, (i < length (mEnv e))%nat ->
     0 <= GetT (at_ (mEnv e) i) -> GetT (at_ (mEnv e) i) <= mTrackLen e ->
     mEnv (snd (InsertOrReplaceRelative (Delete e i)
                  (GetT (at_ (mEnv e) i)) (GetVal (at_ (mEnv e) i)))) = mEnv e) /\
  (forall when value, 0 <= when -> when <= mTrackLen e ->
     ~ has_point_at (mEnv e) when ->
     let r := InsertOrReplaceRelative e when value in
     mEnv (Delete (snd r) (Z.to_nat (fst r))) = mEnv e).
Proof.
  intros Hs. split.
  - intros i Hi H0 H1.
    apply put_back_restores; auto.
  - intros when value H0 H1 Hno r. subst r.
    rewrite (InsertOrReplaceRelative_inserts e when value H0 (or_introl H1) Hno).
    cbv zeta. cbn [fst snd Delete mEnv with_mEnv]. rewrite Nat2Z.id.
    set (i := scan_past when (mEnv e) 0).
    pose proof (scan_past_le when (mEnv e)) as Hi. fold i in Hi.
    unfold erase.
    rewrite firstn_app, length_firstn.
    replace (i - Nat.min i (length (mEnv e)))%nat with 0%nat by lia.
    cbn [firstn]. rewrite app_nil_r, firstn_firstn_min.
    rewrite skipn_app, length_firstn.
    replace (S i - Nat.min i (length (mEnv e)))%nat with 1%nat by lia.
    rewrite skipn_all2 by (rewrite length_firstn; lia).
    cbn [skipn app]. apply firstn_skipn.
Qed.

Lemma Delete_Insert_round_trip_witness :
  mEnv (snd (InsertOrReplaceRelative (Delete (sample_envelope three_points) 1)
               (GetT (at_ three_points 1)) (GetVal (at_ three_points 1)))) =
  three_points.
Proof.
  destruct (Delete_Insert_round_trip (sample_envelope three_points)
              ltac:(repeat constructor)) as [H _].
  apply (H 1%nat).
  - simpl. lia.
  - vm_compute. discriminate.
  - vm_compute. discriminate.
Defined.

(** ** RemoveUnneededPoints *)

Lemma InsertOrReplaceRelative_rejects (e : Envelope) (when value : Q) :
  0 <= when -> (1 < length (mEnv e))%nat -> mTrackLen e < when ->
  snd (InsertOrReplaceRelative e when value) = e.
Proof.
  intros H0 Hlen HT. unfold InsertOrReplaceRelative. cbv zeta.
  destruct (Qltb_spec when 0); [lra|]. rewrite Bool.andb_false_r.
  rewrite (proj2 (Nat.ltb_lt 1 (length (mEnv e)))) by exact Hlen.
  destruct (Qltb_spec (mTrackLen e) when); [reflexivity | lra].
Qed.

(** Deleting a point and putting it back leaves the points as they were,
    or without the point when it lay after the span. *)
Lemma put_back_cases (e1 : Envelope) (l : list EnvPoint) (i : nat) :
  StrictlyAscending l -> (i < length l)%nat -> mEnv e1 = erase l i ->
  0 <= GetT (at_ l i) ->
  let e2 := snd (InsertOrReplaceRelative e1 (GetT (at_ l i)) (GetVal (at_ l i))) in
  mEnv e2 = l \/ mEnv e2 = erase l i.
Proof.
  intros Hs Hi E1 H0 e2. subst e2.
  destruct (Nat.lt_ge_cases 1 (length (mEnv e1))) as [Hlen|Hlen].
  - destruct (Qlt_le_dec (mTrackLen e1) (GetT (at_ l i))) as [HT|HT].
    + right. now rewrite InsertOrReplaceRelative_rejects.
    + left. apply put_back_restores; auto.
  - left. apply put_back_restores; auto.
Qed.

Lemma erase_In (l : list EnvPoint) (i : nat) (p : EnvPoint) :
  In p (erase l i) -> In p l.
Proof.
  destruct (Nat.lt_ge_cases i (length l)) as [Hi|Hi];
    [|now rewrite erase_beyond].
  intros H. destruct (In_at _ _ H) as [j [Hj Ej]].
  rewrite erase_length in Hj by exact Hi. rewrite erase_at in Ej. subst p.
  apply at_In. destruct (j <? i)%nat; lia.
Qed.

Lemma erase_keeps (l : list EnvPoint) (i : nat) (p : EnvPoint) :
  In p l -> p <> at_ l i -> In p (erase l i).
Proof.
  intros Hp Hne. destruct (In_at _ _ Hp) as [j [Hj Ej]].
  destruct (Nat.lt_ge_cases i (length l)) as [Hi|Hi];
    [|now rewrite erase_beyond].
  assert (Hji : j <> i) by (intros ->; now apply Hne).
  destruct (Nat.lt_ge_cases j i) as [Hlt|Hge].
  - replace p with (at_ (erase l i) j).
    + apply at_In. rewrite erase_length by exact Hi. lia.
    + rewrite erase_at. now rewrite (proj2 (Nat.ltb_lt j i)).
  - replace p with (at_ (erase l i) (j - 1)).
    + apply at_In. rewrite erase_length by exact Hi. lia.
    + rewrite erase_at. rewrite (proj2 (Nat.ltb_ge (j - 1) i)) by lia.
      now replace (S (j - 1)) with j by lia.
Qed.

Section Unneeded.

Variable log10 : Q -> Q.
Variable pow10 : Q -> Q.

Lemma RemoveUnneededPoints_loop_keeps (e0 : Envelope) (time tolerence : Q) :
  (forall p, In p (mEnv e0) -> 0 <= GetT p) ->
  forall (fuel : nat) (e : Envelope) (i len : nat),
    len = length (mEnv e) ->
    StrictlyAscending (mEnv e) -> incl (mEnv e) (mEnv e0) ->
    mOffset e = mOffset e0 ->
    (forall p, In p (mEnv e0) -> 0 <= time ->
       (25 # 100000) < Qabs (GetT p + mOffset e0 - time) -> In p (mEnv e)) ->
    let r := RemoveUnneededPoints_loop log10 pow10 fuel e time tolerence i len in
    StrictlyAscending (mEnv r) /\ incl (mEnv r) (mEnv e0) /\
    mOffset r = mOffset e0 /\
    (forall p, In p (mEnv e0) -> 0 <= time ->
       (25 # 100000) < Qabs (GetT p + mOffset e0 - time) -> In p (mEnv r)).
Proof.
  intros Hpos. induction fuel as [|fuel IH]; intros e i len Hlen Hs Hincl Hoff Hfar;
    cbn [RemoveUnneededPoints_loop].
  - repeat split; auto.
  - destruct (Nat.ltb_spec i len) as [Hi|Hi]; [|repeat split; auto].
    cbv zeta.
    destruct (Qleb 0 time &&
              Qltb (25 # 100000) (Qabs (GetT (at_ (mEnv e) i) + mOffset e - time)))
      eqn:Eskip.
    { apply IH; auto. }
    set (p0 := at_ (mEnv e) i) in *.
    set (e1 := with_mSearchGuess (Delete e i) _).
    assert (E1 : mEnv e1 = erase (mEnv e) i) by reflexivity.
    assert (Hi' : (i < length (mEnv e))%nat) by lia.
    assert (Hp0 : 0 <= GetT p0).
    { apply Hpos, Hincl. subst p0. now apply at_In. }
    assert (Hnear : forall p, In p (mEnv e0) -> 0 <= time ->
              (25 # 100000) < Qabs (GetT p + mOffset e0 - time) -> p <> p0).
    { intros p Hp Ht Hf Ep. subst p. rewrite <- Hoff in Hf.
      destruct (Qleb_spec 0 time); [|lra].
      destruct (Qltb_spec (25 # 100000) (Qabs (GetT p0 + mOffset e - time)));
        [discriminate | lra]. }
    assert (Herased : StrictlyAscending (mEnv e1) /\ incl (mEnv e1) (mEnv e0) /\
              mOffset e1 = mOffset e0 /\
              (forall p, In p (mEnv e0) -> 0 <= time ->
                 (25 # 100000) < Qabs (GetT p + mOffset e0 - time) ->
                 In p (mEnv e1)) /\
              (len - 1)%nat = length (mEnv e1)).
    { rewrite E1. split; [now apply erase_StrictlyAscending|]. split.
      - intros p Hp. apply Hincl. eapply erase_In; eauto.
      - split; [exact Hoff|]. split.
        + intros p Hp Ht Hf. apply erase_keeps; [now apply Hfar|].
          now apply Hnear.
        + rewrite erase_length by exact Hi'. lia. }
    destruct Herased as [Hs1 [Hincl1 [Hoff1 [Hfar1 Hlen1]]]].
    destruct (Qltb tolerence
                (Qabs (GetVal p0 -
                       GetValue log10 pow10 (Delete e i) (GetT p0 + mOffset (Delete e i))))).
    + destruct (put_back_cases e1 (mEnv e) i Hs Hi' E1 Hp0) as [E2|E2];
        fold p0 in E2.
      * rewrite E2. rewrite (proj2 (Nat.ltb_ge (length (mEnv e)) len)) by lia.
        destruct (InsertOrReplaceRelative_fields e1 (GetT p0) (GetVal p0))
          as [_ [F2 _]].
        apply IH; try rewrite E2; auto. now rewrite F2.
      * rewrite E2. rewrite <- E1, <- Hlen1.
        rewrite (proj2 (Nat.ltb_lt (len - 1) len)) by lia.
        destruct (InsertOrReplaceRelative_fields e1 (GetT p0) (GetVal p0))
          as [_ [F2 _]].
        apply IH; try rewrite E2; try rewrite <- E1; auto. now rewrite F2.
    + apply IH; auto.
Qed.

(** X19. [RemoveUnneededPoints] on strictly ascending points at times that are
    not negative: what is left is strictly ascending and consists of points
    that were there; the offset is kept; and when [time] is not negative,
    every point further than [0.00025] from it stays. *)
Theorem RemoveUnneededPoints_spec (e : Envelope) (time tolerence : Q) :
  StrictlyAscending (mEnv e) ->
  (forall p, In p (mEnv e) -> 0 <= GetT p) ->
  let r := RemoveUnneededPoints log10 pow10 e time tolerence in
  StrictlyAscending (mEnv r) /\ incl (mEnv r) (mEnv e) /\
  (length (mEnv r) <= length (mEnv e))%nat /\
  mOffset r = mOffset e /\
  (forall p, In p (mEnv e) -> 0 <= time ->
     (25 # 100000) < Qabs (GetT p + mOffset e - time) -> In p (mEnv r)).
Proof.
  intros Hs Hpos r.
  assert (H : StrictlyAscending (mEnv r) /\ incl (mEnv r) (mEnv e) /\
              mOffset r = mOffset e /\
              (forall p, In p (mEnv e) -> 0 <= time ->
                 (25 # 100000) < Qabs (GetT p + mOffset e - time) -> In p (mEnv r))).
  { subst r. unfold RemoveUnneededPoints. cbv zeta.
    destruct (length (mEnv e) =? 0)%nat.
    - repeat split; auto. apply incl_refl.
    - apply RemoveUnneededPoints_loop_keeps; auto. apply incl_refl. }
  destruct H as [Hs' [Hincl [Hoff Hfar]]].
  split; [exact Hs'|]. split; [exact Hincl|]. split; [|split; assumption].
  apply NoDup_incl_length; [|exact Hincl].
  apply NoDup_nth with (d := origin). intros j k Hj Hk E.
  destruct (Nat.lt_trichotomy j k) as [H|[H|H]]; [|exact H|].
  - pose proof (StrictlyAscending_lt _ j k Hs' H Hk) as Hlt.
    unfold at_ in Hlt. rewrite E in Hlt. lra.
  - pose proof (StrictlyAscending_lt _ k j Hs' H Hj) as Hlt.
    unfold at_ in Hlt. rewrite E in Hlt. lra.
Qed.

End Unneeded.

Lemma RemoveUnneededPoints_spec_witness :
  let r := RemoveUnneededPoints (fun x => x) (fun x => x)
             (sample_envelope three_points) 5 (1 # 100) in
  StrictlyAscending (mEnv r) /\ In (mkEnvPoint 10 3) (mEnv r).
Proof.
  destruct (RemoveUnneededPoints_spec (fun x => x) (fun x => x)
              (sample_envelope three_points) 5 (1 # 100)
              ltac:(repeat constructor)) as [Hs [_ [_ [_ Hfar]]]].
  - intros p [<-|[<-|[<-|[]]]]; vm_compute; discriminate.
  - split; [exact Hs|]. apply Hfar.
    + simpl. auto.
    + vm_compute. discriminate.
    + vm_compute. reflexivity.
Defined.

(** ** Integral and Average *)

Lemma trapezoid_bounds (m M a b dt : Q) :
  m <= a -> a <= M -> m <= b -> b <= M -> 0 <= dt ->
  m * dt <= (a + b) * (1 # 2) * dt /\ (a + b) * (1 # 2) * dt <= M * dt.
Proof. intros. split; nra. Qed.

Lemma lerp_bounds (m M a b f : Q) :
  m <= a -> a <= M -> m <= b -> b <= M -> 0 <= f -> f <= 1 ->
  m <= a * (1 - f) + b * f /\ a * (1 - f) + b * f <= M.
Proof. intros. split; nra. Qed.

Lemma factor_bounds (t tl th : Q) :
  tl <= t -> t <= th -> tl < th ->
  0 <= (t - tl) / (th - tl) /\ (t - tl) / (th - tl) <= 1.
Proof.
  intros. split; [apply Qle_shift_div_l | apply Qle_shift_div_r]; lra.
Qed.

Section Areas.

Variable log10 : Q -> Q.
Variable pow10 : Q -> Q.
Variable log : Q -> Q.
Variable exp : Q -> Q.

Variable e : Envelope.
Variables m M : Q.

Hypothesis linear : mDB e = false.
Hypothesis ascending : Ascending (mEnv e).
Hypothesis default_within : m <= mDefaultValue e /\ mDefaultValue e <= M.
Hypothesis values_within :
  forall k, (k < length (mEnv e))%nat ->
    m <= GetVal (at_ (mEnv e) k) /\ GetVal (at_ (mEnv e) k) <= M.

(** The loop of [Integral], from a state that lies between the points
    [i - 1] and [i] and before [t1]. *)
Lemma Integral_loop_bounds (t1 : Q) (n : nat) :
  forall (i : nat) (total lastT lastVal : Q),
    (n + i = length (mEnv e))%nat -> (1 <= i)%nat ->
    GetT (at_ (mEnv e) (i - 1)) <= lastT -> lastT < t1 ->
    ((i < length (mEnv e))%nat -> lastT <= GetT (at_ (mEnv e) i)) ->
    m <= lastVal -> lastVal <= M ->
    total + m * (t1 - lastT) <=
      Integral_loop log exp e t1 n i total lastT lastVal /\
    Integral_loop log exp e t1 n i total lastT lastVal <=
      total + M * (t1 - lastT).
Proof.
  induction n as [|n IH]; intros i total lastT lastVal Hn Hi Hprev Hlt Hnext Hv1 Hv2;
    cbn [Integral_loop].
  - split; nra.
  - cbv zeta. rewrite linear.
    unfold InterpolatePoints, IntegrateInterpolated.
    specialize (Hnext ltac:(lia)).
    destruct (values_within i ltac:(lia)) as [Hp1 Hp2].
    destruct (values_within (i - 1) ltac:(lia)) as [Hq1 Hq2].
    set (p := at_ (mEnv e) i) in *. set (q := at_ (mEnv e) (i - 1)) in *.
    destruct (Qleb_spec t1 (GetT p)) as [Hle|Hgt].
    + destruct (factor_bounds t1 (GetT q) (GetT p)) as [Hf0 Hf1]; try lra.
      set (f := (t1 - GetT q) / (GetT p - GetT q)) in *.
      destruct (lerp_bounds m M (GetVal q) (GetVal p) f) as [Hl1 Hl2]; auto.
      set (thisVal := GetVal q * (1 - f) + GetVal p * f) in *.
      destruct (trapezoid_bounds m M lastVal thisVal (t1 - lastT)); auto; try lra.
    + destruct (trapezoid_bounds m M lastVal (GetVal p) (GetT p - lastT));
        auto; try lra.
      destruct (IH (S i)
                  (total + (lastVal + GetVal p) * (1 # 2) * (GetT p - lastT))
                  (GetT p) (GetVal p)) as [H1 H2].
      { lia. }
      { lia. }
      { replace (S i - 1)%nat with i by lia. fold p. lra. }
      { lra. }
      { intros Hlen. apply (proj1 (Ascending_adjacent _) ascending). exact Hlen. }
      { exact Hp1. }
      { exact Hp2. }
      split; lra.
Qed.

Lemma Integral_ordered_bounds (t0 t1 : Q) :
  t0 < t1 ->
  m * (t1 - t0) <= Integral_ordered log exp e t0 t1 /\
  Integral_ordered log exp e t0 t1 <= M * (t1 - t0).
Proof.
  intros Hlt. unfold Integral_ordered. cbv zeta.
  destruct default_within as [Hd1 Hd2].
  destruct (Nat.eqb_spec (length (mEnv e)) 0) as [El|El]; [split; nra|].
  set (count := length (mEnv e)) in *.
  set (u0 := t0 - mOffset e). set (u1 := t1 - mOffset e).
  assert (Hu : u0 < u1) by (subst u0 u1; lra).
  assert (Ed : t1 - t0 == u1 - u0) by (subst u0 u1; ring).
  rewrite !Ed. clearbody u0 u1.
  destruct (values_within 0 ltac:(lia)) as [Hf1 Hf2].
  destruct (values_within (count - 1) ltac:(lia)) as [Hl1 Hl2].
  destruct (Qltb_spec u0 (GetT (at_ (mEnv e) 0))) as [Hbefore|Hfrom].
  - destruct (Qleb_spec u1 (GetT (at_ (mEnv e) 0))) as [Hall|Hpart]; [split; nra|].
    destruct (Integral_loop_bounds u1 (count - 1) 1
                (0 + (GetT (at_ (mEnv e) 0) - u0) * GetVal (at_ (mEnv e) 0))
                (GetT (at_ (mEnv e) 0)) (GetVal (at_ (mEnv e) 0)))
      as [H1 H2].
    { fold count. lia. }
    { lia. }
    { cbn. lra. }
    { lra. }
    { intros Hlen. apply (proj1 (Ascending_adjacent _) ascending). exact Hlen. }
    { exact Hf1. }
    { exact Hf2. }
    split; nra.
  - destruct (Qleb_spec (GetT (at_ (mEnv e) (count - 1))) u0) as [Hafter|Hinside];
      [split; nra|].
    pose proof (BinarySearchForTime_brackets (mEnv e) (mSearchGuess e) u0) as Hb.
    destruct (BinarySearchForTime (mEnv e) (mSearchGuess e) u0) as [[lo hi] g].
    cbn [fst snd] in Hb. destruct Hb as [E [R [L H]]].
    fold count in R, H.
    assert (Hlo : (0 <= lo)%Z).
    { destruct (Z.le_gt_cases 0 lo) as [Hc|Hc]; [exact Hc|].
      assert (Ehi0 : hi = 0%Z) by lia. rewrite Ehi0 in H.
      specialize (H ltac:(lia)). unfold atZ in H.
      change (Z.to_nat 0) with 0%nat in H. lra. }
    assert (Hhi : (hi < Z.of_nat count)%Z).
    { destruct (Z.lt_ge_cases hi (Z.of_nat count)) as [Hc|Hc]; [exact Hc|].
      assert (Elo : lo = Z.of_nat (count - 1)) by lia. rewrite Elo in L.
      specialize (L ltac:(lia)). unfold atZ in L. rewrite Nat2Z.id in L. lra. }
    specialize (L Hlo). specialize (H Hhi). unfold atZ in *.
    assert (Ehi : Z.to_nat hi = S (Z.to_nat lo)) by lia.
    rewrite Ehi in *.
    set (k := Z.to_nat lo) in *.
    assert (Hk : (S k < count)%nat) by lia.
    destruct (values_within k ltac:(lia)) as [Ha1 Ha2].
    destruct (values_within (S k) Hk) as [Hb1 Hb2].
    rewrite linear. unfold InterpolatePoints.
    destruct (factor_bounds u0 (GetT (at_ (mEnv e) k)) (GetT (at_ (mEnv e) (S k))))
      as [Hg0 Hg1]; try lra.
    set (f := (u0 - GetT (at_ (mEnv e) k)) /
              (GetT (at_ (mEnv e) (S k)) - GetT (at_ (mEnv e) k))) in *.
    destruct (lerp_bounds m M (GetVal (at_ (mEnv e) k))
                (GetVal (at_ (mEnv e) (S k))) f) as [Hv1 Hv2]; auto.
    destruct (Integral_loop_bounds u1 (count - S k) (S k) 0 u0
                (GetVal (at_ (mEnv e) k) * (1 - f) + GetVal (at_ (mEnv e) (S k)) * f))
      as [H1 H2].
    { fold count. lia. }
    { lia. }
    { replace (S k - 1)%nat with k by lia. exact L. }
    { exact Hu. }
    { intros _. lra. }
    { exact Hv1. }
    { exact Hv2. }
    split; lra.
Qed.

End Areas.

Section Averages.

Variable log10 : Q -> Q.
Variable pow10 : Q -> Q.
Variable log : Q -> Q.
Variable exp : Q -> Q.


End Averages.


(** ** Integral over adjoining spans *)

Section Additive.

Variable log : Q -> Q.
Variable exp : Q -> Q.
Variable e : Envelope.

Hypothesis linear : mDB e = false.
Hypothesis strict : StrictlyAscending (mEnv e).

Lemma Integral_loop_total (t : Q) (n : nat) :
  forall (i : nat) (total lastT lastVal : Q),
    Integral_loop log exp e t n i total lastT lastVal ==
    total + Integral_loop log exp e t n i 0 lastT lastVal.
Proof.
  induction n as [|n IH]; intros i total lastT lastVal; cbn [Integral_loop].
  - ring.
  - cbv zeta. destruct (Qleb t (GetT (at_ (mEnv e) i))); [ring|].
    rewrite (IH (S i) (total + _)), (IH (S i) (0 + _)). ring.
Qed.

Lemma Integral_loop_respects (t : Q) (n : nat) :
  forall (i : nat) (total total' lastT lastT' lastVal lastVal' : Q),
    total == total' -> lastT == lastT' -> lastVal == lastVal' ->
    Integral_loop log exp e t n i total lastT lastVal ==
    Integral_loop log exp e t n i total' lastT' lastVal'.
Proof.
  induction n as [|n IH]; intros i total total' lastT lastT' lastVal lastVal'
    H1 H2 H3; cbn [Integral_loop].
  - now rewrite H1, H2, H3.
  - cbv zeta. rewrite linear. unfold IntegrateInterpolated.
    destruct (Qleb t (GetT (at_ (mEnv e) i))).
    + now rewrite H1, H2, H3.
    + apply IH; [|reflexivity|reflexivity]. now rewrite H1, H2, H3.
Qed.

Lemma Integral_ordered_after (a1 a2 : Q) :
  mEnv e <> [] ->
  GetT (at_ (mEnv e) (length (mEnv e) - 1)) <= a1 - mOffset e ->
  Integral_ordered log exp e a1 a2 =
  (a2 - mOffset e - (a1 - mOffset e)) * GetVal (at_ (mEnv e) (length (mEnv e) - 1)).
Proof.
  intros Hne Hlast. unfold Integral_ordered. cbv zeta.
  destruct (Nat.eqb_spec (length (mEnv e)) 0) as [El|El].
  { apply length_zero_iff_nil in El. contradiction. }
  pose proof (Ascending_le (mEnv e) 0 (length (mEnv e) - 1)
                (StrictlyAscending_Ascending _ strict) ltac:(lia) ltac:(lia)) as H.
  destruct (Qltb_spec (a1 - mOffset e) (GetT (at_ (mEnv e) 0))); [lra|].
  destruct (Qleb_spec (GetT (at_ (mEnv e) (length (mEnv e) - 1))) (a1 - mOffset e));
    [reflexivity | contradiction].
Qed.

Lemma Integral_ordered_inside (a1 a2 : Q) (i : nat) :
  (1 <= i)%nat -> (i < length (mEnv e))%nat ->
  GetT (at_ (mEnv e) (i - 1)) <= a1 - mOffset e ->
  a1 - mOffset e < GetT (at_ (mEnv e) i) ->
  Integral_ordered log exp e a1 a2 =
  Integral_loop log exp e (a2 - mOffset e) (length (mEnv e) - i) i 0
    (a1 - mOffset e)
    (InterpolatePoints log exp (GetVal (at_ (mEnv e) (i - 1)))
       (GetVal (at_ (mEnv e) i))
       ((a1 - mOffset e - GetT (at_ (mEnv e) (i - 1))) /
        (GetT (at_ (mEnv e) i) - GetT (at_ (mEnv e) (i - 1)))) (mDB e)).
Proof.
  intros Hi Hlen Hlo Hhi. unfold Integral_ordered. cbv zeta.
  pose proof (StrictlyAscending_Ascending _ strict) as Ha.
  destruct (Nat.eqb_spec (length (mEnv e)) 0) as [El|El]; [lia|].
  pose proof (Ascending_le (mEnv e) 0 (i - 1) Ha ltac:(lia) ltac:(lia)) as H0.
  pose proof (Ascending_le (mEnv e) i (length (mEnv e) - 1) Ha
                ltac:(lia) ltac:(lia)) as H1.
  destruct (Qltb_spec (a1 - mOffset e) (GetT (at_ (mEnv e) 0))); [lra|].
  destruct (Qleb_spec (GetT (at_ (mEnv e) (length (mEnv e) - 1))) (a1 - mOffset e));
    [lra|].
  assert (Hb : brackets (mEnv e) (a1 - mOffset e)
                 (Z.of_nat (i - 1)) (Z.of_nat i)).
  { unfold brackets, atZ. rewrite !Nat2Z.id. repeat split; try lia; auto. }
  pose proof (BinarySearchForTime_is (mEnv e) (a1 - mOffset e) (mSearchGuess e)
                _ _ Ha Hb) as E.
  destruct (BinarySearchForTime (mEnv e) (mSearchGuess e) (a1 - mOffset e))
    as [[lo hi] g].
  cbn [fst] in E. apply pair_equal_spec in E. destruct E as [-> ->].
  unfold atZ. rewrite !Nat2Z.id. reflexivity.
Qed.

(** From the time of a point on, the integral is what the loop adds up
    from that point. *)
Lemma Integral_ordered_at_point (a1 a2 : Q) (i : nat) :
  (i < length (mEnv e))%nat ->
  a1 - mOffset e == GetT (at_ (mEnv e) i) ->
  Integral_ordered log exp e a1 a2 ==
  Integral_loop log exp e (a2 - mOffset e) (length (mEnv e) - S i) (S i) 0
    (GetT (at_ (mEnv e) i)) (GetVal (at_ (mEnv e) i)).
Proof.
  intros Hi Heq.
  destruct (Nat.eq_dec (S i) (length (mEnv e))) as [Elast|Hmore].
  - rewrite Integral_ordered_after.
    + replace (length (mEnv e) - 1)%nat with i by lia.
      rewrite Elast, Nat.sub_diag. cbn [Integral_loop]. rewrite Heq. ring.
    + intros E. rewrite E in Hi. simpl in Hi. lia.
    + replace (length (mEnv e) - 1)%nat with i by lia. lra.
  - pose proof (StrictlyAscending_lt (mEnv e) i (S i) strict ltac:(lia) ltac:(lia))
      as Hnext.
    rewrite (Integral_ordered_inside a1 a2 (S i)); try lia.
    + replace (S i - 1)%nat with i by lia.
      apply Integral_loop_respects; [reflexivity | exact Heq |].
      rewrite linear. unfold InterpolatePoints.
      assert (Ef : (a1 - mOffset e - GetT (at_ (mEnv e) i)) /
                   (GetT (at_ (mEnv e) (S i)) - GetT (at_ (mEnv e) i)) == 0).
      { rewrite Heq. field. lra. }
      rewrite Ef. ring.
    + replace (S i - 1)%nat with i by lia. lra.
    + lra.
Qed.

(** The loop of [Integral] run to a later time adds the integral from the
    earlier time to the later. *)
Lemma Integral_loop_split (a1 a2 : Q) (n : nat) :
  a1 < a2 ->
  forall (i : nat) (lastT lastVal : Q),
    (n + i = length (mEnv e))%nat -> (1 <= i)%nat ->
    GetT (at_ (mEnv e) (i - 1)) <= lastT -> lastT < a1 - mOffset e ->
    (i = length (mEnv e) -> lastVal == GetVal (at_ (mEnv e) (i - 1))) ->
    ((i < length (mEnv e))%nat ->
     lastT < GetT (at_ (mEnv e) i) /\
     lastVal ==
       GetVal (at_ (mEnv e) (i - 1)) +
       (GetVal (at_ (mEnv e) i) - GetVal (at_ (mEnv e) (i - 1))) *
       ((lastT - GetT (at_ (mEnv e) (i - 1))) /
        (GetT (at_ (mEnv e) i) - GetT (at_ (mEnv e) (i - 1))))) ->
    Integral_loop log exp e (a2 - mOffset e) n i 0 lastT lastVal ==
    Integral_loop log exp e (a1 - mOffset e) n i 0 lastT lastVal +
    Integral_ordered log exp e a1 a2.
Proof.
  intros Hlt.
  set (u1 := a1 - mOffset e). set (u2 := a2 - mOffset e).
  assert (Hu : u1 < u2) by (subst u1 u2; lra).
  induction n as [|n IH]; intros i lastT lastVal Hn Hi Hprev Hbefore Hend Hmid.
  - cbn [Integral_loop].
    rewrite Integral_ordered_after.
    + fold u1 u2. replace (length (mEnv e) - 1)%nat with (i - 1)%nat by lia.
      rewrite (Hend ltac:(lia)). ring.
    + intros E. rewrite E in Hn. simpl in Hn. lia.
    + fold u1. replace (length (mEnv e) - 1)%nat with (i - 1)%nat by lia. lra.
  - assert (Hlen : (i < length (mEnv e))%nat) by lia.
    destruct (Hmid Hlen) as [Hnext Hval]. clear Hend Hmid.
    cbn [Integral_loop]. cbv zeta. rewrite linear.
    unfold InterpolatePoints, IntegrateInterpolated.
    set (p := at_ (mEnv e) i) in *. set (q := at_ (mEnv e) (i - 1)) in *.
    assert (Hd : 0 < GetT p - GetT q) by lra.
    assert (Hstate : forall u,
              Integral_loop log exp e u n (S i)
                (0 + (lastVal + GetVal p) * (1 # 2) * (GetT p - lastT))
                (GetT p) (GetVal p) ==
              (lastVal + GetVal p) * (1 # 2) * (GetT p - lastT) +
              Integral_loop log exp e u n (S i) 0 (GetT p) (GetVal p)).
    { intros u. rewrite Integral_loop_total. ring. }
    destruct (Qleb_spec u2 (GetT p)) as [H2|H2].
    + destruct (Qleb_spec u1 (GetT p)) as [H1|H1]; [|lra].
      rewrite (Integral_ordered_inside a1 a2 i Hi Hlen); fold u1 u2 p q; try lra.
      replace (length (mEnv e) - i)%nat with (S n) by lia.
      cbn [Integral_loop]. cbv zeta. rewrite linear.
      unfold InterpolatePoints, IntegrateInterpolated. fold p q.
      destruct (Qleb_spec u2 (GetT p)) as [_|H]; [|lra].
      rewrite Hval. field. lra.
    + destruct (Qleb_spec u1 (GetT p)) as [H1|H1].
      * rewrite (Hstate u2).
        destruct (Qlt_le_dec u1 (GetT p)) as [H1'|H1'].
        { rewrite (Integral_ordered_inside a1 a2 i Hi Hlen); fold u1 u2 p q; try lra.
          replace (length (mEnv e) - i)%nat with (S n) by lia.
          cbn [Integral_loop]. cbv zeta. rewrite linear.
          unfold InterpolatePoints, IntegrateInterpolated. fold p q.
          destruct (Qleb_spec u2 (GetT p)) as [H|_]; [lra|].
          rewrite (Integral_loop_total u2 n (S i) (0 + _)).
          rewrite Hval. field. lra. }
        { assert (E1 : u1 == GetT p) by lra.
          rewrite (Integral_ordered_at_point a1 a2 i Hlen E1). fold u2 p.
          replace (length (mEnv e) - S i)%nat with n by lia.
          rewrite Hval.
          assert (Ef : (u1 - GetT q) / (GetT p - GetT q) == 1).
          { rewrite E1. field. lra. }
          rewrite Ef. rewrite E1. field. lra. }
      * rewrite (Hstate u1), (Hstate u2).
        assert (A3 : GetT (at_ (mEnv e) (S i - 1)) <= GetT p).
        { replace (S i - 1)%nat with i by lia. fold p. lra. }
        assert (A4 : GetT p < u1) by lra.
        assert (A5 : S i = length (mEnv e) ->
                     GetVal p == GetVal (at_ (mEnv e) (S i - 1))).
        { intros _. replace (S i - 1)%nat with i by lia. reflexivity. }
        assert (A6 : (S i < length (mEnv e))%nat ->
                  GetT p < GetT (at_ (mEnv e) (S i)) /\
                  GetVal p ==
                    GetVal (at_ (mEnv e) (S i - 1)) +
                    (GetVal (at_ (mEnv e) (S i)) - GetVal (at_ (mEnv e) (S i - 1))) *
                    ((GetT p - GetT (at_ (mEnv e) (S i - 1))) /
                     (GetT (at_ (mEnv e) (S i)) - GetT (at_ (mEnv e) (S i - 1))))).
        { intros Hlen'. replace (S i - 1)%nat with i by lia. fold p.
          pose proof (StrictlyAscending_lt (mEnv e) i (S i) strict
                        ltac:(lia) Hlen') as Hnn. fold p in Hnn.
          split; [exact Hnn|]. field. lra. }
        rewrite (IH (S i) (GetT p) (GetVal p) ltac:(lia) ltac:(lia) A3 A4 A5 A6).
        ring.
Qed.

Lemma Integral_ordered_before (a0 a : Q) :
  mEnv e <> [] -> a0 - mOffset e < GetT (at_ (mEnv e) 0) ->
  Integral_ordered log exp e a0 a ==
  if Qleb (a - mOffset e) (GetT (at_ (mEnv e) 0))
  then (a - mOffset e - (a0 - mOffset e)) * GetVal (at_ (mEnv e) 0)
  else (GetT (at_ (mEnv e) 0) - (a0 - mOffset e)) * GetVal (at_ (mEnv e) 0) +
       Integral_loop log exp e (a - mOffset e) (length (mEnv e) - 1) 1 0
         (GetT (at_ (mEnv e) 0)) (GetVal (at_ (mEnv e) 0)).
Proof.
  intros Hne Hlt. unfold Integral_ordered. cbv zeta.
  destruct (Nat.eqb_spec (length (mEnv e)) 0) as [El|El].
  { apply length_zero_iff_nil in El. contradiction. }
  destruct (Qltb_spec (a0 - mOffset e) (GetT (at_ (mEnv e) 0))); [|contradiction].
  destruct (Qleb (a - mOffset e) (GetT (at_ (mEnv e) 0))); [reflexivity|].
  rewrite Integral_loop_total. ring.
Qed.

Lemma inside_bracket (u : Q) :
  GetT (at_ (mEnv e) 0) <= u -> u < GetT (at_ (mEnv e) (length (mEnv e) - 1)) ->
  exists i, (1 <= i)%nat /\ (i < length (mEnv e))%nat /\
            GetT (at_ (mEnv e) (i - 1)) <= u /\ u < GetT (at_ (mEnv e) i).
Proof.
  intros H0 H1.
  assert (Hpos : (0 < length (mEnv e))%nat).
  { destruct (mEnv e); [cbn in H0, H1; lra | simpl; lia]. }
  pose proof (BinarySearchForTime_brackets (mEnv e) 0 u) as Hb.
  destruct (BinarySearchForTime (mEnv e) 0 u) as [[lo hi] g].
  cbn [fst snd] in Hb. destruct Hb as [E [R [L H]]].
  assert (Hlo : (0 <= lo)%Z).
  { destruct (Z.le_gt_cases 0 lo) as [Hc|Hc]; [exact Hc|].
    assert (Ehi0 : hi = 0%Z) by lia. rewrite Ehi0 in H.
    specialize (H ltac:(lia)). unfold atZ in H.
    change (Z.to_nat 0) with 0%nat in H. lra. }
  assert (Hhi : (hi < Z.of_nat (length (mEnv e)))%Z).
  { destruct (Z.lt_ge_cases hi (Z.of_nat (length (mEnv e)))) as [Hc|Hc];
      [exact Hc|].
    assert (Elo : lo = Z.of_nat (length (mEnv e) - 1)) by lia. rewrite Elo in L.
    specialize (L ltac:(lia)). unfold atZ in L. rewrite Nat2Z.id in L. lra. }
  specialize (L Hlo). specialize (H Hhi). unfold atZ in *.
  exists (Z.to_nat hi). split; [lia|]. split; [lia|].
  replace (Z.to_nat hi - 1)%nat with (Z.to_nat lo) by lia. now split.
Qed.

Lemma Integral_ordered_additive (a0 a1 a2 : Q) :
  a0 < a1 -> a1 < a2 ->
  Integral_ordered log exp e a0 a2 ==
  Integral_ordered log exp e a0 a1 + Integral_ordered log exp e a1 a2.
Proof.
  intros H01 H12.
  destruct (Nat.eq_dec (length (mEnv e)) 0) as [El|El].
  { unfold Integral_ordered. cbv zeta. rewrite El. cbn [Nat.eqb]. ring. }
  assert (Hne : mEnv e <> []) by (intros E; apply El; now rewrite E).
  pose proof (StrictlyAscending_Ascending _ strict) as Ha.
  set (u0 := a0 - mOffset e). set (u1 := a1 - mOffset e).
  set (u2 := a2 - mOffset e).
  assert (Hu01 : u0 < u1) by (subst u0 u1; lra).
  assert (Hu12 : u1 < u2) by (subst u1 u2; lra).
  set (first := at_ (mEnv e) 0).
  set (last := at_ (mEnv e) (length (mEnv e) - 1)).
  assert (Hfl : GetT first <= GetT last).
  { apply Ascending_le; auto; lia. }
  destruct (Qlt_le_dec u0 (GetT first)) as [Hbefore|Hfrom].
  - rewrite (Integral_ordered_before a0 a2 Hne Hbefore).
    rewrite (Integral_ordered_before a0 a1 Hne Hbefore).
    fold u0 u1 u2 first.
    destruct (Qleb_spec u2 (GetT first)) as [H2|H2].
    + destruct (Qleb_spec u1 (GetT first)) as [H1|H1]; [|lra].
      rewrite (Integral_ordered_before a1 a2 Hne) by (fold u1 first; lra).
      fold u1 u2 first.
      destruct (Qleb_spec u2 (GetT first)) as [_|H]; [ring | lra].
    + destruct (Qleb_spec u1 (GetT first)) as [H1|H1].
      * destruct (Qlt_le_dec u1 (GetT first)) as [H1'|H1'].
        { rewrite (Integral_ordered_before a1 a2 Hne) by (fold u1 first; lra).
          fold u1 u2 first.
          destruct (Qleb_spec u2 (GetT first)) as [H|_]; [lra | ring]. }
        { assert (E1 : u1 == GetT first) by lra.
          rewrite (Integral_ordered_at_point a1 a2 0 ltac:(lia) E1).
          fold u2 first. rewrite E1. ring. }
      * assert (A6 : (1 < length (mEnv e))%nat ->
                  GetT first < GetT (at_ (mEnv e) 1) /\
                  GetVal first ==
                    GetVal (at_ (mEnv e) (1 - 1)) +
                    (GetVal (at_ (mEnv e) 1) - GetVal (at_ (mEnv e) (1 - 1))) *
                    ((GetT first - GetT (at_ (mEnv e) (1 - 1))) /
                     (GetT (at_ (mEnv e) 1) - GetT (at_ (mEnv e) (1 - 1))))).
        { intros Hlen. cbn [Nat.sub]. fold first.
          pose proof (StrictlyAscending_lt (mEnv e) 0 1 strict ltac:(lia) Hlen)
            as Hnn. fold first in Hnn.
          split; [exact Hnn|]. field. lra. }
        unfold u1, u2.
        rewrite (Integral_loop_split a1 a2 (length (mEnv e) - 1) H12 1
                   (GetT first) (GetVal first) ltac:(lia) ltac:(lia)
                   ltac:(cbn [Nat.sub]; fold first; lra)
                   ltac:(fold u1; lra)
                   ltac:(intros _; reflexivity) A6).
        ring.
  - destruct (Qlt_le_dec u0 (GetT last)) as [Hinside|Hafter].
    + destruct (inside_bracket u0 Hfrom Hinside) as [i [Hi [Hlen [Hlo Hhi]]]].
      rewrite (Integral_ordered_inside a0 a2 i Hi Hlen Hlo Hhi).
      rewrite (Integral_ordered_inside a0 a1 i Hi Hlen Hlo Hhi).
      fold u0 u1 u2.
      apply (Integral_loop_split a1 a2 (length (mEnv e) - i) H12 i); try lia.
      * exact Hlo.
      * exact Hu01.
      * intros Hlen'. split; [exact Hhi|].
        rewrite linear. unfold InterpolatePoints. field. lra.
    + rewrite (Integral_ordered_after a0 a2 Hne Hafter).
      rewrite (Integral_ordered_after a0 a1 Hne Hafter).
      rewrite (Integral_ordered_after a1 a2 Hne) by (fold u1 last; lra).
      ring.
Qed.

End Additive.

(** X21. In Linear mode, on strictly ascending points, the integral over a
    span is the sum of the integrals over its two parts, whichever way round
    the three times lie. *)
Theorem Integral_additive (log exp : Q -> Q) (e : Envelope) (a b c : Q) :
  mDB e = false -> StrictlyAscending (mEnv e) ->
  ~ a == b -> ~ b == c -> ~ a == c ->
  Integral log exp e a c == Integral log exp e a b + Integral log exp e b c.
Proof.
  intros Hlin Hs Hab Hbc Hac.
  pose proof (Integral_ordered_additive log exp e Hlin Hs) as Hadd.
  unfold Integral.
  destruct (Qeqb_spec a c); [contradiction|].
  destruct (Qeqb_spec a b); [contradiction|].
  destruct (Qeqb_spec b c); [contradiction|].
  destruct (Qltb_spec c a) as [Hca|Hca], (Qltb_spec b a) as [Hba|Hba],
           (Qltb_spec c b) as [Hcb|Hcb]; try (exfalso; lra).
  - pose proof (Hadd c b a Hcb Hba). lra.
  - pose proof (Hadd b c a ltac:(lra) Hca). lra.
  - pose proof (Hadd c a b Hca ltac:(lra)). lra.
  - pose proof (Hadd b a c Hba ltac:(lra)). lra.
  - pose proof (Hadd a c b ltac:(lra) Hcb). lra.
  - pose proof (Hadd a b c ltac:(lra) ltac:(lra)). lra.
Qed.

Lemma Integral_additive_witness :
  Integral (fun x => x) (fun x => x) (sample_envelope triangle) 1 9 ==
  Integral (fun x => x) (fun x => x) (sample_envelope triangle) 1 4 +
  Integral (fun x => x) (fun x => x) (sample_envelope triangle) 4 9.
Proof.
  apply Integral_additive.
  - reflexivity.
  - repeat constructor.
  - vm_compute. discriminate.
  - vm_compute. discriminate.
  - vm_compute. discriminate.
Defined.

(** ** The inverse integral and its solver on a constant envelope *)

Section Constant.

Variable log10 : Q -> Q.
Variable pow10 : Q -> Q.
Variable log : Q -> Q.
Variable exp : Q -> Q.
Variable log1p : Q -> Q.
Variable expm1 : Q -> Q.

Variable e : Envelope.
Variable v : Q.

Hypothesis linear : mDB e = false.
Hypothesis strict : StrictlyAscending (mEnv e).
Hypothesis log_at_one : forall x, x == 1 -> log x == 0.
Hypothesis positive : 0 < v.
Hypothesis default_v : mDefaultValue e == v.
Hypothesis values_v :
  forall k, (k < length (mEnv e))%nat -> GetVal (at_ (mEnv e) k) == v.

Lemma log_ratio_small (y1 y2 : Q) :
  y1 == v -> y2 == v -> Qltb (Qabs (log (y1 / y2))) (1 # 100000) = true.
Proof.
  intros H1 H2.
  assert (E : log (y1 / y2) == 0).
  { apply log_at_one. rewrite H1, H2. field. lra. }
  destruct (Qltb_spec (Qabs (log (y1 / y2))) (1 # 100000)) as [H|H];
    [reflexivity|].
  exfalso. apply H. rewrite E. reflexivity.
Qed.

Lemma IntegrateInverseInterpolated_constant (y1 y2 time : Q) :
  y1 == v -> y2 == v ->
  IntegrateInverseInterpolated log y1 y2 time false == time / v.
Proof.
  intros H1 H2. unfold IntegrateInverseInterpolated. cbv zeta.
  rewrite (log_ratio_small y1 y2 H1 H2). rewrite H1, H2. field. lra.
Qed.

Lemma InterpolatePoints_constant (y1 y2 f : Q) :
  y1 == v -> y2 == v -> InterpolatePoints log exp y1 y2 f false == v.
Proof. intros H1 H2. unfold InterpolatePoints. rewrite H1, H2. ring. Qed.

Lemma IntegralOfInverse_loop_constant (t1 : Q) (n : nat) :
  forall (i : nat) (total lastT lastVal : Q),
    (n + i = length (mEnv e))%nat -> lastVal == v ->
    IntegralOfInverse_loop log exp e t1 n i total lastT lastVal ==
    total + (t1 - lastT) / v.
Proof.
  induction n as [|n IH]; intros i total lastT lastVal Hn Hv;
    cbn [IntegralOfInverse_loop].
  - now rewrite Hv.
  - cbv zeta. rewrite linear.
    pose proof (values_v i ltac:(lia)) as Hp.
    pose proof (values_v (i - 1) ltac:(lia)) as Hq.
    destruct (Qleb t1 (GetT (at_ (mEnv e) i))).
    + rewrite IntegrateInverseInterpolated_constant; [reflexivity | exact Hv |].
      now apply InterpolatePoints_constant.
    + rewrite IH by (auto; lia).
      rewrite IntegrateInverseInterpolated_constant by auto. field. lra.
Qed.

Lemma bracket_found (u : Q) :
  GetT (at_ (mEnv e) 0) <= u -> u < GetT (at_ (mEnv e) (length (mEnv e) - 1)) ->
  exists i, (1 <= i)%nat /\ (i < length (mEnv e))%nat /\
    GetT (at_ (mEnv e) (i - 1)) <= u /\ u < GetT (at_ (mEnv e) i) /\
    fst (BinarySearchForTime (mEnv e) (mSearchGuess e) u) =
      (Z.of_nat (i - 1), Z.of_nat i).
Proof.
  intros H0 H1.
  destruct (inside_bracket e strict u H0 H1) as [i [Hi [Hlen [Hlo Hhi]]]].
  exists i. repeat split; auto.
  apply BinarySearchForTime_is; [now apply StrictlyAscending_Ascending|].
  unfold brackets, atZ. rewrite !Nat2Z.id. repeat split; try lia; auto.
Qed.

Lemma IntegralOfInverse_ordered_constant (t0 t1 : Q) :
  IntegralOfInverse_ordered log exp e t0 t1 == (t1 - t0) / v.
Proof.
  unfold IntegralOfInverse_ordered. cbv zeta.
  destruct (Nat.eqb_spec (length (mEnv e)) 0) as [El|El].
  { now rewrite default_v. }
  pose proof (values_v 0 ltac:(lia)) as Hfirst.
  pose proof (values_v (length (mEnv e) - 1) ltac:(lia)) as Hlast.
  set (u0 := t0 - mOffset e). set (u1 := t1 - mOffset e).
  destruct (Qltb_spec u0 (GetT (at_ (mEnv e) 0))) as [Hbefore|Hfrom].
  - destruct (Qleb u1 (GetT (at_ (mEnv e) 0))).
    + rewrite Hfirst. subst u0 u1. field. lra.
    + rewrite IntegralOfInverse_loop_constant by (auto; lia).
      rewrite Hfirst. subst u0 u1. field. lra.
  - destruct (Qleb_spec (GetT (at_ (mEnv e) (length (mEnv e) - 1))) u0)
      as [Hafter|Hinside].
    + rewrite Hlast. subst u0 u1. field. lra.
    + destruct (bracket_found u0 ltac:(lra) ltac:(lra))
        as [i [Hi [Hlen [Hlo [Hhi E]]]]].
      destruct (BinarySearchForTime (mEnv e) (mSearchGuess e) u0) as [[lo hi] g].
      cbn [fst] in E. apply pair_equal_spec in E. destruct E as [-> ->].
      unfold atZ. rewrite !Nat2Z.id. rewrite linear.
      rewrite IntegralOfInverse_loop_constant.
      * subst u0 u1. field. lra.
      * lia.
      * apply InterpolatePoints_constant; apply values_v; lia.
Qed.

Lemma IntegralOfInverse_constant (t0 t1 : Q) :
  IntegralOfInverse log exp e t0 t1 == (t1 - t0) / v.
Proof.
  unfold IntegralOfInverse.
  destruct (Qeqb_spec t0 t1) as [E|E]; [rewrite E; field; lra|].
  destruct (Qltb t1 t0); rewrite IntegralOfInverse_ordered_constant; field; lra.
Qed.

Lemma AverageOfInverse_constant (t0 t1 : Q) :
  AverageOfInverse log10 pow10 log exp e t0 t1 == 1 / v.
Proof.
  unfold AverageOfInverse.
  destruct (Qeqb_spec t0 t1) as [E|E].
  - change (GetValue log10 pow10 e t0)
      with (GetValueRelative log10 pow10 e (t0 - mOffset e)).
    destruct (GetValueRelative_within log10 pow10 e v v (t0 - mOffset e))
      as [H1 H2]; auto.
    + now apply StrictlyAscending_Ascending.
    + rewrite default_v. apply Qle_refl.
    + rewrite default_v. apply Qle_refl.
    + intros k Hk. rewrite (values_v k Hk). split; apply Qle_refl.
    + assert (Ev : GetValueRelative log10 pow10 e (t0 - mOffset e) == v) by lra.
      now rewrite Ev.
  - rewrite IntegralOfInverse_constant. field. split; lra.
Qed.

Lemma SolveIntegrateInverseInterpolated_constant (y1 y2 time area : Q) :
  y1 == v -> y2 == v -> 0 < time -> 0 <= area -> area <= time / v ->
  SolveIntegrateInverseInterpolated log log1p expm1 y1 y2 time area false ==
  area * v.
Proof.
  intros H1 H2 Ht Ha Hle. unfold SolveIntegrateInverseInterpolated. cbv zeta.
  assert (Hd : Qltb (Qabs (y2 - y1)) (1 # 100000) = true).
  { destruct (Qltb_spec (Qabs (y2 - y1)) (1 # 100000)) as [H|H]; [reflexivity|].
    exfalso. apply H. rewrite H1, H2.
    assert (E : v - v == 0) by ring. rewrite E. reflexivity. }
  rewrite Hd.
  assert (Er : area / time * (y1 + y2) * (1 # 2) == area * v / time).
  { rewrite H1, H2. field. lra. }
  assert (Hv : area * v <= time).
  { apply (Qmult_le_r _ _ v) in Hle; [|exact positive].
    assert (E : time / v * v == time) by (field; lra). lra. }
  rewrite clamp_fixes.
  - rewrite Er. field. lra.
  - rewrite Er. apply Qle_shift_div_l; [exact Ht|]. nra.
  - rewrite Er. apply Qle_shift_div_r; [exact Ht|]. lra.
Qed.

Lemma Solve_forward_constant (n : nat) :
  forall (i : nat) (area lastT lastVal : Q),
    (n + i = length (mEnv e))%nat -> lastVal == v -> 0 <= area ->
    ((i < length (mEnv e))%nat -> lastT < GetT (at_ (mEnv e) i)) ->
    Solve_forward log log1p expm1 e n i area lastT lastVal == lastT + area * v.
Proof.
  induction n as [|n IH]; intros i area lastT lastVal Hn Hv Ha Hnext;
    cbn [Solve_forward].
  - now rewrite Hv.
  - cbv zeta. rewrite linear.
    pose proof (values_v i ltac:(lia)) as Hp.
    specialize (Hnext ltac:(lia)).
    pose proof (IntegrateInverseInterpolated_constant lastVal
                  (GetVal (at_ (mEnv e) i)) (GetT (at_ (mEnv e) i) - lastT) Hv Hp)
      as Hadded.
    set (added := IntegrateInverseInterpolated log lastVal
                    (GetVal (at_ (mEnv e) i)) (GetT (at_ (mEnv e) i) - lastT) false)
      in *.
    destruct (Qleb_spec area added) as [Hle|Hgt].
    + rewrite SolveIntegrateInverseInterpolated_constant; auto; try lra.
    + rewrite IH; auto; try lia; try lra.
      * rewrite Hadded. field. lra.
      * intros Hlen. apply StrictlyAscending_lt; auto.
Qed.

Lemma Solve_backward_constant (k : nat) :
  forall (area lastT lastVal : Q),
    (k <= length (mEnv e))%nat -> lastVal == v -> area < 0 ->
    ((1 <= k)%nat -> GetT (at_ (mEnv e) (k - 1)) <= lastT) ->
    Solve_backward log log1p expm1 e k area lastT lastVal == lastT + area * v.
Proof.
  induction k as [|i IH]; intros area lastT lastVal Hk Hv Ha Hprev;
    cbn [Solve_backward].
  - now rewrite Hv.
  - cbv zeta. rewrite linear.
    pose proof (values_v i ltac:(lia)) as Hp.
    specialize (Hprev ltac:(lia)).
    replace (S i - 1)%nat with i in Hprev by lia.
    pose proof (IntegrateInverseInterpolated_constant (GetVal (at_ (mEnv e) i))
                  lastVal (lastT - GetT (at_ (mEnv e) i)) Hp Hv) as Hadded.
    set (inv := IntegrateInverseInterpolated log (GetVal (at_ (mEnv e) i))
                  lastVal (lastT - GetT (at_ (mEnv e) i)) false) in *.
    assert (Hdiv : forall x, 0 < x / v -> 0 < x).
    { intros x Hx. apply (Qmult_lt_r _ _ v) in Hx; [|exact positive].
      assert (E : x / v * v == x) by (field; lra). lra. }
    destruct (Qleb_spec (- inv) area) as [Hle|Hgt].
    + rewrite SolveIntegrateInverseInterpolated_constant; auto; try lra.
      apply Hdiv. lra.
    + rewrite IH; auto; try lia; try lra.
      * rewrite Hadded. field. lra.
      * intros Hi. replace i with (S (i - 1)) at 2 by lia.
        apply Qlt_le_weak. apply StrictlyAscending_lt; auto; lia.
Qed.

Lemma SolveIntegralOfInverse_constant (t0 area : Q) :
  SolveIntegralOfInverse log exp log1p expm1 e t0 area == t0 + area * v.
Proof.
  unfold SolveIntegralOfInverse. cbv zeta.
  destruct (Qeqb_spec area 0) as [Ez|Ez]; [rewrite Ez; ring|].
  destruct (Nat.eqb_spec (length (mEnv e)) 0) as [El|El].
  { now rewrite default_v. }
  pose proof (values_v 0 ltac:(lia)) as Hfirst.
  pose proof (values_v (length (mEnv e) - 1) ltac:(lia)) as Hlast.
  set (u0 := t0 - mOffset e).
  assert (Hgoal : forall x, x == u0 + area * v -> mOffset e + x == t0 + area * v).
  { intros x ->. subst u0. ring. }
  apply Hgoal.
  set (first := at_ (mEnv e) 0) in *.
  set (last := at_ (mEnv e) (length (mEnv e) - 1)) in *.
  destruct (Qltb_spec u0 (GetT first)) as [Hbefore|Hfrom].
  - destruct (Qltb_spec area 0) as [Hneg|Hpos]; [now rewrite Hfirst|].
    destruct (Qleb_spec area ((GetT first - u0) / GetVal first)) as [Hle|Hgt];
      [now rewrite Hfirst|].
    unfold Solve_walk.
    destruct (Qltb_spec (area - (GetT first - u0) / GetVal first) 0); [lra|].
    rewrite Solve_forward_constant; auto; try lia; try lra.
    + rewrite Hfirst. field. lra.
    + intros Hlen. apply (StrictlyAscending_lt (mEnv e) 0 1); auto.
  - destruct (Qleb_spec (GetT last) u0) as [Hafter|Hinside].
    + destruct (Qltb_spec area 0) as [Hneg|Hpos]; [|now rewrite Hlast].
      destruct (Qleb_spec ((GetT last - u0) / GetVal last) area) as [Hle|Hgt];
        [now rewrite Hlast|].
      unfold Solve_walk.
      destruct (Qltb_spec (area - (GetT last - u0) / GetVal last) 0); [|lra].
      rewrite Solve_backward_constant; auto; try lia; try lra.
      * rewrite Hlast. field. lra.
      * intros Hk. subst last.
        apply Ascending_le; [now apply StrictlyAscending_Ascending | lia | lia].
    + destruct (bracket_found u0 ltac:(subst first; lra) ltac:(subst last; lra))
        as [i [Hi [Hlen [Hlo [Hhi E]]]]].
      destruct (BinarySearchForTime (mEnv e) (mSearchGuess e) u0) as [[lo hi] g].
      cbn [fst] in E. apply pair_equal_spec in E. destruct E as [-> ->].
      unfold atZ. rewrite !Nat2Z.id. rewrite linear.
      assert (Hval : InterpolatePoints log exp (GetVal (at_ (mEnv e) (i - 1)))
                       (GetVal (at_ (mEnv e) i))
                       ((u0 - GetT (at_ (mEnv e) (i - 1))) /
                        (GetT (at_ (mEnv e) i) - GetT (at_ (mEnv e) (i - 1))))
                       false == v).
      { apply InterpolatePoints_constant; apply values_v; lia. }
      unfold Solve_walk.
      replace (Z.to_nat (Z.of_nat (i - 1) + 1)) with i by lia.
      destruct (Qltb_spec area 0) as [Hneg|Hpos].
      * rewrite Solve_backward_constant; auto; try lia. reflexivity.
      * rewrite Solve_forward_constant; auto; try lia; try lra.
Qed.

End Constant.

(** X22. On an envelope that is constant (Linear mode, strictly ascending
    points, the default value and every stored value equal to one positive
    [v]), with a [log] that vanishes at [1]: the integral of the inverse over
    a span is the length of the span divided by [v], its average is [1 / v],
    the solver adds the area times [v], and so the solver undoes the integral. *)
Theorem SolveIntegralOfInverse_undoes_IntegralOfInverse
  (log10 pow10 log exp log1p expm1 : Q -> Q) (e : Envelope) (v t0 t1 : Q) :
  mDB e = false -> StrictlyAscending (mEnv e) ->
  (forall x, x == 1 -> log x == 0) ->
  0 < v -> mDefaultValue e == v ->
  (forall p, In p (mEnv e) -> GetVal p == v) ->
  IntegralOfInverse log exp e t0 t1 == (t1 - t0) / v /\
  AverageOfInverse log10 pow10 log exp e t0 t1 == 1 / v /\
  (forall area,
     SolveIntegralOfInverse log exp log1p expm1 e t0 area == t0 + area * v) /\
  SolveIntegralOfInverse log exp log1p expm1 e t0
    (IntegralOfInverse log exp e t0 t1) == t1.
Proof.
  intros Hlin Hs Hlog Hv Hd Hin.
  assert (Hat : forall k, (k < length (mEnv e))%nat ->
                          GetVal (at_ (mEnv e) k) == v).
  { intros k Hk. apply Hin. now apply at_In. }
  pose proof (IntegralOfInverse_constant log exp e v Hlin Hs Hlog Hv Hd Hat t0 t1)
    as HI.
  pose proof (SolveIntegralOfInverse_constant log exp log1p expm1 e v
                Hlin Hs Hlog Hv Hd Hat t0) as HS.
  split; [exact HI|].
  split; [exact (AverageOfInverse_constant log10 pow10 log exp e v
                   Hlin Hs Hlog Hv Hd Hat t0 t1)|].
  split; [exact HS|].
  rewrite HS, HI. field. lra.
Qed.

Lemma SolveIntegralOfInverse_undoes_IntegralOfInverse_witness :
  SolveIntegralOfInverse (fun _ => 0) (fun x => x) (fun x => x) (fun x => x)
    (mkEnvelope false 0 10 2 [mkEnvPoint 0 2; mkEnvPoint 5 2; mkEnvPoint 10 2]
       0 10 (1 # 200000) (-1) false (-1)) 1
    (IntegralOfInverse (fun _ => 0) (fun x => x)
       (mkEnvelope false 0 10 2 [mkEnvPoint 0 2; mkEnvPoint 5 2; mkEnvPoint 10 2]
          0 10 (1 # 200000) (-1) false (-1)) 1 8) == 8.
Proof.
  destruct (SolveIntegralOfInverse_undoes_IntegralOfInverse
              (fun x => x) (fun x => x)
              (fun _ => 0) (fun x => x) (fun x => x) (fun x => x)
              (mkEnvelope false 0 10 2
                 [mkEnvPoint 0 2; mkEnvPoint 5 2; mkEnvPoint 10 2]
                 0 10 (1 # 200000) (-1) false (-1)) 2 1 8 eq_refl
              ltac:(repeat constructor)) as [_ [_ [_ H]]].
  - intros x _. reflexivity.
  - reflexivity.
  - reflexivity.
  - intros p [<-|[<-|[<-|[]]]]; reflexivity.
  - exact H.
Defined.

(** ** Pasting at the end of the span *)

Lemma Paste_scan_onPoint (l : list EnvPoint) (t : Q) :
  forall (i : nat) (someToShift : bool) (pos : nat) (onPoint : bool),
    (onPoint = true \/
     exists p, In p l /\ ~ t < GetT p /\ Qabs (GetT p - t) - 1 / 500000 < 0) ->
    snd (Paste_scan l t i someToShift pos onPoint) = true.
Proof.
  induction l as [|q l IH]; intros i someToShift pos onPoint H; cbn [Paste_scan].
  - destruct H as [H|[p [[] _]]]. exact H.
  - destruct (Qltb_spec t (GetT q)) as [Hlt|Hge].
    + apply IH. destruct H as [H|[p [[<-|Hp] [H1 H2]]]].
      * now left.
      * contradiction.
      * right. exists p. auto.
    + apply IH. destruct H as [H|[p [[<-|Hp] [H1 H2]]]].
      * left. rewrite H. now destruct (Qltb _ 0).
      * left. destruct (Qltb_spec (Qabs (GetT q - t) - 1 / 500000) 0);
          [reflexivity | contradiction].
      * right. exists p. auto.
Qed.

Lemma InsertOrReplaceRelative_refuses (e : Envelope) (when value : Q) :
  mEnv e <> [] -> when < 0 -> snd (InsertOrReplaceRelative e when value) = e.
Proof.
  intros Hne Hlt. unfold InsertOrReplaceRelative. cbv zeta.
  destruct (mEnv e) as [|p l]; [contradiction|]. cbn [length Nat.eqb negb andb].
  destruct (Qltb_spec when 0); [reflexivity | contradiction].
Qed.

(** A first point at a negative time stays the first point, as it is. *)
Lemma InsertOrReplaceRelative_keeps_first (e : Envelope) (when value : Q) :
  mEnv e <> [] -> GetT (at_ (mEnv e) 0) < 0 ->
  let e' := snd (InsertOrReplaceRelative e when value) in
  mEnv e' <> [] /\ at_ (mEnv e') 0 = at_ (mEnv e) 0.
Proof.
  intros Hne Hneg e'. subst e'.
  destruct (Qlt_le_dec when 0) as [Hw|Hw].
  { rewrite InsertOrReplaceRelative_refuses by assumption. now split. }
  destruct (Nat.lt_ge_cases 1 (length (mEnv e))) as [Hlen|Hlen].
  - destruct (Qlt_le_dec (mTrackLen e) when) as [HT|HT].
    { rewrite InsertOrReplaceRelative_rejects by assumption. now split. }
    rewrite InsertOrReplaceRelative_accepts by auto. cbv zeta.
    assert (Hi : (1 <= scan_past when (mEnv e) 0)%nat).
    { apply scan_past_from; [lia|]. intros j Hj.
      replace j with 0%nat by lia. lra. }
    set (i := scan_past when (mEnv e) 0) in *.
    pose proof (scan_past_le when (mEnv e)) as Hile. fold i in Hile.
    destruct ((i <? length (mEnv e))%nat && Qeqb when (GetT (at_ (mEnv e) i)));
      cbn [snd mEnv with_mEnv].
    + split.
      * intros E. apply (f_equal (@length EnvPoint)) in E.
        rewrite update_length in E. simpl in E. lia.
      * apply update_other. lia.
    + split.
      * intros E. apply (f_equal (@length EnvPoint)) in E.
        rewrite insert_length in E. simpl in E. lia.
      * rewrite insert_at_any by exact Hile.
        now rewrite (proj2 (Nat.ltb_lt 0 i)) by lia.
  - rewrite InsertOrReplaceRelative_accepts by auto. cbv zeta.
    assert (Hi : (1 <= scan_past when (mEnv e) 0)%nat).
    { apply scan_past_from.
      - destruct (mEnv e); [contradiction | simpl; lia].
      - intros j Hj. replace j with 0%nat by lia. lra. }
    set (i := scan_past when (mEnv e) 0) in *.
    pose proof (scan_past_le when (mEnv e)) as Hile. fold i in Hile.
    destruct ((i <? length (mEnv e))%nat && Qeqb when (GetT (at_ (mEnv e) i)));
      cbn [snd mEnv with_mEnv].
    + split.
      * intros E. apply (f_equal (@length EnvPoint)) in E.
        rewrite update_length in E. destruct (mEnv e); [contradiction | discriminate].
      * apply update_other. lia.
    + split.
      * intros E. apply (f_equal (@length EnvPoint)) in E.
        rewrite insert_length in E. discriminate.
      * rewrite insert_at_any by exact Hile.
        now rewrite (proj2 (Nat.ltb_lt 0 i)) by lia.
Qed.

Lemma Paste_points_keeps_first (pts : list EnvPoint) :
  forall (e : Envelope) (t0 : Q),
    mEnv e <> [] -> GetT (at_ (mEnv e) 0) < 0 ->
    at_ (mEnv (Paste_points e t0 pts)) 0 = at_ (mEnv e) 0.
Proof.
  induction pts as [|q pts IH]; intros e t0 Hne Hneg; cbn [Paste_points];
    [reflexivity|].
  destruct (InsertOrReplaceRelative_keeps_first e (t0 + GetT q) (GetVal q) Hne Hneg)
    as [Hne' E].
  rewrite IH; [exact E | exact Hne' | now rewrite E].
Qed.

Section PasteAtEnd.

Variable log10 : Q -> Q.
Variable pow10 : Q -> Q.

(** X23. Case 2 of [Paste], the insertion at the end of the span on a control
    point: the point that is moved back by [mTrackEpsilon] is the first
    point of the envelope ([mEnv[0]]), not the one at the end.  When the
    first point was less than [mTrackEpsilon] from time [0], it is left
    at a negative time and is still the first point when [Paste]
    returns. *)
Theorem Paste_at_end_moves_first_point (this e : Envelope) (t0 : Q) :
  let t := wxMin (t0 - mOffset this) (mTrackLen this) in
  let eps := mTrackEpsilon this in
  mEnv this <> [] -> 0 < eps ->
  GetT (at_ (mEnv this) 0) < eps ->
  eps <= t -> mTrackLen this - t < eps ->
  (exists p, In p (mEnv this) /\ ~ t < GetT p /\
             Qabs (GetT p - t) - 1 / 500000 < 0) ->
  at_ (mEnv (Paste log10 pow10 this t0 e)) 0 =
  mkEnvPoint (GetT (at_ (mEnv this) 0) - eps) (GetVal (at_ (mEnv this) 0)).
Proof.
  intros t eps Hne Heps Hfirst Hstart Hend Hon.
  assert (Hlen0 : (length (mEnv this) =? 0)%nat = false).
  { destruct (mEnv this); [contradiction | reflexivity]. }
  unfold Paste, evalRelative. cbv zeta.
  rewrite Hlen0. cbn [negb andb]. rewrite Bool.andb_false_r. cbn [andb].
  fold t.
  set (this1 := with_mSearchGuess this _).
  change (mEnv this1) with (mEnv this).
  pose proof (Paste_scan_onPoint (mEnv this) t 0 false 0 false (or_intror Hon))
    as Hscan.
  destruct (Paste_scan (mEnv this) t 0 false 0 false) as [[sts pos] onPoint].
  cbn [snd] in Hscan. subst onPoint.
  change (mTrackEpsilon this1) with eps.
  change (mTrackLen this1) with (mTrackLen this).
  destruct (Qltb_spec t eps) as [H|_]; [lra|].
  destruct (Qltb_spec (mTrackLen this - t) eps) as [_|H]; [|lra].
  set (moved := update (mEnv this) 0 (fun p => SetT p (GetT p - eps))).
  assert (Hlen : (0 < length (mEnv this))%nat).
  { apply Nat.eqb_neq in Hlen0. lia. }
  assert (Em : at_ moved 0 =
               mkEnvPoint (GetT (at_ (mEnv this) 0) - eps)
                          (GetVal (at_ (mEnv this) 0))).
  { unfold moved. now rewrite update_at. }
  assert (Hlm : length moved = length (mEnv this)) by apply update_length.
  set (this2 := with_mEnv this1 moved).
  set (this3 := if sts
                then with_mEnv this2 (shift_after (mEnv this2) t (mTrackLen e))
                else this2).
  assert (H3 : mEnv this3 <> [] /\ at_ (mEnv this3) 0 = at_ moved 0).
  { subst this3. destruct sts; cbn [mEnv with_mEnv this2].
    - split.
      + intros E. apply (f_equal (@length EnvPoint)) in E.
        unfold shift_after in E. rewrite length_map, Hlm in E. simpl in E. lia.
      + unfold shift_after. rewrite map_at by lia. rewrite Em. cbn [GetT].
        destruct (Qltb_spec t (GetT (at_ (mEnv this) 0) - eps)); [lra | reflexivity].
    - split; [|reflexivity].
      intros E. apply (f_equal (@length EnvPoint)) in E. rewrite Hlm in E.
      simpl in E. lia. }
  destruct H3 as [Hne3 E3].
  set (this4 := with_mTrackLen this3 (mTrackLen this3 + mTrackLen e)).
  assert (Hneg : GetT (at_ (mEnv this4) 0) < 0).
  { change (mEnv this4) with (mEnv this3). rewrite E3, Em. cbn [GetT]. lra. }
  assert (Hne4 : mEnv this4 <> []) by exact Hne3.
  set (leftval := GetValue log10 pow10 e (0 + mOffset e)).
  set (rightval := GetValue log10 pow10 e (mTrackLen e + mOffset e)).
  destruct (InsertOrReplaceRelative_keeps_first this4 t leftval Hne4 Hneg)
    as [Hne5 E5].
  set (this5 := snd (InsertOrReplaceRelative this4 t leftval)) in *.
  assert (Hneg5 : GetT (at_ (mEnv this5) 0) < 0) by now rewrite E5.
  destruct (InsertOrReplaceRelative_keeps_first this5 (t + mTrackLen e) rightval
              Hne5 Hneg5) as [Hne6 E6].
  set (this6 := snd (InsertOrReplaceRelative this5 (t + mTrackLen e) rightval)) in *.
  rewrite Paste_points_keeps_first; [|exact Hne6 | now rewrite E6].
  rewrite E6, E5. change (mEnv this4) with (mEnv this3). now rewrite E3, Em.
Qed.

End PasteAtEnd.

Lemma Paste_at_end_moves_first_point_witness :
  at_ (mEnv (Paste (fun x => x) (fun x => x) (sample_envelope three_points) 10
               (sample_envelope triangle))) 0 =
  mkEnvPoint (0 - (1 # 200000)) 1.
Proof.
  apply (Paste_at_end_moves_first_point (fun x => x) (fun x => x)
           (sample_envelope three_points) (sample_envelope triangle) 10).
  - discriminate.
  - vm_compute. reflexivity.
  - vm_compute. reflexivity.
  - vm_compute. discriminate.
  - vm_compute. reflexivity.
  - exists (mkEnvPoint 10 3). split; [simpl; auto|]. split.
    + vm_compute. discriminate.
    + vm_compute. reflexivity.
Defined.
(** * The order of the points under every operation *)

Lemma firstn_StrictlyAscending (l : list EnvPoint) (n : nat) :
  StrictlyAscending l -> StrictlyAscending (firstn n l).
Proof.
  intros Hs. apply StrictlyAscending_adjacent. intros j Hj.
  rewrite length_firstn in Hj. rewrite !firstn_at by lia.
  apply (proj1 (StrictlyAscending_adjacent _) Hs). lia.
Qed.

(** A point written at a time between its neighbours' keeps the order. *)
Lemma update_time_Ascending (l : list EnvPoint) (i : nat) (tt : Q) f :
  Ascending l ->
  ((i < length l)%nat ->
   GetT (f (at_ l i)) = tt /\
   ((0 < i)%nat -> GetT (at_ l (i - 1)) <= tt) /\
   ((S i < length l)%nat -> tt <= GetT (at_ l (S i)))) ->
  Ascending (update l i f).
Proof.
  intros Hs H. apply Ascending_adjacent. intros j Hj.
  rewrite update_length in Hj.
  pose proof (proj1 (Ascending_adjacent _) Hs j Hj) as Hadj.
  destruct (Nat.eq_dec i j) as [->|Hij].
  - destruct (H ltac:(lia)) as [Hf [_ Hhi]].
    rewrite update_at by lia. rewrite update_other by lia.
    rewrite Hf. apply Hhi. lia.
  - rewrite (update_other l i j) by exact Hij.
    destruct (Nat.eq_dec i (S j)) as [->|Hij'].
    + destruct (H ltac:(lia)) as [Hf [Hlo _]].
      rewrite update_at by lia. rewrite Hf.
      specialize (Hlo ltac:(lia)).
      replace (S j - 1)%nat with j in Hlo by lia. exact Hlo.
    + rewrite update_other by exact Hij'. exact Hadj.
Qed.

(** A point inserted at the place of its time keeps the order. *)
Lemma insert_between_Ascending (l : list EnvPoint) (i : nat) (p : EnvPoint) :
  Ascending l -> (i <= length l)%nat ->
  ((0 < i)%nat -> GetT (at_ l (i - 1)) <= GetT p) ->
  ((i < length l)%nat -> GetT p <= GetT (at_ l i)) ->
  Ascending (firstn i l ++ p :: skipn i l).
Proof.
  intros Hs Hi Hlo Hhi. apply Ascending_adjacent. intros j Hj.
  rewrite insert_length in Hj. rewrite !insert_at_any by exact Hi.
  destruct (Nat.ltb_spec j i) as [Hji|Hji].
  - destruct (Nat.ltb_spec (S j) i) as [Hsi|Hsi].
    + apply (proj1 (Ascending_adjacent _) Hs). lia.
    + destruct (Nat.eqb_spec (S j) i) as [E|E]; [|lia].
      specialize (Hlo ltac:(lia)).
      replace (i - 1)%nat with j in Hlo by lia. exact Hlo.
  - destruct (Nat.eqb_spec j i) as [E|E].
    + subst j. destruct (Nat.ltb_spec (S i) i); [lia|].
      destruct (Nat.eqb_spec (S i) i); [lia|].
      replace (S i - 1)%nat with i by lia. apply Hhi. lia.
    + destruct (Nat.ltb_spec (S j) i); [lia|].
      destruct (Nat.eqb_spec (S j) i); [lia|].
      replace (S j - 1)%nat with (S (j - 1)) by lia.
      apply (proj1 (Ascending_adjacent _) Hs). lia.
Qed.

Lemma shift_after_Ascending (l : list EnvPoint) (t0 d : Q) :
  0 <= d -> Ascending l -> Ascending (shift_after l t0 d).
Proof.
  intros Hd Hs. apply Ascending_adjacent. intros j Hj.
  unfold shift_after in *. rewrite length_map in Hj.
  rewrite !map_at by lia.
  pose proof (proj1 (Ascending_adjacent _) Hs j Hj) as Hadj.
  destruct (Qltb_spec t0 (GetT (at_ l j))),
           (Qltb_spec t0 (GetT (at_ l (S j)))); cbn [GetT SetT]; lra.
Qed.

(** ** The span *)

Lemma RescaleTimes_Ascending (e : Envelope) (newLength : Q) :
  0 <= mTrackLen e -> 0 <= newLength ->
  Ascending (mEnv e) -> Ascending (mEnv (RescaleTimes e newLength)).
Proof.
  intros Hlen Hnew Hs. unfold RescaleTimes. cbv zeta.
  cbn [mEnv with_mTrackLen with_mEnv].
  apply Ascending_adjacent. intros j Hj.
  pose proof (proj1 (Ascending_adjacent _) Hs j) as Hadj.
  destruct (Qeqb_spec (mTrackLen e) 0) as [Ez|Ez];
    rewrite length_map in Hj; rewrite !map_at by lia; cbn [GetT SetT].
  - lra.
  - assert (Hr : 0 <= newLength / mTrackLen e).
    { apply Qle_shift_div_l; lra. }
    specialize (Hadj Hj). nra.
Qed.

Section OrderKept.

Variable log10 : Q -> Q.
Variable pow10 : Q -> Q.
Variable init : Envelope.

(** With a span that does not shrink [SetTrackLen] appends nothing. *)
Lemma SetTrackLen_StrictlyAscending (e : Envelope) (trackLen : Q) :
  mTrackLen e <= trackLen -> StrictlyAscending (mEnv e) ->
  StrictlyAscending (mEnv (SetTrackLen log10 pow10 e trackLen)).
Proof.
  intros Hlen Hs. unfold SetTrackLen. cbv zeta.
  destruct (Qltb_spec trackLen (mTrackLen e)) as [H|_]; [lra|].
  destruct (EqualRange_keeps (with_mTrackLen e trackLen) trackLen) as [Hn _].
  cbn [mEnv with_mEnv with_mTrackLen] in *.
  rewrite resize_shrinks by exact Hn.
  now apply firstn_StrictlyAscending.
Qed.

(** ** InsertSpace and RemoveUnneededPoints

    Both change the vector through [InsertOrReplaceRelative] and through
    a shift or an erasure only, so they keep what these keep. *)
Lemma InsertSpace_keeps (P : list EnvPoint -> Prop) (tlen : Q) :
  (forall e w v, P (mEnv e) -> P (mEnv (snd (InsertOrReplaceRelative e w v)))) ->
  (forall l k, P l -> P (shift_from l k tlen)) ->
  forall e t0, P (mEnv e) -> P (mEnv (InsertSpace log10 pow10 e t0 tlen)).
Proof.
  intros Hins Hshift e t0 Hp. unfold InsertSpace, evalRelative. cbv zeta.
  set (t := t0 - mOffset e).
  set (val := GetValueRelative log10 pow10 e t).
  set (e1 := with_mSearchGuess e _).
  assert (Hp1 : P (mEnv e1)) by exact Hp.
  set (range := EqualRange e1 t 0).
  assert (Hr : forall r : nat * Envelope,
            r = (if (fst range <? snd range)%nat then ((1 + fst range)%nat, e1)
                 else let '(i, e') := InsertOrReplaceRelative e1 t val in
                      (Z.to_nat (1 + i), e')) ->
            P (mEnv (snd r))).
  { intros r ->. destruct (fst range <? snd range)%nat; [exact Hp1|].
    specialize (Hins e1 t val Hp1).
    now destruct (InsertOrReplaceRelative e1 t val). }
  specialize (Hr _ eq_refl).
  destruct (if (fst range <? snd range)%nat then ((1 + fst range)%nat, e1)
            else let '(i, e') := InsertOrReplaceRelative e1 t val in
                 (Z.to_nat (1 + i), e')) as [index e2].
  cbn [snd] in Hr.
  destruct (1 + fst range <? snd range)%nat.
  - cbn [mEnv with_mTrackLen with_mEnv]. now apply Hshift.
  - apply Hins. cbn [mEnv with_mTrackLen with_mEnv]. now apply Hshift.
Qed.

Lemma RemoveUnneededPoints_loop_keeps_order (P : list EnvPoint -> Prop)
  (time tolerence : Q) :
  (forall e w v, P (mEnv e) -> P (mEnv (snd (InsertOrReplaceRelative e w v)))) ->
  (forall l k, P l -> P (erase l k)) ->
  forall fuel e i len,
    P (mEnv e) ->
    P (mEnv (RemoveUnneededPoints_loop log10 pow10 fuel e time tolerence i len)).
Proof.
  intros Hins Herase. induction fuel as [|fuel IH]; intros e i len Hp;
    [exact Hp|].
  cbn [RemoveUnneededPoints_loop].
  destruct (i <? len)%nat; [|exact Hp].
  cbv zeta.
  destruct (Qleb 0 time && Qltb (25 # 100000) _); [now apply IH|].
  set (e1 := Delete e i).
  assert (Hp1 : P (mEnv e1)) by (apply Herase; exact Hp).
  set (e2 := with_mSearchGuess e1 _).
  assert (Hp2 : P (mEnv e2)) by exact Hp1.
  destruct (Qltb tolerence _).
  - pose proof (Hins e2 (GetT (at_ (mEnv e) i)) (GetVal (at_ (mEnv e) i)) Hp2).
    destruct (_ <? len)%nat; now apply IH.
  - now apply IH.
Qed.

Lemma RemoveUnneededPoints_keeps (P : list EnvPoint -> Prop)
  (time tolerence : Q) :
  (forall e w v, P (mEnv e) -> P (mEnv (snd (InsertOrReplaceRelative e w v)))) ->
  (forall l k, P l -> P (erase l k)) ->
  forall e, P (mEnv e) ->
    P (mEnv (RemoveUnneededPoints log10 pow10 e time tolerence)).
Proof.
  intros Hins Herase e Hp. unfold RemoveUnneededPoints. cbv zeta.
  destruct (length (mEnv e) =? 0)%nat; [exact Hp|].
  now apply RemoveUnneededPoints_loop_keeps_order.
Qed.

(** ** The drag gesture *)

Lemma SetDragPointValid_Ascending (e : Envelope) (valid : bool) :
  drag_index_valid e ->
  (valid = false -> forall p, In p (mEnv e) -> GetT p <= big) ->
  Ascending (mEnv e) -> Ascending (mEnv (SetDragPointValid e valid)).
Proof.
  intros Hd Hbig Hs. unfold SetDragPointValid. cbv zeta.
  cbn [mDragPoint with_drag mEnv mDefaultValue].
  destruct (Z.leb_spec 0 (mDragPoint e)) as [Hpos|Hneg]; [|exact Hs].
  destruct valid; [exact Hs|]. cbn [andb negb].
  specialize (Hbig eq_refl).
  set (d := Z.to_nat (mDragPoint e)).
  assert (Hdl : (d < length (mEnv e))%nat).
  { unfold drag_index_valid in Hd. subst d. lia. }
  destruct (Nat.leb_spec (length (mEnv e)) 1) as [H1|H1];
    [|destruct (Nat.eqb_spec (d + 1) (length (mEnv e))) as [Hlast|Hmid]];
    cbn [mEnv with_mEnv].
  - apply update_time_Ascending with (tt := big); auto.
    intros _. split; [reflexivity|]. split; intros H; lia.
  - apply update_time_Ascending with (tt := big); auto.
    intros _. split; [reflexivity|]. split; intros H; [|lia].
    apply Hbig. apply at_In. lia.
  - apply update_time_Ascending with (tt := GetT (at_ (mEnv e) (d + 1))); auto.
    intros _. split; [reflexivity|]. split; intros H.
    + apply Ascending_le; auto; lia.
    + replace (d + 1)%nat with (S d) by lia. lra.
Qed.

Lemma MoveDragPoint_Ascending (e : Envelope) (newWhen value : Q) :
  drag_index_valid e ->
  (forall p, In p (mEnv e) -> 0 <= GetT p) ->
  Ascending (mEnv e) -> Ascending (mEnv (MoveDragPoint e newWhen value)).
Proof.
  intros Hd H0 Hs.
  destruct (Z.lt_ge_cases (mDragPoint e) 0) as [Hneg|Hpos].
  { unfold MoveDragPoint, SetDragPointValid. cbv zeta.
    cbn [mDragPoint mDragPointValid with_drag mEnv andb negb].
    destruct (Z.leb_spec 0 (mDragPoint e)) as [H|_]; [lia|]. exact Hs. }
  rewrite MoveDragPoint_engaged by exact Hpos. cbn [mEnv with_mEnv].
  set (i := Z.to_nat (mDragPoint e)).
  set (tt := std_max (drag_limitLo e) (std_min (drag_limitHi e) newWhen)).
  apply update_time_Ascending with (tt := tt); auto.
  intros Hi. split; [reflexivity|].
  assert (Hlo : 0 <= drag_limitLo e /\
                ((0 < i)%nat -> GetT (at_ (mEnv e) (i - 1)) <= drag_limitLo e) /\
                ((0 < i)%nat ->
                 drag_limitLo e <= 0 \/
                 drag_limitLo e <= GetT (at_ (mEnv e) (i - 1)))).
  { unfold drag_limitLo. destruct (Z.ltb_spec 0 (mDragPoint e)) as [Hp|Hz].
    - assert (Ei : atZ (mEnv e) (mDragPoint e - 1) = at_ (mEnv e) (i - 1)).
      { unfold atZ. f_equal. subst i. lia. }
      rewrite Ei.
      destruct (std_max_spec 0 (GetT (at_ (mEnv e) (i - 1)))) as [[H1 ->]|[H1 ->]].
      + split; [lra|]. split; intros _; [lra | right; lra].
      + split; [lra|]. split; intros _; [lra | left; lra].
    - split; [lra|]. split; intros Hi0; subst i; lia. }
  destruct Hlo as [Hlo0 [Hlo1 Hlo2]].
  assert (Hhi : (S i < length (mEnv e))%nat ->
                drag_limitHi e <= GetT (at_ (mEnv e) (S i))).
  { intros Hn. unfold drag_limitHi.
    destruct (Z.ltb_spec (mDragPoint e + 1) (Z.of_nat (length (mEnv e))))
      as [_|Hge]; [|subst i; lia].
    assert (Ei : atZ (mEnv e) (mDragPoint e + 1) = at_ (mEnv e) (S i)).
    { unfold atZ. f_equal. subst i. lia. }
    rewrite Ei. unfold std_min. qcase; lra. }
  split.
  - intros Hi0. specialize (Hlo1 Hi0). subst tt. unfold std_max. qcase; lra.
  - intros Hn. specialize (Hhi Hn).
    assert (Hnext : 0 <= GetT (at_ (mEnv e) (S i))).
    { apply H0. now apply at_In. }
    assert (Hlow : drag_limitLo e <= GetT (at_ (mEnv e) (S i))).
    { destruct (Nat.eq_dec i 0) as [Ei0|Ei0].
      - unfold drag_limitLo.
        destruct (Z.ltb_spec 0 (mDragPoint e)) as [Hp|_]; [subst i; lia|].
        exact Hnext.
      - destruct (Hlo2 ltac:(lia)) as [H|H]; [lra|].
        pose proof (Ascending_le (mEnv e) (i - 1) (S i) Hs ltac:(lia) Hn). lra. }
    subst tt. unfold std_max, std_min. repeat qcase; lra.
Qed.

Lemma ClearDragPoint_keeps (P : list EnvPoint -> Prop) (e : Envelope) :
  (forall l k, P l -> P (erase l k)) ->
  P (mEnv e) -> P (mEnv (ClearDragPoint e)).
Proof.
  intros Herase Hp. unfold ClearDragPoint. cbv zeta.
  destruct (negb (mDragPointValid e) && (0 <=? mDragPoint e)%Z);
    cbn [mEnv with_drag Delete with_mEnv]; auto.
Qed.

(** ** Paste *)

Lemma Paste_points_keeps (P : list EnvPoint -> Prop) (t0 : Q) :
  (forall e w v, P (mEnv e) -> P (mEnv (snd (InsertOrReplaceRelative e w v)))) ->
  forall pts e, P (mEnv e) -> P (mEnv (Paste_points e t0 pts)).
Proof.
  intros Hins. induction pts as [|p pts IH]; intros e Hp; [exact Hp|].
  cbn [Paste_points]. apply IH. now apply Hins.
Qed.

(** A point moved by [eps] towards a neighbour that is [eps] away or
    further. *)
Lemma nudge_Ascending (l : list EnvPoint) (i : nat) (eps : Q) :
  0 <= eps -> Spaced eps l -> Ascending l ->
  Ascending (update l i (fun p => SetT p (GetT p + eps))) /\
  Ascending (update l i (fun p => SetT p (GetT p - eps))).
Proof.
  intros Heps Hsp Hs. split.
  - apply update_time_Ascending with (tt := GetT (at_ l i) + eps); auto.
    intros Hi. split; [reflexivity|]. split; intros H.
    + pose proof (Ascending_le l (i - 1) i Hs ltac:(lia) Hi). lra.
    + now apply Hsp.
  - apply update_time_Ascending with (tt := GetT (at_ l i) - eps); auto.
    intros Hi. split; [reflexivity|]. split; intros H.
    + destruct (Hsp (i - 1)%nat ltac:(lia)) as [_ Hp].
      replace (S (i - 1)) with i in Hp by lia. exact Hp.
    + pose proof (Ascending_le l i (S i) Hs ltac:(lia) H). lra.
Qed.

(** [Paste] moves the first point, or the last point not after the place
    of the splice, by [mTrackEpsilon]; shifts the points after that place
    by the span of the pasted envelope; and inserts through
    [InsertOrReplaceRelative]. *)
Lemma Paste_Ascending (this : Envelope) (t0 : Q) (e : Envelope) :
  0 <= mTrackLen e -> 0 <= mTrackEpsilon this ->
  Spaced (mTrackEpsilon this) (mEnv this) ->
  Ascending (mEnv this) -> Ascending (mEnv (Paste log10 pow10 this t0 e)).
Proof.
  intros Hdt Heps Hsp Hs. unfold Paste, evalRelative. cbv zeta.
  destruct (_ && _ && _); [exact Hs|].
  apply Paste_points_keeps; [apply InsertOrReplaceRelative_Ascending|].
  set (t := wxMin (t0 - mOffset this) (mTrackLen this)).
  set (this1 := with_mSearchGuess this _).
  set (splitval := GetValueRelative log10 pow10 this _).
  assert (Hs1 : Ascending (mEnv this1)) by exact Hs.
  destruct (nudge_Ascending (mEnv this1) 0 (mTrackEpsilon this1) Heps Hsp Hs1)
    as [Hright Hleft].
  destruct (length (mEnv this) =? 0)%nat; cbn [negb].
  { destruct (Qeqb (mTrackLen this1) 0); exact Hs. }
  do 2 apply InsertOrReplaceRelative_Ascending.
  destruct (Paste_scan (mEnv this1) t 0 false 0 false) as [[someToShift pos] onPoint].
  destruct (nudge_Ascending (mEnv this1) pos (mTrackEpsilon this1) Heps Hsp Hs1)
    as [_ Hpos].
  assert (Hshift : forall (x : Envelope) (b : bool),
            Ascending (mEnv x) ->
            Ascending
              (mEnv (with_mTrackLen
                       (if b then with_mEnv x (shift_after (mEnv x) t (mTrackLen e))
                        else x)
                       (mTrackLen
                          (if b
                           then with_mEnv x (shift_after (mEnv x) t (mTrackLen e))
                           else x) + mTrackLen e)))).
  { intros x b Hx. destruct b; cbn [mEnv with_mTrackLen with_mEnv]; auto.
    now apply shift_after_Ascending. }
  destruct (Qltb t (mTrackEpsilon this1)); [destruct onPoint|
    destruct (Qltb _ (mTrackEpsilon this1)); [destruct onPoint|
      destruct onPoint; [|destruct (_ && _)]]];
    cbv beta iota;
    first [apply (Hshift _ someToShift) | apply (Hshift _ true)];
    cbn [mEnv with_mEnv];
    repeat apply InsertOrReplaceRelative_Ascending; cbn [mEnv with_mEnv]; auto.
Qed.

(** ** Every operation *)

Lemma run_Ascending (e : Envelope) (m : Mutator) :
  Ascending (mEnv e) -> admissible e m ->
  Ascending (mEnv (run log10 pow10 init e m)).
Proof.
  intros Hs Hadm. destruct m; cbn [run admissible] in *.
  - now apply InsertOrReplaceRelative_Ascending.
  - now apply erase_Ascending.
  - destruct Hadm as [H1 [H2 H3]]. now apply insert_between_Ascending.
  - eapply Ascending_times; [|exact Hs]. symmetry. apply Reassign_times.
  - eapply Ascending_times; [|exact Hs]. symmetry. apply SetRange_times.
  - eapply Ascending_times; [|exact Hs]. symmetry. apply RescaleValues_times.
  - constructor.
  - exact Hs.
  - now apply SetTrackLen_Ascending.
  - destruct Hadm. now apply RescaleTimes_Ascending.
  - apply (InsertSpace_keeps Ascending tlen); auto.
    + apply InsertOrReplaceRelative_Ascending.
    + intros l k. now apply shift_from_Ascending.
  - destruct Hadm as [Hab _].
    now destruct (CollapseRegion_facts log10 pow10 e t0 t1 sampleTime Hs Hab)
      as [_ [_ [H _]]].
  - destruct Hadm as [H1 [H2 H3]]. now apply Paste_Ascending.
  - apply (RemoveUnneededPoints_keeps Ascending); auto.
    + apply InsertOrReplaceRelative_Ascending.
    + apply erase_Ascending.
  - destruct (copy_facts log10 pow10 init e) as [_ [H _]]. now apply H.
  - destruct Hadm as [Hspan _].
    now destruct (copy_between_facts log10 pow10 init e t0 t1 Hs Hspan)
      as [_ [_ [H _]]].
  - exact Hs.
  - destruct Hadm. now apply SetDragPointValid_Ascending.
  - destruct Hadm. now apply MoveDragPoint_Ascending.
  - apply (ClearDragPoint_keeps Ascending); auto. apply erase_Ascending.
Qed.

Lemma run_StrictlyAscending (e : Envelope) (m : Mutator) :
  StrictlyAscending (mEnv e) -> admissible e m -> keeps_apart e m ->
  StrictlyAscending (mEnv (run log10 pow10 init e m)).
Proof.
  intros Hs Hadm Hk. destruct m; cbn [run admissible keeps_apart] in *;
    try contradiction.
  - now apply InsertOrReplaceRelative_StrictlyAscending.
  - now apply erase_StrictlyAscending.
  - eapply StrictlyAscending_times; [|exact Hs]. symmetry. apply Reassign_times.
  - eapply StrictlyAscending_times; [|exact Hs]. symmetry. apply SetRange_times.
  - eapply StrictlyAscending_times; [|exact Hs]. symmetry.
    apply RescaleValues_times.
  - constructor.
  - exact Hs.
  - now apply SetTrackLen_StrictlyAscending.
  - apply (RemoveUnneededPoints_keeps StrictlyAscending); auto.
    + apply InsertOrReplaceRelative_StrictlyAscending.
    + apply erase_StrictlyAscending.
  - destruct (copy_facts log10 pow10 init e) as [_ [_ H]].
    destruct (H (StrictlyAscending_AtMostTwice _ Hs)) as [Hlen Hat].
    apply StrictlyAscending_adjacent. intros j Hj. rewrite Hlen in Hj.
    destruct (Hat j ltac:(lia)) as [_ E1]. destruct (Hat (S j) Hj) as [_ E2].
    pose proof (proj1 (StrictlyAscending_adjacent _) Hs j Hj). lra.
  - exact Hs.
  - subst valid. unfold SetDragPointValid. cbv zeta.
    cbn [negb mDragPoint with_drag]. rewrite andb_false_r. exact Hs.
  - apply (ClearDragPoint_keeps StrictlyAscending); auto.
    apply erase_StrictlyAscending.
Qed.

Lemma run_AtMostTwice (e : Envelope) (m : Mutator) :
  Ascending (mEnv e) -> AtMostTwice (mEnv e) -> admissible e m ->
  keeps_pairs m = true ->
  AtMostTwice (mEnv (run log10 pow10 init e m)).
Proof.
  intros Hs Ht Hadm Hk. destruct m; cbn [run admissible keeps_pairs] in *;
    try discriminate.
  - now apply InsertOrReplaceRelative_AtMostTwice.
  - now apply erase_AtMostTwice.
  - eapply AtMostTwice_times; [|exact Ht]. symmetry. apply Reassign_times.
  - eapply AtMostTwice_times; [|exact Ht]. symmetry. apply SetRange_times.
  - eapply AtMostTwice_times; [|exact Ht]. symmetry. apply RescaleValues_times.
  - intros j Hj. simpl in Hj. lia.
  - exact Ht.
  - now apply SetTrackLen_AtMostTwice.
  - apply (RemoveUnneededPoints_keeps
             (fun l => Ascending l /\ AtMostTwice l)); auto.
    + intros e0 w v [H1 H2]. split.
      * now apply InsertOrReplaceRelative_Ascending.
      * now apply InsertOrReplaceRelative_AtMostTwice.
    + intros l k [H1 H2]. split.
      * now apply erase_Ascending.
      * now apply erase_AtMostTwice.
  - destruct (copy_facts log10 pow10 init e) as [_ [H _]]. now apply H.
  - destruct Hadm as [Hspan _].
    now destruct (copy_between_facts log10 pow10 init e t0 t1 Hs Hspan)
      as [_ [_ [_ [H _]]]].
  - exact Ht.
  - apply (ClearDragPoint_keeps (fun l => Ascending l /\ AtMostTwice l)); auto.
    intros l k [H1 H2]. split.
    + now apply erase_Ascending.
    + now apply erase_AtMostTwice.
Qed.


End OrderKept.



(** Shortening the span of a strictly ascending envelope to the time of
    one of its points leaves two points at that time. *)
Lemma SetTrackLen_leaves_two_points_at_one_time :
  let e := sample_envelope three_points in
  let e' := SetTrackLen (fun x => x) (fun x => x) e 5 in
  StrictlyAscending (mEnv e) /\
  mEnv e' = [mkEnvPoint 0 1; mkEnvPoint 5 2; mkEnvPoint 5 (10 # 5)] /\
  GetT (at_ (mEnv e') 1) = GetT (at_ (mEnv e') 2) /\
  ~ StrictlyAscending (mEnv e').
Proof.
  cbv zeta. split; [repeat constructor|]. split; [reflexivity|].
  split; [reflexivity|].
  intros H. apply StrictlyAscending_adjacent with (j := 1%nat) in H.
  - vm_compute in H. discriminate.
  - vm_compute. lia.
Qed.

(** Collapsing the region between two points leaves both, at one time. *)
Lemma CollapseRegion_leaves_two_points_at_one_time :
  let e := sample_envelope three_points in
  let e' := CollapseRegion (fun x => x) (fun x => x) e 5 10 0 in
  StrictlyAscending (mEnv e) /\
  mEnv e' = [mkEnvPoint 0 1; mkEnvPoint 5 2; mkEnvPoint 5 3] /\
  ~ StrictlyAscending (mEnv e').
Proof.
  cbv zeta. split; [repeat constructor|]. split; [vm_compute; reflexivity|].
  intros H. apply StrictlyAscending_adjacent with (j := 1%nat) in H.
  - vm_compute in H. discriminate.
  - vm_compute. lia.
Qed.

(** The constructor of a part that starts at the time of a point copies
    that point after the boundary point it has put at the start. *)
Lemma range_constructor_leaves_two_points_at_one_time :
  let e := sample_envelope three_points in
  let c := copy_between (fun x => x) (fun x => x) (sample_envelope []) e 5 10 in
  StrictlyAscending (mEnv e) /\
  mEnv c = [mkEnvPoint 0 (10 # 5); mkEnvPoint 0 2; mkEnvPoint 5 3] /\
  ~ StrictlyAscending (mEnv c).
Proof.
  cbv zeta. split; [repeat constructor|]. split; [vm_compute; reflexivity|].
  intros H. apply StrictlyAscending_adjacent with (j := 0%nat) in H.
  - vm_compute in H. discriminate.
  - vm_compute. lia.
Qed.

(** Rescaling to a span of length [0] puts every point at the time [0],
    also more than two of them. *)
Lemma RescaleTimes_to_nothing_stacks_the_points :
  let e := sample_envelope three_points in
  let e' := RescaleTimes e 0 in
  StrictlyAscending (mEnv e) /\
  (forall p, In p (mEnv e') -> GetT p == 0) /\
  ~ StrictlyAscending (mEnv e') /\ ~ AtMostTwice (mEnv e').
Proof.
  cbv zeta. split; [repeat constructor|]. split.
  { vm_compute. intros p H.
    repeat (destruct H as [<-|H]; [reflexivity|]). contradiction. }
  split.
  - intros H. apply StrictlyAscending_adjacent with (j := 0%nat) in H.
    + vm_compute in H. discriminate.
    + vm_compute. lia.
  - intros H. specialize (H 0%nat ltac:(vm_compute; lia)).
    vm_compute in H. discriminate.
Qed.

(** Pasting at the start of an envelope whose second point is exactly
    [mTrackEpsilon] after the first moves the first point onto the
    second. *)
Lemma Paste_leaves_two_points_at_one_time :
  let l := [mkEnvPoint 0 1; mkEnvPoint (1 # 200000) 2; mkEnvPoint 10 3] in
  let e := sample_envelope l in
  let e' := Paste (fun x => x) (fun x => x) e 0 (sample_envelope three_points) in
  StrictlyAscending (mEnv e) /\ Spaced (mTrackEpsilon e) (mEnv e) /\
  GetT (at_ (mEnv e') 3) = GetT (at_ (mEnv e') 4) /\
  ~ StrictlyAscending (mEnv e').
Proof.
  cbv zeta. split; [repeat constructor|]. split.
  { intros j Hj. simpl in Hj.
    destruct j as [|[|j]]; [| |lia]; split; vm_compute; discriminate. }
  split; [vm_compute; reflexivity|].
  intros H. apply StrictlyAscending_adjacent with (j := 3%nat) in H.
  - vm_compute in H. discriminate.
  - vm_compute. lia.
Qed.

(** A whole drag gesture, engaging the middle one of three points, moving
    it past the last one and releasing it, leaves it at the last one's
    time. *)
Lemma drag_leaves_two_points_at_one_time :
  let e := sample_envelope three_points in
  let e' := ClearDragPoint (MoveDragPoint (SetDragPoint e 1) 12 2) in
  StrictlyAscending (mEnv e) /\
  mEnv e' = [mkEnvPoint 0 1; mkEnvPoint 10 2; mkEnvPoint 10 3] /\
  mDragPoint e' = (-1)%Z /\
  ~ StrictlyAscending (mEnv e').
Proof.
  cbv zeta. split; [repeat constructor|]. split; [vm_compute; reflexivity|].
  split; [reflexivity|].
  intros H. apply StrictlyAscending_adjacent with (j := 1%nat) in H.
  - vm_compute in H. discriminate.
  - vm_compute. lia.
Qed.
